(** * MoarVM spesh statistics and Robin-Hood hash tables: a shallow embedding

    Part I embeds the statistics aggregator ([stats.c]): the statistics tree,
    the simulated call stack, and [MVM_spesh_stats_update] /
    [MVM_spesh_stats_cleanup].  Part II embeds the pointer and "uni" hash
    tables ([ptr_hash_table.c], [uni_hash_table.c]).  Part III defines the
    predicates the theorems are stated with, Part IV the logs and tables
    they are exercised on.  The theorems follow: Part V for the aggregator,
    Part VI for the hash tables.

    Conventions.  Object, type, static-frame and callsite handles are machine
    pointers, modelled as [Z] with [0] for [NULL].  [MVMuint32] counters are
    [Z] with their wrap-around written out.  A C array together with its
    [num_*] / [*_used] counter is a [list]; capacity fields ([limit]) only
    steer [realloc] and are not represented.  Write barriers
    ([MVM_ASSIGN_REF], [MVM_gc_write_barrier]) do not change the statistics
    and are not represented.  The structs of the statistics tree, of the log
    and of the hash tables are declared in headers that are not among the
    sources: their fields are those the code reads and writes, and their
    counters are taken to be [MVMuint32] like the counters that the sources
    declare. *)

From stdpp Require Import gmap list strings.
From Stdlib Require Import ZArith Lia.

Local Open Scope Z_scope.

(** ** Outcomes of the C code *)

(** A call either returns, or the VM aborts ([MVM_panic], [MVM_oops], a failed
    [assert]), or the C program leaves the objects it was given (an index or
    pointer outside its array, a read of memory never written). *)
Inductive outcome (A : Type) : Type :=
| Ok (a : A)
| Abort
| Undef.
Arguments Ok {A} a.
Arguments Abort {A}.
Arguments Undef {A}.

#[global] Instance outcome_ret : MRet outcome := fun A a => Ok a.
#[global] Instance outcome_bind : MBind outcome := fun A B f m =>
  match m with
  | Ok a => f a
  | Abort => Abort
  | Undef => Undef
  end.

(** Dereference of an array slot or pointer that has to be there. *)
Definition deref {A} (o : option A) : outcome A :=
  match o with
  | Some a => Ok a
  | None => Undef
  end.

Definition wrap32 (x : Z) : Z := x mod 2 ^ 32.
Definition wrap64 (x : Z) : Z := x mod 2 ^ 64.
Definition wrap8 (x : Z) : Z := x mod 2 ^ 8.

(** The linear searches [for (found = 0; found < n; found++) if (...) return]. *)
Fixpoint find_index {A} (p : A → bool) (l : list A) : option nat :=
  match l with
  | [] => None
  | x :: l' => if p x then Some 0%nat else S <$> find_index p l'
  end.

Module Spesh.

(** ** The statistics tree *)

Record MVMSpeshStatsType := mkType {
  type : Z;
  type_concrete : Z;
  decont_type : Z;
  decont_type_concrete : Z;
}.

Record MVMSpeshStatsTypeCount := mkTypeCount {
  tc_type : Z;
  tc_type_concrete : Z;
  tc_count : Z;
}.

Record MVMSpeshStatsValueCount := mkValueCount {
  vc_value : Z;
  vc_count : Z;
}.

Record MVMSpeshStatsTypeTupleCount := mkTypeTupleCount {
  ttc_cs : Z;
  ttc_arg_types : list MVMSpeshStatsType;
  ttc_count : Z;
}.

Record MVMSpeshStatsByOffset := mkByOffset {
  oss_bytecode_offset : Z;
  oss_types : list MVMSpeshStatsTypeCount;
  oss_values : list MVMSpeshStatsValueCount;
  oss_type_tuples : list MVMSpeshStatsTypeTupleCount;
}.

Record MVMSpeshStatsByType := mkByType {
  tss_arg_types : list MVMSpeshStatsType;
  tss_hits : Z;
  tss_osr_hits : Z;
  tss_max_depth : Z;
  tss_by_offset : list MVMSpeshStatsByOffset;
}.

Record MVMSpeshStatsByCallsite := mkByCallsite {
  css_cs : Z;
  css_hits : Z;
  css_osr_hits : Z;
  css_max_depth : Z;
  css_by_type : list MVMSpeshStatsByType;
}.

Record MVMSpeshStatsStatic := mkStatic {
  sv_value : Z;
  sv_bytecode_offset : Z;
}.

Record MVMSpeshStats := mkStats {
  ss_by_callsite : list MVMSpeshStatsByCallsite;
  ss_static_values : list MVMSpeshStatsStatic;
  ss_hits : Z;
  ss_osr_hits : Z;
  ss_last_update : Z;
}.

#[global] Instance type_eq_dec : EqDecision MVMSpeshStatsType.
Proof. solve_decision. Defined.

(** ** The log *)

(** [MVMSpeshLogEntry]: a [kind], the correlation [id], and the member of the
    union that the kind uses. *)
Inductive MVMSpeshLogEntry :=
| LOG_ENTRY (id sf cs : Z)
| LOG_PARAMETER (id type flags arg_idx : Z)
| LOG_PARAMETER_DECONT (id type flags arg_idx : Z)
| LOG_TYPE (id type flags bytecode_offset : Z)
| LOG_STATIC (id value bytecode_offset : Z)
| LOG_INVOKE (id value bytecode_offset : Z)
| LOG_OSR (id : Z)
| LOG_RETURN (id type flags bytecode_offset : Z).

Definition log_id (e : MVMSpeshLogEntry) : Z :=
  match e with
  | LOG_ENTRY id _ _ | LOG_PARAMETER id _ _ _ | LOG_PARAMETER_DECONT id _ _ _
  | LOG_TYPE id _ _ _ | LOG_STATIC id _ _ | LOG_INVOKE id _ _ | LOG_OSR id
  | LOG_RETURN id _ _ _ => id
  end.

(** Modelled from the spec: "[flags] (bit 0 = concrete)"; the constant is
    defined in a header that is not among the sources. *)
Definition MVM_SPESH_LOG_TYPE_FLAG_CONCRETE : Z := 1.

(** ** What the aggregator reads from the rest of the VM *)

(** A callsite descriptor; [flag_count] is the length of [arg_flags]. *)
Record MVMCallsite := mkCallsite {
  arg_flags : list Z;
  num_pos : Z;
}.

Definition flag_count (cs : MVMCallsite) : Z := Z.of_nat (length (arg_flags cs)).

Record Env := mkEnv {
  (** the descriptor a non-null [MVMCallsite *] points to *)
  callsite : Z → MVMCallsite;
  MVM_CALLSITE_ARG_OBJ : Z;
  (** [type->st->container_spec] is non-null *)
  container_spec : Z → bool;
  (** [IS_CONCRETE(o) && REPR(o)->ID == MVM_REPR_ID_MVMCode] *)
  concrete_code : Z → bool;
  (** [((MVMCode * )o)->body.sf] *)
  code_sf : Z → Z;
  (** [tc->instance->spesh_stats_version] *)
  spesh_stats_version : Z;
  MVM_SPESH_STATS_MAX_AGE : Z;
}.

(** ** The simulated call stack *)

Record SimCallType := mkSimCallType {
  sct_bytecode_offset : Z;
  sct_cs : Z;
  sct_arg_types : list MVMSpeshStatsType;
}.

(** [ss] always points to the statistics of [sf], so the model reads it from
    the store at [sf].  [offset_logs] holds pointers into the log: positions
    of log entries.  [arg_types] is [None] for the [NULL] buffer. *)
Record SimStackFrame := mkFrame {
  sf : Z;
  cid : Z;
  callsite_idx : nat;
  arg_types : option (list MVMSpeshStatsType);
  offset_logs : list nat;
  call_type_info : list SimCallType;
  osr_hits : Z;
  last_invoke_offset : Z;
  last_invoke_code : Z;
}.

(** The aggregator's world: [spesh_stats] of every static frame, the
    simulated stack (top frame first, i.e. [frames[used - 1]] is the head),
    the log entries (the RETURN case writes to them), and the [sf_updated]
    array. *)
Record State := mkState {
  stats : gmap Z MVMSpeshStats;
  sims_frames : list SimStackFrame;
  sims_depth : Z;
  log : list MVMSpeshLogEntry;
  sf_updated : list Z;
}.

Definition set_stats (st : State) (m : gmap Z MVMSpeshStats) : State :=
  mkState m (sims_frames st) (sims_depth st) (log st) (sf_updated st).
Definition set_frames (st : State) (fs : list SimStackFrame) : State :=
  mkState (stats st) fs (sims_depth st) (log st) (sf_updated st).
Definition set_depth (st : State) (d : Z) : State :=
  mkState (stats st) (sims_frames st) d (log st) (sf_updated st).
Definition set_log (st : State) (l : list MVMSpeshLogEntry) : State :=
  mkState (stats st) (sims_frames st) (sims_depth st) l (sf_updated st).
Definition set_sf_updated (st : State) (l : list Z) : State :=
  mkState (stats st) (sims_frames st) (sims_depth st) (log st) l.

Definition set_by_callsite (ss : MVMSpeshStats) (l : list MVMSpeshStatsByCallsite) :=
  mkStats l (ss_static_values ss) (ss_hits ss) (ss_osr_hits ss) (ss_last_update ss).
Definition set_by_type (css : MVMSpeshStatsByCallsite) (l : list MVMSpeshStatsByType) :=
  mkByCallsite (css_cs css) (css_hits css) (css_osr_hits css) (css_max_depth css) l.
Definition set_by_offset (tss : MVMSpeshStatsByType) (l : list MVMSpeshStatsByOffset) :=
  mkByType (tss_arg_types tss) (tss_hits tss) (tss_osr_hits tss) (tss_max_depth tss) l.

Definition zero_stats : MVMSpeshStats := mkStats [] [] 0 0 0.

Section WithEnv.
Variable env : Env.

Definition is_obj_flag (flag : Z) : bool :=
  negb (Z.land flag (MVM_CALLSITE_ARG_OBJ env) =? 0).

(** Gets the statistics for a static frame, creating them if needed. *)
Definition stats_for (m : gmap Z MVMSpeshStats) (sf : Z) : gmap Z MVMSpeshStats * MVMSpeshStats :=
  match m !! sf with
  | Some ss => (m, ss)
  | None => (<[sf := zero_stats]> m, zero_stats)
  end.

(** Gets the stats by callsite, adding it if it's missing. *)
Definition by_callsite_idx (ss : MVMSpeshStats) (cs : Z) : MVMSpeshStats * nat :=
  match find_index (λ css : MVMSpeshStatsByCallsite, css_cs css =? cs) (ss_by_callsite ss) with
  | Some found => (ss, found)
  | None =>
      (set_by_callsite ss (ss_by_callsite ss ++ [mkByCallsite cs 0 0 0 []]),
       length (ss_by_callsite ss))
  end.

(** Checks if a type tuple is incomplete.  The loop runs over the callsite
    flags and reads [arg_types[i]] for each object flag. *)
Fixpoint incomplete_type_tuple_from (flags : list Z) (arg_types : list MVMSpeshStatsType)
    (i : nat) : outcome bool :=
  match flags with
  | [] => Ok false
  | flag :: flags' =>
      if is_obj_flag flag then
        t ← deref (arg_types !! i);
        if type t =? 0 then Ok true
        else if negb (type_concrete t =? 0) && container_spec env (type t)
                && (decont_type t =? 0) then Ok true
        else incomplete_type_tuple_from flags' arg_types (S i)
      else incomplete_type_tuple_from flags' arg_types (S i)
  end.

Definition incomplete_type_tuple (cs : MVMCallsite) (arg_types : list MVMSpeshStatsType)
    : outcome bool :=
  incomplete_type_tuple_from (arg_flags cs) arg_types 0.

(** Returns true if the callsite has no object arguments. *)
Definition cs_without_object_args (cs : MVMCallsite) : bool :=
  forallb (λ flag, negb (is_obj_flag flag)) (arg_flags cs).

(** [memcmp] of two tuples over [n] elements.  Both buffers come from
    [calloc] and are written field by field, so equal bytes are equal
    fields. *)
Definition memcmp_types (a b : list MVMSpeshStatsType) (n : Z) : bool :=
  bool_decide (take (Z.to_nat n) a = take (Z.to_nat n) b).

(** Gets the stats by type, adding it if it's missing.  The result is the
    position of the record in [by_type] of the callsite, [None] for the
    [NULL] result. *)
Definition by_type (ss : MVMSpeshStats) (callsite_idx : nat)
    (arg_types : option (list MVMSpeshStatsType))
    : outcome (MVMSpeshStats * option nat) :=
  css ← deref (ss_by_callsite ss !! callsite_idx);
  let cs := css_cs css in
  if (cs =? 0) || cs_without_object_args (callsite env cs) then Ok (ss, None)
  else
    arg_types ← deref arg_types;
    incomplete ← incomplete_type_tuple (callsite env cs) arg_types;
    if (incomplete : bool) then Ok (ss, None)
    else
      match find_index
              (λ tss : MVMSpeshStatsByType, memcmp_types (tss_arg_types tss) arg_types
                        (flag_count (callsite env cs)))
              (css_by_type css) with
      | Some found => Ok (ss, Some found)
      | None =>
          let css' := set_by_type css (css_by_type css ++ [mkByType arg_types 0 0 0 []]) in
          Ok (set_by_callsite ss (<[callsite_idx := css']> (ss_by_callsite ss)),
              Some (length (css_by_type css)))
      end.

(** Get the stats by offset entry, adding it if it's missing. *)
Definition by_offset (tss : MVMSpeshStatsByType) (bytecode_offset : Z)
    : MVMSpeshStatsByType * nat :=
  match find_index (λ oss : MVMSpeshStatsByOffset, oss_bytecode_offset oss =? bytecode_offset) (tss_by_offset tss) with
  | Some found => (tss, found)
  | None =>
      (set_by_offset tss (tss_by_offset tss ++ [mkByOffset bytecode_offset [] [] []]),
       length (tss_by_offset tss))
  end.

(** Adds/increments the count of a certain type seen at the given offset. *)
Definition add_type_at_offset (oss : MVMSpeshStatsByOffset) (type concrete : Z)
    : MVMSpeshStatsByOffset :=
  match find_index (λ t : MVMSpeshStatsTypeCount, (tc_type t =? type) && (tc_type_concrete t =? concrete))
                   (oss_types oss) with
  | Some found =>
      mkByOffset (oss_bytecode_offset oss)
        (alter (λ t : MVMSpeshStatsTypeCount, mkTypeCount (tc_type t) (tc_type_concrete t) (wrap32 (tc_count t + 1)))
               found (oss_types oss))
        (oss_values oss) (oss_type_tuples oss)
  | None =>
      mkByOffset (oss_bytecode_offset oss)
        (oss_types oss ++ [mkTypeCount type concrete 1])
        (oss_values oss) (oss_type_tuples oss)
  end.

(** Adds/increments the count of a certain value seen at the given offset. *)
Definition add_value_at_offset (oss : MVMSpeshStatsByOffset) (value : Z)
    : MVMSpeshStatsByOffset :=
  match find_index (λ v : MVMSpeshStatsValueCount, vc_value v =? value) (oss_values oss) with
  | Some found =>
      mkByOffset (oss_bytecode_offset oss) (oss_types oss)
        (alter (λ v : MVMSpeshStatsValueCount, mkValueCount (vc_value v) (wrap32 (vc_count v + 1)))
               found (oss_values oss))
        (oss_type_tuples oss)
  | None =>
      mkByOffset (oss_bytecode_offset oss) (oss_types oss)
        (oss_values oss ++ [mkValueCount value 1]) (oss_type_tuples oss)
  end.

(** Adds/increments the count of a type tuple seen at the given offset. *)
Definition add_type_tuple_at_offset (oss : MVMSpeshStatsByOffset) (info : SimCallType)
    : MVMSpeshStatsByOffset :=
  let n := flag_count (callsite env (sct_cs info)) in
  match find_index
          (λ tt : MVMSpeshStatsTypeTupleCount, (ttc_cs tt =? sct_cs info)
                 && memcmp_types (ttc_arg_types tt) (sct_arg_types info) n)
          (oss_type_tuples oss) with
  | Some found =>
      mkByOffset (oss_bytecode_offset oss) (oss_types oss) (oss_values oss)
        (alter (λ tt : MVMSpeshStatsTypeTupleCount, mkTypeTupleCount (ttc_cs tt) (ttc_arg_types tt)
                        (wrap32 (ttc_count tt + 1)))
               found (oss_type_tuples oss))
  | None =>
      mkByOffset (oss_bytecode_offset oss) (oss_types oss) (oss_values oss)
        (oss_type_tuples oss
           ++ [mkTypeTupleCount (sct_cs info) (take (Z.to_nat n) (sct_arg_types info)) 1])
  end.

(** *** Stack simulation *)

(** Initializes the stack simulation. *)
Definition sim_stack_init (st : State) : State :=
  set_depth (set_frames st []) 0.

(** Pushes an entry onto the stack frame model. *)
Definition sim_stack_push (st : State) (sf : Z) (ss : MVMSpeshStats) (cid : Z)
    (callsite_idx : nat) : outcome State :=
  css ← deref (ss_by_callsite ss !! callsite_idx);
  let cs := css_cs css in
  let arg_types :=
    if cs =? 0 then None
    else Some (replicate (Z.to_nat (flag_count (callsite env cs))) (mkType 0 0 0 0)) in
  let frame := mkFrame sf cid callsite_idx arg_types [] [] 0 0 0 in
  Ok (set_depth (set_frames st (frame :: sims_frames st)) (wrap32 (sims_depth st + 1))).

(** Adds an entry to a sim frame's callsite type info list. *)
Definition add_sim_call_type_info (simf : SimStackFrame) (bytecode_offset cs : Z)
    (types : list MVMSpeshStatsType) : SimStackFrame :=
  mkFrame (sf simf) (cid simf) (callsite_idx simf) (arg_types simf) (offset_logs simf)
    (call_type_info simf ++ [mkSimCallType bytecode_offset cs types])
    (osr_hits simf) (last_invoke_offset simf) (last_invoke_code simf).

Definition alter_by_callsite (f : MVMSpeshStatsByCallsite → MVMSpeshStatsByCallsite)
    (idx : nat) (ss : MVMSpeshStats) : MVMSpeshStats :=
  set_by_callsite ss (alter f idx (ss_by_callsite ss)).

Definition alter_by_offset (f : MVMSpeshStatsByOffset → MVMSpeshStatsByOffset)
    (idx : nat) (tss : MVMSpeshStatsByType) : MVMSpeshStatsByType :=
  set_by_offset tss (alter f idx (tss_by_offset tss)).

(** One round of the loop over [simf->offset_logs]; [i] is the pointer to
    the log entry. *)
Definition incorporate_offset_log (log : list MVMSpeshLogEntry)
    (tss : MVMSpeshStatsByType) (i : nat) : outcome MVMSpeshStatsByType :=
  e ← deref (log !! i);
  match e with
  | LOG_TYPE _ type flags bytecode_offset
  | LOG_RETURN _ type flags bytecode_offset =>
      let '(tss, oss) := by_offset tss bytecode_offset in
      Ok (alter_by_offset
            (λ o, add_type_at_offset o type
                    (Z.land flags MVM_SPESH_LOG_TYPE_FLAG_CONCRETE)) oss tss)
  | LOG_INVOKE _ value bytecode_offset =>
      let '(tss, oss) := by_offset tss bytecode_offset in
      Ok (alter_by_offset (λ o, add_value_at_offset o value) oss tss)
  | _ => Ok tss
  end.

Fixpoint incorporate_offset_logs (log : list MVMSpeshLogEntry)
    (tss : MVMSpeshStatsByType) (offset_logs : list nat) : outcome MVMSpeshStatsByType :=
  match offset_logs with
  | [] => Ok tss
  | i :: rest =>
      tss ← incorporate_offset_log log tss i;
      incorporate_offset_logs log tss rest
  end.

(** One round of the loop over [simf->call_type_info]. *)
Definition incorporate_call_type_info (tss : MVMSpeshStatsByType) (info : SimCallType)
    : MVMSpeshStatsByType :=
  let '(tss, oss) := by_offset tss (sct_bytecode_offset info) in
  alter_by_offset (λ o, add_type_tuple_at_offset o info) oss tss.

(** "Incorporate OSR hits and bump max depth." *)
Definition bump_by_type (tss : MVMSpeshStatsByType) (osr_hits frame_depth : Z)
    : MVMSpeshStatsByType :=
  mkByType (tss_arg_types tss) (wrap32 (tss_hits tss + 1))
    (wrap32 (tss_osr_hits tss + osr_hits))
    (if frame_depth >? tss_max_depth tss then frame_depth else tss_max_depth tss)
    (tss_by_offset tss).

(** "Add OSR hits at callsite level and update depth." *)
Definition add_osr_and_depth (ss : MVMSpeshStats) (simf : SimStackFrame) (frame_depth : Z)
    : MVMSpeshStats :=
  let ss :=
    if osr_hits simf =? 0 then ss
    else
      alter_by_callsite
        (λ css, mkByCallsite (css_cs css) (css_hits css)
                  (wrap32 (css_osr_hits css + osr_hits simf))
                  (css_max_depth css) (css_by_type css))
        (callsite_idx simf)
        (mkStats (ss_by_callsite ss) (ss_static_values ss) (ss_hits ss)
           (wrap32 (ss_osr_hits ss + osr_hits simf)) (ss_last_update ss)) in
  alter_by_callsite
    (λ css, if frame_depth >? css_max_depth css
            then mkByCallsite (css_cs css) (css_hits css) (css_osr_hits css)
                   frame_depth (css_by_type css)
            else css)
    (callsite_idx simf) ss.

(** "If the callee's last invocation matches the frame just invoked, then log
    the type tuple against the callsite." *)
Definition log_call_type (simf : SimStackFrame) (cs : Z)
    (arg_types : list MVMSpeshStatsType) (callers : list SimStackFrame)
    : list SimStackFrame :=
  match callers with
  | [] => []
  | caller :: below =>
      let lic := last_invoke_code caller in
      if negb (lic =? 0) && concrete_code env lic && (code_sf env lic =? sf simf)
      then add_sim_call_type_info caller (last_invoke_offset caller) cs arg_types :: below
      else callers
  end.

(** Pops the top frame from the sim stack. *)
Definition sim_stack_pop (st : State) : outcome State :=
  match sims_frames st with
  | [] => Abort
  | simf :: callers =>
      let frame_depth := sims_depth st in
      let depth := wrap32 (sims_depth st - 1) in
      ss ← deref (stats st !! sf simf);
      _ ← deref (ss_by_callsite ss !! callsite_idx simf);
      let ss := add_osr_and_depth ss simf frame_depth in
      '(ss, tss) ← by_type ss (callsite_idx simf) (arg_types simf);
      match tss with
      | Some found =>
          css ← deref (ss_by_callsite ss !! callsite_idx simf);
          tss ← deref (css_by_type css !! found);
          tss ← incorporate_offset_logs (log st) tss (offset_logs simf);
          let tss := foldl incorporate_call_type_info tss (call_type_info simf) in
          let tss := bump_by_type tss (osr_hits simf) frame_depth in
          let ss :=
            alter_by_callsite
              (λ css, set_by_type css (<[found := tss]> (css_by_type css)))
              (callsite_idx simf) ss in
          let callers := log_call_type simf (css_cs css) (tss_arg_types tss) callers in
          Ok (mkState (<[sf simf := ss]> (stats st)) callers depth (log st) (sf_updated st))
      | None =>
          Ok (mkState (<[sf simf := ss]> (stats st)) callers depth (log st) (sf_updated st))
      end
  end.

(** [for (i = 0; i < pop; i++) sim_stack_pop(tc, sims);] *)
Fixpoint sim_stack_pop_n (pop : nat) (st : State) : outcome State :=
  match pop with
  | O => Ok st
  | S pop' => st ← sim_stack_pop st; sim_stack_pop_n pop' st
  end.

(** Gets the simulation stack frame for the specified correlation ID.  The
    search starts at the top; the position of the hit in the top-first list
    is [(used - found_at) - 1].  The frame returned is then the top of the
    stack; [false] stands for the [NULL] result. *)
Definition sim_stack_find (st : State) (cid' : Z) : outcome (State * bool) :=
  match find_index (λ f : SimStackFrame, cid f =? cid') (sims_frames st) with
  | Some pop => st ← sim_stack_pop_n pop st; Ok (st, true)
  | None => Ok (st, false)
  end.

(** Destroys the stack simulation: [while (sims->used) sim_stack_pop]. *)
Definition sim_stack_destroy (st : State) : outcome State :=
  sim_stack_pop_n (length (sims_frames st)) st.

(** Gets the parameter type slot from a simulation frame: the index of the
    slot in [simf->arg_types], [None] for [NULL]. *)
Definition param_type (st : State) (simf : SimStackFrame) (arg_idx : Z)
    : outcome (option nat) :=
  ss ← deref (stats st !! sf simf);
  css ← deref (ss_by_callsite ss !! callsite_idx simf);
  let cs := css_cs css in
  if cs =? 0 then Ok None
  else
    let c := callsite env cs in
    let flag_idx :=
      if arg_idx <? num_pos c then arg_idx
      else num_pos c + ((arg_idx - 1) - num_pos c) `quot` 2 in
    if flag_idx >=? flag_count c then Abort
    else if flag_idx <? 0 then Undef
    else
      flag ← deref (arg_flags c !! Z.to_nat flag_idx);
      if is_obj_flag flag then Ok (Some (Z.to_nat flag_idx)) else Ok None.

(** Records a static value for a frame, unless it's already in the log. *)
Definition add_static_value (ss : MVMSpeshStats) (bytecode_offset value : Z)
    : MVMSpeshStats :=
  match find_index (λ s : MVMSpeshStatsStatic, sv_bytecode_offset s =? bytecode_offset)
                   (ss_static_values ss) with
  | Some _ => ss
  | None =>
      mkStats (ss_by_callsite ss) (ss_static_values ss ++ [mkStatic value bytecode_offset])
        (ss_hits ss) (ss_osr_hits ss) (ss_last_update ss)
  end.

(** *** The update loop *)

Definition set_arg_types (simf : SimStackFrame) (a : option (list MVMSpeshStatsType)) :=
  mkFrame (sf simf) (cid simf) (callsite_idx simf) a (offset_logs simf)
    (call_type_info simf) (osr_hits simf) (last_invoke_offset simf) (last_invoke_code simf).
Definition push_offset_log (simf : SimStackFrame) (i : nat) :=
  mkFrame (sf simf) (cid simf) (callsite_idx simf) (arg_types simf) (offset_logs simf ++ [i])
    (call_type_info simf) (osr_hits simf) (last_invoke_offset simf) (last_invoke_code simf).
Definition set_last_invoke (simf : SimStackFrame) (offset code : Z) :=
  mkFrame (sf simf) (cid simf) (callsite_idx simf) (arg_types simf) (offset_logs simf)
    (call_type_info simf) (osr_hits simf) offset code.
Definition incr_osr_hits (simf : SimStackFrame) :=
  mkFrame (sf simf) (cid simf) (callsite_idx simf) (arg_types simf) (offset_logs simf)
    (call_type_info simf) (wrap32 (osr_hits simf + 1)) (last_invoke_offset simf)
    (last_invoke_code simf).

(** The frame [sim_stack_find] returned is the top of the stack. *)
Definition top_frame (st : State) : outcome SimStackFrame :=
  deref (head (sims_frames st)).
Definition set_top_frame (st : State) (simf : SimStackFrame) : State :=
  set_frames st (simf :: tail (sims_frames st)).

(** The write through [type_slot] in the PARAMETER / PARAMETER_DECONT cases. *)
Definition write_type_slot (st : State) (arg_idx : Z)
    (write : MVMSpeshStatsType → MVMSpeshStatsType) : outcome State :=
  simf ← top_frame st;
  type_slot ← param_type st simf arg_idx;
  match type_slot with
  | None => Ok st
  | Some flag_idx =>
      a ← deref (arg_types simf);
      _ ← deref (a !! flag_idx);
      Ok (set_top_frame st (set_arg_types simf (Some (alter write flag_idx a))))
  end.

(** The ENTRY case. *)
Definition update_entry_frame (st : State) (id sf cs : Z) : outcome State :=
  let '(m, ss) := stats_for (stats st) sf in
  let pushed := negb (ss_last_update ss =? spesh_stats_version env) in
  let ss :=
    if pushed
    then mkStats (ss_by_callsite ss) (ss_static_values ss) (ss_hits ss)
           (ss_osr_hits ss) (spesh_stats_version env)
    else ss in
  let sf_updated := if pushed then sf_updated st ++ [sf] else sf_updated st in
  let ss := mkStats (ss_by_callsite ss) (ss_static_values ss) (wrap32 (ss_hits ss + 1))
              (ss_osr_hits ss) (ss_last_update ss) in
  let '(ss, callsite_idx) := by_callsite_idx ss cs in
  let ss :=
    alter_by_callsite
      (λ css, mkByCallsite (css_cs css) (wrap32 (css_hits css + 1)) (css_osr_hits css)
                (css_max_depth css) (css_by_type css))
      callsite_idx ss in
  let st := mkState (<[sf := ss]> m) (sims_frames st) (sims_depth st) (log st) sf_updated in
  sim_stack_push st sf ss id callsite_idx.

(** The RETURN case once its frame is found: pop it, then attribute the
    returned type to the caller's last invoke. *)
Definition update_return (st : State) (i : nat) (id type flags : Z) : outcome State :=
  simf ← top_frame st;
  let called_sf := sf simf in
  st ← sim_stack_pop st;
  match sims_frames st with
  | caller :: below =>
      let lic := last_invoke_code caller in
      if negb (type =? 0) && negb (lic =? 0) && concrete_code env lic
         && (called_sf =? code_sf env lic)
      then
        Ok (set_log
              (set_frames st (push_offset_log caller i :: below))
              (<[i := LOG_RETURN id type flags (last_invoke_offset caller)]> (log st)))
      else Ok st
  | [] => Ok st
  end.

(** What each case other than ENTRY does inside [if (simf) { ... }], where
    [simf] is the frame [sim_stack_find] returned. *)
Definition update_found (st : State) (i : nat) (e : MVMSpeshLogEntry) : outcome State :=
  match e with
  | LOG_ENTRY _ _ _ => Ok st
  | LOG_PARAMETER _ type flags arg_idx =>
      write_type_slot st arg_idx
        (λ t, mkType type (Z.land flags MVM_SPESH_LOG_TYPE_FLAG_CONCRETE)
                (decont_type t) (decont_type_concrete t))
  | LOG_PARAMETER_DECONT _ type flags arg_idx =>
      write_type_slot st arg_idx
        (λ t, mkType (Spesh.type t) (type_concrete t) type
                (Z.land flags MVM_SPESH_LOG_TYPE_FLAG_CONCRETE))
  | LOG_TYPE _ _ _ _ =>
      simf ← top_frame st;
      Ok (set_top_frame st (push_offset_log simf i))
  | LOG_INVOKE _ value bytecode_offset =>
      simf ← top_frame st;
      Ok (set_top_frame st (set_last_invoke (push_offset_log simf i) bytecode_offset value))
  | LOG_OSR _ =>
      simf ← top_frame st;
      Ok (set_top_frame st (incr_osr_hits simf))
  | LOG_STATIC _ value bytecode_offset =>
      simf ← top_frame st;
      ss ← deref (stats st !! sf simf);
      Ok (set_stats st (<[sf simf := add_static_value ss bytecode_offset value]> (stats st)))
  | LOG_RETURN id type flags _ => update_return st i id type flags
  end.

(** The body of the loop of [MVM_spesh_stats_update] for [entries[i]]: the
    ENTRY case pushes a frame, every other case looks its frame up first. *)
Definition update_entry (st : State) (i : nat) : outcome State :=
  e ← deref (log st !! i);
  match e with
  | LOG_ENTRY id sf cs => update_entry_frame st id sf cs
  | _ =>
      '(st, found) ← sim_stack_find st (log_id e);
      if (found : bool) then update_found st i e else Ok st
  end.

(** [for (i = 0; i < n; i++) ...] over the positions [idxs]. *)
Fixpoint update_entries (st : State) (idxs : list nat) : outcome State :=
  match idxs with
  | [] => Ok st
  | i :: rest => st ← update_entry st i; update_entries st rest
  end.

(** Receives a spesh log and updates static frame statistics.  [st] carries
    the statistics, the log [sl] and the [sf_updated] array on entry. *)
Definition MVM_spesh_stats_update (st : State) : outcome State :=
  let n := length (log st) in
  st ← update_entries (sim_stack_init st) (seq 0 n);
  sim_stack_destroy st.

(** *** Ageing *)

(** Modelled from the spec: the width of the subtraction
    [spesh_stats_version - last_update], that of the version counter, "a
    monotonic u64"; the counter and [last_update] are declared in headers
    that are not among the sources. *)
Definition stats_age (last_update : Z) : Z :=
  wrap64 (spesh_stats_version env - last_update).

(** One round of the loop of [MVM_spesh_stats_cleanup]: [check_frames] is
    compacted in place, [insert_pos] trails [i]. *)
Definition cleanup_frame (s : list Z * gmap Z MVMSpeshStats * nat) (i : nat)
    : outcome (list Z * gmap Z MVMSpeshStats * nat) :=
  let '(check_frames, m, insert_pos) := s in
  sf ← deref (check_frames !! i);
  match m !! sf with
  | None => Ok s
  | Some ss =>
      if stats_age (ss_last_update ss) >? MVM_SPESH_STATS_MAX_AGE env
      then Ok (check_frames, delete sf m, insert_pos)
      else Ok (<[insert_pos := sf]> check_frames, m, S insert_pos)
  end.

Fixpoint cleanup_frames (s : list Z * gmap Z MVMSpeshStats * nat) (idxs : list nat)
    : outcome (list Z * gmap Z MVMSpeshStats * nat) :=
  match idxs with
  | [] => Ok s
  | i :: rest => s ← cleanup_frame s i; cleanup_frames s rest
  end.

(** Takes an array of frames we recently updated the stats in.  If they
    weren't updated in a while, clears them out.  Returns the array and the
    statistics store afterwards. *)
Definition MVM_spesh_stats_cleanup (check_frames : list Z) (m : gmap Z MVMSpeshStats)
    : outcome (list Z * gmap Z MVMSpeshStats) :=
  let elems := length check_frames in
  '(check_frames, m, insert_pos) ← cleanup_frames (check_frames, m, 0%nat) (seq 0 elems);
  Ok (take insert_pos check_frames, m).

(** *** Marking *)

(** Modelled from the spec: [MVM_gc_worklist_add], "enqueue a reachable
    reference onto a worklist"; the macro is defined in a header that is not
    among the sources.  It is given the address of a slot; the worklist of
    the model holds, in the order of the calls, the references the slots
    hold. *)
Definition MVM_gc_worklist_add (worklist : list Z) (item : Z) : list Z :=
  worklist ++ [item].

(** [for (i = 0; i < num; i++) body(&array[i])] over an array with its
    counter. *)
Fixpoint for_each {A B} (body : B → A → outcome B) (array : list A) (b : B) : outcome B :=
  match array with
  | [] => Ok b
  | x :: array' => b ← body b x; for_each body array' b
  end.

(** [for (k = 0; k < num_types; k++)] over a type tuple; [ks] are the values
    of [k]. *)
Fixpoint mark_types (arg_types : list MVMSpeshStatsType) (ks : list nat)
    (worklist : list Z) : outcome (list Z) :=
  match ks with
  | [] => Ok worklist
  | k :: ks' =>
      t ← deref (arg_types !! k);
      mark_types arg_types ks'
        (MVM_gc_worklist_add (MVM_gc_worklist_add worklist (type t)) (decont_type t))
  end.

(** The body of the loop over [by_offset->type_tuples]. *)
Definition mark_type_tuple (worklist : list Z) (tt : MVMSpeshStatsTypeTupleCount)
    : outcome (list Z) :=
  let off_types := ttc_arg_types tt in
  if ttc_cs tt =? 0 then Undef
  else
    let num_off_types := flag_count (callsite env (ttc_cs tt)) in
    mark_types off_types (seq 0 (Z.to_nat num_off_types)) worklist.

(** The body of the loop over [by_type->by_offset]. *)
Definition mark_by_offset (worklist : list Z) (by_offset : MVMSpeshStatsByOffset)
    : outcome (list Z) :=
  let worklist :=
    foldl (λ w t, MVM_gc_worklist_add w (tc_type t)) worklist (oss_types by_offset) in
  let worklist :=
    foldl (λ w v, MVM_gc_worklist_add w (vc_value v)) worklist (oss_values by_offset) in
  for_each mark_type_tuple (oss_type_tuples by_offset) worklist.

(** The body of the loop over [by_cs->by_type]; [cs] is [by_cs->cs]. *)
Definition mark_by_type (cs : Z) (worklist : list Z) (by_type : MVMSpeshStatsByType)
    : outcome (list Z) :=
  if cs =? 0 then Undef
  else
    let num_types := flag_count (callsite env cs) in
    worklist ← mark_types (tss_arg_types by_type) (seq 0 (Z.to_nat num_types)) worklist;
    for_each mark_by_offset (tss_by_offset by_type) worklist.

(** Marks the statistics of a static frame ([None] for [NULL]): returns the
    worklist afterwards. *)
Definition MVM_spesh_stats_gc_mark (ss : option MVMSpeshStats) (worklist : list Z)
    : outcome (list Z) :=
  match ss with
  | None => Ok worklist
  | Some ss =>
      worklist ←
        for_each (λ w by_cs, for_each (mark_by_type (css_cs by_cs)) (css_by_type by_cs) w)
          (ss_by_callsite ss) worklist;
      Ok (foldl (λ w s, MVM_gc_worklist_add w (sv_value s)) worklist (ss_static_values ss))
  end.

End WithEnv.
End Spesh.

(** * Part II: the Robin-Hood hash tables *)

(** The entries and the metadata bytes of a table are two arrays indexed by
    slot.  In memory the entries sit below the control structure in
    descending order and the metadata above it; [entry_raw -= sizeof] and
    [++metadata] both step to the next slot, so the model indexes both lists
    by slot.  [metadata] starts at slot 0 and ends with the sentinel byte;
    the sentinel in front of slot 0 is written once and never read by the
    functions below and is not represented.  [free] has no counterpart. *)

Module RobinHood.

(** Modelled from the spec: the constant [MVM_HASH_MAX_PROBE_DISTANCE], whose
    definition is in a header that is not among the sources; the list of
    constants gives 255. *)
Definition MVM_HASH_MAX_PROBE_DISTANCE : Z := 255.

Inductive placement :=
| Reserve (slot : nat) (probe_distance : Z)
| Existing (slot : nat).

Section Probe.
Context {E : Type}.
(** [assert] is compiled in ([NDEBUG] is not defined). *)
Variable asserts : bool.
Variables official_size max_items : Z.
(** The key comparison of the variant, on the entry of the current slot. *)
Variable hit : E → outcome bool.

(** The three [assert]s at the end of a round of the probe loops, after
    [++probe_distance] and [++metadata]. *)
Definition probe_asserts (slot : nat) (probe_distance : Z) : bool :=
  (probe_distance <=? MVM_HASH_MAX_PROBE_DISTANCE)
  && (Z.of_nat slot <? official_size + max_items)
  && (Z.of_nat slot <? official_size + 256).

(** The loop of the [fetch] functions; [metadata] is the array from the
    current slot on.  [None] is the [NULL] result. *)
Fixpoint fetch_probe (entries : list E) (metadata : list Z) (slot : nat)
    (probe_distance : Z) : outcome (option nat) :=
  match metadata with
  | [] => Undef
  | m :: metadata' =>
      found ← (if m =? probe_distance
               then entry ← deref (entries !! slot); hit entry
               else Ok false);
      if (found : bool) then Ok (Some slot)
      else if m <? probe_distance then Ok None
      else if asserts && negb (probe_asserts (S slot) (probe_distance + 1)) then Abort
      else fetch_probe entries metadata' (S slot) (probe_distance + 1)
  end.

(** The loop of [hash_insert_internal] up to the decision: the slot is ours
    ([Reserve]) or holds the key already ([Existing]). *)
Fixpoint insert_probe (entries : list E) (metadata : list Z) (slot : nat)
    (probe_distance : Z) : outcome placement :=
  match metadata with
  | [] => Undef
  | m :: metadata' =>
      if m <? probe_distance then Ok (Reserve slot probe_distance)
      else
        found ← (if m =? probe_distance
                 then entry ← deref (entries !! slot); hit entry
                 else Ok false);
        if (found : bool) then Ok (Existing slot)
        else if asserts && negb (probe_asserts (S slot) (probe_distance + 1)) then Abort
        else insert_probe entries metadata' (S slot) (probe_distance + 1)
  end.

End Probe.

(** The [do ... while (old_probe_distance)] loop of "make room".  [rest] is
    the metadata after [find_me_a_gap]; the result is [rest] rewritten, the
    number of slots advanced ([entries_to_move]), and whether [max_items]
    was set to zero. *)
Fixpoint find_me_a_gap (rest : list Z) (old_probe_distance : Z)
    : outcome (list Z * nat * bool) :=
  let new_probe_distance := wrap8 (1 + old_probe_distance) in
  let zeroed := new_probe_distance =? MVM_HASH_MAX_PROBE_DISTANCE in
  match rest with
  | [] => Undef
  | next :: rest' =>
      if next =? 0 then Ok (new_probe_distance :: rest', 1%nat, zeroed)
      else
        '(rest'', n, zeroed') ← find_me_a_gap rest' next;
        Ok (new_probe_distance :: rest'', S n, zeroed || zeroed')
  end.

(** The branch "this is our slot" up to [*metadata = probe_distance]: makes
    room if the slot is occupied ([memmove] of the entries of slots
    [slot .. slot + n - 1] to [slot + 1 .. slot + n]).  Returns the
    metadata, the entries, and whether [max_items] was set to zero. *)
Definition reserve_slot {E} (metadata : list Z) (entries : list E) (slot : nat)
    (probe_distance : Z) : outcome (list Z * list E * bool) :=
  m ← deref (metadata !! slot);
  '(metadata, entries, zeroed) ←
    (if m =? 0 then Ok (metadata, entries, false)
     else
       '(rest, n, zeroed) ← find_me_a_gap (drop (S slot) metadata) m;
       if (slot + n <? length entries)%nat
       then Ok (take (S slot) metadata ++ rest,
                take (S slot) entries ++ take n (drop slot entries)
                  ++ drop (S (slot + n)) entries,
                zeroed)
       else Undef);
  Ok (<[slot := wrap8 probe_distance]> metadata, entries,
      zeroed || (probe_distance =? MVM_HASH_MAX_PROBE_DISTANCE)).

(** The table invariants of the probe-distance field and of the Robin-Hood
    ordering, as a check that walks the slots like the self-check tool does:
    an occupied slot holds [1 + slot - ideal], at least 1 and at most one
    more than the slot before; the array ends with the sentinel. *)
Fixpoint probe_distances_ok {E} (ideal : E → option nat) (metadata : list Z)
    (entries : list E) (slot : nat) (prev : Z) : bool :=
  match entries with
  | e :: entries' =>
      match metadata with
      | m :: metadata' =>
          (if m =? 0 then true
           else match ideal e with
                | Some b =>
                    (m =? 1 + Z.of_nat slot - Z.of_nat b) && (1 <=? m) && (m <=? prev + 1)
                | None => false
                end)
          && probe_distances_ok ideal metadata' entries' (S slot) m
      | [] => false
      end
  | [] =>
      match metadata with
      | [sentinel] => sentinel =? 1
      | _ => false
      end
  end.

(** The entries of the occupied slots. *)
Fixpoint occupied {E} (metadata : list Z) (entries : list E) : list E :=
  match entries with
  | e :: entries' =>
      match metadata with
      | m :: metadata' =>
          if m =? 0 then occupied metadata' entries' else e :: occupied metadata' entries'
      | [] => []
      end
  | [] => []
  end.

End RobinHood.

(** ** The pointer hash table ([ptr_hash_table.c], 64-bit pointers) *)

Module PtrHash.
Import RobinHood.

Definition PTR_INITIAL_SIZE : Z := 8.
Definition PTR_INITIAL_KEY_RIGHT_SHIFT : Z := 8 * 8 - 3.

(** A field is [None] until the program writes it. *)
Record MVMPtrHashEntry := mkEntry {
  key : option Z;
  value : option Z;
}.

Record MVMPtrHashTableControl := mkControl {
  cur_items : Z;
  max_items : Z;
  official_size : Z;
  key_right_shift : Z;
  metadata : list Z;
  entries : list MVMPtrHashEntry;
}.

(** [hashtable->table], [None] for [NULL]. *)
Definition MVMPtrHashTable := option MVMPtrHashTableControl.

Definition hash_true_size (control : MVMPtrHashTableControl) : Z :=
  let true_size := wrap32 (official_size control + max_items control - 1) in
  if wrap32 (official_size control + MVM_HASH_MAX_PROBE_DISTANCE) <? true_size
  then wrap32 (official_size control + MVM_HASH_MAX_PROBE_DISTANCE)
  else true_size.

(** [max_items = official_size * PTR_LOAD_FACTOR]: the product with 0.75 is
    exact in a double and the conversion truncates. *)
Definition hash_allocate_common (control : MVMPtrHashTableControl)
    : MVMPtrHashTableControl :=
  let max_items := (official_size control * 3) `div` 4 in
  let control := mkControl (cur_items control) max_items (official_size control)
                   (key_right_shift control) (metadata control) (entries control) in
  let actual_items := Z.to_nat (hash_true_size control) in
  mkControl (cur_items control) max_items (official_size control)
    (key_right_shift control)
    (replicate actual_items 0 ++ [1])
    (replicate actual_items (mkEntry None None)).

Definition hash_initial_allocate (control : MVMPtrHashTableControl)
    : MVMPtrHashTableControl :=
  hash_allocate_common
    (mkControl (cur_items control) (max_items control) PTR_INITIAL_SIZE
       PTR_INITIAL_KEY_RIGHT_SHIFT (metadata control) (entries control)).

Definition hash_grow (control : MVMPtrHashTableControl) : MVMPtrHashTableControl :=
  hash_allocate_common
    (mkControl (cur_items control) (max_items control)
       (wrap32 (official_size control * 2)) (wrap8 (key_right_shift control - 1))
       (metadata control) (entries control)).

(** Fibonacci bucket determination. *)
Definition MVM_ptr_hash_code (ptr : Z) : Z := wrap64 (ptr * 11400714819323198485).

Definition bucket_of (key_right_shift ptr : Z) : nat :=
  Z.to_nat (wrap32 (Z.shiftr (MVM_ptr_hash_code ptr) key_right_shift)).

(** [entry->key == key] *)
Definition key_hit (key' : Z) (entry : MVMPtrHashEntry) : outcome bool :=
  k ← deref (key entry); Ok (k =? key').

Section WithAsserts.
Variable asserts : bool.

(** Returns the control structure and the slot of the entry. *)
Definition hash_insert_internal (control : MVMPtrHashTableControl) (key' : Z)
    : outcome (MVMPtrHashTableControl * nat) :=
  if cur_items control >=? max_items control then Abort
  else
    let bucket := bucket_of (key_right_shift control) key' in
    p ← insert_probe asserts (official_size control) (max_items control) (key_hit key')
          (entries control) (drop bucket (metadata control)) bucket 1;
    match p with
    | Existing slot => Ok (control, slot)
    | Reserve slot probe_distance =>
        '(metadata, entries, zeroed) ←
          reserve_slot (metadata control) (entries control) slot probe_distance;
        entry ← deref (entries !! slot);
        Ok (mkControl (cur_items control)
              (if (zeroed : bool) then 0 else max_items control)
              (official_size control) (key_right_shift control) metadata
              (<[slot := mkEntry (Some 0) (value entry)]> entries),
            slot)
    end.

(** Returns the slot of the entry, [None] for [NULL]. *)
Definition MVM_ptr_hash_fetch (hashtable : MVMPtrHashTable) (key' : Z)
    : outcome (option nat) :=
  match hashtable with
  | None => Ok None
  | Some control =>
      let bucket := bucket_of (key_right_shift control) key' in
      fetch_probe asserts (official_size control) (max_items control) (key_hit key')
        (entries control) (drop bucket (metadata control)) bucket 1
  end.

(** The loop of the grow branch over the buckets of the old arrays. *)
Fixpoint reinsert (metadata_orig : list Z) (entries_orig : list MVMPtrHashEntry)
    (buckets : list nat) (control : MVMPtrHashTableControl)
    : outcome MVMPtrHashTableControl :=
  match buckets with
  | [] => Ok control
  | bucket :: buckets' =>
      m ← deref (metadata_orig !! bucket);
      control ←
        (if m =? 0 then Ok control
         else
           old_entry ← deref (entries_orig !! bucket);
           old_key ← deref (key old_entry);
           '(control, slot) ← hash_insert_internal control old_key;
           new_entry ← deref (entries control !! slot);
           new_key ← deref (key new_entry);
           if asserts && negb (new_key =? 0) then Abort
           else
             Ok (mkControl (cur_items control) (max_items control)
                   (official_size control) (key_right_shift control)
                   (metadata control) (<[slot := old_entry]> (entries control))));
      reinsert metadata_orig entries_orig buckets' control
  end.

(** Returns the control structure ([hashtable->table] afterwards) and the
    slot of the entry. *)
Definition MVM_ptr_hash_lvalue_fetch (hashtable : MVMPtrHashTable) (key' : Z)
    : outcome (MVMPtrHashTableControl * nat) :=
  let insert control :=
    '(control, slot) ← hash_insert_internal control key';
    new_entry ← deref (entries control !! slot);
    new_key ← deref (key new_entry);
    if new_key =? 0
    then Ok (mkControl (wrap32 (cur_items control + 1)) (max_items control)
               (official_size control) (key_right_shift control)
               (metadata control) (entries control), slot)
    else Ok (control, slot) in
  match hashtable with
  | None => insert (hash_initial_allocate (mkControl 0 0 0 0 [] []))
  | Some control =>
      if cur_items control >=? max_items control then
        entry ← MVM_ptr_hash_fetch hashtable key';
        match entry with
        | Some slot => Ok (control, slot)
        | None =>
            let true_size := hash_true_size control in
            let entries_orig := entries control in
            let metadata_orig := metadata control in
            let control := hash_grow control in
            control ← reinsert metadata_orig entries_orig
                        (seq 0 (Z.to_nat true_size)) control;
            insert control
        end
      else insert control
  end.

(** "UNCONDITIONALLY creates a new hash entry with the given key and value." *)
Definition MVM_ptr_hash_insert (hashtable : MVMPtrHashTable) (key' value' : Z)
    : outcome MVMPtrHashTableControl :=
  '(control, slot) ← MVM_ptr_hash_lvalue_fetch hashtable key';
  new_entry ← deref (entries control !! slot);
  new_key ← deref (key new_entry);
  if negb (new_key =? 0) then
    stored ← deref (value new_entry);
    if negb (value' =? stored) then Abort else Ok control
  else
    Ok (mkControl (cur_items control) (max_items control) (official_size control)
          (key_right_shift control) (metadata control)
          (<[slot := mkEntry (Some key') (Some value')]> (entries control))).

(** A sequence of inserts into a table. *)
Fixpoint insert_all (hashtable : MVMPtrHashTable) (kvs : list (Z * Z))
    : outcome MVMPtrHashTable :=
  match kvs with
  | [] => Ok hashtable
  | (k, v) :: kvs' =>
      control ← MVM_ptr_hash_insert hashtable k v;
      insert_all (Some control) kvs'
  end.

End WithAsserts.

(** The slots an allocation has beyond [official_size]. *)
Definition overflow_slots (control : MVMPtrHashTableControl) : Z :=
  hash_true_size control - official_size control.

(** The invariants of a table: probe distances and ordering, [cur_items]
    counts the occupied slots, and no key is stored twice. *)
Definition ideal (key_right_shift : Z) (entry : MVMPtrHashEntry) : option nat :=
  bucket_of key_right_shift <$> key entry.

Definition wf (control : MVMPtrHashTableControl) : Prop :=
  probe_distances_ok (ideal (key_right_shift control)) (metadata control)
    (entries control) 0 0 = true
  ∧ NoDup (key <$> occupied (metadata control) (entries control)).

(** *** Deletion *)

(** The loop [while (old_probe_distance > 1)] of the delete; [rest] is the
    metadata after [metadata_target].  Returns the bytes written from the
    target slot on and their number ([entries_to_move]). *)
Fixpoint shift_back (rest : list Z) : outcome (list Z * nat) :=
  match rest with
  | [] => Undef
  | old_probe_distance :: rest' =>
      if old_probe_distance >? 1 then
        '(moved, n) ← shift_back rest';
        Ok (wrap8 (old_probe_distance - 1) :: moved, S n)
      else Ok ([], 0%nat)
  end.

Section Delete.
Variable asserts : bool.

(** The probe loop is that of [MVM_ptr_hash_fetch]; on "target acquired"
    the entries of slots [slot + 1 .. slot + n] move to
    [slot .. slot + n - 1] ([memmove]) and the last slot moved from is
    marked empty.  Returns [hashtable->table] afterwards and the value, 0
    for a table without control structure and for a miss. *)
Definition MVM_ptr_hash_fetch_and_delete (hashtable : MVMPtrHashTable) (key' : Z)
    : outcome (MVMPtrHashTable * Z) :=
  match hashtable with
  | None => Ok (None, 0)
  | Some control =>
      let bucket := bucket_of (key_right_shift control) key' in
      found ← fetch_probe asserts (official_size control) (max_items control)
                (key_hit key') (entries control) (drop bucket (metadata control)) bucket 1;
      match found with
      | None => Ok (hashtable, 0)
      | Some slot =>
          entry ← deref (entries control !! slot);
          retval ← deref (value entry);
          '(moved, n) ← shift_back (drop (S slot) (metadata control));
          entries ←
            (if (n =? 0)%nat then Ok (entries control)
             else if (slot + n <? length (entries control))%nat
             then Ok (take slot (entries control)
                        ++ take n (drop (S slot) (entries control))
                        ++ drop (slot + n) (entries control))
             else Undef);
          Ok (Some (mkControl (wrap32 (cur_items control - 1)) (max_items control)
                      (official_size control) (key_right_shift control)
                      (take slot (metadata control) ++ moved
                         ++ 0 :: drop (S (slot + n)) (metadata control))
                      entries),
              retval)
      end
  end.

End Delete.

End PtrHash.

(** ** The hash table of C strings ([uni_hash_table.c]) *)

Module UniHash.
Import RobinHood.

Definition UNI_MIN_SIZE_BASE_2 : Z := 3.

(** A [const char *]: [NULL] or a string. *)
Inductive cstring :=
| NULL
| Str (s : string).

#[global] Instance cstring_eq_dec : EqDecision cstring.
Proof. solve_decision. Defined.

(** [!key] *)
Definition is_null (k : cstring) : bool :=
  match k with
  | NULL => true
  | Str _ => false
  end.

(** A field is [None] until the program writes it. *)
Record MVMUniHashEntry := mkEntry {
  key : option cstring;
  hash_val : option Z;
  value : option Z;
}.

Record MVMUniHashTableControl := mkControl {
  cur_items : Z;
  max_items : Z;
  official_size : Z;
  key_right_shift : Z;
  probe_overflow_size : Z;
  metadata : list Z;
  entries : list MVMUniHashEntry;
}.

Definition MVMUniHashTable := option MVMUniHashTableControl.

Definition set_cur_items (control : MVMUniHashTableControl) (n : Z) :=
  mkControl n (max_items control) (official_size control) (key_right_shift control)
    (probe_overflow_size control) (metadata control) (entries control).

Definition hash_true_size (control : MVMUniHashTableControl) : Z :=
  wrap32 (official_size control + probe_overflow_size control).

(** [malloc] leaves [cur_items] unwritten; both callers store it right
    after the call, the model starts it at 0. *)
Definition hash_allocate_common (key_right_shift official_size : Z)
    : MVMUniHashTableControl :=
  let max_items := (official_size * 3) `div` 4 in
  let overflow_size := wrap32 (max_items - 1) in
  let probe_overflow_size :=
    if MVM_HASH_MAX_PROBE_DISTANCE <? overflow_size
    then MVM_HASH_MAX_PROBE_DISTANCE - 1
    else wrap8 overflow_size in
  let actual_items := Z.to_nat (official_size + probe_overflow_size) in
  mkControl 0 max_items official_size key_right_shift probe_overflow_size
    (replicate actual_items 0 ++ [1])
    (replicate actual_items (mkEntry None None None)).

(** *** The double arithmetic of [MVM_uni_hash_build] *)

(** [1.0 / UNI_LOAD_FACTOR]: 0.75 is a double, and the double nearest to
    4/3 is [6004799503160661 * 2^-52]. *)
Definition inv_load_factor_mantissa : Z := 6004799503160661.

(** Rounding of a positive integer to the 53 significant bits of a double,
    to nearest, ties to even. *)
Definition round_to_double (x : Z) : Z :=
  let s := Z.log2 x + 1 - 53 in
  if s <=? 0 then x
  else
    let q := x `div` 2 ^ s in
    let r := x `mod` 2 ^ s in
    let half := 2 ^ (s - 1) in
    if (half <? r) || ((r =? half) && Z.odd q) then (q + 1) * 2 ^ s else q * 2 ^ s.

(** [MVMuint32 min_needed = entries * (1.0 / UNI_LOAD_FACTOR)]: [entries] is
    exact as a double, the product is rounded once, the conversion
    truncates and is undefined from [2^32] on. *)
Definition min_needed (entries : Z) : outcome Z :=
  let product := round_to_double (entries * inv_load_factor_mantissa) in
  let truncated := product `div` 2 ^ 52 in
  if truncated <? 2 ^ 32 then Ok truncated else Undef.

Section WithEnv.
(** [assert] is compiled in. *)
Variable asserts : bool.
(** [MVM_uni_hash_code(key, strlen(key))], from a header that is not among
    the sources. *)
Variable MVM_uni_hash_code : string → Z.
(** [MVM_round_up_log_base2], declared in [str_hash_table.h]. *)
Variable MVM_round_up_log_base2 : Z → Z.

(** [1 << initial_size_base2] is an [int] shift: defined up to [2^30]. *)
Definition MVM_uni_hash_build (entries : Z) : outcome MVMUniHashTableControl :=
  initial_size_base2 ←
    (if entries =? 0 then Ok UNI_MIN_SIZE_BASE_2
     else
       min_needed ← min_needed entries;
       let initial_size_base2 := MVM_round_up_log_base2 min_needed in
       if initial_size_base2 <? UNI_MIN_SIZE_BASE_2 then Ok UNI_MIN_SIZE_BASE_2
       else Ok initial_size_base2);
  if (0 <=? initial_size_base2) && (initial_size_base2 <=? 30)
  then
    Ok (set_cur_items
          (hash_allocate_common (wrap8 (8 * 4 - initial_size_base2))
             (2 ^ initial_size_base2)) 0)
  else Undef.

Definition bucket_of (key_right_shift hash_val' : Z) : nat :=
  Z.to_nat (wrap32 (Z.shiftr hash_val' key_right_shift)).

(** [entry->hash_val == hash_val && 0 == strcmp(entry->key, key)] *)
Definition key_hit (key' : string) (hash_val' : Z) (entry : MVMUniHashEntry)
    : outcome bool :=
  h ← deref (hash_val entry);
  if h =? hash_val' then
    k ← deref (key entry);
    match k with
    | NULL => Undef
    | Str s => Ok (bool_decide (s = key'))
    end
  else Ok false.

Definition hash_insert_internal (control : MVMUniHashTableControl) (key' : string)
    (hash_val' : Z) : outcome (MVMUniHashTableControl * nat) :=
  if cur_items control >=? max_items control then Abort
  else
    let bucket := bucket_of (key_right_shift control) hash_val' in
    p ← insert_probe asserts (official_size control) (max_items control)
          (key_hit key' hash_val') (entries control)
          (drop bucket (metadata control)) bucket 1;
    match p with
    | Existing slot => Ok (control, slot)
    | Reserve slot probe_distance =>
        '(metadata, entries, zeroed) ←
          reserve_slot (metadata control) (entries control) slot probe_distance;
        entry ← deref (entries !! slot);
        Ok (mkControl (cur_items control)
              (if (zeroed : bool) then 0 else max_items control)
              (official_size control) (key_right_shift control)
              (probe_overflow_size control) metadata
              (<[slot := mkEntry (Some NULL) (hash_val entry) (value entry)]> entries),
            slot)
    end.

(** Modelled from the spec: [MVM_uni_hash_fetch], an inline function of a
    header that is not among the sources.  "Lookup.  Identical probe.  Miss
    when [metadata[slot] < probe_distance]"; the key comparison is that of
    [hash_insert_internal]. *)
Definition MVM_uni_hash_fetch (hashtable : MVMUniHashTable) (key' : string)
    : outcome (option nat) :=
  match hashtable with
  | None => Ok None
  | Some control =>
      let hash_val' := wrap32 (MVM_uni_hash_code key') in
      let bucket := bucket_of (key_right_shift control) hash_val' in
      fetch_probe asserts (official_size control) (max_items control)
        (key_hit key' hash_val') (entries control)
        (drop bucket (metadata control)) bucket 1
  end.

(** The loop of the grow branch over the buckets of the old arrays.  An
    occupied slot holds a string. *)
Fixpoint reinsert (metadata_orig : list Z) (entries_orig : list MVMUniHashEntry)
    (buckets : list nat) (control : MVMUniHashTableControl)
    : outcome MVMUniHashTableControl :=
  match buckets with
  | [] => Ok control
  | bucket :: buckets' =>
      m ← deref (metadata_orig !! bucket);
      control ←
        (if m =? 0 then Ok control
         else
           old_entry ← deref (entries_orig !! bucket);
           old_key ← deref (key old_entry);
           old_hash_val ← deref (hash_val old_entry);
           match old_key with
           | NULL => Undef
           | Str s =>
               '(control, slot) ← hash_insert_internal control s old_hash_val;
               new_entry ← deref (entries control !! slot);
               new_key ← deref (key new_entry);
               if asserts && negb (is_null new_key) then Abort
               else
                 Ok (mkControl (cur_items control) (max_items control)
                       (official_size control) (key_right_shift control)
                       (probe_overflow_size control) (metadata control)
                       (<[slot := old_entry]> (entries control)))
           end);
      reinsert metadata_orig entries_orig buckets' control
  end.

Definition MVM_uni_hash_lvalue_fetch (hashtable : MVMUniHashTable) (key' : string)
    : outcome (MVMUniHashTableControl * nat) :=
  let insert control :=
    let hash_val' := wrap32 (MVM_uni_hash_code key') in
    '(control, slot) ← hash_insert_internal control key' hash_val';
    new_entry ← deref (entries control !! slot);
    new_key ← deref (key new_entry);
    if is_null new_key
    then Ok (mkControl (wrap32 (cur_items control + 1)) (max_items control)
               (official_size control) (key_right_shift control)
               (probe_overflow_size control) (metadata control)
               (<[slot := mkEntry (key new_entry) (Some hash_val') (value new_entry)]>
                  (entries control)), slot)
    else Ok (control, slot) in
  match hashtable with
  | None => control ← MVM_uni_hash_build 0; insert control
  | Some control =>
      if cur_items control >=? max_items control then
        entry ← MVM_uni_hash_fetch hashtable key';
        match entry with
        | Some slot => Ok (control, slot)
        | None =>
            let true_size := hash_true_size control in
            let control_orig := control in
            let control :=
              set_cur_items
                (hash_allocate_common (wrap8 (key_right_shift control_orig - 1))
                   (wrap32 (official_size control_orig * 2)))
                (cur_items control_orig) in
            control ← reinsert (metadata control_orig) (entries control_orig)
                        (seq 0 (Z.to_nat true_size)) control;
            insert control
        end
      else insert control
  end.

(** "UNCONDITIONALLY creates a new hash entry with the given key and value." *)
Definition MVM_uni_hash_insert (hashtable : MVMUniHashTable) (key' : string) (value' : Z)
    : outcome MVMUniHashTableControl :=
  '(control, slot) ← MVM_uni_hash_lvalue_fetch hashtable key';
  new_entry ← deref (entries control !! slot);
  new_key ← deref (key new_entry);
  if negb (is_null new_key) then
    stored ← deref (value new_entry);
    if negb (value' =? stored) then Abort else Ok control
  else
    Ok (mkControl (cur_items control) (max_items control) (official_size control)
          (key_right_shift control) (probe_overflow_size control) (metadata control)
          (<[slot := mkEntry (Some (Str key')) (hash_val new_entry) (Some value')]>
             (entries control))).

(** A sequence of inserts into a table. *)
Fixpoint insert_all (control : MVMUniHashTableControl) (kvs : list (string * Z))
    : outcome MVMUniHashTableControl :=
  match kvs with
  | [] => Ok control
  | (k, v) :: kvs' =>
      control ← MVM_uni_hash_insert (Some control) k v;
      insert_all control kvs'
  end.

(** The invariants of a table: every occupied slot holds a string with its
    hash code, at its probe distance and in Robin-Hood order; no string is
    stored twice. *)
Definition ideal (key_right_shift : Z) (entry : MVMUniHashEntry) : option nat :=
  match key entry, hash_val entry with
  | Some (Str s), Some h =>
      if h =? wrap32 (MVM_uni_hash_code s) then Some (bucket_of key_right_shift h) else None
  | _, _ => None
  end.

Definition wf (control : MVMUniHashTableControl) : Prop :=
  probe_distances_ok (ideal (key_right_shift control)) (metadata control)
    (entries control) 0 0 = true
  ∧ NoDup (key <$> occupied (metadata control) (entries control)).

End WithEnv.

(** *** The self-check *)

(** The loop of [uni_hash_fsck_internal] with [n] slots to go; the lines
    the function prints to [stderr] are not modelled.  Returns [errors] and
    [seen]. *)
Fixpoint fsck_slots (control : MVMUniHashTableControl) (display : Z) (n bucket : nat)
    (prev_offset errors seen : Z) : outcome (Z * Z) :=
  match n with
  | O => Ok (errors, seen)
  | S n' =>
      m ← deref (metadata control !! bucket);
      if m =? 0 then fsck_slots control display n' (S bucket) 0 errors seen
      else
        let seen := wrap64 (seen + 1) in
        entry ← deref (entries control !! bucket);
        h ← deref (hash_val entry);
        let ideal_bucket := Z.of_nat (bucket_of (key_right_shift control) h) in
        let offset := wrap32 (1 + Z.of_nat bucket - ideal_bucket) in
        let wrong_bucket := negb (offset =? m) in
        let wrong_order := (offset <? 1) || (offset >? prev_offset + 1) in
        let errors :=
          if (display =? 2) || wrong_bucket || wrong_order
          then wrap64 (errors + (Z.b2z wrong_bucket + Z.b2z wrong_order))
          else errors in
        fsck_slots control display n' (S bucket) offset errors seen
  end.

Definition uni_hash_fsck_internal (control : MVMUniHashTable) (mode : Z) : outcome Z :=
  match control with
  | None => Ok 0
  | Some control =>
      let display := Z.land (Z.shiftr mode 1) 3 in
      let true_size := Z.to_nat (hash_true_size control) in
      '(errors, seen) ← fsck_slots control display true_size 0 0 0 0;
      sentinel ← deref (metadata control !! true_size);
      let errors := if sentinel =? 1 then errors else wrap64 (errors + 1) in
      let errors := if seen =? cur_items control then errors else wrap64 (errors + 1) in
      Ok errors
  end.

Definition MVM_uni_hash_fsck (hashtable : MVMUniHashTable) (mode : Z) : outcome Z :=
  uni_hash_fsck_internal hashtable mode.

End UniHash.

(** * Part III: the vocabulary of the statements *)

(** ** The aggregator *)

Module SpeshSpec.
Import Spesh.

Section WithEnv.
Variable env : Env.

(** [tss] records type [ty] with concreteness [c] at [off]. *)
Definition has_type (tss : MVMSpeshStatsByType) (off ty c : Z) : Prop :=
  ∃ k o n t,
    tss_by_offset tss !! k = Some o ∧ oss_bytecode_offset o = off
    ∧ oss_types o !! n = Some t ∧ tc_type t = ty ∧ tc_type_concrete t = c.

(** The frame's tuple can be keyed on: the callsite is there, takes an
    object argument, and every slot that needs a type has one. *)
Definition tuple_usable (css : MVMSpeshStatsByCallsite) (simf : SimStackFrame) : Prop :=
  css_cs css ≠ 0
  ∧ cs_without_object_args env (callsite env (css_cs css)) = false
  ∧ ∃ a, arg_types simf = Some a
         ∧ incomplete_type_tuple env (callsite env (css_cs css)) a = Ok false.

(** The three reasons for which [by_type] gives up. *)
Definition tuple_unusable (css : MVMSpeshStatsByCallsite) (simf : SimStackFrame) : Prop :=
  css_cs css = 0
  ∨ cs_without_object_args env (callsite env (css_cs css)) = true
  ∨ ∃ a, arg_types simf = Some a
         ∧ incomplete_type_tuple env (callsite env (css_cs css)) a = Ok true.

(** [f'] is [f] with more call type infos. *)
Definition frame_sim (f f' : SimStackFrame) : Prop :=
  sf f' = sf f ∧ cid f' = cid f ∧ callsite_idx f' = callsite_idx f
  ∧ arg_types f' = arg_types f ∧ offset_logs f' = offset_logs f
  ∧ osr_hits f' = osr_hits f ∧ last_invoke_offset f' = last_invoke_offset f
  ∧ last_invoke_code f' = last_invoke_code f
  ∧ ∃ extra, call_type_info f' = call_type_info f ++ extra.

(** The frame can be popped without leaving the objects of the VM: its
    statistics and callsite record exist, its tuple buffer has one slot per
    flag, and its buffered events point into the log. *)
Definition frame_ok (m : gmap Z MVMSpeshStats) (n : nat) (f : SimStackFrame) : Prop :=
  ∃ ss css,
    m !! sf f = Some ss ∧ ss_by_callsite ss !! callsite_idx f = Some css
    ∧ (css_cs css ≠ 0 →
       ∃ a, arg_types f = Some a
            ∧ length a = length (arg_flags (callsite env (css_cs css))))
    ∧ Forall (λ i, i < n)%nat (offset_logs f).

(** Every frame of the simulated stack can be popped. *)
Definition state_ok (st : State) : Prop :=
  Forall (frame_ok (stats st) (length (log st))) (sims_frames st).

(** The stamp the ENTRY case finds: that of the frame's statistics, or the
    zero of freshly allocated ones. *)
Definition last_update_of (m : gmap Z MVMSpeshStats) (sf : Z) : Z :=
  match m !! sf with
  | Some ss => ss_last_update ss
  | None => 0
  end.

(** The log has an ENTRY for static frame [sf0]. *)
Definition has_entry (l : list MVMSpeshLogEntry) (sf0 : Z) : Prop :=
  ∃ i id cs, l !! i = Some (LOG_ENTRY id sf0 cs).

(** No statistics are ahead of the version counter: [last_update] is only
    ever advanced to the counter, and the counter does not go back. *)
Definition not_ahead (m : gmap Z MVMSpeshStats) : Prop :=
  ∀ sf0, last_update_of m sf0 <= spesh_stats_version env.

(** The statistics [m] record, for static frame [sf0] and its callsite
    record [idx], under the ByType whose tuple equals [a], the type [ty]
    with concreteness [c] at bytecode offset [off]. *)
Definition attributed (m : gmap Z MVMSpeshStats) (sf0 : Z) (idx : nat)
    (a : list MVMSpeshStatsType) (off ty c : Z) : Prop :=
  ∃ ss css k tss,
    m !! sf0 = Some ss ∧ ss_by_callsite ss !! idx = Some css
    ∧ css_by_type css !! k = Some tss
    ∧ memcmp_types (tss_arg_types tss) a (flag_count (callsite env (css_cs css))) = true
    ∧ has_type tss off ty c.

(** What the aggregator still does after the entry at [i]: rounds of the
    update loop for other entries, and pops (those of [sim_stack_find], of
    the RETURN case, of [sim_stack_destroy]). *)
Inductive later (i : nat) : State → State → Prop :=
| later_entry (st st' : State) (j : nat) :
    j ≠ i → update_entry env st j = Ok st' → later i st st'
| later_pop (st st' : State) :
    sim_stack_pop env st = Ok st' → later i st st'.

(** A frame stays in the sink when its statistics exist and are young. *)
Definition retained (m : gmap Z MVMSpeshStats) (sf : Z) : bool :=
  match m !! sf with
  | Some ss => negb (stats_age env (ss_last_update ss) >? MVM_SPESH_STATS_MAX_AGE env)
  | None => false
  end.

(** Its statistics are destroyed when they exist and are old. *)
Definition aged (m : gmap Z MVMSpeshStats) (sf : Z) : bool :=
  match m !! sf with
  | Some ss => stats_age env (ss_last_update ss) >? MVM_SPESH_STATS_MAX_AGE env
  | None => false
  end.

End WithEnv.
End SpeshSpec.

(** ** The hash tables *)

Module RobinHoodSpec.
Import RobinHood.

(** The [assert]s of the probe loops hold for every step of a probe that
    ends at slot [s] with probe distance [d]: they bound the probe distance
    and the slot, and both grow along the probe. *)
Definition probe_within (official_size max_items : Z) (s : nat) (d : Z) : Prop :=
  d <= MVM_HASH_MAX_PROBE_DISTANCE
  ∧ Z.of_nat s < official_size + max_items
  ∧ Z.of_nat s < official_size + 256.

End RobinHoodSpec.

Module PtrHashSpec.
Import RobinHood RobinHoodSpec PtrHash.

(** Slot [s] is occupied and holds [k] with the value field [v]. *)
Definition stored (control : MVMPtrHashTableControl) (s : nat) (k : Z) (v : option Z)
    : Prop :=
  ∃ d e, metadata control !! s = Some d ∧ d ≠ 0 ∧ entries control !! s = Some e
         ∧ key e = Some k ∧ value e = v.

(** The [assert]s of the probe loops hold on the way to the occupied slot
    [s]. *)
Definition asserts_hold (control : MVMPtrHashTableControl) (s : nat) : Prop :=
  ∃ d, metadata control !! s = Some d
       ∧ probe_within (official_size control) (max_items control) s d.

End PtrHashSpec.

Module UniHashSpec.
Import RobinHood RobinHoodSpec UniHash.

(** Slot [s] is occupied and holds the string [k] with the value field [v]. *)
Definition stored (control : MVMUniHashTableControl) (s : nat) (k : string) (v : option Z)
    : Prop :=
  ∃ d e, metadata control !! s = Some d ∧ d ≠ 0 ∧ entries control !! s = Some e
         ∧ key e = Some (Str k) ∧ value e = v.

(** The [assert]s of the probe loops hold on the way to the occupied slot
    [s]. *)
Definition asserts_hold (control : MVMUniHashTableControl) (s : nat) : Prop :=
  ∃ d, metadata control !! s = Some d
       ∧ probe_within (official_size control) (max_items control) s d.

Section WithEnv.
Variable asserts : bool.
Variable MVM_uni_hash_code : string → Z.
Variable MVM_round_up_log_base2 : Z → Z.



End WithEnv.
End UniHashSpec.

(** ** Readings of the statistics and of the tables *)

Module SpeshReadings.
Import Spesh.

(** The static value on record for a bytecode offset: the first record with
    the offset, as the loop of [add_static_value] finds it. *)
Definition static_value_at (ss : MVMSpeshStats) (bytecode_offset : Z) : option Z :=
  i ← find_index (λ s : MVMSpeshStatsStatic, sv_bytecode_offset s =? bytecode_offset)
        (ss_static_values ss);
  sv_value <$> ss_static_values ss !! i.

(** The flag that [param_type] maps an argument index to. *)
Definition flag_index (cs : MVMCallsite) (arg_idx : Z) : Z :=
  if arg_idx <? num_pos cs then arg_idx
  else num_pos cs + ((arg_idx - 1) - num_pos cs) `quot` 2.

(** The argument index a PARAMETER or PARAMETER_DECONT event carries. *)
Definition param_index (e : MVMSpeshLogEntry) : Z :=
  match e with
  | LOG_PARAMETER _ _ _ arg_idx | LOG_PARAMETER_DECONT _ _ _ arg_idx => arg_idx
  | _ => 0
  end.

(** The run stayed within the objects of the VM: it returned or it
    panicked. *)
Definition returns_or_panics {A} (o : outcome A) : Prop :=
  (∃ a, o = Ok a) ∨ o = Abort.

(** The number of ENTRY events of a log for a static frame. *)
Definition is_entry_for (sf0 : Z) (e : MVMSpeshLogEntry) : bool :=
  match e with
  | LOG_ENTRY _ sf _ => sf =? sf0
  | _ => false
  end.

Definition entries_for (l : list MVMSpeshLogEntry) (sf0 : Z) : Z :=
  Z.of_nat (length (filter (λ e, is_entry_for sf0 e = true) l)).

(** The hits on record for a static frame, zero without statistics. *)
Definition hits_of (m : gmap Z MVMSpeshStats) (sf0 : Z) : Z :=
  match m !! sf0 with
  | Some ss => ss_hits ss
  | None => 0
  end.

(** Every callsite has at most one record in the statistics of a static
    frame, and every bytecode offset at most one static value. *)
Definition one_record_per_key (m : gmap Z MVMSpeshStats) : Prop :=
  ∀ sf0 ss, m !! sf0 = Some ss →
    NoDup (css_cs <$> ss_by_callsite ss)
    ∧ NoDup (sv_bytecode_offset <$> ss_static_values ss).

(** The references a type tuple holds: the type and the decontainerized
    type of its slots. *)
Definition tuple_refs (a : list MVMSpeshStatsType) (x : Z) : Prop :=
  ∃ t, t ∈ a ∧ (x = type t ∨ x = decont_type t).

(** The references the statistics of a static frame hold: the static
    values, the type tuples of the records by type, and the types, values
    and type tuples counted at the bytecode offsets. *)
Definition references (ss : MVMSpeshStats) (x : Z) : Prop :=
  (∃ s, s ∈ ss_static_values ss ∧ x = sv_value s)
  ∨ ∃ css tss,
      css ∈ ss_by_callsite ss ∧ tss ∈ css_by_type css
      ∧ (tuple_refs (tss_arg_types tss) x
         ∨ ∃ oss, oss ∈ tss_by_offset tss
                  ∧ ((∃ t, t ∈ oss_types oss ∧ x = tc_type t)
                     ∨ (∃ v, v ∈ oss_values oss ∧ x = vc_value v)
                     ∨ ∃ tt, tt ∈ oss_type_tuples oss ∧ tuple_refs (ttc_arg_types tt) x)).

(** The count of the first record of an array that matches, as the loops
    of the [add_*_at_offset] functions find it; zero without one. *)
Definition first_count {A} (p : A → bool) (count : A → Z) (l : list A) : Z :=
  match find_index p l with
  | Some found => default 0 (count <$> l !! found)
  | None => 0
  end.

(** The counts on record at a bytecode offset for a type with its
    concreteness, and for a value. *)
Definition type_count (oss : MVMSpeshStatsByOffset) (type concrete : Z) : Z :=
  first_count (λ t : MVMSpeshStatsTypeCount,
                 (tc_type t =? type) && (tc_type_concrete t =? concrete))
    tc_count (oss_types oss).
Definition value_count (oss : MVMSpeshStatsByOffset) (value : Z) : Z :=
  first_count (λ v : MVMSpeshStatsValueCount, vc_value v =? value) vc_count (oss_values oss).

(** What an update may leave of a log entry: the entry itself, or for a
    RETURN the entry with another bytecode offset. *)
Definition entry_kept (e e' : MVMSpeshLogEntry) : Prop :=
  e' = e
  ∨ ∃ id ty flags off off',
      e = LOG_RETURN id ty flags off ∧ e' = LOG_RETURN id ty flags off'.

Section WithEnv.
Variable env : Env.

(** A type tuple is sized: it belongs to a callsite, and has one slot for
    each of its flags. *)
Definition tuple_sized (cs : Z) (a : list MVMSpeshStatsType) : Prop :=
  cs ≠ 0 ∧ length a = length (arg_flags (callsite env cs)).

(** The type tuples of statistics are sized: that of each record by type for
    the callsite of the record it is under, and each of those counted at a
    bytecode offset for its own callsite. *)
Definition oss_sized (oss : MVMSpeshStatsByOffset) : Prop :=
  Forall (λ tt, tuple_sized (ttc_cs tt) (ttc_arg_types tt)) (oss_type_tuples oss).
Definition tss_sized (cs : Z) (tss : MVMSpeshStatsByType) : Prop :=
  tuple_sized cs (tss_arg_types tss) ∧ Forall oss_sized (tss_by_offset tss).
Definition css_sized (css : MVMSpeshStatsByCallsite) : Prop :=
  Forall (tss_sized (css_cs css)) (css_by_type css).
Definition ss_sized (ss : MVMSpeshStats) : Prop :=
  Forall css_sized (ss_by_callsite ss).
Definition stats_sized (m : gmap Z MVMSpeshStats) : Prop :=
  map_Forall (λ _ ss, ss_sized ss) m.

(** The count on record at a bytecode offset for a callsite with a type
    tuple, compared over the flags of the callsite. *)
Definition type_tuple_count (oss : MVMSpeshStatsByOffset) (cs : Z)
    (arg_types : list MVMSpeshStatsType) : Z :=
  first_count (λ tt : MVMSpeshStatsTypeTupleCount,
                 (ttc_cs tt =? cs)
                 && memcmp_types (ttc_arg_types tt) arg_types (flag_count (callsite env cs)))
    ttc_count (oss_type_tuples oss).

(** A slot of a type tuple lacks what a specialization needs: it has no
    type, or the type of a concrete container without the type of its
    content. *)
Definition slot_incomplete (t : MVMSpeshStatsType) : Prop :=
  type t = 0
  ∨ (type_concrete t ≠ 0 ∧ container_spec env (type t) = true ∧ decont_type t = 0).

End WithEnv.

End SpeshReadings.

Module UniHashReadings.
Import RobinHood UniHash.

(** The bucket the self-check derives from the hash value of an entry. *)
Definition hashed_bucket (key_right_shift : Z) (entry : MVMUniHashEntry) : option nat :=
  bucket_of key_right_shift <$> hash_val entry.

(** The arrays have the lengths of the allocation: one entry per slot and
    one metadata byte more, for the sentinel. *)
Definition allocated (control : MVMUniHashTableControl) : Prop :=
  length (entries control) = Z.to_nat (hash_true_size control)
  ∧ length (metadata control) = S (length (entries control)).

(** [cur_items] is the number of occupied slots. *)
Definition counted (control : MVMUniHashTableControl) : Prop :=
  cur_items control = Z.of_nat (length (occupied (metadata control) (entries control))).

End UniHashReadings.

(** * Part IV: concrete runs *)

(** The logs and tables on which the theorems are exercised. *)

Module SpeshExamples.
Import Spesh.

(** A VM with one callsite (100, a single object argument) besides the
    null callsite, one code object (500, of static frame 20), version 7. *)
Definition env0 : Env :=
  mkEnv (λ cs, if cs =? 100 then mkCallsite [1] 1 else mkCallsite [] 0) 1
        (λ _, false) (λ o, o =? 500) (λ _, 20) 7 10.

Definition st0 (l : list MVMSpeshLogEntry) : State := mkState ∅ [] 0 l [].

(** The state after the rounds of the update loop for the entries [idxs]
    of the log [l]. *)
Definition after (l : list MVMSpeshLogEntry) (idxs : list nat) : State :=
  match update_entries env0 (st0 l) idxs with
  | Ok st => st
  | _ => st0 l
  end.

(** Frame 1 (static frame 10) is entered with an object argument of type 77
    and invokes code object 500 at offset 42; frame 2 (static frame 20)
    returns a value of type 88. *)
Definition log_typed : list MVMSpeshLogEntry :=
  [LOG_ENTRY 1 10 100; LOG_PARAMETER 1 77 1 0; LOG_INVOKE 1 500 42;
   LOG_ENTRY 2 20 0; LOG_RETURN 2 88 1 5].

(** The same call and return, the caller entered without a callsite. *)
Definition log_untyped : list MVMSpeshLogEntry :=
  [LOG_ENTRY 1 10 0; LOG_INVOKE 1 500 42; LOG_ENTRY 2 20 0; LOG_RETURN 2 88 1 5].

Definition before_return : State := after log_typed [0; 1; 2; 3]%nat.

Definition callee_frame : SimStackFrame := mkFrame 20 2 0 None [] [] 0 0 0.
Definition caller_frame : SimStackFrame :=
  mkFrame 10 1 0 (Some [mkType 77 1 0 0]) [2%nat] [] 0 42 500.

Definition caller_callsite : MVMSpeshStatsByCallsite := mkByCallsite 100 1 0 0 [].
Definition caller_stats : MVMSpeshStats := mkStats [caller_callsite] [] 1 0 7.

Definition after_callee_pop : State :=
  match sim_stack_pop env0 before_return with
  | Ok st => st
  | _ => before_return
  end.

(** The caller of [log_untyped], and the state in which it is the only
    frame, with the INVOKE buffered. *)
Definition untyped_caller : SimStackFrame := mkFrame 10 1 0 None [1%nat] [] 0 42 500.
Definition untyped_callsite : MVMSpeshStatsByCallsite := mkByCallsite 0 1 0 0 [].
Definition untyped_stats : MVMSpeshStats := mkStats [untyped_callsite] [] 1 0 7.
Definition before_untyped_pop : State := after log_untyped [0; 1]%nat.
Definition before_untyped_return : State := after log_untyped [0; 1; 2]%nat.

Definition updated (st : State) : State :=
  match MVM_spesh_stats_update env0 st with
  | Ok st' => st'
  | _ => st
  end.

End SpeshExamples.

Module HashExamples.
Import RobinHood.

(** *** Pointer keys *)

(** The inverse of the Fibonacci multiplier modulo [2^64]: [key_for h] is
    the pointer whose hash code is [h]. *)
Definition inv_phi : Z := 17428512612931826493.
Definition key_for (h : Z) : Z := (h * inv_phi) mod 2 ^ 64.

(** One key of the last bucket of a table of 512 slots, 255 keys of its
    first bucket (which a table of 1024 slots spreads over two), and one
    more key. *)
Definition K0 : Z := key_for (511 * 2 ^ 55).
Definition cluster_key (j : Z) : Z := key_for ((j mod 2) * 2 ^ 54 + j).
Definition KX : Z := key_for (256 * 2 ^ 55).
Definition cluster : list (Z * Z) :=
  (λ j : nat, (cluster_key (Z.of_nat j), Z.of_nat j)) <$> seq 1 255.
Definition crowded : list (Z * Z) := (K0, 1000) :: cluster.
Definition scenario : list (Z * Z) := crowded ++ [(KX, 2000)].

(** The value [fetch] finds for [k] after the inserts [kvs] into an
    unallocated table. *)
Definition lookup_after (asserts : bool) (kvs : list (Z * Z)) (k : Z)
    : outcome (option Z) :=
  hashtable ← PtrHash.insert_all asserts None kvs;
  slot ← PtrHash.MVM_ptr_hash_fetch asserts hashtable k;
  match hashtable, slot with
  | Some control, Some s =>
      entry ← deref (PtrHash.entries control !! s);
      v ← deref (PtrHash.value entry);
      Ok (Some v)
  | _, _ => Ok None
  end.

Definition size_after (asserts : bool) (kvs : list (Z * Z)) : outcome (Z * Z * Z) :=
  hashtable ← PtrHash.insert_all asserts None kvs;
  match hashtable with
  | Some control =>
      Ok (PtrHash.official_size control, PtrHash.max_items control,
          PtrHash.cur_items control)
  | None => Ok (0, 0, 0)
  end.

Definition ptr_table (kvs : list (Z * Z)) : PtrHash.MVMPtrHashTableControl :=
  match PtrHash.insert_all false None kvs with
  | Ok (Some control) => control
  | _ => PtrHash.mkControl 0 0 0 0 [] []
  end.

(** A table of 8 slots at its capacity of 6. *)
Definition small_ptr : PtrHash.MVMPtrHashTableControl :=
  ptr_table [(8, 1); (16, 2); (24, 3); (32, 4); (40, 5); (48, 6)].

(** A second key of the last bucket of a table of 512 slots, and the table
    that a build with assertions has after the inserts of [K0], of this key
    and of the 255 keys of the first bucket: 512 slots, [max_items] set to
    zero, and the second key in the first slot beyond [official_size]. *)
Definition K0b : Z := key_for (511 * 2 ^ 55 + 1).
Definition overflowing : list (Z * Z) := (K0, 1000) :: (K0b, 1001) :: cluster.
Definition overflowed : PtrHash.MVMPtrHashTableControl :=
  match PtrHash.insert_all true None overflowing with
  | Ok (Some control) => control
  | _ => PtrHash.mkControl 0 0 0 0 [] []
  end.

(** *** String keys *)

(** The two-letter strings AA .. PP, numbered 0 .. 255. *)
Definition letter (j : nat) : Ascii.ascii := Ascii.ascii_of_nat (65 + j).
Definition name (j : nat) : string :=
  String (letter (j / 16)) (String (letter (j mod 16)) EmptyString).
Definition names (n : nat) : list (string * Z) := (λ j, (name j, Z.of_nat j)) <$> seq 0 n.

(** A hash function that sends the strings 0 .. 254 to the first bucket of
    a table of 512 slots and the string 255 to its sixth. *)
Definition number (s : string) : Z :=
  match s with
  | String a (String b _) =>
      16 * (Z.of_N (Ascii.N_of_ascii a) - 65) + (Z.of_N (Ascii.N_of_ascii b) - 65)
  | _ => 0
  end.
Definition cluster_code (s : string) : Z :=
  let j := number s in
  if j =? 255 then 5 * 2 ^ 23 else (j mod 2) * 2 ^ 22 + j.

Definition built (n : Z) : UniHash.MVMUniHashTableControl :=
  match UniHash.MVM_uni_hash_build Z.log2_up n with
  | Ok control => control
  | _ => UniHash.mkControl 0 0 0 0 0 [] []
  end.

Definition uni_table (n : Z) (kvs : list (string * Z)) : UniHash.MVMUniHashTableControl :=
  match UniHash.insert_all false cluster_code Z.log2_up (built n) kvs with
  | Ok control => control
  | _ => UniHash.mkControl 0 0 0 0 0 [] []
  end.

(** A table of 8 slots at its capacity of 6. *)
Definition small_uni : UniHash.MVMUniHashTableControl := uni_table 0 (names 6).

End HashExamples.

Module SpeshMoreExamples.
Import Spesh SpeshExamples.

(** The state a first update of [log_typed] leaves, on which a second
    update runs; the statistics it holds for static frame 10 and their
    record for callsite 100. *)
Definition seen : State := updated (st0 log_typed).
Definition seen_stats : MVMSpeshStats := default zero_stats (stats seen !! 10).
Definition seen_callsite : MVMSpeshStatsByCallsite :=
  default (mkByCallsite 0 0 0 0 []) (ss_by_callsite seen_stats !! 0%nat).

(** Frame 1 (static frame 10) is entered with an object argument of type 77
    and invokes code object 500 at offset 42; frame 2 (static frame 20) is
    entered with an object argument of type 78 and returns a value of type
    88.  The state a first update of this log leaves holds a type tuple at
    the offset of the call; [called_stats] are its statistics for static
    frame 10. *)
Definition log_call : list MVMSpeshLogEntry :=
  [LOG_ENTRY 1 10 100; LOG_PARAMETER 1 77 1 0; LOG_INVOKE 1 500 42;
   LOG_ENTRY 2 20 100; LOG_PARAMETER 2 78 1 0; LOG_RETURN 2 88 1 5].
Definition called : State := updated (st0 log_call).
Definition called_stats : MVMSpeshStats := default zero_stats (stats called !! 10).

(** What [by_type] leaves of [caller_stats] for the type tuple of
    [caller_frame]. *)
Definition caller_stats_typed : MVMSpeshStats :=
  mkStats [mkByCallsite 100 1 0 0 [mkByType [mkType 77 1 0 0] 0 0 0 []]] [] 1 0 7.

End SpeshMoreExamples.

Module HashMoreExamples.
Import RobinHood HashExamples.

(** Tables of 8 slots with 3 of the 6 items they can hold, and what an
    insert of one more key and a delete leave of them. *)
Definition half_ptr : PtrHash.MVMPtrHashTableControl :=
  ptr_table [(8, 1); (16, 2); (24, 3)].
Definition half_uni : UniHash.MVMUniHashTableControl := uni_table 0 (names 3).
Definition half_uni_more : UniHash.MVMUniHashTableControl :=
  match UniHash.MVM_uni_hash_insert true cluster_code Z.log2_up (Some half_uni) (name 3) 3 with
  | Ok control => control
  | _ => half_uni
  end.

End HashMoreExamples.

(** * Part V: the statistics aggregator *)

(** ** Outcomes *)

Lemma bind_Ok {A B} (m : outcome A) (f : A → outcome B) (b : B) :
  m ≫= f = Ok b ↔ ∃ a, m = Ok a ∧ f a = Ok b.
Proof.
  destruct m; simpl; split; try done; try (by intros (? & ? & ?)); eauto.
  by intros (? & [= ->] & ?).
Qed.

Lemma deref_Ok {A} (o : option A) (a : A) : deref o = Ok a ↔ o = Some a.
Proof. destruct o; simpl; split; congruence. Qed.

Module SpeshFacts.
Import Spesh SpeshSpec.

(** ** Generic list facts *)

Lemma fmap_alter_same {A B} (f : A → B) (g : A → A) (i : nat) (l : list A) :
  (∀ x, f (g x) = f x) → f <$> alter g i l = f <$> l.
Proof.
  intros Hfg. revert i. induction l as [|x l IH]; intros [|i]; csimpl; f_equal; auto.
Qed.

Lemma find_index_Some {A} (p : A → bool) (l : list A) (i : nat) :
  find_index p l = Some i →
  ∃ x, l !! i = Some x ∧ p x = true ∧ ∀ j y, (j < i)%nat → l !! j = Some y → p y = false.
Proof.
  revert i. induction l as [|x l IH]; intros i; simpl; [done|].
  destruct (p x) eqn:Hp.
  - intros [= <-]. exists x. split_and!; [done..|]. intros; lia.
  - destruct (find_index p l) as [k|] eqn:Hf; simpl; [|done].
    intros [= <-]. destruct (IH k eq_refl) as (y & Hy & Hpy & Hlt).
    exists y. split_and!; [done..|].
    intros [|j] z Hj; simpl; [by intros [= <-]|]. apply Hlt. lia.
Qed.

Lemma find_index_None {A} (p : A → bool) (l : list A) :
  find_index p l = None → ∀ x, x ∈ l → p x = false.
Proof.
  induction l as [|x l IH]; simpl.
  - intros _ y Hy. by apply elem_of_nil in Hy.
  - destruct (p x) eqn:Hp; [done|].
    destruct (find_index p l) as [k|]; simpl; [done|].
    intros _ y [->|Hy]%elem_of_cons; auto.
Qed.

Lemma find_index_lt {A} (p : A → bool) (l : list A) (i : nat) :
  find_index p l = Some i → (i < length l)%nat.
Proof.
  intros (x & Hx & _)%find_index_Some. by eapply lookup_lt_Some.
Qed.

(** [l'] keeps every element of [l] in place, up to [R]. *)
Definition list_ext {A} (R : A → A → Prop) (l l' : list A) : Prop :=
  ∀ i x, l !! i = Some x → ∃ x', l' !! i = Some x' ∧ R x x'.

Lemma list_ext_refl {A} (R : A → A → Prop) `{!Reflexive R} (l : list A) :
  list_ext R l l.
Proof. intros i x Hx. eauto. Qed.

Lemma list_ext_trans {A} (R : A → A → Prop) (l1 l2 l3 : list A) :
  (∀ x y z, R x y → R y z → R x z) →
  list_ext R l1 l2 → list_ext R l2 l3 → list_ext R l1 l3.
Proof.
  intros HR H12 H23 i x Hx.
  destruct (H12 i x Hx) as (y & Hy & Hxy).
  destruct (H23 i y Hy) as (z & Hz & Hyz). eauto.
Qed.

Lemma list_ext_app {A} (R : A → A → Prop) `{!Reflexive R} (l k : list A) :
  list_ext R l (l ++ k).
Proof.
  intros i x Hx. exists x. split; [|done]. by apply lookup_app_l_Some.
Qed.

Lemma list_ext_alter {A} (R : A → A → Prop) `{!Reflexive R} (f : A → A) (i : nat)
    (l : list A) :
  (∀ x, l !! i = Some x → R x (f x)) → list_ext R l (alter f i l).
Proof.
  intros Hf j x Hx. destruct (decide (i = j)) as [->|Hne].
  - exists (f x). rewrite list_lookup_alter_eq, Hx. split; [done|]. by apply Hf.
  - exists x. rewrite list_lookup_alter_ne by done. auto.
Qed.

Lemma list_ext_insert {A} (R : A → A → Prop) `{!Reflexive R} (y : A) (i : nat)
    (l : list A) :
  (∀ x, l !! i = Some x → R x y) → list_ext R l (<[i := y]> l).
Proof.
  intros Hf j x Hx. destruct (decide (i = j)) as [->|Hne].
  - exists y. rewrite list_lookup_insert_eq by (by eapply lookup_lt_Some). auto.
  - exists x. rewrite list_lookup_insert_ne by done. auto.
Qed.

Lemma list_ext_length {A} (R : A → A → Prop) (l l' : list A) :
  list_ext R l l' → (length l ≤ length l')%nat.
Proof.
  intros H. destruct l as [|x l] using rev_ind; [simpl; lia|].
  destruct (H (length l) x) as (y & Hy & _).
  { rewrite lookup_app_r by lia. by rewrite Nat.sub_diag. }
  apply lookup_lt_Some in Hy. rewrite length_app. simpl. lia.
Qed.

(** ** The statistics only grow *)

Definition tc_R (a b : MVMSpeshStatsTypeCount) : Prop :=
  tc_type b = tc_type a ∧ tc_type_concrete b = tc_type_concrete a.
Definition oss_R (a b : MVMSpeshStatsByOffset) : Prop :=
  oss_bytecode_offset b = oss_bytecode_offset a ∧ list_ext tc_R (oss_types a) (oss_types b).
Definition tss_R (a b : MVMSpeshStatsByType) : Prop :=
  tss_arg_types b = tss_arg_types a ∧ list_ext oss_R (tss_by_offset a) (tss_by_offset b).
Definition css_R (a b : MVMSpeshStatsByCallsite) : Prop :=
  css_cs b = css_cs a ∧ list_ext tss_R (css_by_type a) (css_by_type b).
Definition ss_R (a b : MVMSpeshStats) : Prop :=
  list_ext css_R (ss_by_callsite a) (ss_by_callsite b).
Definition stats_R (m m' : gmap Z MVMSpeshStats) : Prop :=
  ∀ sf s, m !! sf = Some s → ∃ s', m' !! sf = Some s' ∧ ss_R s s'.

#[global] Instance list_ext_preorder {A} (R : A → A → Prop) :
  PreOrder R → PreOrder (list_ext R).
Proof.
  intros [Hr Ht]. split.
  - intros l. by apply list_ext_refl.
  - intros l1 l2 l3. apply list_ext_trans. intros x y z. apply Ht.
Qed.

#[global] Instance tc_R_preorder : PreOrder tc_R.
Proof. split; [by intros ?|]. intros a b c [? ?] [? ?]. split; congruence. Qed.
#[global] Instance oss_R_preorder : PreOrder oss_R.
Proof.
  split; [by intros ?|]. intros a b c [? ?] [? ?]. split; [congruence | by etrans].
Qed.
#[global] Instance tss_R_preorder : PreOrder tss_R.
Proof.
  split; [by intros ?|]. intros a b c [? ?] [? ?]. split; [congruence | by etrans].
Qed.
#[global] Instance css_R_preorder : PreOrder css_R.
Proof.
  split; [by intros ?|]. intros a b c [? ?] [? ?]. split; [congruence | by etrans].
Qed.
#[global] Instance ss_R_preorder : PreOrder ss_R.
Proof. unfold ss_R. split; [by intros ?|]. intros a b c ? ?. by etrans. Qed.
#[global] Instance stats_R_preorder : PreOrder stats_R.
Proof.
  split; [intros m sf s ?; by exists s|].
  intros m1 m2 m3 H12 H23 sf s Hs.
  destruct (H12 _ _ Hs) as (s2 & Hs2 & ?). destruct (H23 _ _ Hs2) as (s3 & Hs3 & ?).
  exists s3. split; [done | by etrans].
Qed.

Lemma stats_R_insert (m : gmap Z MVMSpeshStats) (sf : Z) (s s' : MVMSpeshStats) :
  m !! sf = Some s → ss_R s s' → stats_R m (<[sf := s']> m).
Proof.
  intros Hs HR x t Ht. destruct (decide (x = sf)) as [->|Hne].
  - rewrite lookup_insert_eq. exists s'. split; [done|]. by simplify_eq.
  - rewrite lookup_insert_ne by done. by exists t.
Qed.

Lemma stats_R_insert_fresh (m : gmap Z MVMSpeshStats) (sf : Z) (s' : MVMSpeshStats) :
  m !! sf = None → stats_R m (<[sf := s']> m).
Proof.
  intros Hs x t Ht. destruct (decide (x = sf)) as [->|Hne]; [congruence|].
  rewrite lookup_insert_ne by done. by exists t.
Qed.

Section WithEnv.
Variable env : Env.

Lemma has_type_mono (a b : MVMSpeshStatsByType) (off ty c : Z) :
  tss_R a b → has_type a off ty c → has_type b off ty c.
Proof.
  intros [_ Hab] (k & o & n & t & Ho & Hoff & Ht & Hty & Hc).
  destruct (Hab _ _ Ho) as (o' & Ho' & Hoff' & Htypes).
  destruct (Htypes _ _ Ht) as (t' & Ht' & Hty' & Hc').
  exists k, o', n, t'. split_and!; congruence.
Qed.

Lemma by_offset_spec (tss tss' : MVMSpeshStatsByType) (off : Z) (oi : nat) :
  by_offset tss off = (tss', oi) →
  tss_R tss tss' ∧ tss_hits tss' = tss_hits tss ∧ tss_osr_hits tss' = tss_osr_hits tss
  ∧ tss_max_depth tss' = tss_max_depth tss
  ∧ ∃ o, tss_by_offset tss' !! oi = Some o ∧ oss_bytecode_offset o = off.
Proof.
  unfold by_offset.
  destruct (find_index _ _) as [found|] eqn:Hf; intros [= <- <-].
  - split_and!; [done..|].
    apply find_index_Some in Hf as (o & Ho & Hp & _). exists o. split; [done|].
    by apply Z.eqb_eq in Hp.
  - split_and!; [|done..|].
    + split; [done|]. simpl. apply list_ext_app, _.
    + simpl. exists (mkByOffset off [] [] []). split; [|done].
      rewrite lookup_app_r by lia. by rewrite Nat.sub_diag.
Qed.

Lemma add_type_at_offset_spec (o : MVMSpeshStatsByOffset) (ty c : Z) :
  oss_R o (add_type_at_offset o ty c)
  ∧ ∃ n t, oss_types (add_type_at_offset o ty c) !! n = Some t
           ∧ tc_type t = ty ∧ tc_type_concrete t = c.
Proof.
  unfold add_type_at_offset.
  destruct (find_index _ _) as [found|] eqn:Hf; simpl.
  - apply find_index_Some in Hf as (t & Ht & Hp & _).
    apply andb_true_iff in Hp as [Hty Hc]. apply Z.eqb_eq in Hty, Hc.
    split.
    + split; [done|]. simpl. apply list_ext_alter; [apply _|]. by intros.
    + eexists found, _. rewrite list_lookup_alter_eq, Ht. simpl. done.
  - split.
    + split; [done|]. simpl. apply list_ext_app, _.
    + exists (length (oss_types o)), (mkTypeCount ty c 1).
      rewrite lookup_app_r by lia. by rewrite Nat.sub_diag.
Qed.

Lemma add_value_at_offset_spec (o : MVMSpeshStatsByOffset) (v : Z) :
  oss_R o (add_value_at_offset o v).
Proof. unfold add_value_at_offset. by destruct (find_index _ _). Qed.

Lemma add_type_tuple_at_offset_spec (o : MVMSpeshStatsByOffset) (info : SimCallType) :
  oss_R o (add_type_tuple_at_offset env o info).
Proof. unfold add_type_tuple_at_offset. by destruct (find_index _ _). Qed.

Lemma alter_by_offset_R (f : MVMSpeshStatsByOffset → MVMSpeshStatsByOffset) (oi : nat)
    (tss : MVMSpeshStatsByType) :
  (∀ o, oss_R o (f o)) → tss_R tss (alter_by_offset f oi tss).
Proof. intros Hf. split; [done|]. simpl. apply list_ext_alter; [apply _|]. auto. Qed.

Lemma incorporate_offset_log_spec (l : list MVMSpeshLogEntry)
    (tss tss' : MVMSpeshStatsByType) (i : nat) :
  incorporate_offset_log l tss i = Ok tss' →
  tss_R tss tss'
  ∧ ∀ id ty flags off,
      (l !! i = Some (LOG_TYPE id ty flags off) ∨ l !! i = Some (LOG_RETURN id ty flags off)) →
      has_type tss' off ty (Z.land flags MVM_SPESH_LOG_TYPE_FLAG_CONCRETE).
Proof.
  unfold incorporate_offset_log. intros (e & He%deref_Ok & H)%bind_Ok.
  assert (Htype : ∀ ty flags off,
    (let '(tss0, oss) := by_offset tss off in
     Ok (alter_by_offset
           (λ o, add_type_at_offset o ty (Z.land flags MVM_SPESH_LOG_TYPE_FLAG_CONCRETE))
           oss tss0)) = Ok tss' →
    tss_R tss tss' ∧ has_type tss' off ty (Z.land flags MVM_SPESH_LOG_TYPE_FLAG_CONCRETE)).
  { intros ty flags off. destruct (by_offset tss off) as [tss0 oi] eqn:Hbo.
    intros [= <-]. apply by_offset_spec in Hbo as (HR & _ & _ & _ & o & Ho & Hoff).
    split.
    - etrans; [exact HR|]. apply alter_by_offset_R. intros o'. apply add_type_at_offset_spec.
    - destruct (add_type_at_offset_spec o ty (Z.land flags MVM_SPESH_LOG_TYPE_FLAG_CONCRETE))
        as [[Hoff' _] (n & t & Ht & Hty & Hc)].
      exists oi, (add_type_at_offset o ty (Z.land flags MVM_SPESH_LOG_TYPE_FLAG_CONCRETE)), n, t.
      split_and!; [|congruence|done..].
      simpl. by rewrite list_lookup_alter_eq, Ho. }
  destruct e; try (injection H as <-; split; [done|]; intros ???? [?|?]; congruence).
  - destruct (Htype _ _ _ H) as [HR Hh]. split; [done|].
    intros ???? [?|?]; simplify_eq. done.
  - destruct (by_offset tss bytecode_offset) as [tss0 oi] eqn:Hbo. injection H as <-.
    apply by_offset_spec in Hbo as (HR & _). split.
    + etrans; [exact HR|]. apply alter_by_offset_R. intros o'. apply add_value_at_offset_spec.
    + intros ???? [?|?]; congruence.
  - destruct (Htype _ _ _ H) as [HR Hh]. split; [done|].
    intros ???? [?|?]; simplify_eq. done.
Qed.

Lemma incorporate_offset_logs_spec (l : list MVMSpeshLogEntry) (offs : list nat) :
  ∀ (tss tss' : MVMSpeshStatsByType),
  incorporate_offset_logs l tss offs = Ok tss' →
  tss_R tss tss'
  ∧ ∀ i id ty flags off, i ∈ offs →
      (l !! i = Some (LOG_TYPE id ty flags off) ∨ l !! i = Some (LOG_RETURN id ty flags off)) →
      has_type tss' off ty (Z.land flags MVM_SPESH_LOG_TYPE_FLAG_CONCRETE).
Proof.
  induction offs as [|i offs IH]; intros tss tss'; simpl.
  - intros [= <-]. split; [done|]. intros ????? Hin. by apply elem_of_nil in Hin.
  - intros (tss1 & H1 & H2)%bind_Ok.
    apply incorporate_offset_log_spec in H1 as [HR1 Hh1].
    apply IH in H2 as [HR2 Hh2]. split; [by etrans|].
    intros j id ty flags off [->|Hin]%elem_of_cons Hl.
    + eapply has_type_mono; [exact HR2|]. by eapply Hh1.
    + by eapply Hh2.
Qed.

Lemma incorporate_offset_logs_Ok (l : list MVMSpeshLogEntry) (offs : list nat) :
  Forall (λ i, i < length l)%nat offs →
  ∀ tss, ∃ tss', incorporate_offset_logs l tss offs = Ok tss'.
Proof.
  induction 1 as [|i offs Hi _ IH]; intros tss; simpl; [eauto|].
  destruct (lookup_lt_is_Some_2 l i Hi) as [e He].
  assert (∃ tss1, incorporate_offset_log l tss i = Ok tss1) as [tss1 H1].
  { unfold incorporate_offset_log. rewrite He. simpl.
    destruct e; try (by eexists); by destruct (by_offset _ _); eexists. }
  rewrite H1. simpl. apply IH.
Qed.

Lemma incorporate_call_type_info_R (tss : MVMSpeshStatsByType) (info : SimCallType) :
  tss_R tss (incorporate_call_type_info env tss info).
Proof.
  unfold incorporate_call_type_info.
  destruct (by_offset _ _) as [tss0 oi] eqn:Hbo.
  apply by_offset_spec in Hbo as (HR & _). etrans; [exact HR|].
  apply alter_by_offset_R. intros o. apply add_type_tuple_at_offset_spec.
Qed.

Lemma foldl_call_type_info_R (infos : list SimCallType) (tss : MVMSpeshStatsByType) :
  tss_R tss (foldl (incorporate_call_type_info env) tss infos).
Proof.
  revert tss. induction infos as [|info infos IH]; intros tss; simpl; [done|].
  etrans; [apply incorporate_call_type_info_R | apply IH].
Qed.

Lemma bump_by_type_R (tss : MVMSpeshStatsByType) (osr d : Z) :
  tss_R tss (bump_by_type tss osr d).
Proof. done. Qed.

End WithEnv.

Section WithEnv.
Variable env : Env.

(** *** [add_osr_and_depth] touches [osr_hits] and [max_depth] only *)

Lemma add_osr_and_depth_callsites (ss : MVMSpeshStats) (simf : SimStackFrame) (d : Z) :
  css_cs <$> ss_by_callsite (add_osr_and_depth ss simf d) = css_cs <$> ss_by_callsite ss
  ∧ css_hits <$> ss_by_callsite (add_osr_and_depth ss simf d) = css_hits <$> ss_by_callsite ss
  ∧ css_by_type <$> ss_by_callsite (add_osr_and_depth ss simf d)
    = css_by_type <$> ss_by_callsite ss.
Proof.
  unfold add_osr_and_depth, alter_by_callsite.
  destruct (osr_hits simf =? 0); simpl;
    rewrite ?fmap_alter_same; try done;
    intros css; by destruct (d >? _).
Qed.

Lemma add_osr_and_depth_fields (ss : MVMSpeshStats) (simf : SimStackFrame) (d : Z) :
  ss_hits (add_osr_and_depth ss simf d) = ss_hits ss
  ∧ ss_static_values (add_osr_and_depth ss simf d) = ss_static_values ss
  ∧ ss_last_update (add_osr_and_depth ss simf d) = ss_last_update ss.
Proof. unfold add_osr_and_depth. by destruct (osr_hits simf =? 0). Qed.

Lemma fmap_eq_lookup {A B} (f : A → B) (l l' : list A) (i : nat) (x : A) :
  f <$> l' = f <$> l → l !! i = Some x → ∃ x', l' !! i = Some x' ∧ f x' = f x.
Proof.
  intros Hf Hx.
  assert (H : (f <$> l') !! i = Some (f x)) by (by rewrite Hf, list_lookup_fmap, Hx).
  rewrite list_lookup_fmap in H. destruct (l' !! i) as [x'|]; simplify_eq/=. eauto.
Qed.

Lemma add_osr_and_depth_lookup (ss : MVMSpeshStats) (simf : SimStackFrame) (d : Z)
    (i : nat) (css : MVMSpeshStatsByCallsite) :
  ss_by_callsite ss !! i = Some css →
  ∃ css', ss_by_callsite (add_osr_and_depth ss simf d) !! i = Some css'
          ∧ css_cs css' = css_cs css ∧ css_by_type css' = css_by_type css
          ∧ css_hits css' = css_hits css.
Proof.
  intros Hi.
  destruct (add_osr_and_depth_callsites ss simf d) as (Hcs & Hh & Hbt).
  destruct (fmap_eq_lookup _ _ _ _ _ Hcs Hi) as (c1 & H1 & E1).
  destruct (fmap_eq_lookup _ _ _ _ _ Hh Hi) as (c2 & H2 & E2).
  destruct (fmap_eq_lookup _ _ _ _ _ Hbt Hi) as (c3 & H3 & E3).
  exists c1. simplify_eq. done.
Qed.

Lemma add_osr_and_depth_R (ss : MVMSpeshStats) (simf : SimStackFrame) (d : Z) :
  ss_R ss (add_osr_and_depth ss simf d).
Proof.
  intros i css Hi.
  destruct (add_osr_and_depth_lookup ss simf d i css Hi) as (css' & H' & Hcs & Hbt & _).
  exists css'. split; [done|]. split; [done|]. by rewrite Hbt.
Qed.

(** *** [by_type] *)

Lemma incomplete_type_tuple_from_Ok (flags : list Z) (a : list MVMSpeshStatsType) :
  ∀ i : nat, (i + length flags ≤ length a)%nat →
    ∃ b, incomplete_type_tuple_from env flags a i = Ok b.
Proof.
  induction flags as [|flag flags IH]; intros i Hlen; simpl in *; [eauto|].
  destruct (is_obj_flag env flag); [|apply IH; lia].
  destruct (lookup_lt_is_Some_2 a i) as [t Ht]; [lia|]. rewrite Ht. simpl.
  destruct (type t =? 0); [eauto|].
  destruct (_ && _); [eauto|]. apply IH. lia.
Qed.

Lemma by_type_unusable (ss : MVMSpeshStats) (simf : SimStackFrame)
    (css : MVMSpeshStatsByCallsite) :
  ss_by_callsite ss !! callsite_idx simf = Some css →
  tuple_unusable env css simf →
  by_type env ss (callsite_idx simf) (arg_types simf) = Ok (ss, None).
Proof.
  intros Hcss Hun. unfold by_type. rewrite Hcss. simpl.
  destruct Hun as [->|[Hno|(a & Ha & Hinc)]]; [done| |].
  - rewrite Hno. by rewrite orb_true_r.
  - destruct (_ || _); [done|]. rewrite Ha. simpl. by rewrite Hinc.
Qed.

Lemma by_type_spec (ss ss' : MVMSpeshStats) (idx : nat)
    (a : option (list MVMSpeshStatsType)) (r : option nat) :
  by_type env ss idx a = Ok (ss', r) →
  ss_R ss ss'
  ∧ ss_hits ss' = ss_hits ss ∧ ss_static_values ss' = ss_static_values ss
  ∧ ss_last_update ss' = ss_last_update ss ∧ ss_osr_hits ss' = ss_osr_hits ss
  ∧ css_cs <$> ss_by_callsite ss' = css_cs <$> ss_by_callsite ss
  ∧ css_hits <$> ss_by_callsite ss' = css_hits <$> ss_by_callsite ss
  ∧ match r with
    | None => ss' = ss
    | Some found =>
        ∃ css' tss args,
          ss_by_callsite ss' !! idx = Some css' ∧ css_by_type css' !! found = Some tss
          ∧ a = Some args
          ∧ memcmp_types (tss_arg_types tss) args
              (flag_count (callsite env (css_cs css'))) = true
    end.
Proof.
  unfold by_type. intros (css & Hcss%deref_Ok & H)%bind_Ok.
  destruct (_ || _) eqn:Hc.
  { injection H as <- <-. split_and!; done. }
  apply bind_Ok in H as (args & Ha%deref_Ok & H).
  apply bind_Ok in H as (inc & Hinc & H).
  destruct inc.
  { injection H as <- <-. split_and!; done. }
  destruct (find_index _ _) as [found|] eqn:Hf; injection H as <- <-.
  - split_and!; [done..|].
    apply find_index_Some in Hf as (tss & Htss & Hp & _).
    exists css, tss, args. done.
  - split_and!; try done.
    + unfold ss_R. simpl. apply list_ext_insert; [apply _|].
      intros x Hx. simplify_eq. split; [done|]. simpl. apply list_ext_app, _.
    + simpl. rewrite list_fmap_insert. simpl.
      apply list_insert_id. by rewrite list_lookup_fmap, Hcss.
    + simpl. rewrite list_fmap_insert. simpl.
      apply list_insert_id. by rewrite list_lookup_fmap, Hcss.
    + simpl. eexists _, (mkByType args 0 0 0 []), args.
      rewrite list_lookup_insert_eq by (by eapply lookup_lt_Some).
      split_and!; [done| |done|].
      * simpl. rewrite lookup_app_r by lia. by rewrite Nat.sub_diag.
      * simpl. unfold memcmp_types. by apply bool_decide_eq_true.
Qed.

Lemma by_type_usable (ss : MVMSpeshStats) (simf : SimStackFrame)
    (css : MVMSpeshStatsByCallsite) :
  ss_by_callsite ss !! callsite_idx simf = Some css →
  tuple_usable env css simf →
  ∃ ss' found, by_type env ss (callsite_idx simf) (arg_types simf) = Ok (ss', Some found).
Proof.
  intros Hcss (Hcs & Hobj & a & Ha & Hinc). unfold by_type. rewrite Hcss. simpl.
  apply Z.eqb_neq in Hcs. rewrite Hcs, Hobj, Ha. simpl. rewrite Hinc. simpl.
  destruct (find_index _ _); eauto.
Qed.

End WithEnv.

Section WithEnv.
Variable env : Env.

(** *** Frames of the simulated stack *)

#[global] Instance frame_sim_preorder : PreOrder frame_sim.
Proof.
  split.
  - intros f. unfold frame_sim. split_and!; [done..|]. exists []. by rewrite app_nil_r.
  - intros a b c (?&?&?&?&?&?&?&?&e1&?) (?&?&?&?&?&?&?&?&e2&?).
    unfold frame_sim. split_and!; [congruence..|].
    exists (e1 ++ e2). rewrite app_assoc. congruence.
Qed.

(** What a pop leaves of the frames under the popped one: the caller may
    have received a call type info, the rest is untouched. *)
Definition callers_after_pop (callers frames' : list SimStackFrame) : Prop :=
  match callers, frames' with
  | [], [] => True
  | c :: below, c' :: below' => frame_sim c c' ∧ below' = below
  | _, _ => False
  end.

Lemma log_call_type_after_pop (simf : SimStackFrame) (cs : Z)
    (a : list MVMSpeshStatsType) (callers : list SimStackFrame) :
  callers_after_pop callers (log_call_type env simf cs a callers).
Proof.
  destruct callers as [|c below]; simpl; [done|].
  destruct (_ && _); simpl; [|done].
  split; [|done]. unfold frame_sim. simpl. split_and!; [done..|]. eauto.
Qed.

Lemma callers_after_pop_refl (callers : list SimStackFrame) :
  callers_after_pop callers callers.
Proof. by destruct callers. Qed.

Lemma frame_ok_mono (m m' : gmap Z MVMSpeshStats) (n n' : nat) (f f' : SimStackFrame) :
  stats_R m m' → (n ≤ n')%nat → frame_sim f f' → frame_ok env m n f → frame_ok env m' n' f'.
Proof.
  intros Hm Hn (Hsf & _ & Hidx & Ha & Hol & _) (ss & css & Hss & Hcss & Harg & Hlogs).
  destruct (Hm _ _ Hss) as (ss' & Hss' & HR).
  destruct (HR _ _ Hcss) as (css' & Hcss' & Hcs & _).
  exists ss', css'. rewrite Hsf, Hidx, Ha, Hol, Hcs. split_and!; [done..|].
  eapply Forall_impl; [exact Hlogs|]. simpl. intros; lia.
Qed.

Lemma Forall_frame_ok_mono (m m' : gmap Z MVMSpeshStats) (n n' : nat)
    (fs : list SimStackFrame) :
  stats_R m m' → (n ≤ n')%nat → Forall (frame_ok env m n) fs → Forall (frame_ok env m' n') fs.
Proof.
  intros Hm Hn H. eapply Forall_impl; [exact H|]. intros f. by apply frame_ok_mono.
Qed.

(** *** [sim_stack_pop] *)

(** Everything a pop does, for any frame on top. *)
Lemma sim_stack_pop_spec (st st' : State) :
  sim_stack_pop env st = Ok st' →
  ∃ simf callers ss ss',
    sims_frames st = simf :: callers
    ∧ stats st !! sf simf = Some ss
    ∧ stats st' = <[sf simf := ss']> (stats st)
    ∧ ss_R ss ss'
    ∧ ss_last_update ss' = ss_last_update ss
    ∧ ss_hits ss' = ss_hits ss
    ∧ css_cs <$> ss_by_callsite ss' = css_cs <$> ss_by_callsite ss
    ∧ css_hits <$> ss_by_callsite ss' = css_hits <$> ss_by_callsite ss
    ∧ callers_after_pop callers (sims_frames st')
    ∧ sims_depth st' = wrap32 (sims_depth st - 1)
    ∧ log st' = log st ∧ sf_updated st' = sf_updated st.
Proof.
  unfold sim_stack_pop. destruct (sims_frames st) as [|simf callers] eqn:Hfs; [done|].
  intros (ss & Hss%deref_Ok & H)%bind_Ok.
  apply bind_Ok in H as (css0 & Hcss0%deref_Ok & H).
  apply bind_Ok in H as ([ss1 r] & Hbt & H).
  pose proof (add_osr_and_depth_R ss simf (sims_depth st)) as HR0.
  destruct (add_osr_and_depth_fields ss simf (sims_depth st)) as (Hh0 & Hsv0 & Hlu0).
  destruct (add_osr_and_depth_callsites ss simf (sims_depth st)) as (Hcs0 & Hhits0 & _).
  apply by_type_spec in Hbt as (HR1 & Hh1 & Hsv1 & Hlu1 & _ & Hcs1 & Hhits1 & Hr).
  destruct r as [found|].
  - apply bind_Ok in H as (css & Hcss%deref_Ok & H).
    apply bind_Ok in H as (tss & Htss%deref_Ok & H).
    apply bind_Ok in H as (tss1 & Hinc & H). injection H as <-.
    eexists simf, callers, ss, _. simpl. split_and!; try done.
    + etrans; [exact HR0|]. etrans; [exact HR1|].
      unfold ss_R, alter_by_callsite. simpl. apply list_ext_alter; [apply _|].
      intros x Hx. simplify_eq. split; [done|]. simpl.
      apply list_ext_insert; [apply _|]. intros y Hy. simplify_eq.
      etrans; [eapply incorporate_offset_logs_spec, Hinc|].
      etrans; [apply foldl_call_type_info_R|]. apply bump_by_type_R.
    + unfold alter_by_callsite. simpl. congruence.
    + unfold alter_by_callsite. simpl. congruence.
    + unfold alter_by_callsite. simpl. rewrite fmap_alter_same by done. congruence.
    + unfold alter_by_callsite. simpl. rewrite fmap_alter_same by done. congruence.
    + apply log_call_type_after_pop.
  - injection H as <-. subst ss1.
    eexists simf, callers, ss, _. simpl. split_and!; try done.
    apply callers_after_pop_refl.
Qed.

Lemma sim_stack_pop_empty (st : State) :
  sims_frames st = [] → sim_stack_pop env st = Abort.
Proof. unfold sim_stack_pop. by intros ->. Qed.

(** A pop of a well-formed state returns. *)
Lemma sim_stack_pop_Ok (st : State) :
  state_ok env st → sims_frames st ≠ [] → ∃ st', sim_stack_pop env st = Ok st'.
Proof.
  unfold state_ok, sim_stack_pop. destruct (sims_frames st) as [|simf callers]; [done|].
  intros Hok _. apply Forall_cons in Hok as [(ss & css & Hss & Hcss & Harg & Hlogs) _].
  rewrite Hss. simpl. rewrite Hcss. simpl.
  destruct (add_osr_and_depth_lookup ss simf (sims_depth st) _ _ Hcss)
    as (css' & Hcss' & Hcs & _).
  assert (∃ ss1 r, by_type env (add_osr_and_depth ss simf (sims_depth st))
                     (callsite_idx simf) (arg_types simf) = Ok (ss1, r))
    as (ss1 & r & Hbt).
  { unfold by_type. rewrite Hcss'. simpl. destruct (_ || _) eqn:Hc; [eauto|].
    apply orb_false_iff in Hc as [Hne%Z.eqb_neq _].
    rewrite Hcs in Hne. destruct (Harg Hne) as (a & -> & Hlen). simpl.
    destruct (incomplete_type_tuple_from_Ok env (arg_flags (callsite env (css_cs css'))) a 0)
      as [b Hb]; [rewrite Hcs; simpl; lia|].
    unfold incomplete_type_tuple. rewrite Hb. simpl.
    destruct b; [eauto|]. destruct (find_index _ _); eauto. }
  rewrite Hbt. simpl. destruct r as [found|]; [|eauto].
  apply by_type_spec in Hbt as (_ & _ & _ & _ & _ & _ & _ & css1 & tss & args & H1 & H2 & _).
  rewrite H1. simpl. rewrite H2. simpl.
  destruct (incorporate_offset_logs_Ok (log st) (offset_logs simf) Hlogs tss) as [tss1 ->].
  simpl. eauto.
Qed.

(** A pop keeps the rest of the state well-formed. *)
Lemma sim_stack_pop_ok (st st' : State) :
  state_ok env st → sim_stack_pop env st = Ok st' → state_ok env st'.
Proof.
  intros Hok Hpop.
  apply sim_stack_pop_spec in Hpop
    as (simf & callers & ss & ss' & Hfs & Hss & Hst & HR & _ & _ & _ & _ & Hcallers & _ & Hlog & _).
  unfold state_ok in *. rewrite Hfs in Hok. apply Forall_cons in Hok as [_ Hok].
  rewrite Hlog, Hst.
  assert (HmR : stats_R (stats st) (<[sf simf := ss']> (stats st))) by by eapply stats_R_insert.
  destruct callers as [|c below], (sims_frames st') as [|c' below']; simpl in Hcallers;
    try done.
  destruct Hcallers as [Hsim ->]. apply Forall_cons in Hok as [Hc Hbelow].
  apply Forall_cons. split.
  - by eapply frame_ok_mono.
  - by eapply Forall_frame_ok_mono.
Qed.

End WithEnv.

(** The [last_update] stamps, and which frames have statistics at all, are
    the same in [m] and [m']. *)
Definition lu_kept (m m' : gmap Z MVMSpeshStats) : Prop :=
  ∀ sf, ss_last_update <$> m' !! sf = ss_last_update <$> m !! sf.

#[global] Instance lu_kept_preorder : PreOrder lu_kept.
Proof.
  split; [by intros m sf|].
  intros m1 m2 m3 H12 H23 sf. by rewrite H23, H12.
Qed.

Lemma lu_kept_insert (m : gmap Z MVMSpeshStats) (sf : Z) (s s' : MVMSpeshStats) :
  m !! sf = Some s → ss_last_update s' = ss_last_update s → lu_kept m (<[sf := s']> m).
Proof.
  intros Hs HR x. destruct (decide (x = sf)) as [->|Hne].
  - rewrite lookup_insert_eq, Hs. simpl. by rewrite HR.
  - by rewrite lookup_insert_ne.
Qed.

Section WithEnv.
Variable env : Env.

(** *** Several pops *)

Lemma callers_after_pop_app (l l1 a1 r1 l2 : list SimStackFrame) :
  callers_after_pop l l1 → l1 = a1 ++ r1 → callers_after_pop r1 l2 →
  ∃ a r, l = a ++ r ∧ length a = length a1 ∧ callers_after_pop r l2.
Proof.
  intros H1 -> H2. destruct a1 as [|x a1]; simpl in *.
  - exists [], l. split_and!; [done..|].
    destruct l as [|c below], r1 as [|c' below']; simpl in H1; try done.
    destruct H1 as [Hs ->]. destruct l2 as [|c'' below'']; simpl in *; [done|].
    destruct H2 as [Hs' ->]. split; [by etrans | done].
  - destruct l as [|c below]; simpl in H1; [done|]. destruct H1 as [_ Hb].
    exists (c :: a1), r1. rewrite <- Hb. done.
Qed.

Lemma sim_stack_pop_n_spec (n : nat) :
  ∀ st st', sim_stack_pop_n env n st = Ok st' →
    ∃ above rest,
      sims_frames st = above ++ rest ∧ length above = n
      ∧ callers_after_pop rest (sims_frames st')
      ∧ stats_R (stats st) (stats st') ∧ lu_kept (stats st) (stats st')
      ∧ log st' = log st ∧ sf_updated st' = sf_updated st
      ∧ (state_ok env st → state_ok env st').
Proof.
  induction n as [|n IH]; intros st st'; simpl.
  - intros [= <-]. exists [], (sims_frames st). split_and!; try done.
    apply callers_after_pop_refl.
  - intros (st1 & Hpop & Hn)%bind_Ok.
    pose proof Hpop as Hpop'.
    apply sim_stack_pop_spec in Hpop
      as (simf & callers & ss & ss' & Hfs & Hss & Hst & HR & Hlu & _ & _ & _ & Hc & _ & Hlog & Hsu).
    destruct (IH _ _ Hn) as (a1 & r1 & Hfs1 & Hlen & Hc1 & HR1 & Hlu1 & Hlog1 & Hsu1 & Hok).
    destruct (callers_after_pop_app _ _ _ _ _ Hc Hfs1 Hc1) as (a & r & -> & Hla & Hcr).
    exists (simf :: a), r. split_and!; try done.
    + simpl. congruence.
    + etrans; [|exact HR1]. rewrite Hst. by eapply stats_R_insert.
    + etrans; [|exact Hlu1]. rewrite Hst. by eapply lu_kept_insert.
    + congruence.
    + congruence.
    + intros H. apply Hok. by eapply sim_stack_pop_ok.
Qed.

(** *** [sim_stack_find] *)

Lemma find_index_split {A} (p : A → bool) (l : list A) (n : nat) :
  find_index p l = Some n →
  ∃ above g rest, l = above ++ g :: rest ∧ length above = n ∧ p g = true
                  ∧ ∀ f, f ∈ above → p f = false.
Proof.
  revert n. induction l as [|x l IH]; intros n; simpl; [done|].
  destruct (p x) eqn:Hp.
  - intros [= <-]. exists [], x, l. split_and!; [done..|]. intros f Hf. by apply elem_of_nil in Hf.
  - destruct (find_index p l) as [k|]; simpl; [|done]. intros [= <-].
    destruct (IH k eq_refl) as (above & g & rest & -> & Hlen & Hg & Habove).
    exists (x :: above), g, rest. split_and!; [done|simpl; lia|done|].
    intros f [->|Hf]%elem_of_cons; auto.
Qed.

Lemma sim_stack_find_spec (st st' : State) (c : Z) (b : bool) :
  sim_stack_find env st c = Ok (st', b) →
  if b then
    ∃ above g rest g',
      sims_frames st = above ++ g :: rest
      ∧ (∀ f, f ∈ above → cid f ≠ c) ∧ cid g = c
      ∧ sim_stack_pop_n env (length above) st = Ok st'
      ∧ sims_frames st' = g' :: rest ∧ frame_sim g g'
  else st' = st ∧ ∀ f, f ∈ sims_frames st → cid f ≠ c.
Proof.
  unfold sim_stack_find. destruct (find_index _ _) as [n|] eqn:Hf.
  - intros (st1 & Hpop & [= <- <-])%bind_Ok.
    apply find_index_split in Hf as (above & g & rest & Hfs & Hlen & Hg%Z.eqb_eq & Habove).
    pose proof Hpop as Hpop'.
    apply sim_stack_pop_n_spec in Hpop as (a & r & Hfs' & Hla & Hc & _).
    assert (a = above ∧ r = g :: rest) as [-> ->].
    { rewrite Hfs in Hfs'. apply app_inj_1 in Hfs' as [? ?]; [done | congruence]. }
    destruct (sims_frames st1) as [|g' rest'] eqn:Hfs1; simpl in Hc; [done|].
    destruct Hc as [Hsim ->].
    exists above, g, rest, g'. rewrite Hlen. split_and!; try done.
    intros f Hin. apply Z.eqb_neq. by apply Habove.
  - intros [= <- <-]. split; [done|]. intros f Hin.
    apply Z.eqb_neq. by eapply find_index_None in Hf.
Qed.

End WithEnv.

Section WithEnv.
Variable env : Env.

(** *** What one log entry does to the frames *)

(** What the entry at position [j] may do to a frame that stays on the
    stack: buffer [j], fill tuple slots, count, remember an invoke. *)
Definition frame_step (j : nat) (f f' : SimStackFrame) : Prop :=
  sf f' = sf f ∧ cid f' = cid f ∧ callsite_idx f' = callsite_idx f
  ∧ (offset_logs f' = offset_logs f ∨ offset_logs f' = offset_logs f ++ [j])
  ∧ length <$> arg_types f' = length <$> arg_types f.

Definition callers_step (j : nat) (rest rest' : list SimStackFrame) : Prop :=
  match rest, rest' with
  | [], [] => True
  | c :: below, c' :: below' => frame_step j c c' ∧ below' = below
  | _, _ => False
  end.

Lemma frame_step_refl (j : nat) (f : SimStackFrame) : frame_step j f f.
Proof. unfold frame_step. split_and!; auto. Qed.

Lemma callers_step_refl (j : nat) (l : list SimStackFrame) : callers_step j l l.
Proof. destruct l; simpl; [done|]. split; [apply frame_step_refl | done]. Qed.

Lemma frame_sim_step (j : nat) (f f1 f2 : SimStackFrame) :
  frame_sim f f1 → frame_step j f1 f2 → frame_step j f f2.
Proof.
  intros (?&?&?&Ha&Hl&_) (?&?&?&Hl'&Ha'). unfold frame_step.
  rewrite <- Hl, <- Ha. split_and!; congruence.
Qed.

Lemma callers_after_pop_step (j : nat) (l l1 l2 : list SimStackFrame) :
  callers_after_pop l l1 → callers_step j l1 l2 → callers_step j l l2.
Proof.
  destruct l as [|c b], l1 as [|c1 b1], l2 as [|c2 b2]; simpl; try done.
  intros [Hs ->] [Hst ->]. split; [by eapply frame_sim_step | done].
Qed.

Lemma frame_ok_step (m m' : gmap Z MVMSpeshStats) (n n' j : nat) (f f' : SimStackFrame) :
  stats_R m m' → (n ≤ n')%nat → (j < n')%nat → frame_step j f f' →
  frame_ok env m n f → frame_ok env m' n' f'.
Proof.
  intros Hm Hn Hj (Hsf & _ & Hidx & Hol & Ha) (ss & css & Hss & Hcss & Harg & Hlogs).
  destruct (Hm _ _ Hss) as (ss' & Hss' & HR).
  destruct (HR _ _ Hcss) as (css' & Hcss' & Hcs & _).
  exists ss', css'. rewrite Hsf, Hidx, Hcs. split_and!; [done..| |].
  - intros Hne. destruct (Harg Hne) as (a & Hfa & Hlen). rewrite Hfa in Ha.
    destruct (arg_types f') as [a'|]; simplify_eq/=. exists a'. split; [done|]. congruence.
  - assert (Forall (λ i, i < n')%nat (offset_logs f)) as Hl.
    { eapply Forall_impl; [exact Hlogs|]. simpl. intros; lia. }
    destruct Hol as [->| ->]; [done|]. apply Forall_app. split; [done|]. by apply Forall_singleton.
Qed.

(** The handlers that only write to the frame they were given. *)
Lemma set_top_frame_frames (st : State) (f f' : SimStackFrame) (rest : list SimStackFrame) :
  sims_frames st = f :: rest → sims_frames (set_top_frame st f') = f' :: rest.
Proof. intros H. unfold set_top_frame. simpl. by rewrite H. Qed.

Lemma top_frame_Ok (st : State) (f : SimStackFrame) :
  top_frame st = Ok f → ∃ rest, sims_frames st = f :: rest.
Proof.
  unfold top_frame. destruct (sims_frames st) as [|g rest]; simpl; [done|].
  intros [= ->]. eauto.
Qed.

Lemma write_type_slot_spec (st st' : State) (arg_idx : Z)
    (w : MVMSpeshStatsType → MVMSpeshStatsType) (j : nat) :
  write_type_slot env st arg_idx w = Ok st' →
  stats st' = stats st ∧ log st' = log st ∧ sf_updated st' = sf_updated st
  ∧ callers_step j (sims_frames st) (sims_frames st').
Proof.
  unfold write_type_slot. intros (f & [rest Hfs]%top_frame_Ok & H)%bind_Ok.
  apply bind_Ok in H as (slot & _ & H). destruct slot as [flag_idx|].
  - apply bind_Ok in H as (a & Ha%deref_Ok & H).
    apply bind_Ok in H as (t & Ht%deref_Ok & [= <-]).
    split_and!; [done..|].
    rewrite (set_top_frame_frames _ _ _ _ Hfs), Hfs. simpl. split; [|done].
    unfold frame_step. simpl. rewrite Ha. simpl. rewrite length_alter.
    split_and!; auto.
  - injection H as <-. split_and!; [done..|]. apply callers_step_refl.
Qed.

(** Everything [update_return] does. *)
Lemma update_return_spec (st st' : State) (i : nat) (id ty flags : Z) :
  update_return env st i id ty flags = Ok st' →
  ∃ f callers st1,
    sims_frames st = f :: callers
    ∧ sim_stack_pop env st = Ok st1
    ∧ stats st' = stats st1 ∧ sf_updated st' = sf_updated st1
    ∧ sims_depth st' = sims_depth st1
    ∧ ((st' = st1)
       ∨ (∃ caller below,
            sims_frames st1 = caller :: below
            ∧ ty ≠ 0 ∧ last_invoke_code caller ≠ 0
            ∧ concrete_code env (last_invoke_code caller) = true
            ∧ code_sf env (last_invoke_code caller) = sf f
            ∧ sims_frames st' = push_offset_log caller i :: below
            ∧ log st' = <[i := LOG_RETURN id ty flags (last_invoke_offset caller)]> (log st1))).
Proof.
  unfold update_return. intros (f & [callers Hfs]%top_frame_Ok & H)%bind_Ok.
  apply bind_Ok in H as (st1 & Hpop & H).
  exists f, callers, st1. split; [done|]. split; [done|].
  destruct (sims_frames st1) as [|caller below] eqn:Hfs1.
  { injection H as <-. split_and!; auto. }
  destruct (_ && _) eqn:Hc.
  - injection H as <-. split_and!; [done..|]. right.
    repeat (apply andb_true_iff in Hc as [Hc ?]).
    exists caller, below. split_and!; try done.
    + apply negb_true_iff in Hc. by apply Z.eqb_neq.
    + match goal with H : negb _ = true |- _ => apply negb_true_iff in H; by apply Z.eqb_neq end.
    + symmetry. by apply Z.eqb_eq.
  - injection H as <-. split_and!; auto.
Qed.

(** The summary of a case other than ENTRY, once its frame is on top. *)
Lemma update_found_spec (st st' : State) (j : nat) (e : MVMSpeshLogEntry) :
  update_found env st j e = Ok st' →
  stats_R (stats st) (stats st') ∧ lu_kept (stats st) (stats st')
  ∧ sf_updated st' = sf_updated st
  ∧ length (log st') = length (log st)
  ∧ (∀ k, k ≠ j → log st' !! k = log st !! k)
  ∧ ((j < length (log st))%nat → state_ok env st → state_ok env st')
  ∧ ∃ above rest,
      sims_frames st = above ++ rest ∧ callers_step j rest (sims_frames st').
Proof.
  assert (Htop : ∀ st f f' rest,
    sims_frames st = f :: rest → frame_step j f f' →
    let st' := set_top_frame st f' in
    stats_R (stats st) (stats st') ∧ lu_kept (stats st) (stats st')
    ∧ sf_updated st' = sf_updated st
    ∧ length (log st') = length (log st)
    ∧ (∀ k, k ≠ j → log st' !! k = log st !! k)
    ∧ ((j < length (log st))%nat → state_ok env st → state_ok env st')
    ∧ ∃ above rest,
        sims_frames st = above ++ rest ∧ callers_step j rest (sims_frames st')).
  { clear. intros st f f' rest Hfs Hstep. simpl. split_and!; try done.
    - intros Hj. unfold state_ok. simpl. rewrite Hfs. simpl.
      intros [Hf Hrest]%Forall_cons. apply Forall_cons. split; [|done].
      eapply frame_ok_step; [reflexivity|reflexivity|exact Hj|exact Hstep|exact Hf].
    - exists [], (f :: rest). split; [done|]. simpl. rewrite Hfs. done. }
  destruct e; simpl.
  - intros [= <-]. split_and!; try done. exists [], (sims_frames st).
    split; [done|]. apply callers_step_refl.
  - (* PARAMETER *)
    intros H. pose proof (write_type_slot_spec _ _ _ _ j H) as (Hs & Hl & Hu & Hc).
    rewrite Hs, Hl. split_and!; try done.
    + intros Hj Hok. unfold state_ok in *. rewrite Hs, Hl.
      destruct (sims_frames st) as [|c b], (sims_frames st') as [|c' b']; simpl in Hc;
        try done.
      destruct Hc as [Hst ->]. apply Forall_cons in Hok as [Hf Hrest].
      apply Forall_cons. split; [|done].
      eapply frame_ok_step; [reflexivity|reflexivity|exact Hj|exact Hst|exact Hf].
    + by exists [], (sims_frames st).
  - (* PARAMETER_DECONT *)
    intros H. pose proof (write_type_slot_spec _ _ _ _ j H) as (Hs & Hl & Hu & Hc).
    rewrite Hs, Hl. split_and!; try done.
    + intros Hj Hok. unfold state_ok in *. rewrite Hs, Hl.
      destruct (sims_frames st) as [|c b], (sims_frames st') as [|c' b']; simpl in Hc;
        try done.
      destruct Hc as [Hst ->]. apply Forall_cons in Hok as [Hf Hrest].
      apply Forall_cons. split; [|done].
      eapply frame_ok_step; [reflexivity|reflexivity|exact Hj|exact Hst|exact Hf].
    + by exists [], (sims_frames st).
  - (* TYPE *)
    intros (f & [rest Hfs]%top_frame_Ok & [= <-])%bind_Ok.
    apply (Htop st f _ rest Hfs). unfold frame_step. simpl. split_and!; auto.
  - (* STATIC *)
    intros (f & [rest Hfs]%top_frame_Ok & H)%bind_Ok.
    apply bind_Ok in H as (ss & Hss%deref_Ok & [= <-]). simpl.
    assert (HR : ss_R ss (add_static_value ss bytecode_offset value)).
    { unfold add_static_value. destruct (find_index _ _); [reflexivity|].
      unfold ss_R. simpl. reflexivity. }
    assert (HmR : stats_R (stats st)
                    (<[sf f := add_static_value ss bytecode_offset value]> (stats st)))
      by by eapply stats_R_insert.
    split_and!; try done.
    + eapply lu_kept_insert; [done|]. unfold add_static_value. by destruct (find_index _ _).
    + intros Hj Hok. unfold state_ok in *. simpl.
      eapply Forall_frame_ok_mono; [exact HmR|reflexivity|exact Hok].
    + exists [], (sims_frames st). split; [done|]. apply callers_step_refl.
  - (* INVOKE *)
    intros (f & [rest Hfs]%top_frame_Ok & [= <-])%bind_Ok.
    apply (Htop st f _ rest Hfs). unfold frame_step. simpl. split_and!; auto.
  - (* OSR *)
    intros (f & [rest Hfs]%top_frame_Ok & [= <-])%bind_Ok.
    apply (Htop st f _ rest Hfs). unfold frame_step. simpl. split_and!; auto.
  - (* RETURN *)
    intros H. apply update_return_spec in H
      as (f & callers & st1 & Hfs & Hpop & Hs & Hu & _ & Hcase).
    pose proof Hpop as Hpop'.
    apply sim_stack_pop_spec in Hpop
      as (f0 & callers0 & ss & ss' & Hfs0 & Hss & Hst & HR & Hlu & _ & _ & _ & Hc & _ & Hlog & Hsu).
    rewrite Hfs in Hfs0. injection Hfs0 as <- <-.
    assert (HmR : stats_R (stats st) (stats st')).
    { rewrite Hs, Hst. by eapply stats_R_insert. }
    assert (HmL : lu_kept (stats st) (stats st')).
    { rewrite Hs, Hst. by eapply lu_kept_insert. }
    destruct Hcase as [->|(caller & below & Hfs1 & _ & _ & _ & _ & Hfs' & Hlog')].
    + split_and!; try done; try congruence.
      * intros _ Hok. by eapply sim_stack_pop_ok.
      * exists [f], callers. split; [by rewrite Hfs|].
        eapply callers_after_pop_step; [exact Hc|]. apply callers_step_refl.
    + split_and!; try done; try congruence.
      * rewrite Hlog', length_insert. congruence.
      * intros k Hk. rewrite Hlog', list_lookup_insert_ne by done. congruence.
      * intros Hj Hok. pose proof (sim_stack_pop_ok env _ _ Hok Hpop') as Hok1.
        unfold state_ok in *. rewrite Hfs', Hs, Hlog', length_insert.
        rewrite Hfs1 in Hok1. apply Forall_cons in Hok1 as [Hcal Hbelow].
        apply Forall_cons. split; [|done].
        eapply (frame_ok_step (stats st1) (stats st1) (length (log st1))
                  (length (log st1)) j caller);
          [reflexivity | reflexivity | rewrite Hlog; exact Hj
          | unfold frame_step; simpl; split_and!; auto | exact Hcal].
      * exists [f], callers. split; [by rewrite Hfs|].
        eapply callers_after_pop_step; [exact Hc|]. rewrite Hfs1, Hfs'. simpl.
        split; [|done]. unfold frame_step. simpl. split_and!; auto.
Qed.

End WithEnv.

Section WithEnv.
Variable env : Env.

(** *** The ENTRY case *)

Lemma by_callsite_idx_spec (ss ss' : MVMSpeshStats) (cs : Z) (idx : nat) :
  by_callsite_idx ss cs = (ss', idx) →
  ss_R ss ss' ∧ ss_hits ss' = ss_hits ss ∧ ss_last_update ss' = ss_last_update ss
  ∧ ∃ css, ss_by_callsite ss' !! idx = Some css ∧ css_cs css = cs.
Proof.
  unfold by_callsite_idx. destruct (find_index _ _) as [found|] eqn:Hf; intros [= <- <-].
  - split_and!; [done..|]. apply find_index_Some in Hf as (css & Hcss & Hp%Z.eqb_eq & _). eauto.
  - split_and!; [|done..|].
    + unfold ss_R. simpl. apply list_ext_app, _.
    + simpl. exists (mkByCallsite cs 0 0 0 []). split; [|done].
      rewrite lookup_app_r by lia. by rewrite Nat.sub_diag.
Qed.

Lemma update_entry_frame_spec (st : State) (id sf0 cs : Z) :
  ∃ st' f ss',
    update_entry_frame env st id sf0 cs = Ok st'
    ∧ stats st' = <[sf0 := ss']> (stats st)
    ∧ ss_last_update ss' = spesh_stats_version env
    ∧ (∀ ss, stats st !! sf0 = Some ss → ss_R ss ss')
    ∧ sf_updated st'
      = sf_updated st
        ++ (if decide (last_update_of (stats st) sf0 = spesh_stats_version env)
            then [] else [sf0])
    ∧ log st' = log st
    ∧ sims_frames st' = f :: sims_frames st
    ∧ offset_logs f = [] ∧ sf f = sf0 ∧ cid f = id
    ∧ frame_ok env (stats st') (length (log st')) f.
Proof.
  unfold update_entry_frame, last_update_of, stats_for.
  set (ss0 := match stats st !! sf0 with Some ss => ss | None => zero_stats end).
  assert (Hss0 : ∀ ss, stats st !! sf0 = Some ss → ss0 = ss).
  { intros ss H. unfold ss0. by rewrite H. }
  assert (Hlu0 : ss_last_update ss0
                 = match stats st !! sf0 with Some ss => ss_last_update ss | None => 0 end).
  { unfold ss0. by destruct (stats st !! sf0). }
  set (m := match stats st !! sf0 with Some _ => stats st | None => <[sf0 := zero_stats]> (stats st) end).
  assert (Hm : ∀ s, <[sf0 := s]> m = <[sf0 := s]> (stats st)).
  { intros s. unfold m. destruct (stats st !! sf0); [done|]. by rewrite insert_insert_eq. }
  replace (match stats st !! sf0 with
           | Some ss => (stats st, ss)
           | None => (<[sf0 := zero_stats]> (stats st), zero_stats)
           end) with (m, ss0) by (unfold m, ss0; by destruct (stats st !! sf0)).
  rewrite <- Hlu0.
  set (pushed := negb (ss_last_update ss0 =? spesh_stats_version env)).
  set (ss1 := if pushed then _ else ss0).
  set (ss2 := mkStats _ _ _ _ _).
  destruct (by_callsite_idx ss2 cs) as [ss3 idx] eqn:Hidx.
  apply by_callsite_idx_spec in Hidx as (HR3 & _ & Hlu3 & css & Hcss & Hcs).
  unfold sim_stack_push.
  set (ss4 := alter_by_callsite _ idx ss3).
  assert (Hcss4 : ∃ css4, ss_by_callsite ss4 !! idx = Some css4 ∧ css_cs css4 = cs) .
  { unfold ss4, alter_by_callsite. simpl. rewrite list_lookup_alter_eq, Hcss. simpl. eauto. }
  destruct Hcss4 as (css4 & Hcss4 & Hcs4). rewrite Hcss4. simpl.
  assert (Hlu4 : ss_last_update ss4 = spesh_stats_version env).
  { unfold ss4, alter_by_callsite. simpl. rewrite Hlu3. unfold ss2. simpl.
    unfold ss1, pushed. destruct (ss_last_update ss0 =? _) eqn:E; simpl; [|done].
    by apply Z.eqb_eq in E. }
  assert (HR4 : ss_R ss0 ss4).
  { etrans; [|etrans; [exact HR3|]].
    - unfold ss_R, ss2, ss1. simpl. by destruct pushed.
    - unfold ss4, alter_by_callsite, ss_R. simpl. apply list_ext_alter; [apply _|].
      intros x _. split; [done|]. simpl. reflexivity. }
  eexists _, _, ss4. split; [reflexivity|]. simpl. rewrite Hm.
  split_and!; try done.
  - intros ss Hs. by rewrite <- (Hss0 ss Hs).
  - unfold pushed. case_decide as Hd.
    + apply Z.eqb_eq in Hd. rewrite Hd. simpl. by rewrite app_nil_r.
    + apply Z.eqb_neq in Hd. by rewrite Hd.
  - exists ss4, css4. simpl. rewrite lookup_insert_eq. split_and!; [done..| |done].
    intros Hne. apply Z.eqb_neq in Hne. rewrite Hcs4 in *. rewrite Hne.
    eexists. split; [done|]. rewrite length_replicate. unfold flag_count. lia.
Qed.

(** *** One log entry *)

Lemma callers_step_app (j : nat) (l l1 a1 r1 l2 : list SimStackFrame) :
  callers_after_pop l l1 → l1 = a1 ++ r1 → callers_step j r1 l2 →
  ∃ a r, l = a ++ r ∧ callers_step j r l2.
Proof.
  intros H1 -> H2. destruct a1 as [|x a1]; simpl in *.
  - exists [], l. split; [done|]. by eapply callers_after_pop_step.
  - destruct l as [|c below]; simpl in H1; [done|]. destruct H1 as [_ Hb].
    exists (c :: a1), r1. rewrite <- Hb. done.
Qed.

(** Everything one round of the update loop does to the frames, the log and
    the statistics. *)
Lemma update_entry_spec (st st' : State) (j : nat) :
  update_entry env st j = Ok st' →
  (j < length (log st))%nat
  ∧ stats_R (stats st) (stats st')
  ∧ length (log st') = length (log st)
  ∧ (∀ k, k ≠ j → log st' !! k = log st !! k)
  ∧ (state_ok env st → state_ok env st')
  ∧ ∃ above rest fresh rest',
      sims_frames st = above ++ rest ∧ sims_frames st' = fresh ++ rest'
      ∧ callers_step j rest rest' ∧ Forall (λ g, offset_logs g = []) fresh.
Proof.
  unfold update_entry. intros (e & He%deref_Ok & H)%bind_Ok.
  pose proof (lookup_lt_Some _ _ _ He) as Hj. split; [done|].
  assert (Hother :
    ('(st1, found) ← sim_stack_find env st (log_id e);
     if (found : bool) then update_found env st1 j e else Ok st1) = Ok st' →
    stats_R (stats st) (stats st')
    ∧ length (log st') = length (log st)
    ∧ (∀ k, k ≠ j → log st' !! k = log st !! k)
    ∧ (state_ok env st → state_ok env st')
    ∧ ∃ above rest fresh rest',
        sims_frames st = above ++ rest ∧ sims_frames st' = fresh ++ rest'
        ∧ callers_step j rest rest' ∧ Forall (λ g, offset_logs g = []) fresh).
  { clear H. intros ([st1 found] & Hfind & H)%bind_Ok.
    apply sim_stack_find_spec in Hfind. destruct found.
    - destruct Hfind as (above & g & rest & g' & Hfs & _ & _ & Hpop & Hfs1 & Hsim).
      apply sim_stack_pop_n_spec in Hpop as (_ & _ & _ & _ & _ & HR1 & _ & Hlog1 & _ & Hok1).
      apply update_found_spec in H as (HR & _ & _ & Hlen & Hlog & Hok & a1 & r1 & Hfs1' & Hstep).
      split_and!.
      + by etrans.
      + congruence.
      + intros k Hk. rewrite Hlog by done. congruence.
      + intros H. apply Hok; [congruence | by apply Hok1].
      + destruct (callers_step_app j (g :: rest) (g' :: rest) a1 r1 (sims_frames st'))
          as (a & r & Ha & Hr); [by split | congruence | done |].
        exists (above ++ a), r, [], (sims_frames st'). split_and!; [|done..].
        rewrite Hfs, Ha. by rewrite <- app_assoc.
    - destruct Hfind as [-> _]. injection H as <-. split_and!; try done.
      exists [], (sims_frames st), [], (sims_frames st). split_and!; [done..| |done].
      apply callers_step_refl. }
  destruct e; try (by apply Hother).
  destruct (update_entry_frame_spec st id sf0 cs)
    as (st2 & f & ss' & Hrun & Hst & _ & HR & _ & Hlog & Hfs & Hol & _ & _ & Hf).
  rewrite Hrun in H. injection H as <-.
  assert (HmR : stats_R (stats st) (stats st2)).
  { rewrite Hst. destruct (stats st !! sf0) as [ss|] eqn:Hss.
    - eapply stats_R_insert; [done|]. by apply HR.
    - by apply stats_R_insert_fresh. }
  split_and!; try done.
  - congruence.
  - intros; congruence.
  - unfold state_ok. rewrite Hfs. intros Hok. apply Forall_cons. split; [done|].
    eapply Forall_frame_ok_mono; [exact HmR| |exact Hok]. rewrite Hlog. lia.
  - exists [], (sims_frames st), [f], (sims_frames st). split_and!; [done..| |].
    + apply callers_step_refl.
    + by apply Forall_singleton.
Qed.

(** Except for ENTRY, a round leaves the sink and the stamps alone. *)
Lemma update_entry_sink (st st' : State) (j : nat) (e : MVMSpeshLogEntry) :
  log st !! j = Some e → update_entry env st j = Ok st' →
  match e with
  | LOG_ENTRY id sf0 cs => ∃ f ss',
      stats st' = <[sf0 := ss']> (stats st)
      ∧ ss_last_update ss' = spesh_stats_version env
      ∧ sf_updated st'
        = sf_updated st
          ++ (if decide (last_update_of (stats st) sf0 = spesh_stats_version env)
              then [] else [sf0])
      ∧ sims_frames st' = f :: sims_frames st ∧ sf f = sf0 ∧ cid f = id
  | _ => sf_updated st' = sf_updated st ∧ lu_kept (stats st) (stats st')
  end.
Proof.
  intros He. unfold update_entry. rewrite He. simpl.
  assert (Hother :
    ('(st1, found) ← sim_stack_find env st (log_id e);
     if (found : bool) then update_found env st1 j e else Ok st1) = Ok st' →
    sf_updated st' = sf_updated st ∧ lu_kept (stats st) (stats st')).
  { intros ([st1 found] & Hfind & H)%bind_Ok.
    apply sim_stack_find_spec in Hfind. destruct found.
    - destruct Hfind as (above & g & rest & g' & Hfs & _ & _ & Hpop & Hfs1 & Hsim).
      apply sim_stack_pop_n_spec in Hpop as (_ & _ & _ & _ & _ & _ & Hlu1 & _ & Hsu1 & _).
      apply update_found_spec in H as (_ & Hlu & Hsu & _).
      split; [congruence | by etrans].
    - destruct Hfind as [-> _]. by injection H as <-. }
  destruct e; try (by apply Hother).
  destruct (update_entry_frame_spec st id sf0 cs)
    as (st2 & f & ss' & Hrun & Hst & Hlu & _ & Hsu & _ & Hfs & _ & Hsf & Hcid & _).
  rewrite Hrun. intros [= <-]. exists f, ss'. done.
Qed.

End WithEnv.

Section WithEnv.
Variable env : Env.

(** ** Popping a frame whose tuple cannot be keyed on *)

(** C3: a frame whose type tuple cannot be keyed on (its callsite record has
    the null callsite, or a callsite without object arguments, or the tuple
    is incomplete) is popped as follows: the pop returns, removes just that
    frame and leaves the callers as they are, and rewrites the statistics of
    the frame's static frame only, where every callsite record keeps its
    ByType records (with their ByOffset records), its hits and its callsite.
    Nothing of the buffered events and call type infos is recorded. *)
Theorem pop_without_usable_tuple (st : State) (simf : SimStackFrame)
    (callers : list SimStackFrame) (ss : MVMSpeshStats) (css : MVMSpeshStatsByCallsite) :
  sims_frames st = simf :: callers →
  stats st !! sf simf = Some ss →
  ss_by_callsite ss !! callsite_idx simf = Some css →
  tuple_unusable env css simf →
  ∃ ss',
    sim_stack_pop env st
      = Ok (mkState (<[sf simf := ss']> (stats st)) callers
              (wrap32 (sims_depth st - 1)) (log st) (sf_updated st))
    ∧ css_by_type <$> ss_by_callsite ss' = css_by_type <$> ss_by_callsite ss
    ∧ css_hits <$> ss_by_callsite ss' = css_hits <$> ss_by_callsite ss
    ∧ css_cs <$> ss_by_callsite ss' = css_cs <$> ss_by_callsite ss
    ∧ ss_hits ss' = ss_hits ss
    ∧ ss_static_values ss' = ss_static_values ss
    ∧ ss_last_update ss' = ss_last_update ss.
Proof.
  intros Hfs Hss Hcss Hun.
  exists (add_osr_and_depth ss simf (sims_depth st)).
  destruct (add_osr_and_depth_callsites ss simf (sims_depth st)) as (Hcs & Hh & Hbt).
  destruct (add_osr_and_depth_fields ss simf (sims_depth st)) as (Hhits & Hsv & Hlu).
  split_and!; try done.
  unfold sim_stack_pop. rewrite Hfs, Hss. simpl. rewrite Hcss. simpl.
  destruct (add_osr_and_depth_lookup ss simf (sims_depth st) _ _ Hcss)
    as (css' & Hcss' & Hcs' & _).
  rewrite (by_type_unusable env _ simf css' Hcss'); [done|].
  unfold tuple_unusable in *. by rewrite Hcs'.
Qed.

End WithEnv.

Section WithEnv.
Variable env : Env.

(** ** The sink of updated frames *)

(** The log [l] has an ENTRY for static frame [sf0] at one of the positions
    [es]. *)
Definition has_entry_in (l : list MVMSpeshLogEntry) (es : list nat) (sf0 : Z) : Prop :=
  ∃ i id cs, i ∈ es ∧ l !! i = Some (LOG_ENTRY id sf0 cs).

Lemma last_update_of_kept (m m' : gmap Z MVMSpeshStats) (sf0 : Z) :
  lu_kept m m' → last_update_of m' sf0 = last_update_of m sf0.
Proof.
  intros H. specialize (H sf0). unfold last_update_of.
  destruct (m !! sf0), (m' !! sf0); simplify_eq/=; done.
Qed.

Lemma update_entries_sink (es : list nat) :
  ∀ st st', NoDup es → update_entries env st es = Ok st' →
    ∃ pushed,
      sf_updated st' = sf_updated st ++ pushed ∧ NoDup pushed
      ∧ (∀ sf0, sf0 ∈ pushed ↔
           has_entry_in (log st) es sf0
           ∧ last_update_of (stats st) sf0 ≠ spesh_stats_version env)
      ∧ (∀ sf0, has_entry_in (log st) es sf0 →
           last_update_of (stats st') sf0 = spesh_stats_version env)
      ∧ (∀ sf0, last_update_of (stats st) sf0 = spesh_stats_version env →
           last_update_of (stats st') sf0 = spesh_stats_version env).
Proof.
  induction es as [|j es IH]; intros st st' Hnd; simpl.
  - intros [= <-]. exists []. rewrite app_nil_r. split_and!; try done.
    + apply NoDup_nil_2.
    + intros sf0. split; [by intros ?%elem_of_nil|].
      intros [(i & ? & ? & ?%elem_of_nil & _) _]. done.
    + intros sf0 (i & ? & ? & ?%elem_of_nil & _). done.
  - intros (st1 & Hj & Hes)%bind_Ok.
    apply NoDup_cons in Hnd as [Hjes Hnd].
    destruct (IH _ _ Hnd Hes) as (pushed' & Hsu' & Hnd' & Hin' & Hyes' & Hno').
    pose proof (update_entry_spec env _ _ _ Hj) as (Hlt & _ & _ & Hlog & _).
    destruct (lookup_lt_is_Some_2 (log st) j Hlt) as [e He].
    pose proof (update_entry_sink env _ _ _ _ He Hj) as Hsink.
    assert (Hhas' : ∀ x, has_entry_in (log st1) es x ↔ has_entry_in (log st) es x).
    { intros x. unfold has_entry_in. split; intros (i & id & cs & Hi & Hl);
        exists i, id, cs; (split; [done|]);
        [rewrite <- Hlog | rewrite Hlog]; try done; intros ->; done. }
    assert (Hhas : ∀ x, has_entry_in (log st) (j :: es) x ↔
              (∃ id cs, e = LOG_ENTRY id x cs) ∨ has_entry_in (log st) es x).
    { intros x. unfold has_entry_in. split.
      - intros (i & id & cs & [->|Hi]%elem_of_cons & Hl).
        + left. exists id, cs. congruence.
        + right. eauto.
      - intros [(id & cs & ->)|(i & id & cs & Hi & Hl)].
        + exists j, id, cs. split; [by left | done].
        + exists i, id, cs. split; [by right | done]. }
    assert ((∃ id sf0 cs, e = LOG_ENTRY id sf0 cs) ∨ ¬ (∃ id sf0 cs, e = LOG_ENTRY id sf0 cs))
      as [(id & sf0 & cs & ->)|Hne].
    { destruct e; eauto; right; intros (? & ? & ? & ?); done. }
    + (* ENTRY *)
      destruct Hsink as (f & ss' & Hst & Hlu & Hsu & _).
      assert (Hlu1 : last_update_of (stats st1) sf0 = spesh_stats_version env).
      { unfold last_update_of. by rewrite Hst, lookup_insert_eq. }
      assert (Hlu1' : ∀ x, x ≠ sf0 →
                last_update_of (stats st1) x = last_update_of (stats st) x).
      { intros x Hx. unfold last_update_of. by rewrite Hst, lookup_insert_ne. }
      assert (Hnot : sf0 ∉ pushed').
      { intros [_ H]%Hin'. done. }
      exists ((if decide (last_update_of (stats st) sf0 = spesh_stats_version env)
               then [] else [sf0]) ++ pushed').
      split_and!.
      * rewrite Hsu', Hsu. by rewrite <- app_assoc.
      * case_decide; simpl; [done|]. by apply NoDup_cons.
      * intros x. rewrite elem_of_app, Hin', Hhas', Hhas.
        assert (HE : (∃ id' cs', LOG_ENTRY id sf0 cs = LOG_ENTRY id' x cs') ↔ x = sf0).
        { split; [by intros (? & ? & [= _ -> _]) | intros ->; eauto]. }
        rewrite HE. clear HE.
        destruct (decide (x = sf0)) as [->|Hx].
        -- rewrite Hlu1. case_decide as Hd.
           ++ rewrite elem_of_nil. tauto.
           ++ rewrite list_elem_of_singleton. tauto.
        -- rewrite (Hlu1' x Hx). case_decide.
           ++ rewrite elem_of_nil. tauto.
           ++ rewrite list_elem_of_singleton. tauto.
      * intros x [(id' & cs' & [= _ <- _])|Hx]%Hhas.
        -- by apply Hno'.
        -- apply Hyes'. by apply Hhas'.
      * intros x Hx. apply Hno'.
        destruct (decide (x = sf0)) as [->|Hxs]; [done|]. by rewrite Hlu1'.
    + (* any other kind *)
      assert (Hsink' : sf_updated st1 = sf_updated st ∧ lu_kept (stats st) (stats st1)).
      { destruct e; try done. destruct Hne. eauto. }
      destruct Hsink' as [Hsu Hlu].
      assert (Hhas2 : ∀ x, has_entry_in (log st) (j :: es) x ↔ has_entry_in (log st) es x).
      { intros x. rewrite Hhas. split; [|tauto]. intros [(id & cs & ->)|H]; [|done].
        destruct Hne. eauto. }
      exists pushed'. split_and!.
      * congruence.
      * done.
      * intros x. rewrite Hin', Hhas', Hhas2, (last_update_of_kept _ _ x Hlu). done.
      * intros x Hx%Hhas2. apply Hyes'. by apply Hhas'.
      * intros x Hx. apply Hno'. by rewrite (last_update_of_kept _ _ x Hlu).
Qed.

Lemma update_sink_spec (st st' : State) :
  MVM_spesh_stats_update env st = Ok st' →
  ∃ pushed,
    sf_updated st' = sf_updated st ++ pushed
    ∧ NoDup pushed
    ∧ (∀ sf0, sf0 ∈ pushed ↔
         has_entry (log st) sf0
         ∧ last_update_of (stats st) sf0 ≠ spesh_stats_version env)
    ∧ (∀ sf0, has_entry (log st) sf0 →
         last_update_of (stats st') sf0 = spesh_stats_version env).
Proof.
  unfold MVM_spesh_stats_update. intros (st1 & Hloop & Hdestroy)%bind_Ok.
  apply update_entries_sink in Hloop as (pushed & Hsu & Hnd & Hin & Hyes & _);
    [|apply NoDup_seq].
  unfold sim_stack_destroy in Hdestroy.
  apply sim_stack_pop_n_spec in Hdestroy as (_ & _ & _ & _ & _ & _ & Hlu & _ & Hsu' & _).
  assert (Hhas : ∀ x, has_entry_in (log st) (seq 0 (length (log st))) x ↔ has_entry (log st) x).
  { intros x. unfold has_entry_in, has_entry. split.
    - intros (i & id & cs & _ & H). eauto.
    - intros (i & id & cs & H). exists i, id, cs. split; [|done].
      apply elem_of_seq. apply lookup_lt_Some in H. lia. }
  simpl in *. exists pushed. split_and!.
  - congruence.
  - done.
  - intros x. by rewrite Hin, Hhas.
  - intros x Hx%Hhas. rewrite (last_update_of_kept _ _ x Hlu). by apply Hyes.
Qed.

(** C2: an update call extends the sink of updated frames by a list without
    repetitions, which holds exactly the static frames that have an ENTRY in
    the log and whose statistics were behind the version counter; all the
    static frames with an ENTRY carry the version afterwards. *)
Theorem update_pushes_each_stale_frame_once (st st' : State) :
  not_ahead env (stats st) →
  MVM_spesh_stats_update env st = Ok st' →
  ∃ pushed,
    sf_updated st' = sf_updated st ++ pushed
    ∧ NoDup pushed
    ∧ (∀ sf0, sf0 ∈ pushed ↔
         has_entry (log st) sf0
         ∧ last_update_of (stats st) sf0 < spesh_stats_version env)
    ∧ (∀ sf0, has_entry (log st) sf0 →
         last_update_of (stats st') sf0 = spesh_stats_version env).
Proof.
  intros Hinv Hrun.
  destruct (update_sink_spec st st' Hrun) as (pushed & Hsu & Hnd & Hin & Hset).
  exists pushed. split_and!; [done..| |done].
  intros sf0. rewrite Hin. specialize (Hinv sf0). split; intros [? ?]; split; [done|lia|done|lia].
Qed.

End WithEnv.

Section WithEnv.
Variable env : Env.

Lemma sim_stack_pop_n_Ok (n : nat) :
  ∀ st, state_ok env st → (n ≤ length (sims_frames st))%nat →
    ∃ st', sim_stack_pop_n env n st = Ok st'.
Proof.
  induction n as [|n IH]; intros st Hok Hn; simpl; [eauto|].
  destruct (sim_stack_pop_Ok env st Hok) as [st1 Hpop].
  { destruct (sims_frames st); simpl in *; [lia | done]. }
  rewrite Hpop. simpl. apply IH; [by eapply sim_stack_pop_ok|].
  apply sim_stack_pop_spec in Hpop as (f & callers & _ & _ & Hfs & _ & _ & _ & _ & _ & _ & _ & Hc & _).
  rewrite Hfs in Hn. simpl in Hn.
  destruct callers, (sims_frames st1); simpl in *; try done; try lia.
  destruct Hc as [_ ->]. lia.
Qed.

(** C4: a round of the update loop for an entry that is not an ENTRY.  Either
    some frame has the entry's correlation id: then the frames above the
    topmost such frame are popped, each by [sim_stack_pop], the frame
    itself is left on top of the frames under it (it may have received a
    call type info from the last pop), and the entry is applied to it.  Or
    no frame has it: then the round returns the state it was given, and
    so does [sim_stack_find]. *)
Theorem event_reaches_its_frame (st : State) (i : nat) (e : MVMSpeshLogEntry) :
  state_ok env st →
  log st !! i = Some e →
  (∀ id sf0 cs, e ≠ LOG_ENTRY id sf0 cs) →
  (∃ above g rest st1 g',
      sims_frames st = above ++ g :: rest
      ∧ cid g = log_id e ∧ (∀ f, f ∈ above → cid f ≠ log_id e)
      ∧ sim_stack_pop_n env (length above) st = Ok st1
      ∧ sims_frames st1 = g' :: rest ∧ frame_sim g g'
      ∧ update_entry env st i = update_found env st1 i e)
  ∨ ((∀ f, f ∈ sims_frames st → cid f ≠ log_id e)
     ∧ sim_stack_find env st (log_id e) = Ok (st, false)
     ∧ update_entry env st i = Ok st).
Proof.
  intros Hok He Hne.
  assert (Hue : update_entry env st i
                = ('(st1, found) ← sim_stack_find env st (log_id e);
                   if (found : bool) then update_found env st1 i e else Ok st1)).
  { unfold update_entry. rewrite He. simpl. destruct e; try done. by destruct (Hne id sf0 cs). }
  destruct (find_index (λ f : SimStackFrame, cid f =? log_id e) (sims_frames st))
    as [n|] eqn:Hfi.
  - left. pose proof Hfi as Hfi'.
    apply find_index_split in Hfi as (above & g & rest & Hfs & Hlen & Hg%Z.eqb_eq & Habove).
    destruct (sim_stack_pop_n_Ok (length above) st Hok) as [st1 Hpop].
    { rewrite Hfs, length_app. lia. }
    pose proof Hpop as Hpop'.
    apply sim_stack_pop_n_spec in Hpop as (a & r & Hfs' & Hla & Hc & _).
    rewrite Hfs in Hfs'. apply app_inj_1 in Hfs' as [_ <-]; [|done].
    destruct (sims_frames st1) as [|g' rest'] eqn:Hfs1; simpl in Hc; [done|].
    destruct Hc as [Hsim ->].
    exists above, g, rest, st1, g'. split_and!; try done.
    + intros f Hf. apply Z.eqb_neq. by apply Habove.
    + rewrite Hue. unfold sim_stack_find. rewrite Hfi', <- Hlen, Hpop'. done.
  - right.
    assert (Hfind : sim_stack_find env st (log_id e) = Ok (st, false)).
    { unfold sim_stack_find. by rewrite Hfi. }
    split_and!; [|done|by rewrite Hue, Hfind].
    intros f Hf. apply Z.eqb_neq. by eapply find_index_None in Hfi.
Qed.

End WithEnv.

Section WithEnv.
Variable env : Env.

(** ** Return types at the call site *)

Lemma attributed_mono (m m' : gmap Z MVMSpeshStats) (sf0 : Z) (idx : nat)
    (a : list MVMSpeshStatsType) (off ty c : Z) :
  stats_R m m' → attributed env m sf0 idx a off ty c → attributed env m' sf0 idx a off ty c.
Proof.
  intros Hm (ss & css & k & tss & Hss & Hcss & Htss & Hcmp & Hty).
  destruct (Hm _ _ Hss) as (ss' & Hss' & HR).
  destruct (HR _ _ Hcss) as (css' & Hcss' & Hcs & HRt).
  destruct (HRt _ _ Htss) as (tss' & Htss' & HRo).
  exists ss', css', k, tss'. split_and!; [done..| |].
  - destruct HRo as [-> _]. by rewrite Hcs.
  - by eapply has_type_mono.
Qed.

(** The pop of a frame that buffered the entry at [i], a TYPE or RETURN
    entry, and whose tuple is usable. *)
Lemma sim_stack_pop_attributes (st : State) (f : SimStackFrame)
    (callers : list SimStackFrame) (ss : MVMSpeshStats) (css : MVMSpeshStatsByCallsite)
    (i : nat) (id ty flags off : Z) :
  state_ok env st →
  sims_frames st = f :: callers →
  i ∈ offset_logs f →
  log st !! i = Some (LOG_RETURN id ty flags off) →
  stats st !! sf f = Some ss →
  ss_by_callsite ss !! callsite_idx f = Some css →
  tuple_usable env css f →
  ∃ st' a,
    sim_stack_pop env st = Ok st' ∧ arg_types f = Some a
    ∧ attributed env (stats st') (sf f) (callsite_idx f) a off ty
        (Z.land flags MVM_SPESH_LOG_TYPE_FLAG_CONCRETE).
Proof.
  intros Hok Hfs Hi Hlog Hss Hcss Hus.
  destruct (sim_stack_pop_Ok env st Hok) as [st' Hpop]; [by rewrite Hfs|].
  pose proof Hpop as Hpop'.
  unfold sim_stack_pop in Hpop. rewrite Hfs, Hss in Hpop. simpl in Hpop.
  rewrite Hcss in Hpop. simpl in Hpop.
  destruct (add_osr_and_depth_lookup ss f (sims_depth st) _ _ Hcss)
    as (css0 & Hcss0 & Hcs0 & _).
  assert (Hus0 : tuple_usable env css0 f) by (unfold tuple_usable in *; by rewrite Hcs0).
  destruct (by_type_usable env _ f css0 Hcss0 Hus0) as (ss1 & found & Hbt).
  rewrite Hbt in Hpop. simpl in Hpop.
  apply by_type_spec in Hbt as (_ & _ & _ & _ & _ & _ & _ & css1 & tss & a & Hcss1 & Htss & Ha & Hcmp).
  rewrite Hcss1 in Hpop. simpl in Hpop. rewrite Htss in Hpop. simpl in Hpop.
  apply bind_Ok in Hpop as (tss1 & Hinc & [= <-]).
  eexists. exists a. split; [exact Hpop'|]. split; [done|].
  apply incorporate_offset_logs_spec in Hinc as [HR1 Hty].
  specialize (Hty i id ty flags off Hi (or_intror Hlog)).
  set (tss2 := bump_by_type _ _ _).
  assert (HR2 : tss_R tss tss2).
  { etrans; [exact HR1|]. etrans; [apply foldl_call_type_info_R|]. apply bump_by_type_R. }
  exists (alter_by_callsite (λ c, set_by_type c (<[found := tss2]> (css_by_type c)))
            (callsite_idx f) ss1),
         (set_by_type css1 (<[found := tss2]> (css_by_type css1))), found, tss2.
  split_and!.
  - simpl. by rewrite lookup_insert_eq.
  - simpl. by rewrite list_lookup_alter_eq, Hcss1.
  - simpl. rewrite list_lookup_insert_eq; [done|]. by eapply lookup_lt_Some.
  - destruct HR2 as [HA _]. rewrite HA. exact Hcmp.
  - eapply has_type_mono; [|exact Hty].
    etrans; [apply foldl_call_type_info_R|]. apply bump_by_type_R.
Qed.

Lemma later_stats_R (i : nat) (st st' : State) :
  rtc (later env i) st st' → stats_R (stats st) (stats st').
Proof.
  induction 1 as [st|st st1 st' Hstep _ IH]; [done|].
  etrans; [|exact IH]. destruct Hstep as [st st1 j _ Hj|st st1 Hpop].
  - by apply update_entry_spec in Hj as (_ & HR & _).
  - apply sim_stack_pop_spec in Hpop as (f & callers & ss & ss' & _ & Hss & -> & HR & _).
    by eapply stats_R_insert.
Qed.

(** The loop and the teardown consist of such steps. *)
Lemma update_entries_later (i : nat) (es : list nat) :
  ∀ st st', i ∉ es → update_entries env st es = Ok st' → rtc (later env i) st st'.
Proof.
  induction es as [|j es IH]; intros st st' Hi; simpl.
  - intros [= <-]. done.
  - intros (st1 & Hj & Hes)%bind_Ok. apply not_elem_of_cons in Hi as [Hij Hi].
    eapply rtc_l; [|by eapply IH]. by eapply later_entry.
Qed.

Lemma sim_stack_pop_n_later (i n : nat) :
  ∀ st st', sim_stack_pop_n env n st = Ok st' → rtc (later env i) st st'.
Proof.
  induction n as [|n IH]; intros st st'; simpl.
  - intros [= <-]. done.
  - intros (st1 & Hpop & Hn)%bind_Ok. eapply rtc_l; [|by eapply IH]. by apply later_pop.
Qed.

(** While the entry at [i] is buffered, it is buffered by the caller, and
    the log keeps what the RETURN case wrote there. *)
Definition held (i : nat) (e : MVMSpeshLogEntry) (sfC : Z) (idxC : nat) (st : State) : Prop :=
  log st !! i = Some e ∧ state_ok env st
  ∧ ∀ g, g ∈ sims_frames st → i ∈ offset_logs g → sf g = sfC ∧ callsite_idx g = idxC.

Lemma later_held (i : nat) (e : MVMSpeshLogEntry) (sfC : Z) (idxC : nat) (st st' : State) :
  later env i st st' → held i e sfC idxC st → held i e sfC idxC st'.
Proof.
  intros Hstep (Hlog & Hok & Hheld). destruct Hstep as [st st' j Hji Hj|st st' Hpop].
  - apply update_entry_spec in Hj
      as (_ & _ & _ & Hlog' & Hok' & above & rest & fresh & rest' & Hfs & Hfs' & Hstep & Hfresh).
    split_and!; [by rewrite Hlog' | by apply Hok' |].
    intros g Hg Hig. rewrite Hfs' in Hg. apply elem_of_app in Hg as [Hg|Hg].
    + rewrite Forall_forall in Hfresh. rewrite (Hfresh g Hg) in Hig. by apply elem_of_nil in Hig.
    + destruct rest as [|c below], rest' as [|c' below']; simpl in Hstep; try done;
        [by apply elem_of_nil in Hg|].
      destruct Hstep as [(Hsf & _ & Hidx & Hol & _) ->].
      apply elem_of_cons in Hg as [->|Hg].
      * rewrite Hsf, Hidx. apply Hheld.
        -- rewrite Hfs. apply elem_of_app. right. by left.
        -- destruct Hol as [<-|Hol]; [done|]. rewrite Hol in Hig.
           apply elem_of_app in Hig as [?|Hig]; [done|].
           apply list_elem_of_singleton in Hig. congruence.
      * apply Hheld; [|done]. rewrite Hfs. apply elem_of_app. right. by right.
  - pose proof (sim_stack_pop_ok env _ _ Hok Hpop) as Hok'.
    apply sim_stack_pop_spec in Hpop
      as (f & callers & _ & _ & Hfs & _ & _ & _ & _ & _ & _ & _ & Hc & _ & Hlog' & _).
    split_and!; [congruence | done |].
    intros g Hg Hig.
    destruct callers as [|c below], (sims_frames st') as [|c' below']; simpl in Hc; try done;
      [by apply elem_of_nil in Hg|].
    destruct Hc as [(Hsf & _ & Hidx & _ & Hol & _) ->].
    apply elem_of_cons in Hg as [->|Hg].
    + rewrite Hsf, Hidx. apply Hheld; [rewrite Hfs; right; by left | congruence].
    + apply Hheld; [|done]. rewrite Hfs. right. by right.
Qed.

Lemma rtc_later_held (i : nat) (e : MVMSpeshLogEntry) (sfC : Z) (idxC : nat) (st st' : State) :
  rtc (later env i) st st' → held i e sfC idxC st → held i e sfC idxC st'.
Proof.
  induction 1 as [|? ? ? Hstep _ IH]; [done|]. intros Hh. apply IH. by eapply later_held.
Qed.

(** C1 (amended): a RETURN with a type at position [i] of the log, whose
    frame is found and popped, leaving a caller whose last invoked code is
    a concrete code object of the popped frame's static frame: the round
    returns, has rewritten the entry's offset to the caller's
    [last_invoke_offset] and buffered it in the caller.  Whenever later the
    frame that holds the entry is popped with a type tuple that can be
    keyed on, that frame is the caller, the pop returns, and from then on
    the statistics of the caller's static frame hold the returned type
    with its concrete flag at that offset, under the ByType of the
    caller's tuple.  (Without a usable tuple the pop drops the entry.) *)
Theorem return_type_reaches_call_site (st stA stB : State) (i : nat) (id ty flags off0 : Z)
    (callee caller : SimStackFrame) (below : list SimStackFrame) :
  state_ok env st →
  Forall (λ g, i ∉ offset_logs g) (sims_frames st) →
  log st !! i = Some (LOG_RETURN id ty flags off0) →
  ty ≠ 0 →
  sim_stack_find env st id = Ok (stA, true) →
  top_frame stA = Ok callee →
  sim_stack_pop env stA = Ok stB →
  sims_frames stB = caller :: below →
  last_invoke_code caller ≠ 0 →
  concrete_code env (last_invoke_code caller) = true →
  code_sf env (last_invoke_code caller) = sf callee →
  ∃ st1,
    update_entry env st i = Ok st1
    ∧ sims_frames st1 = push_offset_log caller i :: below
    ∧ log st1 !! i = Some (LOG_RETURN id ty flags (last_invoke_offset caller))
    ∧ ∀ st2 f callers ss css,
        rtc (later env i) st1 st2 →
        sims_frames st2 = f :: callers →
        i ∈ offset_logs f →
        stats st2 !! sf f = Some ss →
        ss_by_callsite ss !! callsite_idx f = Some css →
        tuple_usable env css f →
        sf f = sf caller ∧ callsite_idx f = callsite_idx caller
        ∧ ∃ st3 a,
            sim_stack_pop env st2 = Ok st3 ∧ arg_types f = Some a
            ∧ ∀ st4, rtc (later env i) st3 st4 →
                attributed env (stats st4) (sf caller) (callsite_idx caller) a
                  (last_invoke_offset caller) ty
                  (Z.land flags MVM_SPESH_LOG_TYPE_FLAG_CONCRETE).
Proof.
  intros Hok Hfresh Hlog Hty Hfind Htop Hpop Hfs Hlic Hcc Hsf.
  set (st1 := set_log (set_frames stB (push_offset_log caller i :: below))
                (<[i := LOG_RETURN id ty flags (last_invoke_offset caller)]> (log stB))).
  assert (Hrun : update_entry env st i = Ok st1).
  { unfold update_entry. rewrite Hlog. simpl. rewrite Hfind. simpl.
    unfold update_return. rewrite Htop. simpl. rewrite Hpop. simpl. rewrite Hfs.
    apply Z.eqb_neq in Hty, Hlic. rewrite Hty, Hlic, Hcc, Hsf, Z.eqb_refl. done. }
  pose proof (lookup_lt_Some _ _ _ Hlog) as Hi.
  pose proof (update_entry_spec env _ _ _ Hrun) as (_ & _ & Hlen & _ & Hok1 & _).
  (* no frame of [stB] holds [i] *)
  apply sim_stack_find_spec in Hfind
    as (above & g & rest & g' & HfsS & _ & _ & HpopA & HfsA & Hsim).
  apply sim_stack_pop_n_spec in HpopA as (_ & _ & _ & _ & _ & _ & _ & HlogA & _).
  apply sim_stack_pop_spec in Hpop
    as (f0 & callers0 & _ & _ & HfsA' & _ & _ & _ & _ & _ & _ & _ & Hc & _ & HlogB & _).
  rewrite HfsA in HfsA'. injection HfsA' as <- <-.
  rewrite Hfs in Hc. destruct rest as [|c rest]; simpl in Hc; [done|].
  destruct Hc as [HsimC ->].
  rewrite HfsS in Hfresh. apply Forall_app in Hfresh as [_ Hfresh].
  apply Forall_cons in Hfresh as [_ Hfresh]. apply Forall_cons in Hfresh as [HfrC Hfresh].
  assert (Hlog1 : log st1 !! i = Some (LOG_RETURN id ty flags (last_invoke_offset caller))).
  { simpl. rewrite list_lookup_insert_eq; [done|]. congruence. }
  assert (Hheld : held i (LOG_RETURN id ty flags (last_invoke_offset caller))
                    (sf caller) (callsite_idx caller) st1).
  { split_and!; [done | by apply Hok1 |].
    simpl. intros x [->|Hx]%elem_of_cons Hix; [done|].
    rewrite Forall_forall in Hfresh. by destruct (Hfresh x Hx). }
  exists st1. split_and!; [done..|].
  intros st2 f callers ss css Hreach Hfs2 Hif Hss Hcss Hus.
  pose proof (rtc_later_held _ _ _ _ _ _ Hreach Hheld) as (Hlog2 & Hok2 & Hheld2).
  destruct (Hheld2 f) as [HsfF HidxF]; [rewrite Hfs2; by left | done |].
  split; [done|]. split; [done|].
  destruct (sim_stack_pop_attributes st2 f callers ss css i _ _ _ _
              Hok2 Hfs2 Hif Hlog2 Hss Hcss Hus) as (st3 & a & Hpop3 & Ha & Hatt).
  exists st3, a. split_and!; [done..|].
  intros st4 Hreach'. rewrite <- HsfF, <- HidxF.
  eapply attributed_mono; [|exact Hatt]. by eapply later_stats_R.
Qed.

End WithEnv.

Section WithEnv.
Variable env : Env.

Lemma cleanup_frames_spec (m : gmap Z MVMSpeshStats) (rest : list Z) :
  ∀ (pre : list Z) (m_cur : gmap Z MVMSpeshStats) (pos : nat),
    (pos ≤ length pre)%nat →
    (∀ sf, m_cur !! sf = m !! sf ∨ (m_cur !! sf = None ∧ aged env m sf = true)) →
    ∃ arr' m' pos',
      cleanup_frames env (pre ++ rest, m_cur, pos) (seq (length pre) (length rest))
        = Ok (arr', m', pos')
      ∧ take pos' arr' = take pos pre ++ filter (λ sf, retained env m sf) rest
      ∧ (∀ sf, m' !! sf = if decide (sf ∈ rest ∧ aged env m sf = true) then None
                          else m_cur !! sf).
Proof.
  induction rest as [|sf rest IH]; intros pre m_cur pos Hpos Hm.
  - exists pre, m_cur, pos. simpl. rewrite !app_nil_r. split_and!; done.
  - cbn [length seq cleanup_frames]. unfold cleanup_frame at 1.
    assert (Hat : (pre ++ sf :: rest) !! length pre = Some sf).
    { rewrite lookup_app_r by lia. by rewrite Nat.sub_diag. }
    rewrite Hat. cbn [deref mbind outcome_bind].
    assert (Hsplit : pre ++ sf :: rest = (pre ++ [sf]) ++ rest) by by rewrite <- app_assoc.
    assert (Hlen : S (length pre) = length (pre ++ [sf])) by (rewrite length_app; simpl; lia).
    destruct (m_cur !! sf) as [ss|] eqn:Hcur.
    + assert (Hm0 : m !! sf = Some ss).
      { destruct (Hm sf) as [H|[H _]]; congruence. }
      destruct (stats_age env (ss_last_update ss) >? MVM_SPESH_STATS_MAX_AGE env) eqn:Hage.
      * (* old: destroyed and dropped *)
        rewrite Hsplit, Hlen.
        destruct (IH (pre ++ [sf]) (delete sf m_cur) pos) as (arr' & m' & pos' & Hrun & Htake & Hm').
        { rewrite length_app. simpl. lia. }
        { intros x. destruct (decide (x = sf)) as [->|Hne].
          - right. rewrite lookup_delete_eq. split; [done|]. unfold aged. by rewrite Hm0.
          - rewrite lookup_delete_ne by done. apply Hm. }
        exists arr', m', pos'. split_and!; [exact Hrun | |].
        -- rewrite Htake. rewrite take_app_le by lia.
           rewrite filter_cons_False; [done|]. unfold retained. rewrite Hm0, Hage. simpl. tauto.
        -- intros x. rewrite Hm'. destruct (decide (x = sf)) as [->|Hne].
           ++ rewrite lookup_delete_eq.
              assert (Hd : sf ∈ sf :: rest ∧ aged env m sf = true).
              { split; [left|]. unfold aged. by rewrite Hm0. }
              rewrite (decide_True _ _ Hd). by case_decide.
           ++ rewrite lookup_delete_ne by done.
              apply decide_ext. rewrite elem_of_cons. tauto.
      * (* young: kept, written at insert_pos *)
        assert (Hins : <[pos := sf]> (pre ++ sf :: rest) = <[pos := sf]> (pre ++ [sf]) ++ rest).
        { rewrite Hsplit. rewrite insert_app_l; [done|]. rewrite length_app. simpl. lia. }
        rewrite Hins.
        assert (Hlen' : S (length pre) = length (<[pos := sf]> (pre ++ [sf]))).
        { rewrite length_insert. exact Hlen. }
        rewrite Hlen'.
        destruct (IH (<[pos := sf]> (pre ++ [sf])) m_cur (S pos)) as (arr' & m' & pos' & Hrun & Htake & Hm').
        { rewrite <- Hlen'. lia. }
        { exact Hm. }
        exists arr', m', pos'. split_and!; [exact Hrun | |].
        -- rewrite Htake.
           rewrite filter_cons_True by (unfold retained; rewrite Hm0, Hage; exact I).
           assert (Hpos' : (pos < length (pre ++ [sf]))%nat) by (rewrite length_app; simpl; lia).
           rewrite (take_S_r _ _ sf) by (by apply list_lookup_insert_eq).
           rewrite take_insert_ge by lia.
           assert (take pos (pre ++ [sf]) = take pos pre) as ->.
           { rewrite take_app_le by lia. done. }
           by rewrite <- app_assoc.
        -- intros x. rewrite Hm'. apply decide_ext. rewrite elem_of_cons.
           split; [tauto|]. intros [[->|H] Ha]; [|done].
           exfalso. unfold aged in Ha. rewrite Hm0, Hage in Ha. done.
    + (* no stats: dropped *)
      rewrite Hsplit, Hlen.
      destruct (IH (pre ++ [sf]) m_cur pos) as (arr' & m' & pos' & Hrun & Htake & Hm').
      { rewrite length_app. simpl. lia. }
      { exact Hm. }
      exists arr', m', pos'. split_and!; [exact Hrun | |].
      -- rewrite Htake. rewrite take_app_le by lia.
         rewrite filter_cons_False; [done|].
         unfold retained. destruct (Hm sf) as [H|[_ H]].
         ++ rewrite <- H, Hcur. simpl. tauto.
         ++ unfold aged in H. destruct (m !! sf); [|simpl; tauto].
            rewrite H. simpl. tauto.
      -- intros x. rewrite Hm'. destruct (decide (x = sf)) as [->|Hne].
         ++ rewrite Hcur. by repeat case_decide.
         ++ apply decide_ext. rewrite elem_of_cons. tauto.
Qed.

Lemma stats_age_not_ahead (last_update : Z) :
  0 <= last_update <= spesh_stats_version env → spesh_stats_version env < 2 ^ 64 →
  stats_age env last_update = spesh_stats_version env - last_update.
Proof. intros Hlu Hv. unfold stats_age, wrap64. apply Z.mod_small. lia. Qed.

(** C8: [MVM_spesh_stats_cleanup] returns; the sink it leaves holds, in their
    order, the frames of the given sink whose statistics exist and are not
    older than [MVM_SPESH_STATS_MAX_AGE]; the statistics of the frames of
    the sink that were older are destroyed (absent afterwards), and the
    statistics of every other frame are as before. *)
Theorem cleanup_compacts_and_destroys (check_frames : list Z) (m : gmap Z MVMSpeshStats) :
  (∃ m',
     MVM_spesh_stats_cleanup env check_frames m
       = Ok (filter (λ sf, retained env m sf) check_frames, m')
     ∧ (∀ sf, sf ∈ check_frames → aged env m sf = true → m' !! sf = None)
     ∧ (∀ sf, ¬ (sf ∈ check_frames ∧ aged env m sf = true) → m' !! sf = m !! sf))
  ∧ (∀ sf ss,
       m !! sf = Some ss →
       0 <= ss_last_update ss <= spesh_stats_version env → spesh_stats_version env < 2 ^ 64 →
       (retained env m sf = true
        ↔ spesh_stats_version env - ss_last_update ss <= MVM_SPESH_STATS_MAX_AGE env)
       ∧ (aged env m sf = true
          ↔ spesh_stats_version env - ss_last_update ss > MVM_SPESH_STATS_MAX_AGE env))
  ∧ (∀ sf, m !! sf = None → retained env m sf = false ∧ aged env m sf = false).
Proof.
  split; [|split].
  - destruct (cleanup_frames_spec m check_frames [] m 0%nat)
      as (arr' & m' & pos' & Hrun & Htake & Hm'); [simpl; lia | by left |].
    exists m'. unfold MVM_spesh_stats_cleanup. simpl in Hrun. rewrite Hrun.
    cbn [mbind outcome_bind]. rewrite Htake. simpl. split_and!; [done| |].
    + intros sf Hin Ha. rewrite Hm'. by rewrite decide_True.
    + intros sf Hn. rewrite Hm'. by rewrite decide_False.
  - intros sf ss Hss Hlu Hv. unfold retained, aged. rewrite Hss.
    rewrite (stats_age_not_ahead _ Hlu Hv), Z.gtb_ltb.
    destruct (Z.ltb_spec (MVM_SPESH_STATS_MAX_AGE env)
                (spesh_stats_version env - ss_last_update ss)); simpl;
      split; split; intros; first [done | lia].
  - intros sf Hss. unfold retained, aged. by rewrite Hss.
Qed.
End WithEnv.

End SpeshFacts.

Module SpeshWitnesses.
Import Spesh SpeshSpec SpeshFacts SpeshExamples.

Ltac evaluated := vm_compute; reflexivity.
Ltac decided := apply (bool_decide_unpack _); vm_compute; exact I.

Ltac frames_evaluated st :=
  let l := eval vm_compute in (sims_frames st) in
  replace (sims_frames st) with l by evaluated.

Ltac frame_ok_evaluated :=
  unfold frame_ok; eexists _, _; split_and!;
  [ evaluated
  | evaluated
  | first [ intros Hcs; exfalso; apply Hcs; reflexivity
          | intros _; eexists; split; reflexivity ]
  | simpl; repeat constructor; vm_compute; lia ].

Lemma before_return_ok : state_ok env0 before_return.
Proof.
  unfold state_ok. frames_evaluated before_return.
  repeat constructor; frame_ok_evaluated.
Defined.

Lemma return_type_reaches_call_site_witness :
  state_ok env0 before_return
  ∧ ∃ st1 st3,
      update_entry env0 before_return 4 = Ok st1
      ∧ sim_stack_pop env0 st1 = Ok st3
      ∧ attributed env0 (stats st3) 10 0 [mkType 77 1 0 0] 42 88 1.
Proof.
  split; [exact before_return_ok|].
  destruct (return_type_reaches_call_site env0 before_return before_return after_callee_pop
              4 2 88 1 5 callee_frame caller_frame [])
    as (st1 & Hupd & Hfs & _ & Hatt).
  - exact before_return_ok.
  - frames_evaluated before_return. do 2 (apply List.Forall_cons; [simpl; decided|]). apply List.Forall_nil.
  - evaluated.
  - lia.
  - evaluated.
  - evaluated.
  - evaluated.
  - evaluated.
  - simpl. lia.
  - reflexivity.
  - reflexivity.
  - exists st1.
    assert (Hst1 : Ok st1 = Ok (after log_typed [0; 1; 2; 3; 4]%nat)).
    { rewrite <- Hupd. evaluated. }
    injection Hst1 as Hst1.
    destruct (Hatt st1 (push_offset_log caller_frame 4) [] caller_stats caller_callsite
                (rtc_refl _ _) Hfs)
      as (_ & _ & st3 & a & Hpop & Ha & Hfinal).
    + simpl. decided.
    + rewrite Hst1. evaluated.
    + evaluated.
    + unfold tuple_usable. split_and!; [simpl; lia | evaluated |].
      eexists. split; [reflexivity | evaluated].
    + exists st3. split_and!; [done..|].
      injection Ha as <-. exact (Hfinal st3 (rtc_refl _ _)).
Defined.

Lemma event_reaches_its_frame_witness :
  state_ok env0 before_return
  ∧ log before_return !! 2%nat = Some (LOG_INVOKE 1 500 42)
  ∧ ((∃ above g rest st1 g',
        sims_frames before_return = above ++ g :: rest
        ∧ cid g = 1 ∧ (∀ f, f ∈ above → cid f ≠ 1)
        ∧ sim_stack_pop_n env0 (length above) before_return = Ok st1
        ∧ sims_frames st1 = g' :: rest ∧ frame_sim g g'
        ∧ update_entry env0 before_return 2
          = update_found env0 st1 2 (LOG_INVOKE 1 500 42))
     ∨ ((∀ f, f ∈ sims_frames before_return → cid f ≠ 1)
        ∧ sim_stack_find env0 before_return 1 = Ok (before_return, false)
        ∧ update_entry env0 before_return 2 = Ok before_return)).
Proof.
  split; [exact before_return_ok|]. split; [evaluated|].
  apply (event_reaches_its_frame env0 before_return 2 (LOG_INVOKE 1 500 42)).
  - exact before_return_ok.
  - evaluated.
  - intros id sf0 cs. discriminate.
Defined.

Lemma pop_without_usable_tuple_witness :
  sims_frames before_untyped_pop = [untyped_caller]
  ∧ stats before_untyped_pop !! 10 = Some untyped_stats
  ∧ tuple_unusable env0 untyped_callsite untyped_caller
  ∧ ∃ ss',
      sim_stack_pop env0 before_untyped_pop
        = Ok (mkState (<[10 := ss']> (stats before_untyped_pop)) []
                (wrap32 (sims_depth before_untyped_pop - 1))
                (log before_untyped_pop) (sf_updated before_untyped_pop))
      ∧ css_by_type <$> ss_by_callsite ss' = css_by_type <$> ss_by_callsite untyped_stats
      ∧ css_hits <$> ss_by_callsite ss' = css_hits <$> ss_by_callsite untyped_stats.
Proof.
  assert (Hun : tuple_unusable env0 untyped_callsite untyped_caller) by (left; reflexivity).
  split; [evaluated|]. split; [evaluated|]. split; [exact Hun|].
  destruct (pop_without_usable_tuple env0 before_untyped_pop untyped_caller [] untyped_stats
              untyped_callsite) as (ss' & Hpop & Hbt & Hhits & _).
  - evaluated.
  - evaluated.
  - reflexivity.
  - exact Hun.
  - exists ss'. split_and!; [exact Hpop | exact Hbt | exact Hhits].
Defined.

Lemma update_pushes_each_stale_frame_once_witness :
  MVM_spesh_stats_update env0 (st0 log_typed) = Ok (updated (st0 log_typed))
  ∧ ∃ pushed,
      sf_updated (updated (st0 log_typed)) = [] ++ pushed
      ∧ NoDup pushed
      ∧ (∀ sf0, sf0 ∈ pushed ↔
           has_entry (log (st0 log_typed)) sf0
           ∧ last_update_of (stats (st0 log_typed)) sf0 < spesh_stats_version env0)
      ∧ (∀ sf0, has_entry (log (st0 log_typed)) sf0 →
           last_update_of (stats (updated (st0 log_typed))) sf0 = spesh_stats_version env0).
Proof.
  split; [evaluated|].
  apply (update_pushes_each_stale_frame_once env0 (st0 log_typed) (updated (st0 log_typed))).
  - intros sf0. unfold last_update_of. simpl. rewrite lookup_empty. lia.
  - evaluated.
Defined.

End SpeshWitnesses.

Module SpeshCounterexamples.
Import Spesh SpeshSpec SpeshFacts SpeshExamples.

(** C1, as the specification has it, fails for a caller without a type
    tuple: the RETURN of [log_untyped] meets every condition of the statement
    (its frame is found, the caller that remains invoked code object 500,
    a concrete code object of the popped frame's static frame), the event
    is moved to the call site, and at the end of the update the caller's
    statistics hold no type at all. *)
Lemma return_type_dropped_without_tuple :
  log before_untyped_return !! 3%nat = Some (LOG_RETURN 2 88 1 5)
  ∧ sim_stack_find env0 before_untyped_return 2 = Ok (before_untyped_return, true)
  ∧ top_frame before_untyped_return = Ok callee_frame
  ∧ (∃ stB, sim_stack_pop env0 before_untyped_return = Ok stB
            ∧ sims_frames stB = [untyped_caller])
  ∧ concrete_code env0 (last_invoke_code untyped_caller) = true
  ∧ code_sf env0 (last_invoke_code untyped_caller) = sf callee_frame
  ∧ ∃ st', MVM_spesh_stats_update env0 (st0 log_untyped) = Ok st'
           ∧ log st' !! 3%nat = Some (LOG_RETURN 2 88 1 42)
           ∧ sims_frames st' = []
           ∧ ∀ idx a off ty c, ¬ attributed env0 (stats st') 10 idx a off ty c.
Proof.
  split_and!; try (vm_compute; reflexivity).
  - eexists. split; vm_compute; reflexivity.
  - exists (updated (st0 log_untyped)). split_and!; try (vm_compute; reflexivity).
    intros idx a off ty c (ss & css & k & tss & Hss & Hcss & Hk & _).
    vm_compute in Hss. injection Hss as <-.
    destruct idx as [|idx]; [|destruct idx; discriminate].
    injection Hcss as <-. destruct k; discriminate.
Qed.

End SpeshCounterexamples.

(** * Part VI: the hash tables *)

Module RobinHoodFacts.
Import RobinHood RobinHoodSpec.

(** ** Probing a table that satisfies the invariants *)

Section ProbeFacts.
Context {E : Type}.
Variable ideal : E → option nat.

Lemma probe_distances_ok_length (es : list E) :
  ∀ (ms : list Z) (slot : nat) (prev : Z),
    probe_distances_ok ideal ms es slot prev = true → length ms = S (length es).
Proof.
  induction es as [|e es IH]; intros ms slot prev; simpl.
  - destruct ms as [|m [|? ?]]; done.
  - destruct ms as [|m ms]; [done|]. intros [_ H]%andb_true_iff. simpl. f_equal.
    by eapply IH.
Qed.

(** An occupied slot holds its probe distance. *)
Lemma probe_distances_ok_lookup (es : list E) :
  ∀ (ms : list Z) (slot : nat) (prev : Z) (i : nat) (m : Z) (e : E),
    probe_distances_ok ideal ms es slot prev = true →
    ms !! i = Some m → es !! i = Some e → m ≠ 0 →
    ∃ b, ideal e = Some b ∧ m = 1 + Z.of_nat (slot + i) - Z.of_nat b ∧ 1 ≤ m.
Proof.
  induction es as [|e0 es IH]; intros ms slot prev i m e; simpl; [done|].
  destruct ms as [|m0 ms]; [done|].
  intros [H0 H]%andb_true_iff. destruct i as [|i]; simpl.
  - intros [= ->] [= ->] Hm. apply Z.eqb_neq in Hm. rewrite Hm in H0.
    destruct (ideal e) as [b|]; [|done].
    apply andb_true_iff in H0 as [[H1%Z.eqb_eq H2%Z.leb_le]%andb_true_iff _].
    exists b. split; [done|]. rewrite Nat.add_0_r. lia.
  - intros Hm He Hne. destruct (IH _ _ _ _ _ _ H Hm He Hne) as (b & Hb & Heq & Hle).
    exists b. split; [done|]. split; [|done]. rewrite Heq. lia.
Qed.

(** Robin-Hood ordering: a slot is at most one further from home than the
    slot before. *)
Lemma probe_distances_ok_step (es : list E) :
  ∀ (ms : list Z) (slot : nat) (prev : Z) (i : nat) (m m' : Z),
    probe_distances_ok ideal ms es slot prev = true →
    ms !! i = Some m → ms !! S i = Some m' → is_Some (es !! S i) → m' ≤ m + 1.
Proof.
  induction es as [|e0 es IH]; intros ms slot prev i m m'; simpl.
  { intros _ _ _ [? ?]. done. }
  destruct ms as [|m0 ms]; [done|].
  intros [H0 H]%andb_true_iff. destruct i as [|i]; simpl.
  - intros [= ->] Hm' [e He]. destruct es as [|e1 es]; [done|]. simpl in H.
    destruct ms as [|m1 ms]; [done|]. simpl in Hm'. injection Hm' as ->.
    apply andb_true_iff in H as [H1 _].
    destruct (m' =? 0) eqn:E0.
    + apply Z.eqb_eq in E0. subst.
      assert (0 ≤ m); [|lia].
      destruct (m =? 0) eqn:Em; [apply Z.eqb_eq in Em; lia|].
      destruct (ideal e0); [|done].
      apply andb_true_iff in H0 as [[_ ?%Z.leb_le]%andb_true_iff _]. lia.
    + destruct (ideal e1); [|done].
      apply andb_true_iff in H1 as [_ ?%Z.leb_le]. lia.
  - intros Hm Hm' He. by eapply IH.
Qed.

(** Hence the run of slots that leads to an occupied slot from its ideal
    bucket holds probe distances that do not fall behind the probe. *)
Lemma probe_chain (ms : list Z) (es : list E) (s : nat) (d : Z) :
  probe_distances_ok ideal ms es 0 0 = true →
  ms !! s = Some d → is_Some (es !! s) →
  ∀ n t, (t + n = s)%nat → ∃ m, ms !! t = Some m ∧ d - Z.of_nat n ≤ m.
Proof.
  intros Hok Hd Hs. induction n as [|n IH]; intros t Ht.
  - rewrite Nat.add_0_r in Ht. subst. exists d. split; [done|]. lia.
  - destruct (IH (S t)) as (m' & Hm' & Hle); [lia|].
    assert (is_Some (ms !! t)) as [m Hm].
    { apply lookup_lt_is_Some. apply lookup_lt_Some in Hm'. lia. }
    exists m. split; [done|].
    assert (is_Some (es !! S t)) as HeS.
    { apply lookup_lt_is_Some. destruct Hs as [e He]. apply lookup_lt_Some in He. lia. }
    pose proof (probe_distances_ok_step _ _ _ _ _ _ _ Hok Hm Hm' HeS). lia.
Qed.

Lemma occupied_elem_of (es : list E) :
  ∀ (ms : list Z) (s : nat) (m : Z) (e : E),
    ms !! s = Some m → m ≠ 0 → es !! s = Some e → e ∈ occupied ms es.
Proof.
  induction es as [|e0 es IH]; intros ms s m e; simpl; [done|].
  destruct ms as [|m0 ms]; [done|]. destruct s as [|s]; simpl.
  - intros [= ->] Hm%Z.eqb_neq [= ->]. rewrite Hm. by left.
  - intros Hm Hne He. destruct (m0 =? 0); [|right]; by eapply IH.
Qed.

(** Two occupied slots with the same key are the same slot when no key is
    stored twice. *)
Lemma occupied_NoDup_slot {K} (f : E → K) (es : list E) :
  ∀ (ms : list Z) (s1 s2 : nat) (m1 m2 : Z) (e1 e2 : E),
    NoDup (f <$> occupied ms es) →
    ms !! s1 = Some m1 → m1 ≠ 0 → es !! s1 = Some e1 →
    ms !! s2 = Some m2 → m2 ≠ 0 → es !! s2 = Some e2 →
    f e1 = f e2 → s1 = s2.
Proof.
  induction es as [|e0 es IH]; intros ms s1 s2 m1 m2 e1 e2; simpl; [done|].
  destruct ms as [|m0 ms]; [done|].
  intros Hnd H1 Hm1 He1 H2 Hm2 He2 Hf.
  destruct s1 as [|s1], s2 as [|s2]; simpl in *; [done| | |].
  - injection H1 as ->. injection He1 as ->. apply Z.eqb_neq in Hm1. rewrite Hm1 in Hnd.
    rewrite fmap_cons in Hnd. apply NoDup_cons in Hnd as [Hn _]. destruct Hn.
    rewrite Hf. apply list_elem_of_fmap_2. by eapply occupied_elem_of.
  - injection H2 as ->. injection He2 as ->. apply Z.eqb_neq in Hm2. rewrite Hm2 in Hnd.
    rewrite fmap_cons in Hnd. apply NoDup_cons in Hnd as [Hn _]. destruct Hn.
    rewrite <- Hf. apply list_elem_of_fmap_2. by eapply occupied_elem_of.
  - f_equal. eapply (IH ms s1 s2); try eassumption.
    destruct (m0 =? 0); [done|]. rewrite fmap_cons in Hnd. by apply NoDup_cons in Hnd as [_ ?].
Qed.

Variable asserts : bool.
Variables official_size max_items : Z.
Variable hit : E → outcome bool.

(** A step of a probe towards slot [s] passes the [assert]s, or they do not
    hold for the probe. *)
Lemma probe_asserts_step (s t : nat) (d pd : Z) :
  (t < s)%nat → pd < d →
  asserts && negb (probe_asserts official_size max_items (S t) (pd + 1)) = false
  ∨ (asserts && negb (probe_asserts official_size max_items (S t) (pd + 1)) = true
     ∧ asserts = true ∧ ¬ probe_within official_size max_items s d).
Proof.
  intros Ht Hpd. destruct asserts; [|by left]. simpl.
  destruct (probe_asserts official_size max_items (S t) (pd + 1)) eqn:Hpa; [by left|].
  right. split_and!; [done..|]. intros (Hd & Hs1 & Hs2).
  unfold probe_asserts in Hpa.
  assert (H1 : (pd + 1 <=? MVM_HASH_MAX_PROBE_DISTANCE) = true) by (apply Z.leb_le; lia).
  assert (H2 : (Z.of_nat (S t) <? official_size + max_items) = true) by (apply Z.ltb_lt; lia).
  assert (H3 : (Z.of_nat (S t) <? official_size + 256) = true) by (apply Z.ltb_lt; lia).
  rewrite H1, H2, H3 in Hpa. done.
Qed.

(** The probe of [fetch] reaches a stored key: on the way from the ideal
    bucket no slot is "short", and the key comparison stops the probe at the
    latest at the slot that holds the key; or an [assert] stops it. *)
Lemma fetch_probe_finds (ms : list Z) (es : list E) (s : nat) (d : Z) (e : E) :
  ms !! s = Some d → es !! s = Some e → hit e = Ok true → 1 ≤ d →
  (∀ n t, (t + n = s)%nat → ∃ m, ms !! t = Some m ∧ d - Z.of_nat n ≤ m) →
  (∀ t m e', (t < s)%nat → ms !! t = Some m → m ≠ 0 → es !! t = Some e' →
     ∃ b, hit e' = Ok b) →
  ∀ n t, (t + n = s)%nat → Z.of_nat n < d →
    (∃ s', (t ≤ s' ≤ s)%nat
       ∧ fetch_probe asserts official_size max_items hit es (drop t ms) t (d - Z.of_nat n)
         = Ok (Some s')
       ∧ ∃ e' m, es !! s' = Some e' ∧ hit e' = Ok true ∧ ms !! s' = Some m ∧ m ≠ 0)
    ∨ (fetch_probe asserts official_size max_items hit es (drop t ms) t (d - Z.of_nat n)
       = Abort
       ∧ asserts = true ∧ ¬ probe_within official_size max_items s d).
Proof.
  intros Hd He Hhit Hd1 Hchain Hdef.
  induction n as [|n IH]; intros t Ht Hn.
  - rewrite Nat.add_0_r in Ht. subst t. left. exists s. split; [lia|].
    rewrite (drop_S _ _ _ Hd). simpl. rewrite Z.sub_0_r, Z.eqb_refl, He. simpl.
    rewrite Hhit. split; [done|]. exists e, d. split_and!; [done..|lia].
  - destruct (Hchain (S n) t Ht) as (m & Hm & Hle).
    rewrite (drop_S _ _ _ Hm). simpl.
    assert (Hpd : d - Z.of_nat (S n) + 1 = d - Z.of_nat n) by lia.
    assert (Hlt : (m <? d - Z.of_nat (S n)) = false) by (apply Z.ltb_ge; lia).
    assert (Het : is_Some (es !! t)).
    { apply lookup_lt_is_Some. apply lookup_lt_Some in He. lia. }
    destruct Het as [et Het].
    assert (Hgo : (∃ s', (t ≤ s' ≤ s)%nat
                     ∧ (if m <? d - Z.of_nat (S n) then Ok None
                        else if asserts && negb (probe_asserts official_size max_items (S t)
                                                   (d - Z.of_nat (S n) + 1))
                             then Abort
                             else fetch_probe asserts official_size max_items hit es
                                    (drop (S t) ms) (S t) (d - Z.of_nat (S n) + 1))
                       = Ok (Some s')
                     ∧ ∃ e' m, es !! s' = Some e' ∧ hit e' = Ok true ∧ ms !! s' = Some m
                               ∧ m ≠ 0)
                  ∨ ((if m <? d - Z.of_nat (S n) then Ok None
                      else if asserts && negb (probe_asserts official_size max_items (S t)
                                                 (d - Z.of_nat (S n) + 1))
                           then Abort
                           else fetch_probe asserts official_size max_items hit es
                                  (drop (S t) ms) (S t) (d - Z.of_nat (S n) + 1))
                     = Abort
                     ∧ asserts = true ∧ ¬ probe_within official_size max_items s d)).
    { rewrite Hlt.
      destruct (probe_asserts_step s t d (d - Z.of_nat (S n))) as [->|(-> & Ha & Hw)];
        [lia | lia | | by right].
      rewrite Hpd.
      destruct (IH (S t)) as [(s' & Hs' & Hrun & Hres)|Habort]; [lia..| |by right].
      left. exists s'. split; [lia|]. done. }
    destruct (m =? d - Z.of_nat (S n)) eqn:Em.
    + rewrite Het. simpl.
      destruct (Hdef t m et) as [b Hb]; [lia|done|lia|done|].
      rewrite Hb. destruct b; [|exact Hgo].
      left. exists t. split; [lia|]. split; [done|]. exists et, m. split_and!; [done..|lia].
    + simpl. exact Hgo.
Qed.

(** The probe of [hash_insert_internal] reaches a stored key likewise. *)
Lemma insert_probe_finds (ms : list Z) (es : list E) (s : nat) (d : Z) (e : E) :
  ms !! s = Some d → es !! s = Some e → hit e = Ok true → 1 ≤ d →
  (∀ n t, (t + n = s)%nat → ∃ m, ms !! t = Some m ∧ d - Z.of_nat n ≤ m) →
  (∀ t m e', (t < s)%nat → ms !! t = Some m → m ≠ 0 → es !! t = Some e' →
     ∃ b, hit e' = Ok b) →
  ∀ n t, (t + n = s)%nat → Z.of_nat n < d →
    (∃ s', (t ≤ s' ≤ s)%nat
       ∧ insert_probe asserts official_size max_items hit es (drop t ms) t (d - Z.of_nat n)
         = Ok (Existing s')
       ∧ ∃ e' m, es !! s' = Some e' ∧ hit e' = Ok true ∧ ms !! s' = Some m ∧ m ≠ 0)
    ∨ (insert_probe asserts official_size max_items hit es (drop t ms) t (d - Z.of_nat n)
       = Abort
       ∧ asserts = true ∧ ¬ probe_within official_size max_items s d).
Proof.
  intros Hd He Hhit Hd1 Hchain Hdef.
  induction n as [|n IH]; intros t Ht Hn.
  - rewrite Nat.add_0_r in Ht. subst t. left. exists s. split; [lia|].
    rewrite (drop_S _ _ _ Hd). simpl. rewrite Z.sub_0_r, Z.ltb_irrefl, Z.eqb_refl, He. simpl.
    rewrite Hhit. split; [done|]. exists e, d. split_and!; [done..|lia].
  - destruct (Hchain (S n) t Ht) as (m & Hm & Hle).
    rewrite (drop_S _ _ _ Hm). simpl.
    assert (Hpd : d - Z.of_nat (S n) + 1 = d - Z.of_nat n) by lia.
    assert (Hlt : (m <? d - Z.of_nat (S n)) = false) by (apply Z.ltb_ge; lia).
    assert (Het : is_Some (es !! t)).
    { apply lookup_lt_is_Some. apply lookup_lt_Some in He. lia. }
    destruct Het as [et Het]. rewrite Hlt.
    assert (Hgo : (∃ s', (t ≤ s' ≤ s)%nat
                     ∧ (if asserts && negb (probe_asserts official_size max_items (S t)
                                              (d - Z.of_nat (S n) + 1))
                        then Abort
                        else insert_probe asserts official_size max_items hit es
                               (drop (S t) ms) (S t) (d - Z.of_nat (S n) + 1))
                       = Ok (Existing s')
                     ∧ ∃ e' m, es !! s' = Some e' ∧ hit e' = Ok true ∧ ms !! s' = Some m
                               ∧ m ≠ 0)
                  ∨ ((if asserts && negb (probe_asserts official_size max_items (S t)
                                            (d - Z.of_nat (S n) + 1))
                      then Abort
                      else insert_probe asserts official_size max_items hit es
                             (drop (S t) ms) (S t) (d - Z.of_nat (S n) + 1))
                     = Abort
                     ∧ asserts = true ∧ ¬ probe_within official_size max_items s d)).
    { destruct (probe_asserts_step s t d (d - Z.of_nat (S n))) as [->|(-> & Ha & Hw)];
        [lia | lia | | by right].
      rewrite Hpd.
      destruct (IH (S t)) as [(s' & Hs' & Hrun & Hres)|Habort]; [lia..| |by right].
      left. exists s'. split; [lia|]. done. }
    destruct (m =? d - Z.of_nat (S n)) eqn:Em.
    + rewrite Het. simpl.
      destruct (Hdef t m et) as [b Hb]; [lia|done|lia|done|].
      rewrite Hb. destruct b; [|exact Hgo].
      left. exists t. split; [lia|]. split; [done|]. exists et, m. split_and!; [done..|lia].
    + simpl. exact Hgo.
Qed.

End ProbeFacts.
End RobinHoodFacts.

Module PtrHashFacts.
Import RobinHood RobinHoodSpec RobinHoodFacts PtrHashSpec.
Import PtrHash.

Lemma ptr_key_hit_true (k : Z) (e : MVMPtrHashEntry) :
  key_hit k e = Ok true ↔ key e = Some k.
Proof.
  unfold key_hit. destruct (key e) as [k'|]; simpl; [|split; done].
  split.
  - intros [= H%Z.eqb_eq]. by subst.
  - intros [= ->]. by rewrite Z.eqb_refl.
Qed.

(** Both probes stop at the slot of a stored key, unless an [assert] stops
    them. *)
Lemma ptr_probe_stored (asserts : bool) (control : MVMPtrHashTableControl) (s : nat) (k : Z)
    (v : option Z) :
  wf control → stored control s k v →
  let bucket := bucket_of (key_right_shift control) k in
  (fetch_probe asserts (official_size control) (max_items control) (key_hit k)
     (entries control) (drop bucket (metadata control)) bucket 1 = Ok (Some s)
   ∨ (fetch_probe asserts (official_size control) (max_items control) (key_hit k)
        (entries control) (drop bucket (metadata control)) bucket 1 = Abort
      ∧ asserts = true ∧ ¬ asserts_hold control s))
  ∧ (insert_probe asserts (official_size control) (max_items control) (key_hit k)
       (entries control) (drop bucket (metadata control)) bucket 1 = Ok (Existing s)
     ∨ (insert_probe asserts (official_size control) (max_items control) (key_hit k)
          (entries control) (drop bucket (metadata control)) bucket 1 = Abort
        ∧ asserts = true ∧ ¬ asserts_hold control s)).
Proof.
  intros [Hpd Hnd] (d & e & Hd & Hd0 & He & Hk & Hv). simpl.
  destruct (probe_distances_ok_lookup _ _ _ _ _ _ _ _ Hpd Hd He Hd0) as (b & Hb & Hdb & Hd1).
  unfold ideal in Hb. rewrite Hk in Hb. simpl in Hb. injection Hb as <-.
  set (b := bucket_of (key_right_shift control) k) in *. simpl in Hdb.
  assert (Hhit : key_hit k e = Ok true) by by apply ptr_key_hit_true.
  pose proof (probe_chain _ _ _ _ _ Hpd Hd (mk_is_Some _ _ He)) as Hchain.
  assert (Hdef : ∀ t m e', (t < s)%nat → metadata control !! t = Some m → m ≠ 0 →
                   entries control !! t = Some e' → ∃ r, key_hit k e' = Ok r).
  { intros t m e' _ Hm Hm0 He'.
    destruct (probe_distances_ok_lookup _ _ _ _ _ _ _ _ Hpd Hm He' Hm0) as (b' & Hb' & _).
    unfold ideal, key_hit in *. destruct (key e'); [|done]. simpl. eauto. }
  assert (Hsame : ∀ s', (∃ e' m, entries control !! s' = Some e' ∧ key_hit k e' = Ok true
                           ∧ metadata control !! s' = Some m ∧ m ≠ 0) → s' = s).
  { intros s' (e' & m & He' & Hhit' & Hm & Hm0). apply ptr_key_hit_true in Hhit'.
    eapply (occupied_NoDup_slot key); try eassumption. congruence. }
  assert (Hout : ¬ probe_within (official_size control) (max_items control) s d →
                 ¬ asserts_hold control s).
  { intros Hn (d' & Hd' & Hw). rewrite Hd in Hd'. injection Hd' as <-. done. }
  assert (Hn : (b + Z.to_nat (d - 1) = s)%nat) by lia.
  assert (Hpd1 : d - Z.of_nat (Z.to_nat (d - 1)) = 1) by lia.
  split.
  - destruct (fetch_probe_finds asserts (official_size control) (max_items control) (key_hit k)
                _ _ _ _ _ Hd He Hhit Hd1 Hchain Hdef (Z.to_nat (d - 1)) b Hn)
      as [(s' & _ & Hrun & Hres)|(Hrun & Ha & Hw)]; [lia| |].
    + left. rewrite Hpd1 in Hrun. by rewrite <- (Hsame s' Hres).
    + right. rewrite Hpd1 in Hrun. auto.
  - destruct (insert_probe_finds asserts (official_size control) (max_items control) (key_hit k)
                _ _ _ _ _ Hd He Hhit Hd1 Hchain Hdef (Z.to_nat (d - 1)) b Hn)
      as [(s' & _ & Hrun & Hres)|(Hrun & Ha & Hw)]; [lia| |].
    + left. rewrite Hpd1 in Hrun. by rewrite <- (Hsame s' Hres).
    + right. rewrite Hpd1 in Hrun. auto.
Qed.

(** A key the probe of [fetch] misses is not stored. *)
Lemma ptr_fetch_miss_absent (asserts : bool) (control : MVMPtrHashTableControl) (k : Z) :
  wf control → MVM_ptr_hash_fetch asserts (Some control) k = Ok None →
  ∀ s v, ¬ stored control s k v.
Proof.
  intros Hwf Hmiss s v Hs. destruct (ptr_probe_stored asserts _ _ _ _ Hwf Hs) as [Hf _].
  unfold MVM_ptr_hash_fetch in Hmiss. simpl in Hf.
  destruct Hf as [Hf|[Hf _]]; congruence.
Qed.

(** [hash_insert_internal] never resizes. *)
Lemma ptr_hash_insert_internal_sizes (asserts : bool) (control control' : MVMPtrHashTableControl)
    (k : Z) (slot : nat) :
  hash_insert_internal asserts control k = Ok (control', slot) →
  official_size control' = official_size control
  ∧ key_right_shift control' = key_right_shift control
  ∧ cur_items control' = cur_items control
  ∧ (max_items control' = max_items control ∨ max_items control' = 0).
Proof.
  unfold hash_insert_internal. destruct (_ >=? _); [done|].
  intros (p & _ & H)%bind_Ok. destruct p as [s pd|s].
  - apply bind_Ok in H as ([[ms es] zeroed] & _ & H).
    apply bind_Ok in H as (e & _ & [= <- <-]). simpl.
    split_and!; [done..|]. destruct zeroed; auto.
  - injection H as <- <-. auto.
Qed.

(** Fetch-or-insert of a stored key returns its slot and writes nothing,
    whether the table is at capacity or not. *)
Lemma ptr_lvalue_fetch_stored (asserts : bool) (control : MVMPtrHashTableControl) (s : nat)
    (k : Z) (v : option Z) :
  wf control → stored control s k v →
  (asserts = true → asserts_hold control s) →
  cur_items control >= max_items control ∨ k ≠ 0 →
  MVM_ptr_hash_lvalue_fetch asserts (Some control) k = Ok (control, s).
Proof.
  intros Hwf Hs Hin Hcase. destruct (ptr_probe_stored asserts _ _ _ _ Hwf Hs) as [Hf Hi].
  simpl in Hf, Hi.
  destruct Hf as [Hf|(_ & Ha & Hout)]; [|by destruct (Hout (Hin Ha))].
  destruct Hi as [Hi|(_ & Ha & Hout)]; [|by destruct (Hout (Hin Ha))].
  unfold MVM_ptr_hash_lvalue_fetch.
  destruct (cur_items control >=? max_items control) eqn:Hcap.
  - unfold MVM_ptr_hash_fetch. rewrite Hf. done.
  - destruct Hcase as [Hge|Hk]; [rewrite Z.geb_leb in Hcap; apply Z.leb_gt in Hcap; lia|].
    unfold hash_insert_internal. rewrite Hcap. rewrite Hi. simpl.
    destruct Hs as (d & e & _ & _ & He & Hke & _). rewrite He. simpl. rewrite Hke. simpl.
    apply Z.eqb_neq in Hk. by rewrite Hk.
Qed.


End PtrHashFacts.

Module UniHashFacts.
Import RobinHood RobinHoodSpec RobinHoodFacts UniHashSpec.
Import UniHash.

Section WithEnv.
Variable MVM_uni_hash_code : string → Z.
Variable MVM_round_up_log_base2 : Z → Z.

Lemma uni_key_hit_true (k : string) (h : Z) (e : MVMUniHashEntry) :
  key_hit k h e = Ok true → key e = Some (Str k).
Proof.
  unfold key_hit. destruct (hash_val e) as [h'|]; simpl; [|done].
  destruct (h' =? h); [|done]. destruct (key e) as [[|s]|]; simpl; try done.
  intros [= H%bool_decide_eq_true]. by subst.
Qed.

Lemma ideal_Some (shift : Z) (e : MVMUniHashEntry) (b : nat) :
  ideal MVM_uni_hash_code shift e = Some b →
  ∃ s, key e = Some (Str s) ∧ hash_val e = Some (wrap32 (MVM_uni_hash_code s))
       ∧ b = bucket_of shift (wrap32 (MVM_uni_hash_code s)).
Proof.
  unfold ideal. destruct (key e) as [[|s]|]; try done.
  destruct (hash_val e) as [h|]; [|done].
  destruct (h =? _) eqn:Eh; [|done]. apply Z.eqb_eq in Eh. intros [= <-]. subst h. eauto.
Qed.

(** Both probes stop at the slot of a stored string, unless an [assert]
    stops them. *)
Lemma uni_probe_stored (asserts : bool) (control : MVMUniHashTableControl) (s : nat)
    (k : string) (v : option Z) :
  wf MVM_uni_hash_code control → stored control s k v →
  let h := wrap32 (MVM_uni_hash_code k) in
  let bucket := bucket_of (key_right_shift control) h in
  (fetch_probe asserts (official_size control) (max_items control) (key_hit k h)
     (entries control) (drop bucket (metadata control)) bucket 1 = Ok (Some s)
   ∨ (fetch_probe asserts (official_size control) (max_items control) (key_hit k h)
        (entries control) (drop bucket (metadata control)) bucket 1 = Abort
      ∧ asserts = true ∧ ¬ asserts_hold control s))
  ∧ (insert_probe asserts (official_size control) (max_items control) (key_hit k h)
       (entries control) (drop bucket (metadata control)) bucket 1 = Ok (Existing s)
     ∨ (insert_probe asserts (official_size control) (max_items control) (key_hit k h)
          (entries control) (drop bucket (metadata control)) bucket 1 = Abort
        ∧ asserts = true ∧ ¬ asserts_hold control s)).
Proof.
  intros [Hpd Hnd] (d & e & Hd & Hd0 & He & Hk & Hv). simpl.
  destruct (probe_distances_ok_lookup _ _ _ _ _ _ _ _ Hpd Hd He Hd0) as (b & Hb & Hdb & Hd1).
  apply ideal_Some in Hb as (k' & Hk' & Hh & ->).
  assert (k' = k) as -> by congruence.
  set (h := wrap32 (MVM_uni_hash_code k)) in *.
  set (b := bucket_of (key_right_shift control) h) in *. simpl in Hdb.
  assert (Hhit : key_hit k h e = Ok true).
  { unfold key_hit. rewrite Hh. simpl. rewrite Z.eqb_refl, Hk. simpl.
    by rewrite bool_decide_eq_true_2. }
  pose proof (probe_chain _ _ _ _ _ Hpd Hd (mk_is_Some _ _ He)) as Hchain.
  assert (Hdef : ∀ t m e', (t < s)%nat → metadata control !! t = Some m → m ≠ 0 →
                   entries control !! t = Some e' → ∃ r, key_hit k h e' = Ok r).
  { intros t m e' _ Hm Hm0 He'.
    destruct (probe_distances_ok_lookup _ _ _ _ _ _ _ _ Hpd Hm He' Hm0) as (b' & Hb' & _).
    apply ideal_Some in Hb' as (s' & Hs' & Hh' & _).
    unfold key_hit. rewrite Hh'. simpl. destruct (_ =? _); [|eauto].
    rewrite Hs'. simpl. eauto. }
  assert (Hsame : ∀ s', (∃ e' m, entries control !! s' = Some e' ∧ key_hit k h e' = Ok true
                           ∧ metadata control !! s' = Some m ∧ m ≠ 0) → s' = s).
  { intros s' (e' & m & He' & Hhit' & Hm & Hm0). apply uni_key_hit_true in Hhit'.
    eapply (occupied_NoDup_slot key); try eassumption. congruence. }
  assert (Hout : ¬ probe_within (official_size control) (max_items control) s d →
                 ¬ asserts_hold control s).
  { intros Hn (d' & Hd' & Hw). rewrite Hd in Hd'. injection Hd' as <-. done. }
  assert (Hn : (b + Z.to_nat (d - 1) = s)%nat) by lia.
  assert (Hpd1 : d - Z.of_nat (Z.to_nat (d - 1)) = 1) by lia.
  split.
  - destruct (fetch_probe_finds asserts (official_size control) (max_items control)
                (key_hit k h) _ _ _ _ _ Hd He Hhit Hd1 Hchain Hdef (Z.to_nat (d - 1)) b Hn)
      as [(s' & _ & Hrun & Hres)|(Hrun & Ha & Hw)]; [lia| |].
    + left. rewrite Hpd1 in Hrun. by rewrite <- (Hsame s' Hres).
    + right. rewrite Hpd1 in Hrun. auto.
  - destruct (insert_probe_finds asserts (official_size control) (max_items control)
                (key_hit k h) _ _ _ _ _ Hd He Hhit Hd1 Hchain Hdef (Z.to_nat (d - 1)) b Hn)
      as [(s' & _ & Hrun & Hres)|(Hrun & Ha & Hw)]; [lia| |].
    + left. rewrite Hpd1 in Hrun. by rewrite <- (Hsame s' Hres).
    + right. rewrite Hpd1 in Hrun. auto.
Qed.

(** A string the probe of [fetch] misses is not stored. *)
Lemma uni_fetch_miss_absent (asserts : bool) (control : MVMUniHashTableControl) (k : string) :
  wf MVM_uni_hash_code control →
  MVM_uni_hash_fetch asserts MVM_uni_hash_code (Some control) k = Ok None →
  ∀ s v, ¬ stored control s k v.
Proof.
  intros Hwf Hmiss s v Hs. destruct (uni_probe_stored asserts _ _ _ _ Hwf Hs) as [Hf _].
  unfold MVM_uni_hash_fetch in Hmiss. simpl in Hf.
  destruct Hf as [Hf|[Hf _]]; congruence.
Qed.


(** Fetch-or-insert of a stored string returns its slot and writes
    nothing, whether the table is at capacity or not. *)
Lemma uni_lvalue_fetch_stored (asserts : bool) (control : MVMUniHashTableControl) (s : nat)
    (k : string) (v : option Z) :
  wf MVM_uni_hash_code control → stored control s k v →
  (asserts = true → asserts_hold control s) →
  MVM_uni_hash_lvalue_fetch asserts MVM_uni_hash_code MVM_round_up_log_base2
    (Some control) k = Ok (control, s).
Proof.
  intros Hwf Hs Hin. destruct (uni_probe_stored asserts _ _ _ _ Hwf Hs) as [Hf Hi].
  simpl in Hf, Hi.
  destruct Hf as [Hf|(_ & Ha & Hout)]; [|by destruct (Hout (Hin Ha))].
  destruct Hi as [Hi|(_ & Ha & Hout)]; [|by destruct (Hout (Hin Ha))].
  unfold MVM_uni_hash_lvalue_fetch.
  destruct (cur_items control >=? max_items control) eqn:Hcap.
  - unfold MVM_uni_hash_fetch. rewrite Hf. done.
  - unfold hash_insert_internal. rewrite Hcap. rewrite Hi. simpl.
    destruct Hs as (d & e & _ & _ & He & Hke & _). rewrite He. simpl. rewrite Hke. done.
Qed.


End WithEnv.
End UniHashFacts.

Module UniBuildFacts.
Import RobinHood RobinHoodSpec RobinHoodFacts UniHashSpec.
Import UniHash.

(** *** The rounded product *)




Section WithEnv.
Variable asserts : bool.
Variable MVM_uni_hash_code : string → Z.
Variable MVM_round_up_log_base2 : Z → Z.


(** *** Inserting without growing *)




End WithEnv.
End UniBuildFacts.

Module HashTheorems.
Import RobinHood RobinHoodFacts.


(** C10 (amended): the insert of a key that a well-formed table stores
    returns the table as it was given when the value is the stored one,
    and aborts when it is another, in a build without assertions, and in a
    build with assertions when they hold on the way to the slot of the
    key; for the pointer table the key is not the null pointer. *)
Theorem insert_of_a_stored_key (asserts : bool)
    (MVM_uni_hash_code : string → Z) (MVM_round_up_log_base2 : Z → Z)
    (pc : PtrHash.MVMPtrHashTableControl) (ps : nat) (pk pv : Z)
    (uc : UniHash.MVMUniHashTableControl) (us : nat) (uk : string) (uv : Z) :
  PtrHash.wf pc →
  PtrHashSpec.stored pc ps pk (Some pv) →
  (asserts = true → PtrHashSpec.asserts_hold pc ps) →
  pk ≠ 0 →
  UniHash.wf MVM_uni_hash_code uc →
  UniHashSpec.stored uc us uk (Some uv) →
  (asserts = true → UniHashSpec.asserts_hold uc us) →
  PtrHash.MVM_ptr_hash_insert asserts (Some pc) pk pv = Ok pc
  ∧ (∀ v', v' ≠ pv → PtrHash.MVM_ptr_hash_insert asserts (Some pc) pk v' = Abort)
  ∧ UniHash.MVM_uni_hash_insert asserts MVM_uni_hash_code MVM_round_up_log_base2
      (Some uc) uk uv = Ok uc
  ∧ (∀ v', v' ≠ uv →
       UniHash.MVM_uni_hash_insert asserts MVM_uni_hash_code MVM_round_up_log_base2
         (Some uc) uk v' = Abort).
Proof.
  intros Hpwf Hps Hpa Hpk Huwf Hus Hua.
  pose proof (PtrHashFacts.ptr_lvalue_fetch_stored asserts pc ps pk _ Hpwf Hps Hpa (or_intror Hpk))
    as Hp.
  pose proof (UniHashFacts.uni_lvalue_fetch_stored _ MVM_round_up_log_base2 asserts uc us uk _
                Huwf Hus Hua) as Hu.
  destruct Hps as (pd & pe & _ & _ & Hpe & Hpke & Hpve).
  destruct Hus as (ud & ue & _ & _ & Hue & Huke & Huve).
  apply Z.eqb_neq in Hpk.
  split_and!.
  - unfold PtrHash.MVM_ptr_hash_insert. rewrite Hp. simpl. rewrite Hpe. simpl.
    rewrite Hpke. simpl. rewrite Hpk. simpl. rewrite Hpve. simpl. by rewrite Z.eqb_refl.
  - intros v' Hv'. apply Z.eqb_neq in Hv'.
    unfold PtrHash.MVM_ptr_hash_insert. rewrite Hp. simpl. rewrite Hpe. simpl.
    rewrite Hpke. simpl. rewrite Hpk. simpl. rewrite Hpve. simpl. by rewrite Hv'.
  - unfold UniHash.MVM_uni_hash_insert. rewrite Hu. simpl. rewrite Hue. simpl.
    rewrite Huke. simpl. rewrite Huve. simpl. by rewrite Z.eqb_refl.
  - intros v' Hv'. apply Z.eqb_neq in Hv'.
    unfold UniHash.MVM_uni_hash_insert. rewrite Hu. simpl. rewrite Hue. simpl.
    rewrite Huke. simpl. rewrite Huve. simpl. by rewrite Hv'.
Qed.

(** C7 (amended): an allocation of the pointer table has at most
    [MVM_HASH_MAX_PROBE_DISTANCE] slots beyond [official_size]; an
    allocation of the table of strings, with a power of two from 8 to
    [2^31] as [official_size], has at most [MVM_HASH_MAX_PROBE_DISTANCE - 1],
    the number it stores as [probe_overflow_size]. *)
Theorem overflow_slots_bounded (pc : PtrHash.MVMPtrHashTableControl)
    (key_right_shift k : Z) :
  0 < PtrHash.official_size pc <= 2 ^ 31 →
  3 <= k <= 31 →
  PtrHash.overflow_slots (PtrHash.hash_allocate_common pc) <= MVM_HASH_MAX_PROBE_DISTANCE
  ∧ UniHash.probe_overflow_size (UniHash.hash_allocate_common key_right_shift (2 ^ k))
    <= MVM_HASH_MAX_PROBE_DISTANCE - 1
  ∧ UniHash.hash_true_size (UniHash.hash_allocate_common key_right_shift (2 ^ k))
    = 2 ^ k
      + UniHash.probe_overflow_size (UniHash.hash_allocate_common key_right_shift (2 ^ k)).
Proof.
  intros Hsize Hk.
  assert (Ek : 2 ^ k = 4 * 2 ^ (k - 2)).
  { replace k with (2 + (k - 2)) at 1 by lia. rewrite Z.pow_add_r by lia. done. }
  assert (Hp : 2 <= 2 ^ (k - 2) <= 2 ^ 29).
  { split; [|apply Z.pow_le_mono_r; lia].
    change 2 with (2 ^ 1) at 1. apply Z.pow_le_mono_r; lia. }
  assert (Emax : (2 ^ k * 3) `div` 4 = 3 * 2 ^ (k - 2)).
  { rewrite Ek. replace (4 * 2 ^ (k - 2) * 3) with (3 * 2 ^ (k - 2) * 4) by lia.
    by rewrite Z.div_mul. }
  change (2 ^ 29) with 536870912 in Hp. change (2 ^ 31) with 2147483648 in Hsize.
  unfold MVM_HASH_MAX_PROBE_DISTANCE. split_and!.
  - unfold PtrHash.overflow_slots, PtrHash.hash_allocate_common, PtrHash.hash_true_size.
    cbn [PtrHash.official_size PtrHash.max_items].
    unfold MVM_HASH_MAX_PROBE_DISTANCE, wrap32. change (2 ^ 32) with 4294967296.
    set (n := PtrHash.official_size pc) in *.
    assert (0 <= (n * 3) `div` 4 <= n)
      by (split; [apply Z.div_pos; lia | apply Z.div_le_upper_bound; lia]).
    rewrite (Z.mod_small (n + 255)) by lia.
    destruct (decide ((n * 3) `div` 4 = 0)) as [E0|E0].
    + rewrite E0. rewrite (Z.mod_small (n + 0 - 1)) by lia. destruct (_ <? _); lia.
    + rewrite (Z.mod_small (n + (n * 3) `div` 4 - 1)) by lia.
      destruct (n + 255 <? n + (n * 3) `div` 4 - 1) eqn:E; [lia|].
      apply Z.ltb_ge in E. lia.
  - unfold UniHash.hash_allocate_common. cbn [UniHash.probe_overflow_size].
    unfold MVM_HASH_MAX_PROBE_DISTANCE, wrap32. rewrite Emax.
    rewrite Z.mod_small by (change (2 ^ 32) with 4294967296; lia).
    destruct (255 <? _) eqn:E; [lia|]. apply Z.ltb_ge in E.
    unfold wrap8. rewrite Z.mod_small by (change (2 ^ 8) with 256; lia).
    (* [3 * 2 ^ (k - 2)] is not 256 *)
    lia.
  - unfold UniHash.hash_true_size, UniHash.hash_allocate_common.
    cbn [UniHash.official_size UniHash.probe_overflow_size].
    set (p := if _ <? _ then _ else _).
    assert (Hp' : 0 <= p <= 255).
    { unfold p, MVM_HASH_MAX_PROBE_DISTANCE. destruct (_ <? _); [lia|].
      unfold wrap8. pose proof (Z.mod_pos_bound (wrap32 ((2 ^ k * 3) `div` 4 - 1)) (2 ^ 8)).
      change (2 ^ 8) with 256 in *. lia. }
    unfold wrap32. rewrite Z.mod_small; [done|]. change (2 ^ 32) with 4294967296. lia.
Qed.

End HashTheorems.

Module GrowTheorems.
Import RobinHood HashExamples UniHashSpec.
Import UniHash UniBuildFacts.


(** C5 fails in the code.  The keys of [scenario] are distinct and not
    null.  After the first 256 of them [fetch] finds [K0] with its value,
    in a table of 512 slots whose [max_items] the 255th key of the crowded
    bucket has set to zero; the next insert grows the table, and after it
    [fetch] does not find [K0]: the grow took the number of slots to copy
    from [hash_true_size], which reads [max_items], and left out the slot
    511 where [K0] was. *)
Theorem grow_loses_the_last_bucket (asserts : bool) :
  NoDup scenario.*1
  ∧ Forall (λ k, k ≠ 0) scenario.*1
  ∧ size_after asserts crowded = Ok (512, 0, 256)
  ∧ lookup_after asserts crowded K0 = Ok (Some 1000)
  ∧ size_after asserts scenario = Ok (1024, 768, 257)
  ∧ lookup_after asserts scenario KX = Ok (Some 2000)
  ∧ lookup_after asserts scenario K0 = Ok None.
Proof.
  split_and!.
  - apply (bool_decide_unpack _). vm_compute. exact I.
  - apply (bool_decide_unpack _). vm_compute. exact I.
  - destruct asserts; vm_compute; reflexivity.
  - destruct asserts; vm_compute; reflexivity.
  - destruct asserts; vm_compute; reflexivity.
  - destruct asserts; vm_compute; reflexivity.
  - destruct asserts; vm_compute; reflexivity.
Qed.

End GrowTheorems.

Module HashWitnesses.
Import RobinHood HashExamples.

Ltac evaluated := vm_compute; reflexivity.
Ltac decided := apply (bool_decide_unpack _); vm_compute; exact I.

Lemma small_ptr_wf : PtrHash.wf small_ptr.
Proof. split; [evaluated | decided]. Qed.

Lemma small_ptr_stored : PtrHashSpec.stored small_ptr 10 16 (Some 2).
Proof.
  exists 4, (PtrHash.mkEntry (Some 16) (Some 2)).
  split_and!; [evaluated | lia | evaluated | reflexivity | reflexivity].
Qed.

Lemma small_uni_wf : UniHash.wf cluster_code small_uni.
Proof. split; [evaluated | decided]. Qed.

Lemma small_uni_stored : UniHashSpec.stored small_uni 2 (name 2) (Some 2).
Proof.
  exists 3, (UniHash.mkEntry (Some (UniHash.Str (name 2))) (Some 2) (Some 2)).
  split_and!; [evaluated | lia | evaluated | reflexivity | reflexivity].
Qed.


Lemma small_ptr_asserts : PtrHashSpec.asserts_hold small_ptr 10.
Proof. exists 4. split; [evaluated|]. split_and!; vm_compute; done. Qed.

Lemma small_uni_asserts : UniHashSpec.asserts_hold small_uni 2.
Proof. exists 3. split; [evaluated|]. split_and!; vm_compute; done. Qed.


Lemma insert_of_a_stored_key_witness :
  PtrHash.wf small_ptr
  ∧ PtrHashSpec.stored small_ptr 10 16 (Some 2)
  ∧ PtrHashSpec.asserts_hold small_ptr 10
  ∧ UniHash.wf cluster_code small_uni
  ∧ UniHashSpec.stored small_uni 2 (name 2) (Some 2)
  ∧ UniHashSpec.asserts_hold small_uni 2
  ∧ PtrHash.MVM_ptr_hash_insert true (Some small_ptr) 16 2 = Ok small_ptr
  ∧ (∀ v', v' ≠ 2 → PtrHash.MVM_ptr_hash_insert true (Some small_ptr) 16 v' = Abort)
  ∧ UniHash.MVM_uni_hash_insert true cluster_code Z.log2_up (Some small_uni) (name 2) 2
    = Ok small_uni
  ∧ (∀ v', v' ≠ 2 →
       UniHash.MVM_uni_hash_insert true cluster_code Z.log2_up (Some small_uni) (name 2) v'
       = Abort).
Proof.
  assert (Hk : (16 : Z) ≠ 0) by lia.
  split; [exact small_ptr_wf|]. split; [exact small_ptr_stored|].
  split; [exact small_ptr_asserts|].
  split; [exact small_uni_wf|]. split; [exact small_uni_stored|].
  split; [exact small_uni_asserts|].
  exact (HashTheorems.insert_of_a_stored_key true cluster_code Z.log2_up small_ptr 10 16 2
           small_uni 2 (name 2) 2
           small_ptr_wf small_ptr_stored (λ _, small_ptr_asserts) Hk
           small_uni_wf small_uni_stored (λ _, small_uni_asserts)).
Defined.

Lemma overflow_slots_bounded_witness :
  PtrHash.overflow_slots
    (PtrHash.hash_allocate_common (PtrHash.mkControl 0 0 8 61 [] []))
  <= MVM_HASH_MAX_PROBE_DISTANCE
  ∧ UniHash.probe_overflow_size (UniHash.hash_allocate_common 29 (2 ^ 3))
    <= MVM_HASH_MAX_PROBE_DISTANCE - 1
  ∧ UniHash.hash_true_size (UniHash.hash_allocate_common 29 (2 ^ 3))
    = 2 ^ 3 + UniHash.probe_overflow_size (UniHash.hash_allocate_common 29 (2 ^ 3)).
Proof.
  apply (HashTheorems.overflow_slots_bounded (PtrHash.mkControl 0 0 8 61 [] []) 29 3).
  - simpl. lia.
  - lia.
Defined.


End HashWitnesses.

Module HashCounterexamples.
Import RobinHood HashExamples.

(** C7, as the specification has it, fails for the pointer table: from 512
    slots on (six grows after the initial allocation) it has 255 overflow
    slots, one more than [MVM_HASH_MAX_PROBE_DISTANCE - 1]. *)
Lemma ptr_overflow_slots_at_512 :
  PtrHash.official_size
    (Nat.iter 6 PtrHash.hash_grow
       (PtrHash.hash_initial_allocate (PtrHash.mkControl 0 0 0 0 [] []))) = 512
  ∧ PtrHash.overflow_slots
      (Nat.iter 6 PtrHash.hash_grow
         (PtrHash.hash_initial_allocate (PtrHash.mkControl 0 0 0 0 [] []))) = 255
  ∧ MVM_HASH_MAX_PROBE_DISTANCE - 1 = 254.
Proof. split_and!; vm_compute; reflexivity. Qed.


(** The table [overflowed] is what the inserts leave in a build with
    assertions; it is well-formed, at capacity, and stores [K0b], which is
    not the null pointer, with 1001 in slot 512. *)
Lemma overflowed_is_built :
  PtrHash.insert_all true None overflowing = Ok (Some overflowed)
  ∧ PtrHash.wf overflowed
  ∧ PtrHash.official_size overflowed = 512
  ∧ PtrHash.max_items overflowed = 0
  ∧ PtrHash.cur_items overflowed = 257
  ∧ PtrHashSpec.stored overflowed 512 K0b (Some 1001)
  ∧ K0b ≠ 0.
Proof.
  split_and!; try (vm_compute; reflexivity).
  - split; [vm_compute; reflexivity | apply (bool_decide_unpack _); vm_compute; exact I].
  - exists 2, (PtrHash.mkEntry (Some K0b) (Some 1001)).
    split_and!; [vm_compute; reflexivity | lia | vm_compute; reflexivity | reflexivity..].
  - vm_compute. discriminate.
Qed.


(** C10, as the specification has it, fails twice.  For the null pointer as
    a key of a table below capacity: a second insert of it with the stored
    value counts one more item, and an insert with another value overwrites
    the stored one and returns.  And in a build with assertions: on the
    table [overflowed] the insert of the stored pair of [K0b] stops in the
    [assert] of the lookup, where a build without assertions returns the
    table as it was. *)
Lemma insert_of_the_stored_null_key :
  (∃ control control' control'' slot,
     PtrHash.MVM_ptr_hash_insert false None 0 5 = Ok control
     ∧ PtrHash.wf control
     ∧ PtrHashSpec.stored control slot 0 (Some 5)
     ∧ PtrHash.cur_items control = 1
     ∧ PtrHash.MVM_ptr_hash_insert false (Some control) 0 5 = Ok control'
     ∧ PtrHash.cur_items control' = 2
     ∧ PtrHash.MVM_ptr_hash_insert false (Some control) 0 6 = Ok control''
     ∧ PtrHashSpec.stored control'' slot 0 (Some 6))
  ∧ PtrHash.wf overflowed
  ∧ PtrHashSpec.stored overflowed 512 K0b (Some 1001)
  ∧ K0b ≠ 0
  ∧ PtrHash.MVM_ptr_hash_insert true (Some overflowed) K0b 1001 = Abort
  ∧ PtrHash.MVM_ptr_hash_insert false (Some overflowed) K0b 1001 = Ok overflowed.
Proof.
  destruct overflowed_is_built as (_ & Hwf & _ & _ & _ & Hst & Hne).
  split; [|split_and!; [exact Hwf | exact Hst | exact Hne
                        | vm_compute; reflexivity | vm_compute; reflexivity]].
  exists (ptr_table [(0, 5)]), (ptr_table [(0, 5); (0, 5)]), (ptr_table [(0, 5); (0, 6)]), 0%nat.
  split_and!; try (vm_compute; reflexivity).
  - split; [vm_compute; reflexivity | apply (bool_decide_unpack _); vm_compute; exact I].
  - exists 1, (PtrHash.mkEntry (Some 0) (Some 5)).
    split_and!; [vm_compute; reflexivity | lia | vm_compute; reflexivity | reflexivity..].
  - exists 1, (PtrHash.mkEntry (Some 0) (Some 6)).
    split_and!; [vm_compute; reflexivity | lia | vm_compute; reflexivity | reflexivity..].
Qed.

End HashCounterexamples.

(** * Part VII: more of the aggregator *)

Module SpeshMore.
Import Spesh SpeshSpec SpeshFacts SpeshReadings.

(** ** Static values *)

Lemma find_index_app {A} (p : A → bool) (l k : list A) :
  find_index p (l ++ k)
  = match find_index p l with
    | Some i => Some i
    | None => (λ i, (length l + i)%nat) <$> find_index p k
    end.
Proof.
  induction l as [|x l IH]; simpl.
  - destruct (find_index p k); done.
  - destruct (p x); [done|]. rewrite IH.
    destruct (find_index p l); simpl; [done|]. by destruct (find_index p k).
Qed.

(** X1: [add_static_value] keeps the first value recorded for a bytecode
    offset: after the call the offset has a value, the one it had before if
    it had one and the new one otherwise; the other offsets keep theirs;
    and a second call for the offset changes nothing. *)
Theorem static_value_first_wins (ss : MVMSpeshStats) (off v : Z) :
  static_value_at (add_static_value ss off v) off
  = Some (default v (static_value_at ss off))
  ∧ (∀ off', off' ≠ off →
       static_value_at (add_static_value ss off v) off' = static_value_at ss off')
  ∧ (∀ v', add_static_value (add_static_value ss off v) off v' = add_static_value ss off v).
Proof.
  unfold add_static_value, static_value_at.
  destruct (find_index (λ s : MVMSpeshStatsStatic, sv_bytecode_offset s =? off)
              (ss_static_values ss)) as [i|] eqn:Hfind.
  - split_and!.
    + rewrite Hfind. simpl.
      destruct (find_index_Some _ _ _ Hfind) as (x & Hx & _). by rewrite Hx.
    + done.
    + intros v'. by rewrite Hfind.
  - split_and!.
    + simpl. rewrite find_index_app, Hfind. simpl. rewrite Z.eqb_refl. simpl.
      rewrite Nat.add_0_r, lookup_app_r by lia. by rewrite Nat.sub_diag.
    + intros off' Hne. simpl. rewrite find_index_app.
      destruct (find_index (λ s : MVMSpeshStatsStatic, sv_bytecode_offset s =? off')
                  (ss_static_values ss)) as [j|] eqn:Hj; simpl.
      * destruct (find_index_Some _ _ _ Hj) as (x & Hx & _).
        by rewrite (lookup_app_l_Some _ _ _ _ Hx), Hx.
      * apply Z.eqb_neq in Hne. rewrite Z.eqb_sym in Hne. by rewrite Hne.
    + intros v'. simpl. rewrite find_index_app, Hfind. simpl. by rewrite Z.eqb_refl.
Qed.

Section WithEnv.
Variable env : Env.

(** ** Parameter slots *)

(** X2: [param_type] for a frame with a callsite, when neither the count of
    positionals nor the argument index is negative: the flag index is not
    negative; a positional maps to its own flag and the value of the
    [k]-th named pair to the flag after the positionals and [k] named
    ones; the call panics when the flag index is not below the flag count,
    and otherwise returns the slot of that index for an object flag and
    [NULL] for another flag. *)
Theorem param_type_in_bounds (st : State) (simf : SimStackFrame) (ss : MVMSpeshStats)
    (css : MVMSpeshStatsByCallsite) (c : MVMCallsite) (arg_idx : Z) :
  stats st !! sf simf = Some ss →
  ss_by_callsite ss !! callsite_idx simf = Some css →
  css_cs css ≠ 0 →
  c = callsite env (css_cs css) →
  0 <= num_pos c →
  0 <= arg_idx →
  0 <= flag_index c arg_idx
  ∧ (arg_idx < num_pos c → flag_index c arg_idx = arg_idx)
  ∧ (∀ k, 0 <= k → arg_idx = num_pos c + 2 * k + 1 → flag_index c arg_idx = num_pos c + k)
  ∧ (flag_count c <= flag_index c arg_idx → param_type env st simf arg_idx = Abort)
  ∧ (flag_index c arg_idx < flag_count c →
     ∃ flag, arg_flags c !! Z.to_nat (flag_index c arg_idx) = Some flag
             ∧ param_type env st simf arg_idx
               = Ok (if is_obj_flag env flag then Some (Z.to_nat (flag_index c arg_idx))
                     else None)).
Proof.
  intros Hss Hcss Hcs -> Hpos Hidx.
  set (c := callsite env (css_cs css)) in *.
  assert (Hnn : 0 <= flag_index c arg_idx).
  { unfold flag_index. destruct (arg_idx <? num_pos c) eqn:E; [lia|].
    apply Z.ltb_ge in E.
    destruct (decide (arg_idx = num_pos c)) as [->|Hne].
    - replace (num_pos c - 1 - num_pos c) with (-1) by lia.
      change ((-1) `quot` 2) with 0. lia.
    - assert (0 <= (arg_idx - 1 - num_pos c) `quot` 2) by (apply Z.quot_pos; lia). lia. }
  assert (Hrun : param_type env st simf arg_idx
                 = if flag_index c arg_idx >=? flag_count c then Abort
                   else if flag_index c arg_idx <? 0 then Undef
                   else flag ← deref (arg_flags c !! Z.to_nat (flag_index c arg_idx));
                        if is_obj_flag env flag then Ok (Some (Z.to_nat (flag_index c arg_idx)))
                        else Ok None).
  { unfold param_type. rewrite Hss. simpl. rewrite Hcss. simpl.
    apply Z.eqb_neq in Hcs. by rewrite Hcs. }
  split_and!.
  - done.
  - intros Hlt. unfold flag_index. apply Z.ltb_lt in Hlt. by rewrite Hlt.
  - intros k Hk ->. unfold flag_index.
    assert ((num_pos c + 2 * k + 1 <? num_pos c) = false) as -> by (apply Z.ltb_ge; lia).
    replace (num_pos c + 2 * k + 1 - 1 - num_pos c) with (k * 2) by lia.
    by rewrite Z.quot_mul.
  - intros Hge. rewrite Hrun.
    assert ((flag_index c arg_idx >=? flag_count c) = true) as ->; [|done].
    rewrite Z.geb_leb. by apply Z.leb_le.
  - intros Hlt. rewrite Hrun.
    assert ((flag_index c arg_idx >=? flag_count c) = false) as ->.
    { rewrite Z.geb_leb. apply Z.leb_gt. lia. }
    assert ((flag_index c arg_idx <? 0) = false) as -> by (apply Z.ltb_ge; lia).
    destruct (lookup_lt_is_Some_2 (arg_flags c) (Z.to_nat (flag_index c arg_idx)))
      as [flag Hflag]; [unfold flag_count in Hlt; lia|].
    exists flag. split; [done|]. rewrite Hflag. simpl. by destruct (is_obj_flag env flag).
Qed.

(** ** Ageing *)

(** What a cleanup leaves: the frames with young statistics, in order, and
    the statistics without those of the old frames of the sink. *)
Lemma cleanup_filters (cf : list Z) (m0 : gmap Z MVMSpeshStats) :
  ∃ m1,
    MVM_spesh_stats_cleanup env cf m0 = Ok (filter (λ sf, retained env m0 sf) cf, m1)
    ∧ ∀ sf, m1 !! sf = if decide (sf ∈ cf ∧ aged env m0 sf = true) then None
                       else m0 !! sf.
Proof.
  destruct (cleanup_frames_spec env m0 cf [] m0 0%nat)
    as (arr' & m1 & pos' & Hrun & Htake & Hm1); [simpl; lia | by left |].
  exists m1. unfold MVM_spesh_stats_cleanup. simpl in Hrun. rewrite Hrun.
  cbn [mbind outcome_bind]. rewrite Htake. simpl. split; [done|].
  intros sf. rewrite Hm1. done.
Qed.

(** X3: a second [MVM_spesh_stats_cleanup] on what the first left changes
    nothing: the sink and the statistics stay as the first call left
    them. *)
Theorem cleanup_twice (check_frames : list Z) (m : gmap Z MVMSpeshStats) :
  ∃ check_frames' m',
    MVM_spesh_stats_cleanup env check_frames m = Ok (check_frames', m')
    ∧ MVM_spesh_stats_cleanup env check_frames' m' = Ok (check_frames', m').
Proof.
  destruct (cleanup_filters check_frames m) as (m' & H1 & Hm').
  exists (filter (λ sf, retained env m sf) check_frames), m'. split; [exact H1|].
  destruct (cleanup_filters (filter (λ sf, retained env m sf) check_frames) m')
    as (m'' & H2 & Hm'').
  assert (Hyoung : ∀ sf, retained env m sf = true → m' !! sf = m !! sf).
  { intros sf Hr. rewrite Hm'. case_decide as Hd; [|done].
    destruct Hd as [_ Ha]. unfold retained, aged in *.
    destruct (m !! sf); [|done]. rewrite Ha in Hr. done. }
  assert (Hsame : ∀ sf, sf ∈ filter (λ sf, retained env m sf) check_frames →
                        retained env m' sf = true ∧ aged env m' sf = false).
  { intros sf [Hr _]%list_elem_of_filter. apply Is_true_true in Hr.
    unfold retained, aged in *. rewrite (Hyoung sf Hr).
    destruct (m !! sf); [|done]. apply negb_true_iff in Hr. by rewrite Hr. }
  rewrite H2. f_equal. f_equal.
  - assert (Hall : ∀ l : list Z, (∀ sf, sf ∈ l → retained env m' sf = true) →
                      filter (λ sf, retained env m' sf) l = l).
    { induction l as [|x l IH]; intros Hl; [done|].
      rewrite filter_cons_True by (apply Is_true_true, Hl; left).
      f_equal. apply IH. intros sf Hsf. apply Hl. by right. }
    apply Hall. intros sf Hsf. by apply Hsame.
  - apply map_eq. intros sf. rewrite Hm''. case_decide as Hd; [|done].
    destruct Hd as [Hin Ha]. destruct (Hsame sf Hin) as [_ Hna]. congruence.
Qed.

End WithEnv.
End SpeshMore.

Module SpeshSafety.
Import Spesh SpeshSpec SpeshFacts SpeshReadings.

Section WithEnv.
Variable env : Env.

(** ** The update stays within the arrays *)

Lemma flag_index_nonneg (c : MVMCallsite) (arg_idx : Z) :
  0 <= num_pos c → 0 <= arg_idx → 0 <= flag_index c arg_idx.
Proof.
  intros Hn Hi. unfold flag_index. destruct (arg_idx <? num_pos c) eqn:E; [done|].
  apply Z.ltb_ge in E.
  destruct (decide (arg_idx = num_pos c)) as [->|Hne].
  - replace (num_pos c - 1 - num_pos c) with (-1) by lia.
    change ((-1) `quot` 2) with 0. lia.
  - assert (0 <= (arg_idx - 1 - num_pos c) `quot` 2); [|lia].
    apply Z.quot_pos; lia.
Qed.

Lemma param_type_defined (st : State) (n : nat) (simf : SimStackFrame) (arg_idx : Z) :
  (∀ cs, 0 <= num_pos (callsite env cs)) → 0 <= arg_idx →
  frame_ok env (stats st) n simf →
  param_type env st simf arg_idx = Abort
  ∨ (∃ r, param_type env st simf arg_idx = Ok r
          ∧ ∀ k, r = Some k → ∃ a, arg_types simf = Some a ∧ is_Some (a !! k)).
Proof.
  intros Hpos Hidx (ss & css & Hss & Hcss & Harg & _).
  unfold param_type. rewrite Hss. simpl. rewrite Hcss. simpl.
  destruct (css_cs css =? 0) eqn:Hcs.
  { right. exists None. split; [done|]. intros k [=]. }
  apply Z.eqb_neq in Hcs. destruct (Harg Hcs) as (a & Ha & Hlen).
  fold (flag_index (callsite env (css_cs css)) arg_idx).
  pose proof (flag_index_nonneg (callsite env (css_cs css)) arg_idx (Hpos _) Hidx) as Hnn.
  set (fi := flag_index _ _) in *.
  destruct (fi >=? flag_count _) eqn:Hge; [by left|]. right.
  assert (Hlt : fi < flag_count (callsite env (css_cs css))) by lia.
  assert ((fi <? 0) = false) as -> by lia.
  unfold flag_count in Hlt.
  destruct (lookup_lt_is_Some_2 (arg_flags (callsite env (css_cs css))) (Z.to_nat fi))
    as [flag Hflag]; [lia|].
  rewrite Hflag. simpl. destruct (is_obj_flag env flag).
  - eexists. split; [done|]. intros k [= <-]. exists a. split; [done|].
    apply lookup_lt_is_Some_2. lia.
  - exists None. split; [done|]. intros k [=].
Qed.

Lemma write_type_slot_defined (st : State) (arg_idx : Z)
    (w : MVMSpeshStatsType → MVMSpeshStatsType) :
  (∀ cs, 0 <= num_pos (callsite env cs)) → 0 <= arg_idx →
  state_ok env st → sims_frames st ≠ [] →
  returns_or_panics (write_type_slot env st arg_idx w).
Proof.
  intros Hpos Hidx Hok Hne. unfold write_type_slot, top_frame, state_ok in *.
  destruct (sims_frames st) as [|f rest] eqn:Hfs; [done|]. simpl.
  apply Forall_cons in Hok as [Hf _].
  destruct (param_type_defined st _ f arg_idx Hpos Hidx Hf) as [->|(r & -> & Hr)];
    [by right|]. simpl.
  destruct r as [k|]; [|left; eauto].
  destruct (Hr k eq_refl) as (a & -> & [t Ht]). simpl. rewrite Ht. simpl. left. eauto.
Qed.

Lemma update_found_defined (st : State) (j : nat) (e : MVMSpeshLogEntry) :
  (∀ cs, 0 <= num_pos (callsite env cs)) → 0 <= param_index e →
  state_ok env st → sims_frames st ≠ [] →
  returns_or_panics (update_found env st j e).
Proof.
  intros Hpos Hidx Hok Hne.
  assert (Htop : ∃ f rest, sims_frames st = f :: rest ∧ top_frame st = Ok f
                           ∧ is_Some (stats st !! sf f)).
  { unfold top_frame, state_ok in *. destruct (sims_frames st) as [|f rest]; [done|].
    apply Forall_cons in Hok as [(ss & _ & Hss & _) _]. exists f, rest. eauto. }
  destruct Htop as (f & rest & Hfs & Htop & [ss Hss]).
  destruct e; simpl in *.
  - left. eauto.
  - by apply write_type_slot_defined.
  - by apply write_type_slot_defined.
  - rewrite Htop. left. simpl. eauto.
  - rewrite Htop. simpl. rewrite Hss. left. simpl. eauto.
  - rewrite Htop. left. simpl. eauto.
  - rewrite Htop. left. simpl. eauto.
  - unfold update_return. rewrite Htop. simpl.
    destruct (sim_stack_pop_Ok env st Hok Hne) as [st1 ->]. simpl. left.
    destruct (sims_frames st1); [eauto|]. destruct (_ && _); eauto.
Qed.

Lemma update_entry_defined (st : State) (j : nat) (e : MVMSpeshLogEntry) :
  (∀ cs, 0 <= num_pos (callsite env cs)) →
  log st !! j = Some e → 0 <= param_index e → state_ok env st →
  returns_or_panics (update_entry env st j).
Proof.
  intros Hpos He Hidx Hok. unfold update_entry. rewrite He. simpl.
  assert (Hother : returns_or_panics
    ('(st1, found) ← sim_stack_find env st (log_id e);
     if (found : bool) then update_found env st1 j e else Ok st1)).
  { unfold sim_stack_find. destruct (find_index _ _) as [n|] eqn:Hf; [|left; simpl; eauto].
    pose proof (find_index_lt _ _ _ Hf) as Hn.
    destruct (sim_stack_pop_n_Ok env n st Hok) as [st1 Hpop]; [lia|].
    rewrite Hpop. simpl.
    apply find_index_split in Hf as (above & g & rest & Hfs & Hlen & _).
    apply sim_stack_pop_n_spec in Hpop as (a & r & Hfs' & Hla & Hc & _ & _ & _ & _ & Hok1).
    assert (r = g :: rest) as ->.
    { rewrite Hfs in Hfs'. apply app_inj_1 in Hfs' as [? ?]; [done | congruence]. }
    apply update_found_defined; [done..|by apply Hok1|].
    destruct (sims_frames st1); [done|done]. }
  destruct e; try exact Hother.
  destruct (update_entry_frame_spec env st id sf0 cs) as (st2 & _ & _ & -> & _).
  left. eauto.
Qed.

Lemma update_entries_defined (es : list nat) :
  (∀ cs, 0 <= num_pos (callsite env cs)) →
  ∀ st, NoDup es → state_ok env st →
    (∀ k, k ∈ es → (k < length (log st))%nat) →
    (∀ k e, k ∈ es → log st !! k = Some e → 0 <= param_index e) →
    update_entries env st es = Abort
    ∨ ∃ st', update_entries env st es = Ok st' ∧ state_ok env st'.
Proof.
  intros Hpos. induction es as [|j es IH]; intros st Hnd Hok Hlt Hidx; simpl.
  { right. eauto. }
  apply NoDup_cons in Hnd as [Hj Hnd].
  destruct (lookup_lt_is_Some_2 (log st) j) as [e He]; [apply Hlt, list_elem_of_here|].
  destruct (update_entry_defined st j e Hpos He) as [[st1 Hst1]| ->];
    [apply (Hidx j e); [apply list_elem_of_here | done] | done | | by left].
  rewrite Hst1. simpl.
  apply update_entry_spec in Hst1 as (_ & _ & Hlen & Hlog & Hok1 & _).
  apply IH; [done | by apply Hok1 | |].
  - intros k Hk. rewrite Hlen. by apply Hlt, list_elem_of_further.
  - intros k e' Hk He'. apply (Hidx k e'); [by apply list_elem_of_further|].
    rewrite <- Hlog; [done|]. intros ->. done.
Qed.

(** X4: [MVM_spesh_stats_update] stays within its arrays.  When the
    positional counts of the callsites and the argument indices of the
    PARAMETER events are not negative (both are unsigned in the C code), a
    call on any log and any statistics either returns or stops in one of
    the two panics (the flag index of [param_type] out of bounds, a pop of
    the empty simulated stack): every index into the log, into the arrays
    of callsite and type records and into the type tuple of a frame is in
    range, and every record that is read is there. *)
Theorem update_returns_or_panics (st : State) :
  (∀ cs, 0 <= num_pos (callsite env cs)) →
  (∀ i e, log st !! i = Some e → 0 <= param_index e) →
  returns_or_panics (MVM_spesh_stats_update env st).
Proof.
  intros Hpos Hidx. unfold MVM_spesh_stats_update.
  destruct (update_entries_defined (seq 0 (length (log st))) Hpos (sim_stack_init st))
    as [->|(st1 & -> & Hok1)].
  - apply NoDup_seq.
  - unfold state_ok, sim_stack_init. simpl. apply Forall_nil_2.
  - intros k Hk%elem_of_seq. simpl. lia.
  - intros k e _. simpl. apply Hidx.
  - by right.
  - simpl. unfold sim_stack_destroy.
    destruct (sim_stack_pop_n_Ok env (length (sims_frames st1)) st1 Hok1) as [st' ->];
      [done|]. left. eauto.
Qed.

End WithEnv.
End SpeshSafety.

Module SpeshAccounts.
Import Spesh SpeshSpec SpeshFacts SpeshReadings.

Section WithEnv.
Variable env : Env.

(** ** Which statistics an update touches *)

(** The frames of the simulated stack belong to static frames in [S]. *)
Definition frames_in (S : Z → Prop) (st : State) : Prop :=
  Forall (λ f, S (sf f)) (sims_frames st).

(** What the steps of the update keep: the stack stays within [S], the
    statistics outside [S] and all the hit counts are as before. *)
Definition kept (S : Z → Prop) (st st' : State) : Prop :=
  (frames_in S st → frames_in S st')
  ∧ (frames_in S st → ∀ x, ¬ S x → stats st' !! x = stats st !! x)
  ∧ (∀ x, hits_of (stats st') x = hits_of (stats st) x).

Lemma kept_trans (S : Z → Prop) (st1 st2 st3 : State) :
  kept S st1 st2 → kept S st2 st3 → kept S st1 st3.
Proof.
  intros (Hf & Hs & Hh) (Hf' & Hs' & Hh'). split_and!.
  - auto.
  - intros H x Hx. rewrite Hs' by auto. by apply Hs.
  - intros x. by rewrite Hh', Hh.
Qed.

Lemma hits_of_insert (m : gmap Z MVMSpeshStats) (sf0 : Z) (ss ss' : MVMSpeshStats) (x : Z) :
  m !! sf0 = Some ss → ss_hits ss' = ss_hits ss →
  hits_of (<[sf0 := ss']> m) x = hits_of m x.
Proof.
  intros Hss Hh. unfold hits_of. destruct (decide (x = sf0)) as [->|Hx].
  - by rewrite lookup_insert_eq, Hss.
  - by rewrite lookup_insert_ne.
Qed.

Lemma sim_stack_pop_kept (S : Z → Prop) (st st' : State) :
  sim_stack_pop env st = Ok st' → kept S st st'.
Proof.
  intros (simf & callers & ss & ss' & Hfs & Hss & Hst & _ & _ & Hhits & _ & _ & Hc & _)
    %sim_stack_pop_spec.
  unfold kept, frames_in. rewrite Hfs. split_and!.
  - intros [_ Hcs]%Forall_cons.
    destruct callers as [|c below], (sims_frames st') as [|c' below']; simpl in Hc; try done.
    destruct Hc as [(Hsf & _) ->]. apply Forall_cons in Hcs as [? ?].
    apply Forall_cons. by rewrite Hsf.
  - intros [Hf _]%Forall_cons x Hx. rewrite Hst, lookup_insert_ne; [done|].
    intros <-. done.
  - intros x. rewrite Hst. by eapply hits_of_insert.
Qed.

Lemma sim_stack_pop_n_kept (S : Z → Prop) (n : nat) :
  ∀ st st', sim_stack_pop_n env n st = Ok st' → kept S st st'.
Proof.
  induction n as [|n IH]; intros st st'; simpl.
  - intros [= <-]. by split_and!.
  - intros (st1 & Hpop & Hn)%bind_Ok.
    eapply kept_trans; [by eapply sim_stack_pop_kept | by eapply IH].
Qed.

Lemma set_top_frame_kept (S : Z → Prop) (st : State) (f f' : SimStackFrame) :
  top_frame st = Ok f → sf f' = sf f → kept S st (set_top_frame st f').
Proof.
  intros [rest Hfs]%top_frame_Ok Hsf. unfold kept, frames_in. simpl. rewrite Hfs. simpl.
  split_and!; [|done..]. intros [? ?]%Forall_cons. apply Forall_cons. by rewrite Hsf.
Qed.

Lemma update_found_kept (S : Z → Prop) (st st' : State) (j : nat) (e : MVMSpeshLogEntry) :
  update_found env st j e = Ok st' → kept S st st'.
Proof.
  assert (Hslot : ∀ arg_idx w, write_type_slot env st arg_idx w = Ok st' → kept S st st').
  { intros arg_idx w (Hs & _ & _ & Hc)%(write_type_slot_spec env _ _ _ _ j).
    unfold kept, frames_in. rewrite Hs. split_and!; [|done..].
    destruct (sims_frames st) as [|c b], (sims_frames st') as [|c' b']; simpl in Hc; try done.
    destruct Hc as [(Hsf & _) ->]. intros [? ?]%Forall_cons. apply Forall_cons.
    by rewrite Hsf. }
  destruct e; simpl.
  - intros [= <-]. by split_and!.
  - apply Hslot.
  - apply Hslot.
  - intros (f & Hf & [= <-])%bind_Ok. by apply (set_top_frame_kept S st f).
  - intros (f & [rest Hfs]%top_frame_Ok & H)%bind_Ok.
    apply bind_Ok in H as (ss & Hss%deref_Ok & [= <-]).
    unfold kept, frames_in. simpl. rewrite Hfs. split_and!; [done| |].
    + intros [? _]%Forall_cons x Hx. rewrite lookup_insert_ne; [done|]. by intros <-.
    + intros x. eapply hits_of_insert; [done|].
      unfold add_static_value. by destruct (find_index _ _).
  - intros (f & Hf & [= <-])%bind_Ok. by apply (set_top_frame_kept S st f).
  - intros (f & Hf & [= <-])%bind_Ok. by apply (set_top_frame_kept S st f).
  - intros (f & callers & st1 & Hfs & Hpop & Hs & _ & _ & Hcase)%update_return_spec.
    eapply kept_trans; [by eapply sim_stack_pop_kept|].
    destruct Hcase as [->|(caller & below & Hfs1 & _ & _ & _ & _ & Hfs' & _)];
      [by split_and!|].
    unfold kept, frames_in. rewrite Hs, Hfs', Hfs1. split_and!; [|done..].
    intros [? ?]%Forall_cons. by apply Forall_cons.
Qed.

Lemma update_entry_frame_hits (st st' : State) (id sf0 cs : Z) :
  update_entry_frame env st id sf0 cs = Ok st' →
  hits_of (stats st') sf0 = wrap32 (hits_of (stats st) sf0 + 1).
Proof.
  unfold update_entry_frame, stats_for, hits_of, sim_stack_push.
  destruct (stats st !! sf0) as [ss|];
    (destruct (by_callsite_idx _ cs) as [ss3 idx] eqn:Hidx;
     apply by_callsite_idx_spec in Hidx as (_ & Hh & _);
     intros (css & _ & [= <-])%bind_Ok; simpl;
     rewrite lookup_insert_eq; simpl; rewrite Hh; simpl;
     by destruct (negb _)).
Qed.

(** One round of the loop: an ENTRY counts a hit for its static frame and
    pushes a frame for it, the other cases keep the counts. *)
Lemma update_entry_touch (S : Z → Prop) (st st' : State) (j : nat) (e : MVMSpeshLogEntry) :
  log st !! j = Some e → update_entry env st j = Ok st' →
  (∀ id sf0 cs, e = LOG_ENTRY id sf0 cs → S sf0) →
  frames_in S st →
  frames_in S st'
  ∧ (∀ x, ¬ S x → stats st' !! x = stats st !! x)
  ∧ (∀ x, hits_of (stats st') x
          = if is_entry_for x e then wrap32 (hits_of (stats st) x + 1)
            else hits_of (stats st) x).
Proof.
  intros He Hrun HS Hin. unfold update_entry in Hrun. rewrite He in Hrun. simpl in Hrun.
  assert (Hother :
    ('(st1, found) ← sim_stack_find env st (log_id e);
     if (found : bool) then update_found env st1 j e else Ok st1) = Ok st' →
    kept S st st').
  { intros ([st1 found] & Hfind & H)%bind_Ok.
    apply sim_stack_find_spec in Hfind. destruct found.
    - destruct Hfind as (above & g & rest & g' & _ & _ & _ & Hpop & _).
      eapply kept_trans; [by eapply sim_stack_pop_n_kept | by eapply update_found_kept].
    - destruct Hfind as [-> _]. injection H as <-. by split_and!. }
  assert (Hkept : kept S st st' → (∀ x, is_entry_for x e = false) →
    frames_in S st'
    ∧ (∀ x, ¬ S x → stats st' !! x = stats st !! x)
    ∧ (∀ x, hits_of (stats st') x
            = if is_entry_for x e then wrap32 (hits_of (stats st) x + 1)
              else hits_of (stats st) x)).
  { intros (Hf & Hs & Hh) Hno. split_and!; [auto | auto |].
    intros x. by rewrite Hno, Hh. }
  destruct e; try (apply Hkept; [by apply Hother | done]).
  clear Hother Hkept.
  pose proof (update_entry_frame_hits _ _ _ _ _ Hrun) as Hhits.
  destruct (update_entry_frame_spec env st id sf0 cs)
    as (st2 & f & ss' & Hrun' & Hst & _ & _ & _ & _ & Hfs & _ & Hsf & _).
  rewrite Hrun' in Hrun. injection Hrun as <-.
  split_and!.
  - unfold frames_in. rewrite Hfs. apply Forall_cons. rewrite Hsf. split; [|done].
    by eapply HS.
  - intros x Hx. rewrite Hst, lookup_insert_ne; [done|]. intros <-. apply Hx. by eapply HS.
  - intros x. simpl. destruct (sf0 =? x) eqn:E.
    + apply Z.eqb_eq in E as <-. done.
    + apply Z.eqb_neq in E. unfold hits_of. by rewrite Hst, lookup_insert_ne.
Qed.

(** An ENTRY for [x] sits at position [k] of the log. *)
Definition entry_at (l : list MVMSpeshLogEntry) (x : Z) (k : nat) : bool :=
  match l !! k with
  | Some e => is_entry_for x e
  | None => false
  end.

Definition count_hits (n : nat) (h : Z) : Z :=
  Nat.iter n (λ h, wrap32 (h + 1)) h.

Lemma count_hits_spec (n : nat) (h : Z) :
  count_hits n h = if decide (n = 0%nat) then h else wrap32 (h + Z.of_nat n).
Proof.
  induction n as [|n IH]; [done|]. unfold count_hits in *. simpl. rewrite IH.
  case_decide as Hn; simpl.
  - subst n. done.
  - unfold wrap32. rewrite Zplus_mod_idemp_l. f_equal. lia.
Qed.

Lemma count_hits_comm (n : nat) (h : Z) :
  count_hits n (wrap32 (h + 1)) = wrap32 (count_hits n h + 1).
Proof. induction n as [|n IH]; [done|]. unfold count_hits in *. simpl. by rewrite IH. Qed.

Lemma filter_ext_in {A} (P Q : A → Prop) `{!∀ x, Decision (P x)} `{!∀ x, Decision (Q x)}
    (l : list A) :
  (∀ x, x ∈ l → P x ↔ Q x) → filter P l = filter Q l.
Proof.
  induction l as [|a l IH]; intros Hpq; [done|].
  assert (Hl : filter P l = filter Q l).
  { apply IH. intros x Hx. by apply Hpq, list_elem_of_further. }
  pose proof (Hpq a (list_elem_of_here a l)) as Ha.
  destruct (decide (P a)) as [Hp|Hp].
  - rewrite !filter_cons_True; [by rewrite Hl | by apply Ha | done].
  - rewrite !filter_cons_False; [done | by rewrite <- Ha | done].
Qed.

Lemma update_entries_touch (S : Z → Prop) (es : list nat) :
  ∀ st st', NoDup es → update_entries env st es = Ok st' →
    (∀ k id sf0 cs, k ∈ es → log st !! k = Some (LOG_ENTRY id sf0 cs) → S sf0) →
    frames_in S st →
    frames_in S st'
    ∧ (∀ x, ¬ S x → stats st' !! x = stats st !! x)
    ∧ (∀ x, hits_of (stats st') x
            = count_hits (length (filter (λ k, entry_at (log st) x k = true) es))
                (hits_of (stats st) x)).
Proof.
  induction es as [|j es IH]; intros st st' Hnd; simpl.
  { intros [= <-] _ Hin. by split_and!. }
  intros (st1 & Hj & Hes)%bind_Ok HS Hin.
  apply NoDup_cons in Hnd as [Hjes Hnd].
  pose proof (update_entry_spec env _ _ _ Hj) as (Hlt & _ & _ & Hlog & _).
  destruct (lookup_lt_is_Some_2 (log st) j Hlt) as [e He].
  destruct (update_entry_touch S st st1 j e He Hj) as (Hin1 & Hs1 & Hh1); [|done|].
  { intros id sf0 cs ->. eapply HS; [apply list_elem_of_here | done]. }
  destruct (IH st1 st' Hnd Hes) as (Hin' & Hs' & Hh'); [|done|].
  { intros k id sf0 cs Hk Hl. eapply (HS k); [by apply list_elem_of_further|].
    rewrite <- Hlog; [done|]. by intros ->. }
  split_and!; [done| |].
  - intros x Hx. by rewrite Hs', Hs1.
  - intros x. rewrite Hh', Hh1.
    assert (Hsame : filter (λ k, entry_at (log st1) x k = true) es
                    = filter (λ k, entry_at (log st) x k = true) es).
    { apply filter_ext_in. intros k Hk. unfold entry_at.
      rewrite Hlog; [done|]. by intros ->. }
    rewrite Hsame.
    assert (Hat : entry_at (log st) x j = is_entry_for x e).
    { unfold entry_at. by rewrite He. }
    destruct (is_entry_for x e) eqn:E.
    + rewrite filter_cons_True by done. simpl. by rewrite count_hits_comm.
    + rewrite filter_cons_False; [done|]. by rewrite Hat.
Qed.

Lemma entries_for_seq (x : Z) (l : list MVMSpeshLogEntry) :
  ∀ pre,
    length (filter (λ k, entry_at (pre ++ l) x k = true) (seq (length pre) (length l)))
    = length (filter (λ e, is_entry_for x e = true) l).
Proof.
  induction l as [|e l IH]; intros pre; simpl; [done|].
  assert (He : entry_at (pre ++ e :: l) x (length pre) = is_entry_for x e).
  { unfold entry_at. by rewrite list_lookup_middle. }
  specialize (IH (pre ++ [e])). rewrite length_app, <- app_assoc in IH. simpl in IH.
  rewrite Nat.add_1_r in IH.
  destruct (is_entry_for x e) eqn:E.
  - rewrite !filter_cons_True by (first [exact He | exact E]). simpl. by rewrite IH.
  - rewrite !filter_cons_False by (rewrite ?He, ?E; done). done.
Qed.

(** X5: an update changes the statistics of a static frame only if the log
    has an ENTRY for it: the statistics of every other static frame, those
    it has or that it has none, are the same after the call. *)
Theorem update_touches_entered_frames_only (st st' : State) (sf0 : Z) :
  MVM_spesh_stats_update env st = Ok st' →
  ¬ has_entry (log st) sf0 →
  stats st' !! sf0 = stats st !! sf0.
Proof.
  unfold MVM_spesh_stats_update. intros (st1 & Hloop & Hdestroy)%bind_Ok Hno.
  apply (update_entries_touch (has_entry (log st))) in Hloop as (Hin & Hs & _).
  - unfold sim_stack_destroy in Hdestroy.
    apply (sim_stack_pop_n_kept (has_entry (log st))) in Hdestroy as (_ & Hs' & _).
    rewrite Hs' by done. by apply Hs.
  - apply NoDup_seq.
  - intros k id x cs _ Hl. by exists k, id, cs.
  - unfold frames_in. simpl. apply Forall_nil_2.
Qed.

(** X6: an update counts the ENTRY events: the hits of a static frame grow
    by the number of ENTRY events the log has for it, in 32-bit arithmetic,
    and are what they were when the log has none. *)
Theorem update_counts_entries (st st' : State) (sf0 : Z) :
  MVM_spesh_stats_update env st = Ok st' →
  hits_of (stats st') sf0
  = if decide (entries_for (log st) sf0 = 0) then hits_of (stats st) sf0
    else wrap32 (hits_of (stats st) sf0 + entries_for (log st) sf0).
Proof.
  unfold MVM_spesh_stats_update. intros (st1 & Hloop & Hdestroy)%bind_Ok.
  apply (update_entries_touch (λ _, True)) in Hloop as (_ & _ & Hh).
  - unfold sim_stack_destroy in Hdestroy.
    apply (sim_stack_pop_n_kept (λ _, True)) in Hdestroy as (_ & _ & Hh').
    rewrite Hh', Hh. simpl.
    pose proof (entries_for_seq sf0 (log st) []) as Hc. simpl in Hc.
    rewrite Hc, count_hits_spec. unfold entries_for.
    repeat case_decide; try done; lia.
  - apply NoDup_seq.
  - done.
  - unfold frames_in. simpl. apply Forall_nil_2.
Qed.

End WithEnv.
End SpeshAccounts.

Module SpeshGrowth.
Import Spesh SpeshSpec SpeshFacts SpeshReadings SpeshMore.

Section WithEnv.
Variable env : Env.

(** ** The records stay where they are *)

Lemma update_stats_R (st st' : State) :
  MVM_spesh_stats_update env st = Ok st' → stats_R (stats st) (stats st').
Proof.
  unfold MVM_spesh_stats_update, sim_stack_destroy.
  intros (st1 & Hloop & Hdestroy)%bind_Ok.
  apply (update_entries_later env (length (log st))) in Hloop.
  - apply later_stats_R in Hloop.
    apply sim_stack_pop_n_spec in Hdestroy as (_ & _ & _ & _ & _ & HR & _).
    by etrans.
  - intros Hin%elem_of_seq. simpl in Hin. lia.
Qed.

(** X7: an update removes, moves or re-keys no record of the statistics:
    a callsite record, a type tuple record under it and an offset record
    under that are at the same indices after the call, with the same
    callsite, the same tuple and the same bytecode offset. *)
Theorem update_keeps_the_records (st st' : State) (sf0 : Z) (ss : MVMSpeshStats)
    (ci : nat) (css : MVMSpeshStatsByCallsite) :
  MVM_spesh_stats_update env st = Ok st' →
  stats st !! sf0 = Some ss → ss_by_callsite ss !! ci = Some css →
  ∃ ss' css',
    stats st' !! sf0 = Some ss' ∧ ss_by_callsite ss' !! ci = Some css'
    ∧ css_cs css' = css_cs css
    ∧ ∀ ti tss, css_by_type css !! ti = Some tss →
        ∃ tss', css_by_type css' !! ti = Some tss'
                ∧ tss_arg_types tss' = tss_arg_types tss
                ∧ ∀ oi oss, tss_by_offset tss !! oi = Some oss →
                    ∃ oss', tss_by_offset tss' !! oi = Some oss'
                            ∧ oss_bytecode_offset oss' = oss_bytecode_offset oss.
Proof.
  intros HR%update_stats_R Hss Hcss.
  destruct (HR _ _ Hss) as (ss' & Hss' & Hs).
  destruct (Hs _ _ Hcss) as (css' & Hcss' & Hcs & Hc).
  exists ss', css'. split_and!; [done..|].
  intros ti tss Htss. destruct (Hc _ _ Htss) as (tss' & Htss' & Ha & Ht).
  exists tss'. split_and!; [done..|].
  intros oi oss Hoss. destruct (Ht _ _ Hoss) as (oss' & Hoss' & Ho & _).
  eauto.
Qed.

(** ** An update, then a cleanup *)

Lemma update_entries_exist (es : list nat) (sf0 : Z) :
  ∀ st st', NoDup es → update_entries env st es = Ok st' →
    has_entry_in (log st) es sf0 → is_Some (stats st' !! sf0).
Proof.
  induction es as [|j es IH]; intros st st' Hnd; simpl.
  { intros _ (i & ? & ? & ?%elem_of_nil & _). done. }
  intros (st1 & Hj & Hes)%bind_Ok (i & id & cs & Hi & Hl).
  apply NoDup_cons in Hnd as [Hjes Hnd].
  apply elem_of_cons in Hi as [->|Hi].
  - pose proof (update_entry_sink env _ _ _ _ Hl Hj) as (f & ss' & Hst & _).
    apply (update_entries_later env j) in Hes; [|done].
    apply later_stats_R in Hes.
    destruct (Hes sf0 ss') as (s' & -> & _); [|done].
    by rewrite Hst, lookup_insert_eq.
  - apply (IH st1 st' Hnd Hes). exists i, id, cs. split; [done|].
    apply update_entry_spec in Hj as (_ & _ & _ & Hlog & _).
    rewrite Hlog; [done|]. by intros ->.
Qed.

Lemma update_exists (st st' : State) (sf0 : Z) :
  MVM_spesh_stats_update env st = Ok st' → has_entry (log st) sf0 →
  is_Some (stats st' !! sf0).
Proof.
  unfold MVM_spesh_stats_update, sim_stack_destroy.
  intros (st1 & Hloop & Hdestroy)%bind_Ok (i & id & cs & Hl).
  apply (update_entries_exist _ sf0) in Hloop as [s Hs]; [|apply NoDup_seq|].
  - apply sim_stack_pop_n_spec in Hdestroy as (_ & _ & _ & _ & _ & HR & _).
    destruct (HR _ _ Hs) as (s' & -> & _). done.
  - exists i, id, cs. split; [|done]. apply elem_of_seq.
    apply lookup_lt_Some in Hl. simpl. lia.
Qed.

(** X8: the static frames of a log survive the cleanup that follows its
    update.  With a maximum age that is not negative, the cleanup of the
    sink after an update, at the same statistics version, keeps the
    statistics of every static frame with an ENTRY in the log as the update
    left them, and keeps the frame in the sink if it was there. *)
Theorem updated_frames_survive_cleanup (st st' : State) :
  MVM_spesh_stats_update env st = Ok st' →
  0 <= MVM_SPESH_STATS_MAX_AGE env →
  ∃ check_frames m',
    MVM_spesh_stats_cleanup env (sf_updated st') (stats st') = Ok (check_frames, m')
    ∧ ∀ sf0, has_entry (log st) sf0 →
        is_Some (m' !! sf0) ∧ m' !! sf0 = stats st' !! sf0
        ∧ (sf0 ∈ sf_updated st' → sf0 ∈ check_frames).
Proof.
  intros Hupd Hage.
  destruct (cleanup_filters env (sf_updated st') (stats st')) as (m' & Hrun & Hm').
  eexists _, m'. split; [exact Hrun|]. intros sf0 Hhas.
  destruct (update_exists _ _ _ Hupd Hhas) as [ss Hss].
  pose proof Hupd as (_ & _ & _ & _ & Hlu)%update_sink_spec.
  specialize (Hlu sf0 Hhas). unfold last_update_of in Hlu. rewrite Hss in Hlu.
  assert (Hyoung : (stats_age env (ss_last_update ss) >? MVM_SPESH_STATS_MAX_AGE env) = false).
  { unfold stats_age, wrap64. rewrite Hlu, Z.sub_diag. change (0 mod 2 ^ 64) with 0. lia. }
  assert (Hsame : m' !! sf0 = stats st' !! sf0).
  { rewrite Hm'. case_decide as Hd; [|done]. destruct Hd as [_ Ha].
    unfold aged in Ha. rewrite Hss in Ha. congruence. }
  split_and!.
  - by rewrite Hsame, Hss.
  - done.
  - intros Hin. apply list_elem_of_filter. split; [|done].
    unfold retained. rewrite Hss, Hyoung. done.
Qed.

End WithEnv.
End SpeshGrowth.

Module SpeshKeys.
Import Spesh SpeshSpec SpeshFacts SpeshReadings.

Section WithEnv.
Variable env : Env.

(** ** One record per key *)

Lemma one_record_insert (m : gmap Z MVMSpeshStats) (sf0 : Z) (ss' : MVMSpeshStats) :
  NoDup (css_cs <$> ss_by_callsite ss') →
  NoDup (sv_bytecode_offset <$> ss_static_values ss') →
  one_record_per_key m → one_record_per_key (<[sf0 := ss']> m).
Proof.
  intros Hc Hs Hm x ss. destruct (decide (x = sf0)) as [->|Hx].
  - rewrite lookup_insert_eq. by intros [= <-].
  - rewrite lookup_insert_ne by done. apply Hm.
Qed.

Lemma NoDup_snoc_fresh {B} (l : list B) (k : B) : k ∉ l → NoDup l → NoDup (l ++ [k]).
Proof.
  intros Hk Hl. apply NoDup_app. split_and!; [done| |apply NoDup_singleton].
  intros x Hx ->%list_elem_of_singleton. done.
Qed.

Lemma by_callsite_idx_keys (ss ss' : MVMSpeshStats) (cs : Z) (idx : nat) :
  by_callsite_idx ss cs = (ss', idx) →
  ss_static_values ss' = ss_static_values ss
  ∧ (NoDup (css_cs <$> ss_by_callsite ss) → NoDup (css_cs <$> ss_by_callsite ss')).
Proof.
  unfold by_callsite_idx. destruct (find_index _ _) eqn:Hf; intros [= <- <-]; [done|].
  split; [done|]. simpl. rewrite fmap_app. simpl. apply NoDup_snoc_fresh.
  intros (css & -> & Hx)%list_elem_of_fmap.
  eapply find_index_None in Hf; [|done]. simpl in Hf. lia.
Qed.

Lemma add_static_value_keys (ss : MVMSpeshStats) (off v : Z) :
  ss_by_callsite (add_static_value ss off v) = ss_by_callsite ss
  ∧ (NoDup (sv_bytecode_offset <$> ss_static_values ss) →
     NoDup (sv_bytecode_offset <$> ss_static_values (add_static_value ss off v))).
Proof.
  unfold add_static_value. destruct (find_index _ _) eqn:Hf; [done|].
  split; [done|]. simpl. rewrite fmap_app. simpl. apply NoDup_snoc_fresh.
  intros (s & -> & Hx)%list_elem_of_fmap.
  eapply find_index_None in Hf; [|done]. simpl in Hf. lia.
Qed.

Lemma sim_stack_pop_records (st st' : State) :
  sim_stack_pop env st = Ok st' →
  one_record_per_key (stats st) → one_record_per_key (stats st').
Proof.
  unfold sim_stack_pop. destruct (sims_frames st) as [|simf callers]; [done|].
  intros (ss & Hss%deref_Ok & H)%bind_Ok Hm.
  apply bind_Ok in H as (css0 & _ & H).
  apply bind_Ok in H as ([ss1 r] & Hbt & H).
  destruct (add_osr_and_depth_fields ss simf (sims_depth st)) as (_ & Hsv0 & _).
  destruct (add_osr_and_depth_callsites ss simf (sims_depth st)) as (Hcs0 & _).
  apply by_type_spec in Hbt as (_ & _ & Hsv1 & _ & _ & Hcs1 & _).
  destruct (Hm _ _ Hss) as [Hc Hs].
  assert (Hc1 : NoDup (css_cs <$> ss_by_callsite ss1)) by (by rewrite Hcs1, Hcs0).
  assert (Hs1 : NoDup (sv_bytecode_offset <$> ss_static_values ss1))
    by (by rewrite Hsv1, Hsv0).
  destruct r as [found|].
  - apply bind_Ok in H as (css & _ & H).
    apply bind_Ok in H as (tss & _ & H).
    apply bind_Ok in H as (tss1 & _ & [= <-]). simpl.
    apply one_record_insert; [|done..].
    unfold alter_by_callsite. simpl. by rewrite fmap_alter_same.
  - injection H as <-. simpl. by apply one_record_insert.
Qed.

Lemma sim_stack_pop_n_records (n : nat) :
  ∀ st st', sim_stack_pop_n env n st = Ok st' →
    one_record_per_key (stats st) → one_record_per_key (stats st').
Proof.
  induction n as [|n IH]; intros st st'; simpl.
  - by intros [= <-].
  - intros (st1 & Hpop & Hn)%bind_Ok Hm.
    eapply IH; [done|]. by eapply sim_stack_pop_records.
Qed.

Lemma update_found_records (st st' : State) (j : nat) (e : MVMSpeshLogEntry) :
  update_found env st j e = Ok st' →
  one_record_per_key (stats st) → one_record_per_key (stats st').
Proof.
  destruct e; simpl.
  - by intros [= <-].
  - intros (Hs & _)%(write_type_slot_spec env _ _ _ _ j). by rewrite Hs.
  - intros (Hs & _)%(write_type_slot_spec env _ _ _ _ j). by rewrite Hs.
  - by intros (f & _ & [= <-])%bind_Ok.
  - intros (f & _ & H)%bind_Ok Hm.
    apply bind_Ok in H as (ss & Hss%deref_Ok & [= <-]). simpl.
    destruct (Hm _ _ Hss) as [Hc Hs].
    destruct (add_static_value_keys ss bytecode_offset value) as [Hk Hv].
    apply one_record_insert; [by rewrite Hk | by apply Hv | done].
  - by intros (f & _ & [= <-])%bind_Ok.
  - by intros (f & _ & [= <-])%bind_Ok.
  - intros (f & callers & st1 & _ & Hpop & Hs & _)%update_return_spec Hm.
    rewrite Hs. by eapply sim_stack_pop_records.
Qed.

Lemma update_entry_frame_records (st st' : State) (id sf0 cs : Z) :
  update_entry_frame env st id sf0 cs = Ok st' →
  one_record_per_key (stats st) → one_record_per_key (stats st').
Proof.
  unfold update_entry_frame, stats_for, sim_stack_push. intros H Hm.
  set (ss0 := match stats st !! sf0 with Some ss => ss | None => zero_stats end).
  assert (Hss0 : NoDup (css_cs <$> ss_by_callsite ss0)
                 ∧ NoDup (sv_bytecode_offset <$> ss_static_values ss0)).
  { unfold ss0. destruct (stats st !! sf0) as [ss|] eqn:Hss; [by eapply Hm|].
    simpl. split; apply NoDup_nil_2. }
  destruct Hss0 as [Hc Hs].
  destruct (stats st !! sf0) as [ss|] eqn:Hss;
    (destruct (by_callsite_idx _ cs) as [ss3 idx] eqn:Hidx;
     apply by_callsite_idx_keys in Hidx as [Hsv Hk];
     apply bind_Ok in H as (css & _ & [= <-]); simpl;
     apply one_record_insert;
     [ unfold alter_by_callsite; simpl; rewrite fmap_alter_same by done;
       apply Hk; simpl; by destruct (negb _)
     | unfold alter_by_callsite; simpl; rewrite Hsv; simpl; by destruct (negb _)
     | try done; by apply one_record_insert; [apply NoDup_nil_2 | apply NoDup_nil_2 |] ]).
Qed.

Lemma update_entry_records (st st' : State) (j : nat) :
  update_entry env st j = Ok st' →
  one_record_per_key (stats st) → one_record_per_key (stats st').
Proof.
  unfold update_entry. intros (e & _ & H)%bind_Ok Hm.
  assert (Hother :
    ('(st1, found) ← sim_stack_find env st (log_id e);
     if (found : bool) then update_found env st1 j e else Ok st1) = Ok st' →
    one_record_per_key (stats st')).
  { intros ([st1 found] & Hfind & H')%bind_Ok.
    apply sim_stack_find_spec in Hfind. destruct found.
    - destruct Hfind as (above & g & rest & g' & _ & _ & _ & Hpop & _).
      eapply update_found_records; [done|]. by eapply sim_stack_pop_n_records.
    - destruct Hfind as [-> _]. by injection H' as <-. }
  destruct e; try (by apply Hother).
  by eapply update_entry_frame_records.
Qed.

Lemma update_entries_records (es : list nat) :
  ∀ st st', update_entries env st es = Ok st' →
    one_record_per_key (stats st) → one_record_per_key (stats st').
Proof.
  induction es as [|j es IH]; intros st st'; simpl.
  - by intros [= <-].
  - intros (st1 & Hj & Hes)%bind_Ok Hm.
    eapply IH; [done|]. by eapply update_entry_records.
Qed.

(** X9: an update keeps the statistics keyed: if every static frame had at
    most one record per callsite and at most one static value per bytecode
    offset before the call, the same holds after it. *)
Theorem update_keeps_one_record_per_key (st st' : State) :
  MVM_spesh_stats_update env st = Ok st' →
  one_record_per_key (stats st) → one_record_per_key (stats st').
Proof.
  unfold MVM_spesh_stats_update, sim_stack_destroy.
  intros (st1 & Hloop & Hdestroy)%bind_Ok Hm.
  apply update_entries_records in Hloop; [|done].
  by eapply sim_stack_pop_n_records.
Qed.

End WithEnv.
End SpeshKeys.

Module SpeshSized.
Import Spesh SpeshSpec SpeshFacts SpeshReadings.

Section WithEnv.
Variable env : Env.

(** ** Sized type tuples *)

(** The call type infos that a frame has buffered are sized, and so are the
    statistics and the frames of a state. *)
Definition frame_sized (f : SimStackFrame) : Prop :=
  Forall (λ info, tuple_sized env (sct_cs info) (sct_arg_types info)) (call_type_info f).
Definition sized_st (st : State) : Prop :=
  stats_sized env (stats st) ∧ Forall frame_sized (sims_frames st).

Lemma stats_sized_insert (m : gmap Z MVMSpeshStats) (sf0 : Z) (ss : MVMSpeshStats) :
  ss_sized env ss → stats_sized env m → stats_sized env (<[sf0 := ss]> m).
Proof. intros Hs Hm. by apply map_Forall_insert_2. Qed.

Lemma css_sized_same (l l' : list MVMSpeshStatsByCallsite) :
  css_cs <$> l' = css_cs <$> l → css_by_type <$> l' = css_by_type <$> l →
  Forall (css_sized env) l → Forall (css_sized env) l'.
Proof.
  intros Hcs Hbt Hl. apply Forall_lookup_2. intros i css' Hi.
  destruct (fmap_eq_lookup css_cs l' l i css' (eq_sym Hcs) Hi) as (c1 & H1 & E1).
  destruct (fmap_eq_lookup css_by_type l' l i css' (eq_sym Hbt) Hi) as (c2 & H2 & E2).
  simplify_eq. pose proof (Forall_lookup_1 _ _ _ _ Hl H1) as Hc.
  unfold css_sized in *. by rewrite <- E1, <- E2.
Qed.

Lemma by_offset_sized (tss tss' : MVMSpeshStatsByType) (off cs : Z) (oi : nat) :
  by_offset tss off = (tss', oi) → tss_sized env cs tss → tss_sized env cs tss'.
Proof.
  unfold by_offset. destruct (find_index _ _); intros [= <- <-]; [done|].
  intros [Ht Ho]. split; [done|]. simpl. apply Forall_app. split; [done|].
  apply Forall_singleton. unfold oss_sized. simpl. constructor.
Qed.

Lemma alter_by_offset_sized (f : MVMSpeshStatsByOffset → MVMSpeshStatsByOffset)
    (oi : nat) (cs : Z) (tss : MVMSpeshStatsByType) :
  (∀ o, oss_sized env o → oss_sized env (f o)) →
  tss_sized env cs tss → tss_sized env cs (alter_by_offset f oi tss).
Proof.
  intros Hf [Ht Ho]. split; [done|]. simpl.
  apply Forall_alter; [done|]. intros o _. apply Hf.
Qed.

Lemma add_type_at_offset_sized (o : MVMSpeshStatsByOffset) (ty c : Z) :
  oss_sized env o → oss_sized env (add_type_at_offset o ty c).
Proof. unfold add_type_at_offset, oss_sized. by destruct (find_index _ _). Qed.

Lemma add_value_at_offset_sized (o : MVMSpeshStatsByOffset) (v : Z) :
  oss_sized env o → oss_sized env (add_value_at_offset o v).
Proof. unfold add_value_at_offset, oss_sized. by destruct (find_index _ _). Qed.

Lemma add_type_tuple_at_offset_sized (o : MVMSpeshStatsByOffset) (info : SimCallType) :
  tuple_sized env (sct_cs info) (sct_arg_types info) →
  oss_sized env o → oss_sized env (add_type_tuple_at_offset env o info).
Proof.
  intros [Hcs Hlen] Ho. unfold add_type_tuple_at_offset, oss_sized.
  destruct (find_index _ _); simpl.
  - apply Forall_alter; [done|]. by intros tt _.
  - apply Forall_app. split; [done|]. apply Forall_singleton. simpl.
    split; [done|]. unfold flag_count. rewrite Nat2Z.id, length_take. lia.
Qed.

Lemma incorporate_offset_log_sized (l : list MVMSpeshLogEntry)
    (tss tss' : MVMSpeshStatsByType) (cs : Z) (i : nat) :
  incorporate_offset_log l tss i = Ok tss' → tss_sized env cs tss → tss_sized env cs tss'.
Proof.
  unfold incorporate_offset_log. intros (e & _ & H)%bind_Ok Hs.
  destruct e; try (by injection H as <-);
    destruct (by_offset tss bytecode_offset) as [tss0 oi] eqn:Hbo; injection H as <-;
    (apply alter_by_offset_sized; [|by eapply by_offset_sized]); intros o;
    [apply add_type_at_offset_sized | apply add_value_at_offset_sized
    | apply add_type_at_offset_sized].
Qed.

Lemma incorporate_offset_logs_sized (l : list MVMSpeshLogEntry) (cs : Z) (offs : list nat) :
  ∀ tss tss', incorporate_offset_logs l tss offs = Ok tss' →
    tss_sized env cs tss → tss_sized env cs tss'.
Proof.
  induction offs as [|i offs IH]; intros tss tss'; simpl.
  - by intros [= <-].
  - intros (tss1 & H1 & H)%bind_Ok Hs. eapply IH; [done|].
    by eapply incorporate_offset_log_sized.
Qed.

Lemma incorporate_call_type_infos_sized (cs : Z) (infos : list SimCallType) :
  ∀ tss, Forall (λ info, tuple_sized env (sct_cs info) (sct_arg_types info)) infos →
    tss_sized env cs tss →
    tss_sized env cs (foldl (incorporate_call_type_info env) tss infos).
Proof.
  induction infos as [|info infos IH]; intros tss Hi Hs; simpl; [done|].
  apply Forall_cons in Hi as [Hinfo Hi]. apply IH; [done|].
  unfold incorporate_call_type_info.
  destruct (by_offset tss (sct_bytecode_offset info)) as [tss0 oi] eqn:Hbo.
  apply alter_by_offset_sized; [|by eapply by_offset_sized].
  intros o. by apply add_type_tuple_at_offset_sized.
Qed.

Lemma by_type_sized (ss ss' : MVMSpeshStats) (idx : nat)
    (a : option (list MVMSpeshStatsType)) (r : option nat) :
  by_type env ss idx a = Ok (ss', r) →
  (∀ css l, ss_by_callsite ss !! idx = Some css → css_cs css ≠ 0 → a = Some l →
            length l = length (arg_flags (callsite env (css_cs css)))) →
  ss_sized env ss → ss_sized env ss'.
Proof.
  unfold by_type. intros (css & Hcss%deref_Ok & H)%bind_Ok Hlen Hs.
  destruct (_ || _) eqn:Hc.
  { by injection H as <- <-. }
  apply bind_Ok in H as (args & Ha%deref_Ok & H).
  apply bind_Ok in H as (inc & Hinc & H).
  destruct inc.
  { by injection H as <- <-. }
  destruct (find_index _ _) eqn:Hf; injection H as <- <-; [done|].
  unfold ss_sized. simpl. apply Forall_insert; [done|].
  unfold css_sized. simpl. apply Forall_app. split.
  { exact (Forall_lookup_1 _ _ _ _ Hs Hcss). }
  apply Forall_singleton. apply orb_false_iff in Hc as [Hcs _]. apply Z.eqb_neq in Hcs.
  split; simpl; [|constructor]. split; [done|]. by eapply Hlen.
Qed.

Lemma sim_stack_pop_sized (st st' : State) :
  sim_stack_pop env st = Ok st' → state_ok env st → sized_st st → sized_st st'.
Proof.
  unfold sim_stack_pop. destruct (sims_frames st) as [|simf callers] eqn:Hfr; [done|].
  intros (ss & Hss%deref_Ok & H)%bind_Ok Hok [Hm Hf].
  apply bind_Ok in H as (css0 & Hcss0%deref_Ok & H).
  apply bind_Ok in H as ([ss1 r] & Hbt & H).
  unfold state_ok in Hok. rewrite Hfr in Hok.
  apply Forall_cons in Hok as [(ssk & cssk & Hssk & Hcssk & Htuple & _) _].
  rewrite Hfr in Hf. apply Forall_cons in Hf as [Hsimf Hcallers].
  assert (ssk = ss) as -> by congruence. assert (cssk = css0) as -> by congruence.
  destruct (add_osr_and_depth_callsites ss simf (sims_depth st)) as (Hcs0 & _ & Hbt0).
  assert (Hs0 : ss_sized env (add_osr_and_depth ss simf (sims_depth st))).
  { eapply css_sized_same; [done..|]. by eapply Hm. }
  assert (Hs1 : ss_sized env ss1).
  { eapply by_type_sized; [done| |done].
    intros css l Hcss Hne Hl.
    destruct (add_osr_and_depth_lookup ss simf (sims_depth st) _ _ Hcss0)
      as (css' & Hcss' & Ecs & _).
    assert (css' = css) as -> by congruence.
    rewrite Ecs in *. destruct (Htuple Hne) as (a & Ha & Hlen). congruence. }
  destruct r as [found|].
  - apply bind_Ok in H as (css & Hcss%deref_Ok & H).
    apply bind_Ok in H as (tss & Htss%deref_Ok & H).
    apply bind_Ok in H as (tss1 & Hlogs & [= <-]). simpl.
    pose proof (Forall_lookup_1 _ _ _ _ Hs1 Hcss) as Hcsz.
    pose proof (Forall_lookup_1 _ _ _ _ Hcsz Htss) as Htsz.
    assert (Hfinal : tss_sized env (css_cs css)
              (bump_by_type
                 (foldl (incorporate_call_type_info env) tss1 (call_type_info simf))
                 (osr_hits simf) (sims_depth st))).
    { assert (Hb : ∀ t o d, tss_sized env (css_cs css) t →
                     tss_sized env (css_cs css) (bump_by_type t o d)) by (by intros t o d [? ?]).
      apply Hb. apply incorporate_call_type_infos_sized; [done|].
      by eapply incorporate_offset_logs_sized. }
    split.
    + apply stats_sized_insert; [|done].
      unfold ss_sized, alter_by_callsite. simpl. apply Forall_alter; [done|].
      intros c Hc Hcz. assert (c = css) as -> by congruence.
      unfold css_sized. simpl. by apply Forall_insert.
    + unfold log_call_type. destruct callers as [|caller below]; [done|].
      destruct (_ && _); [|done].
      apply Forall_cons in Hcallers as [Hcaller Hbelow]. constructor; [|done].
      unfold frame_sized. simpl. apply Forall_app. split; [done|].
      apply Forall_singleton. simpl. by destruct Hfinal.
  - injection H as <-. simpl. split; [|done]. by apply stats_sized_insert.
Qed.

Lemma sim_stack_pop_n_sized (n : nat) :
  ∀ st st', sim_stack_pop_n env n st = Ok st' → state_ok env st → sized_st st →
    state_ok env st' ∧ sized_st st'.
Proof.
  induction n as [|n IH]; intros st st'; simpl.
  - by intros [= <-].
  - intros (st1 & Hpop & Hn)%bind_Ok Hok Hs.
    eapply IH; [done| |].
    + by eapply sim_stack_pop_ok.
    + by eapply sim_stack_pop_sized.
Qed.

Lemma set_top_frame_sized (st : State) (f g : SimStackFrame) :
  top_frame st = Ok f → call_type_info g = call_type_info f →
  sized_st st → sized_st (set_top_frame st g).
Proof.
  unfold top_frame. intros Hf%deref_Ok Hg [Hm Hfs]. split; [done|]. simpl.
  destruct (sims_frames st) as [|f' rest]; [done|]. simpl in *. simplify_eq.
  apply Forall_cons in Hfs as [Hf Hrest]. constructor; [|done].
  unfold frame_sized. by rewrite Hg.
Qed.

Lemma write_type_slot_sized (st st' : State) (arg_idx : Z)
    (w : MVMSpeshStatsType → MVMSpeshStatsType) :
  write_type_slot env st arg_idx w = Ok st' → sized_st st → sized_st st'.
Proof.
  unfold write_type_slot. intros (simf & Htop & H)%bind_Ok Hs.
  apply bind_Ok in H as (slot & _ & H). destruct slot as [flag_idx|].
  - apply bind_Ok in H as (a & _ & H). apply bind_Ok in H as (t & _ & [= <-]).
    by eapply set_top_frame_sized.
  - by injection H as <-.
Qed.

Lemma update_found_sized (st st' : State) (j : nat) (e : MVMSpeshLogEntry) :
  update_found env st j e = Ok st' → state_ok env st → sized_st st → sized_st st'.
Proof.
  destruct e; simpl.
  - by intros [= <-].
  - intros H _. by eapply write_type_slot_sized.
  - intros H _. by eapply write_type_slot_sized.
  - intros (f & Hf & [= <-])%bind_Ok _. by eapply set_top_frame_sized.
  - intros (f & Hf & H)%bind_Ok _ [Hm Hfs].
    apply bind_Ok in H as (ss & Hss%deref_Ok & [= <-]). split; [|done]. simpl.
    apply stats_sized_insert; [|done].
    unfold ss_sized, add_static_value. destruct (find_index _ _); simpl; by eapply Hm.
  - intros (f & Hf & [= <-])%bind_Ok _. by eapply set_top_frame_sized.
  - intros (f & Hf & [= <-])%bind_Ok _. by eapply set_top_frame_sized.
  - intros (f & callers & st1 & _ & Hpop & Hs & _ & _ & Hst')%update_return_spec Hok Hsz.
    apply sim_stack_pop_sized in Hpop as [Hm1 Hf1]; [|done..].
    destruct Hst' as [->|(caller & below & Hfr & _ & _ & _ & _ & Hfr' & _)]; [done|].
    split; [by rewrite Hs|]. rewrite Hfr'. rewrite Hfr in Hf1.
    apply Forall_cons in Hf1 as [Hc Hb]. by constructor.
Qed.

Lemma by_callsite_idx_sized (ss ss' : MVMSpeshStats) (cs : Z) (idx : nat) :
  by_callsite_idx ss cs = (ss', idx) → ss_sized env ss → ss_sized env ss'.
Proof.
  unfold by_callsite_idx. destruct (find_index _ _); intros [= <- <-]; [done|].
  intros Hs. unfold ss_sized. simpl. apply Forall_app. split; [done|].
  apply Forall_singleton. unfold css_sized. simpl. constructor.
Qed.

Lemma update_entry_frame_sized (st st' : State) (id sf0 cs : Z) :
  update_entry_frame env st id sf0 cs = Ok st' → sized_st st → sized_st st'.
Proof.
  unfold update_entry_frame, stats_for, sim_stack_push. intros H [Hm Hfs].
  assert (Hhits : ∀ ss idx, ss_sized env ss →
            ss_sized env (alter_by_callsite
              (λ css, mkByCallsite (css_cs css) (wrap32 (css_hits css + 1))
                        (css_osr_hits css) (css_max_depth css) (css_by_type css)) idx ss)).
  { intros ss idx Hs. unfold ss_sized, alter_by_callsite. simpl.
    apply Forall_alter; [done|]. by intros c _. }
  destruct (stats st !! sf0) as [ss|] eqn:Hss.
  - destruct (by_callsite_idx _ cs) as [ss3 idx] eqn:Hidx.
    apply by_callsite_idx_sized in Hidx.
    2:{ unfold ss_sized. simpl. destruct (negb _); simpl; by eapply Hm. }
    apply bind_Ok in H as (css & _ & [= <-]). simpl.
    split; [|constructor; [constructor|done]].
    apply stats_sized_insert; [by apply Hhits|done].
  - destruct (by_callsite_idx _ cs) as [ss3 idx] eqn:Hidx.
    apply by_callsite_idx_sized in Hidx.
    2:{ unfold ss_sized. simpl. destruct (negb _); simpl; constructor. }
    apply bind_Ok in H as (css & _ & [= <-]). simpl.
    split; [|constructor; [constructor|done]].
    apply stats_sized_insert; [by apply Hhits|].
    apply stats_sized_insert; [constructor|done].
Qed.

Lemma update_entry_sized (st st' : State) (j : nat) :
  update_entry env st j = Ok st' → state_ok env st → sized_st st → sized_st st'.
Proof.
  unfold update_entry. intros (e & _ & H)%bind_Ok Hok Hsz.
  assert (Hother :
    ('(st1, found) ← sim_stack_find env st (log_id e);
     if (found : bool) then update_found env st1 j e else Ok st1) = Ok st' →
    sized_st st').
  { intros ([st1 found] & Hfind & H')%bind_Ok.
    apply sim_stack_find_spec in Hfind. destruct found.
    - destruct Hfind as (above & g & rest & g' & _ & _ & _ & Hpop & _).
      apply sim_stack_pop_n_sized in Hpop as [Hok1 Hsz1]; [|done..].
      by eapply update_found_sized.
    - destruct Hfind as [-> _]. by injection H' as <-. }
  destruct e; try (by apply Hother).
  by eapply update_entry_frame_sized.
Qed.

Lemma update_entries_sized (es : list nat) :
  ∀ st st', update_entries env st es = Ok st' → state_ok env st → sized_st st →
    state_ok env st' ∧ sized_st st'.
Proof.
  induction es as [|j es IH]; intros st st'; simpl.
  - by intros [= <-].
  - intros (st1 & Hj & Hes)%bind_Ok Hok Hsz.
    eapply IH; [done| |].
    + apply update_entry_spec in Hj as (_ & _ & _ & _ & Hok1 & _). by apply Hok1.
    + by eapply update_entry_sized.
Qed.

(** X18: an update keeps the type tuples of the statistics sized.  If every
    type tuple of the statistics (that of a record by type, and those
    counted at the bytecode offsets) belongs to a callsite and has one slot
    for each flag of its callsite before the call, the same holds after
    it: the tuples that [by_type] and [add_type_tuple_at_offset] compare
    with [memcmp] over [flag_count] slots and that
    [MVM_spesh_stats_gc_mark] walks have that many slots. *)
Theorem update_keeps_the_tuples_sized (st st' : State) :
  MVM_spesh_stats_update env st = Ok st' →
  stats_sized env (stats st) → stats_sized env (stats st').
Proof.
  unfold MVM_spesh_stats_update, sim_stack_destroy.
  intros (st1 & Hloop & Hdestroy)%bind_Ok Hm.
  assert (Hok0 : state_ok env (sim_stack_init st)) by constructor.
  assert (Hsz0 : sized_st (sim_stack_init st)) by (split; [done|constructor]).
  apply update_entries_sized in Hloop as [Hok1 Hsz1]; [|done..].
  apply sim_stack_pop_n_sized in Hdestroy as [_ [Hm' _]]; done.
Qed.

End WithEnv.
End SpeshSized.

Module SpeshMark.
Import Spesh SpeshSpec SpeshFacts SpeshReadings.

Section WithEnv.
Variable env : Env.

(** ** Marking sized statistics *)

(** What the loops enqueue, in their order. *)
Definition tuple_items (a : list MVMSpeshStatsType) : list Z :=
  a ≫= λ t, [type t; decont_type t].
Definition offset_items (oss : MVMSpeshStatsByOffset) : list Z :=
  (tc_type <$> oss_types oss) ++ (vc_value <$> oss_values oss)
  ++ (oss_type_tuples oss ≫= λ tt, tuple_items (ttc_arg_types tt)).
Definition type_items (tss : MVMSpeshStatsByType) : list Z :=
  tuple_items (tss_arg_types tss) ++ (tss_by_offset tss ≫= offset_items).
Definition items (ss : MVMSpeshStats) : list Z :=
  (ss_by_callsite ss ≫= λ css, css_by_type css ≫= type_items)
  ++ (sv_value <$> ss_static_values ss).

Lemma foldl_worklist_add {A} (h : A → Z) (l : list A) :
  ∀ w, foldl (λ w x, MVM_gc_worklist_add w (h x)) w l = w ++ (h <$> l).
Proof.
  induction l as [|x l IH]; intros w; simpl; [by rewrite app_nil_r|].
  rewrite IH. unfold MVM_gc_worklist_add. by rewrite <- app_assoc.
Qed.

Lemma for_each_app {A} (body : list Z → A → outcome (list Z)) (g : A → list Z)
    (l : list A) :
  Forall (λ x, ∀ w, body w x = Ok (w ++ g x)) l →
  ∀ w, for_each body l w = Ok (w ++ (l ≫= g)).
Proof.
  induction 1 as [|x l Hx Hl IH]; intros w; simpl; [by rewrite app_nil_r|].
  rewrite Hx. simpl. rewrite IH. by rewrite <- app_assoc.
Qed.

Lemma mark_types_spec (a : list MVMSpeshStatsType) (n : nat) :
  ∀ (i : nat) w, (i + n = length a)%nat →
    mark_types a (seq i n) w = Ok (w ++ tuple_items (drop i a)).
Proof.
  induction n as [|n IH]; intros i w Hlen; simpl.
  - rewrite drop_ge by lia. by rewrite app_nil_r.
  - destruct (lookup_lt_is_Some_2 a i) as [t Ht]; [lia|]. rewrite Ht. simpl.
    rewrite IH by lia. rewrite (drop_S _ _ _ Ht). unfold MVM_gc_worklist_add.
    simpl. by rewrite <- !app_assoc.
Qed.

Lemma mark_tuple_sized (cs : Z) (a : list MVMSpeshStatsType) (w : list Z) :
  tuple_sized env cs a →
  mark_types a (seq 0 (Z.to_nat (flag_count (callsite env cs)))) w
  = Ok (w ++ tuple_items a).
Proof.
  intros [_ Hlen]. unfold flag_count. rewrite Nat2Z.id.
  by rewrite mark_types_spec by lia.
Qed.

Lemma mark_by_offset_spec (oss : MVMSpeshStatsByOffset) (w : list Z) :
  oss_sized env oss → mark_by_offset env w oss = Ok (w ++ offset_items oss).
Proof.
  intros Ho. unfold mark_by_offset, offset_items. rewrite !foldl_worklist_add.
  rewrite (for_each_app _ (λ tt, tuple_items (ttc_arg_types tt))).
  - by rewrite <- !app_assoc.
  - eapply Forall_impl; [exact Ho|]. intros tt Htt w'. unfold mark_type_tuple.
    destruct Htt as [Hcs Hlen]. apply Z.eqb_neq in Hcs. rewrite Hcs.
    apply mark_tuple_sized. split; [by apply Z.eqb_neq|done].
Qed.

Lemma mark_by_type_spec (cs : Z) (tss : MVMSpeshStatsByType) (w : list Z) :
  tss_sized env cs tss → mark_by_type env cs w tss = Ok (w ++ type_items tss).
Proof.
  intros [Ht Ho]. unfold mark_by_type, type_items.
  pose proof Ht as [Hcs _]. apply Z.eqb_neq in Hcs. rewrite Hcs.
  rewrite mark_tuple_sized by done. simpl.
  rewrite (for_each_app _ offset_items).
  - by rewrite <- app_assoc.
  - eapply Forall_impl; [exact Ho|]. intros oss Hoss w'. by apply mark_by_offset_spec.
Qed.

Lemma gc_mark_items (ss : MVMSpeshStats) (w : list Z) :
  ss_sized env ss → MVM_spesh_stats_gc_mark env (Some ss) w = Ok (w ++ items ss).
Proof.
  intros Hs. unfold MVM_spesh_stats_gc_mark, items.
  rewrite (for_each_app _ (λ css, css_by_type css ≫= type_items)).
  - simpl. rewrite foldl_worklist_add. by rewrite <- app_assoc.
  - eapply Forall_impl; [exact Hs|]. intros css Hcss w'.
    apply for_each_app. eapply Forall_impl; [exact Hcss|].
    intros tss Htss w''. by apply mark_by_type_spec.
Qed.

Lemma tuple_items_refs (a : list MVMSpeshStatsType) (x : Z) :
  x ∈ tuple_items a ↔ tuple_refs a x.
Proof.
  unfold tuple_items, tuple_refs. rewrite list_elem_of_bind.
  split; intros (t & H1 & H2).
  - exists t. split; [done|].
    apply elem_of_cons in H1 as [->|H1]; [by left|].
    apply list_elem_of_singleton in H1 as ->. by right.
  - exists t. split; [|done]. destruct H2 as [-> | ->].
    + apply list_elem_of_here.
    + apply list_elem_of_further, list_elem_of_here.
Qed.

Lemma items_references (ss : MVMSpeshStats) (x : Z) :
  x ∈ items ss ↔ references ss x.
Proof.
  unfold items, references. rewrite elem_of_app, list_elem_of_bind, list_elem_of_fmap.
  split.
  - intros [(css & Hx & Hcss)|(s & -> & Hs)]; [right|left; eauto].
    apply list_elem_of_bind in Hx as (tss & Hx & Htss).
    exists css, tss. split; [done|]. split; [done|].
    unfold type_items in Hx. apply elem_of_app in Hx as [Hx|Hx].
    { left. by apply tuple_items_refs. }
    right. apply list_elem_of_bind in Hx as (oss & Hx & Hoss).
    exists oss. split; [done|].
    unfold offset_items in Hx. rewrite !elem_of_app in Hx.
    destruct Hx as [Hx|[Hx|Hx]].
    + left. apply list_elem_of_fmap in Hx as (t & -> & Ht). eauto.
    + right. left. apply list_elem_of_fmap in Hx as (v & -> & Hv). eauto.
    + right. right. apply list_elem_of_bind in Hx as (tt & Hx & Htt).
      exists tt. split; [done|]. by apply tuple_items_refs.
  - intros [(s & Hs & ->)|(css & tss & Hcss & Htss & Hx)]; [right; eauto|left].
    exists css. split; [|done]. apply list_elem_of_bind. exists tss. split; [|done].
    unfold type_items. apply elem_of_app.
    destruct Hx as [Hx|(oss & Hoss & Hx)].
    { left. by apply tuple_items_refs. }
    right. apply list_elem_of_bind. exists oss. split; [|done].
    unfold offset_items. rewrite !elem_of_app.
    destruct Hx as [(t & Ht & ->)|[(v & Hv & ->)|(tt & Htt & Hx)]].
    + left. by apply list_elem_of_fmap_2.
    + right. left. by apply list_elem_of_fmap_2.
    + right. right. apply list_elem_of_bind. exists tt. split; [|done].
      by apply tuple_items_refs.
Qed.

(** X19: marking sized statistics.  On statistics whose type tuples are
    sized, [MVM_spesh_stats_gc_mark] returns, reads no tuple beyond its
    slots and no null callsite, keeps what the worklist held and adds to it
    exactly the references the statistics hold: the static values, the
    types and decontainerized types of the tuples, and the types and
    values counted at the offsets. *)
Theorem gc_mark_enqueues_the_references (ss : MVMSpeshStats) (worklist : list Z) :
  ss_sized env ss →
  ∃ marked,
    MVM_spesh_stats_gc_mark env (Some ss) worklist = Ok (worklist ++ marked)
    ∧ ∀ x, x ∈ marked ↔ references ss x.
Proof.
  intros Hs. exists (items ss). split.
  - by apply gc_mark_items.
  - apply items_references.
Qed.

End WithEnv.
End SpeshMark.

Module SpeshRecords.
Import Spesh SpeshSpec SpeshFacts SpeshReadings SpeshMore.

(** ** Counters and records that are found or added *)

Lemma find_index_alter {A} (p : A → bool) (f : A → A) (l : list A) :
  (∀ x, p (f x) = p x) → ∀ i, find_index p (alter f i l) = find_index p l.
Proof.
  intros Hp. induction l as [|x l IH]; intros [|i]; simpl; try done.
  - by rewrite Hp.
  - change (list_alter f i l) with (alter f i l). by rewrite IH.
Qed.

Lemma find_index_ext {A} (p q : A → bool) (l : list A) :
  (∀ x, p x = q x) → find_index p l = find_index q l.
Proof. intros Hpq. induction l as [|x l IH]; simpl; [done|]. by rewrite Hpq, IH. Qed.

Lemma first_count_ext {A} (p q : A → bool) (count : A → Z) (l : list A) :
  (∀ x, p x = q x) → first_count p count l = first_count q count l.
Proof. intros Hpq. unfold first_count. by rewrite (find_index_ext p q l Hpq). Qed.

Lemma find_index_first {A} (p : A → bool) (l : list A) (x : A) :
  find_index p l = None → p x = true → find_index p (l ++ [x]) = Some (length l).
Proof.
  intros Hf Hx. rewrite find_index_app, Hf. simpl. rewrite Hx. simpl.
  by rewrite Nat.add_0_r.
Qed.

(** The count of the key that the loop looked for goes up by one. *)
Lemma first_count_same {A} (p : A → bool) (count : A → Z) (upd : A → A) (new : A)
    (l : list A) :
  (∀ x, p (upd x) = p x) → (∀ x, count (upd x) = wrap32 (count x + 1)) →
  p new = true → count new = 1 →
  first_count p count
    (match find_index p l with Some found => alter upd found l | None => l ++ [new] end)
  = wrap32 (first_count p count l + 1).
Proof.
  intros Hp Hc Hn H1. unfold first_count.
  destruct (find_index p l) as [found|] eqn:Hf.
  - rewrite find_index_alter, Hf by done. rewrite list_lookup_alter_eq.
    apply find_index_Some in Hf as (x & Hx & _). rewrite Hx. simpl. apply Hc.
  - rewrite find_index_first by done.
    rewrite lookup_app_r by lia. rewrite Nat.sub_diag. simpl. by rewrite H1.
Qed.

(** The count of another key stays. *)
Lemma first_count_other {A} (p q : A → bool) (count : A → Z) (upd : A → A) (new : A)
    (l : list A) :
  (∀ x, q (upd x) = q x) → (∀ x, p x = true → q x = false) → q new = false →
  first_count q count
    (match find_index p l with Some found => alter upd found l | None => l ++ [new] end)
  = first_count q count l.
Proof.
  intros Hq Hpq Hn. unfold first_count.
  destruct (find_index p l) as [found|] eqn:Hf.
  - rewrite find_index_alter by done.
    destruct (find_index q l) as [i|] eqn:Hi; [|done].
    apply find_index_Some in Hf as (x & Hx & Hpx & _).
    apply find_index_Some in Hi as (y & Hy & Hqy & _).
    rewrite list_lookup_alter_ne; [done|].
    intros ->. simplify_eq. rewrite (Hpq _ Hpx) in Hqy. done.
  - rewrite find_index_app.
    destruct (find_index q l) as [i|] eqn:Hi; simpl.
    + by rewrite lookup_app_l by (by eapply find_index_lt).
    + by rewrite Hn.
Qed.

Section WithEnv.
Variable env : Env.

(** X20: the counters at a bytecode offset count per key.  A call of
    [add_type_at_offset], [add_value_at_offset] or
    [add_type_tuple_at_offset] raises the count of the type with its
    concreteness, of the value, or of the callsite with its type tuple
    (compared over the flags of the callsite) by one, in 32-bit arithmetic
    and from zero when there was no record; the count of every other key
    stays as it was. *)
Theorem counters_count_per_key (oss : MVMSpeshStatsByOffset) (ty c v : Z)
    (info : SimCallType) :
  (∀ ty' c', type_count (add_type_at_offset oss ty c) ty' c'
             = if decide (ty' = ty ∧ c' = c) then wrap32 (type_count oss ty c + 1)
               else type_count oss ty' c')
  ∧ (∀ v', value_count (add_value_at_offset oss v) v'
           = if decide (v' = v) then wrap32 (value_count oss v + 1)
             else value_count oss v')
  ∧ (∀ cs' a',
       let n := Z.to_nat (flag_count (callsite env (sct_cs info))) in
       type_tuple_count env (add_type_tuple_at_offset env oss info) cs' a'
       = if decide (cs' = sct_cs info ∧ take n a' = take n (sct_arg_types info))
         then wrap32 (type_tuple_count env oss (sct_cs info) (sct_arg_types info) + 1)
         else type_tuple_count env oss cs' a').
Proof.
  split_and!.
  - intros ty' c'. unfold type_count, add_type_at_offset.
    destruct (decide _) as [[-> ->]|Hne].
    + destruct (find_index _ _) eqn:Hf; simpl;
        pose proof (first_count_same
          (λ t : MVMSpeshStatsTypeCount, (tc_type t =? ty) && (tc_type_concrete t =? c))
          tc_count
          (λ t, mkTypeCount (tc_type t) (tc_type_concrete t) (wrap32 (tc_count t + 1)))
          (mkTypeCount ty c 1) (oss_types oss)) as H;
        rewrite Hf in H; apply H; simpl; try done; by rewrite !Z.eqb_refl.
    + assert (Hq : ∀ x : MVMSpeshStatsTypeCount,
                (tc_type x =? ty) && (tc_type_concrete x =? c) = true →
                (tc_type x =? ty') && (tc_type_concrete x =? c') = false).
      { intros x [H1 H2]%andb_true_iff. apply Z.eqb_eq in H1, H2.
        apply andb_false_iff.
        destruct (decide (ty' = ty)) as [->|]; [right|left]; apply Z.eqb_neq; [|lia].
        intros ?. apply Hne. split; [done|lia]. }
      destruct (find_index _ _) eqn:Hf; simpl;
        pose proof (first_count_other
          (λ t : MVMSpeshStatsTypeCount, (tc_type t =? ty) && (tc_type_concrete t =? c))
          (λ t : MVMSpeshStatsTypeCount, (tc_type t =? ty') && (tc_type_concrete t =? c'))
          tc_count
          (λ t, mkTypeCount (tc_type t) (tc_type_concrete t) (wrap32 (tc_count t + 1)))
          (mkTypeCount ty c 1) (oss_types oss)) as H;
        rewrite Hf in H; apply H; try done;
        apply (Hq (mkTypeCount ty c 1)); simpl; by rewrite !Z.eqb_refl.
  - intros v'. unfold value_count, add_value_at_offset.
    destruct (decide _) as [->|Hne].
    + destruct (find_index _ _) eqn:Hf; simpl;
        pose proof (first_count_same
          (λ x : MVMSpeshStatsValueCount, vc_value x =? v) vc_count
          (λ x, mkValueCount (vc_value x) (wrap32 (vc_count x + 1)))
          (mkValueCount v 1) (oss_values oss)) as H;
        rewrite Hf in H; apply H; simpl; try done; by rewrite Z.eqb_refl.
    + assert (Hq : ∀ x : MVMSpeshStatsValueCount,
                (vc_value x =? v) = true → (vc_value x =? v') = false).
      { intros x H1%Z.eqb_eq. apply Z.eqb_neq. lia. }
      destruct (find_index _ _) eqn:Hf; simpl;
        pose proof (first_count_other
          (λ x : MVMSpeshStatsValueCount, vc_value x =? v)
          (λ x : MVMSpeshStatsValueCount, vc_value x =? v') vc_count
          (λ x, mkValueCount (vc_value x) (wrap32 (vc_count x + 1)))
          (mkValueCount v 1) (oss_values oss)) as H;
        rewrite Hf in H; apply H; try done;
        apply (Hq (mkValueCount v 1)); simpl; by rewrite Z.eqb_refl.
  - intros cs' a' n. unfold type_tuple_count, add_type_tuple_at_offset.
    fold n.
    set (p := λ tt : MVMSpeshStatsTypeTupleCount,
                (ttc_cs tt =? sct_cs info)
                && memcmp_types (ttc_arg_types tt) (sct_arg_types info)
                     (flag_count (callsite env (sct_cs info)))).
    set (upd := λ tt : MVMSpeshStatsTypeTupleCount,
                  mkTypeTupleCount (ttc_cs tt) (ttc_arg_types tt) (wrap32 (ttc_count tt + 1))).
    set (new := mkTypeTupleCount (sct_cs info) (take n (sct_arg_types info)) 1).
    assert (Hnew : p new = true).
    { unfold p, new, memcmp_types. simpl. rewrite Z.eqb_refl. simpl.
      apply bool_decide_eq_true. fold n. by rewrite take_take, Nat.min_id. }
    destruct (decide _) as [[-> Ha]|Hne].
    + assert (Hext : ∀ tt : MVMSpeshStatsTypeTupleCount,
                (ttc_cs tt =? sct_cs info)
                && memcmp_types (ttc_arg_types tt) a'
                     (flag_count (callsite env (sct_cs info))) = p tt).
      { intros tt. unfold p, memcmp_types. fold n. by rewrite Ha. }
      rewrite (first_count_ext _ p _ _ Hext).
      pose proof (first_count_same p ttc_count upd new (oss_type_tuples oss)) as H.
      destruct (find_index p (oss_type_tuples oss)) eqn:Hf; simpl; by apply H.
    + set (q := λ tt : MVMSpeshStatsTypeTupleCount,
                  (ttc_cs tt =? cs')
                  && memcmp_types (ttc_arg_types tt) a' (flag_count (callsite env cs'))).
      assert (Hq : ∀ x, p x = true → q x = false).
      { intros x [H1 H2]%andb_true_iff. apply Z.eqb_eq in H1.
        unfold memcmp_types in H2. apply bool_decide_eq_true in H2. fold n in H2.
        unfold q. apply andb_false_iff.
        destruct (decide (cs' = sct_cs info)) as [->|Hcs].
        - right. unfold memcmp_types. fold n. apply bool_decide_eq_false.
          intros H3. apply Hne. split; [done|]. congruence.
        - left. apply Z.eqb_neq. lia. }
      pose proof (first_count_other p q ttc_count upd new (oss_type_tuples oss)) as H.
      destruct (find_index p (oss_type_tuples oss)) eqn:Hf; simpl;
        apply H; try done; by apply Hq.
Qed.

(** X21: [by_callsite_idx] and [by_offset] find or add.  The index they
    return holds a record with the callsite, or with the bytecode offset,
    and no record before it has it; the records that were there stay in
    place; and a second call for the same key returns the same index and
    changes nothing. *)
Theorem get_or_add_finds_again (ss : MVMSpeshStats) (cs : Z)
    (tss : MVMSpeshStatsByType) (off : Z) :
  (css_cs <$> ss_by_callsite (by_callsite_idx ss cs).1 !! (by_callsite_idx ss cs).2 = Some cs
   ∧ ss_by_callsite ss `prefix_of` ss_by_callsite (by_callsite_idx ss cs).1
   ∧ (∀ j css, (j < (by_callsite_idx ss cs).2)%nat →
        ss_by_callsite (by_callsite_idx ss cs).1 !! j = Some css → css_cs css ≠ cs)
   ∧ by_callsite_idx (by_callsite_idx ss cs).1 cs = by_callsite_idx ss cs)
  ∧ (oss_bytecode_offset <$> tss_by_offset (by_offset tss off).1 !! (by_offset tss off).2
     = Some off
     ∧ tss_by_offset tss `prefix_of` tss_by_offset (by_offset tss off).1
     ∧ (∀ j oss, (j < (by_offset tss off).2)%nat →
          tss_by_offset (by_offset tss off).1 !! j = Some oss →
          oss_bytecode_offset oss ≠ off)
     ∧ by_offset (by_offset tss off).1 off = by_offset tss off).
Proof.
  split.
  - unfold by_callsite_idx. destruct (find_index _ _) as [found|] eqn:Hf; simpl.
    + rewrite Hf. pose proof Hf as (css & Hcss & Hp & Hlt)%find_index_Some.
      apply Z.eqb_eq in Hp. rewrite Hcss. simpl. split_and!; [by rewrite Hp|done| |done].
      intros j c Hj Hc. apply Z.eqb_neq. by eapply Hlt.
    + rewrite find_index_first by (first [done | simpl; apply Z.eqb_refl]).
      rewrite lookup_app_r by lia. rewrite Nat.sub_diag. simpl.
      split_and!; [done|by apply prefix_app_r| |done].
      intros j c Hj Hc. rewrite lookup_app_l in Hc by lia.
      apply Z.eqb_neq. apply (find_index_None _ _ Hf c). by eapply list_elem_of_lookup_2.
  - unfold by_offset. destruct (find_index _ _) as [found|] eqn:Hf; simpl.
    + rewrite Hf. pose proof Hf as (oss & Hoss & Hp & Hlt)%find_index_Some.
      apply Z.eqb_eq in Hp. rewrite Hoss. simpl. split_and!; [by rewrite Hp|done| |done].
      intros j c Hj Hc. apply Z.eqb_neq. by eapply Hlt.
    + rewrite find_index_first by (first [done | simpl; apply Z.eqb_refl]).
      rewrite lookup_app_r by lia. rewrite Nat.sub_diag. simpl.
      split_and!; [done|by apply prefix_app_r| |done].
      intros j c Hj Hc. rewrite lookup_app_l in Hc by lia.
      apply Z.eqb_neq. apply (find_index_None _ _ Hf c). by eapply list_elem_of_lookup_2.
Qed.

(** X22: [by_type] finds or adds.  When a call returns a record, its type
    tuple agrees with the one given on the slots of the callsite's flags,
    no record before it does, and the records by type that were there stay
    in place; when it returns [NULL] the statistics are unchanged; and a
    second call with the same tuple returns the same result and changes
    nothing. *)
Theorem by_type_finds_again (ss ss' : MVMSpeshStats) (idx : nat)
    (a : option (list MVMSpeshStatsType)) (r : option nat) :
  by_type env ss idx a = Ok (ss', r) →
  by_type env ss' idx a = Ok (ss', r)
  ∧ match r with
    | None => ss' = ss
    | Some found =>
        ∃ css css' tss args,
          ss_by_callsite ss !! idx = Some css ∧ ss_by_callsite ss' !! idx = Some css'
          ∧ css_cs css' = css_cs css ∧ css_cs css ≠ 0
          ∧ css_by_type css `prefix_of` css_by_type css'
          ∧ css_by_type css' !! found = Some tss ∧ a = Some args
          ∧ (let n := Z.to_nat (flag_count (callsite env (css_cs css))) in
             take n (tss_arg_types tss) = take n args
             ∧ ∀ j t, (j < found)%nat → css_by_type css' !! j = Some t →
                 take n (tss_arg_types t) ≠ take n args)
    end.
Proof.
  unfold by_type at 1. intros (css & Hcss%deref_Ok & H)%bind_Ok.
  destruct (_ || _) eqn:Hc.
  { injection H as <- <-. split; [|done]. unfold by_type. rewrite Hcss. simpl.
    by rewrite Hc. }
  apply bind_Ok in H as (args & Ha%deref_Ok & H).
  apply bind_Ok in H as (inc & Hinc & H).
  destruct inc.
  { injection H as <- <-. split; [|done]. unfold by_type. rewrite Hcss. simpl.
    rewrite Hc, Ha. simpl. by rewrite Hinc. }
  pose proof Hc as [Hcs _]%orb_false_iff. apply Z.eqb_neq in Hcs.
  destruct (find_index _ _) as [found|] eqn:Hf; injection H as <- <-.
  - split.
    { unfold by_type. rewrite Hcss. simpl. rewrite Hc, Ha. simpl. rewrite Hinc.
      by rewrite Hf. }
    pose proof Hf as (tss & Htss & Hp & Hlt)%find_index_Some.
    exists css, css, tss, args. split_and!; try done.
    + unfold memcmp_types in Hp. by apply bool_decide_eq_true in Hp.
    + intros j t Hj Ht. specialize (Hlt j t Hj Ht).
      unfold memcmp_types in Hlt. by apply bool_decide_eq_false in Hlt.
  - assert (Hlt : (idx < length (ss_by_callsite ss))%nat) by (by eapply lookup_lt_Some).
    assert (Hnew : memcmp_types args args (flag_count (callsite env (css_cs css))) = true).
    { unfold memcmp_types. by apply bool_decide_eq_true. }
    split.
    { unfold by_type. simpl. rewrite list_lookup_insert_eq by done. simpl.
      rewrite Hc, Ha. simpl. rewrite Hinc.
      by rewrite find_index_first by done. }
    eexists css, _, (mkByType args 0 0 0 []), args. simpl.
    rewrite list_lookup_insert_eq by done.
    split_and!; try done.
    + by apply prefix_app_r.
    + simpl. rewrite lookup_app_r by lia. by rewrite Nat.sub_diag.
    + intros j t Hj Ht. simpl in Ht. rewrite lookup_app_l in Ht by done.
      eapply find_index_None in Hf; [|by eapply list_elem_of_lookup_2].
      unfold memcmp_types in Hf. by apply bool_decide_eq_false in Hf.
Qed.

End WithEnv.
End SpeshRecords.

Module SpeshLog.
Import Spesh SpeshSpec SpeshFacts SpeshReadings.

Section WithEnv.
Variable env : Env.

(** ** Incomplete type tuples *)

Lemma incomplete_type_tuple_from_spec (flags : list Z) (a : list MVMSpeshStatsType) :
  ∀ i : nat, (i + length flags ≤ length a)%nat →
    ∃ b, incomplete_type_tuple_from env flags a i = Ok b
         ∧ (b = true ↔
            ∃ k flag t, flags !! k = Some flag ∧ is_obj_flag env flag = true
                        ∧ a !! (i + k)%nat = Some t ∧ slot_incomplete env t).
Proof.
  induction flags as [|flag flags IH]; intros i Hlen; simpl in *.
  { exists false. split; [done|]. split; [done|]. by intros (k & f & t & Hk & _). }
  destruct (IH (S i)) as (b & Hb & Hiff); [lia|].
  assert (Hrest : b = true ↔
            ∃ k f t, (flag :: flags) !! k = Some f ∧ is_obj_flag env f = true
                     ∧ a !! (i + k)%nat = Some t ∧ slot_incomplete env t
                     ∧ k ≠ 0%nat).
  { rewrite Hiff. split.
    - intros (k & f & t & Hk & Hf & Ht & Hinc). exists (S k), f, t.
      split_and!; [done|done| |done|done].
      by replace (i + S k)%nat with (S i + k)%nat by lia.
    - intros (k & f & t & Hk & Hf & Ht & Hinc & Hne). destruct k as [|k]; [done|].
      exists k, f, t. split_and!; [done|done| |done].
      by replace (S i + k)%nat with (i + S k)%nat by lia. }
  destruct (is_obj_flag env flag) eqn:Hobj.
  - destruct (lookup_lt_is_Some_2 a i) as [t Ht]; [lia|]. rewrite Ht. simpl.
    destruct (type t =? 0) eqn:Hty.
    { exists true. split; [done|]. split; [|done]. intros _. exists 0%nat, flag, t.
      rewrite Nat.add_0_r. split_and!; [done..|]. left. by apply Z.eqb_eq. }
    destruct (_ && _) eqn:Hcont.
    { exists true. split; [done|]. split; [|done]. intros _. exists 0%nat, flag, t.
      rewrite Nat.add_0_r. split_and!; [done..|]. right.
      apply andb_true_iff in Hcont as [[H1 H2]%andb_true_iff H3].
      apply negb_true_iff, Z.eqb_neq in H1. apply Z.eqb_eq in H3. done. }
    exists b. split; [done|]. rewrite Hrest. split.
    + intros (k & f & t' & Hk & Hf & Ht' & Hinc & _). by exists k, f, t'.
    + intros (k & f & t' & Hk & Hf & Ht' & Hinc). exists k, f, t'.
      split_and!; [done..|]. intros ->. rewrite Nat.add_0_r in Ht'. simplify_eq.
      apply Z.eqb_neq in Hty. destruct Hinc as [?|(H1 & H2 & H3)]; [done|].
      apply andb_false_iff in Hcont as [[H%negb_false_iff|H]%andb_false_iff|H].
      * apply Z.eqb_eq in H. done.
      * congruence.
      * apply Z.eqb_neq in H. done.
  - exists b. split; [done|]. rewrite Hrest. split.
    + intros (k & f & t' & Hk & Hf & Ht' & Hinc & _). by exists k, f, t'.
    + intros (k & f & t' & Hk & Hf & Ht' & Hinc). exists k, f, t'.
      split_and!; [done..|]. intros ->. simpl in Hk. congruence.
Qed.

(** X24: which type tuples are incomplete.  On a tuple with a slot for each
    flag of the callsite, [incomplete_type_tuple] returns, and it returns
    1 exactly when the slot of some object flag has no type, or has the
    type of a concrete container and no decontainerized type; slots of
    other flags are not looked at. *)
Theorem incomplete_type_tuple_spec (c : MVMCallsite) (a : list MVMSpeshStatsType) :
  (length (arg_flags c) ≤ length a)%nat →
  ∃ b, incomplete_type_tuple env c a = Ok b
       ∧ (b = true ↔
          ∃ i flag t, arg_flags c !! i = Some flag ∧ is_obj_flag env flag = true
                      ∧ a !! i = Some t ∧ slot_incomplete env t).
Proof.
  intros Hlen. unfold incomplete_type_tuple.
  destruct (incomplete_type_tuple_from_spec (arg_flags c) a 0) as (b & Hb & Hiff); [lia|].
  exists b. split; [done|]. by rewrite Hiff.
Qed.

(** ** What an update leaves of the log and of the simulated stack *)

#[local] Instance entry_kept_refl : Reflexive entry_kept.
Proof. intros e. by left. Qed.

Lemma entry_kept_trans (e1 e2 e3 : MVMSpeshLogEntry) :
  entry_kept e1 e2 → entry_kept e2 e3 → entry_kept e1 e3.
Proof.
  intros [->|(id & ty & fl & off & off' & -> & ->)] [->|(id2 & ty2 & fl2 & o2 & o2' & E & ->)].
  - by left.
  - right. by eexists _, _, _, _, _.
  - right. by eexists _, _, _, _, _.
  - injection E as <- <- <- <-. right. by eexists _, _, _, _, _.
Qed.

Definition log_kept (l l' : list MVMSpeshLogEntry) : Prop :=
  length l' = length l
  ∧ ∀ i e, l !! i = Some e → ∃ e', l' !! i = Some e' ∧ entry_kept e e'.

Lemma log_kept_refl (l : list MVMSpeshLogEntry) : log_kept l l.
Proof. split; [done|]. intros i e He. by exists e. Qed.

Lemma log_kept_trans (l1 l2 l3 : list MVMSpeshLogEntry) :
  log_kept l1 l2 → log_kept l2 l3 → log_kept l1 l3.
Proof.
  intros [H1 K1] [H2 K2]. split; [congruence|]. intros i e He.
  destruct (K1 i e He) as (e2 & He2 & R12). destruct (K2 i e2 He2) as (e3 & He3 & R23).
  exists e3. split; [done|]. by eapply entry_kept_trans.
Qed.

Lemma sim_stack_pop_n_log (n : nat) (st st' : State) :
  sim_stack_pop_n env n st = Ok st' → log st' = log st.
Proof. by intros (above & rest & _ & _ & _ & _ & _ & H & _)%sim_stack_pop_n_spec. Qed.

Lemma update_found_log (st st' : State) (j : nat) (e : MVMSpeshLogEntry) :
  update_found env st j e = Ok st' → log st !! j = Some e →
  ∃ e', log st' !! j = Some e' ∧ entry_kept e e'.
Proof.
  intros H He.
  assert (Hsame : log st' = log st → ∃ e', log st' !! j = Some e' ∧ entry_kept e e').
  { intros ->. by exists e. }
  destruct e; simpl in H.
  - apply Hsame. by injection H as <-.
  - apply Hsame. by apply (write_type_slot_spec env _ _ _ _ j) in H as (_ & ? & _).
  - apply Hsame. by apply (write_type_slot_spec env _ _ _ _ j) in H as (_ & ? & _).
  - apply Hsame. by apply bind_Ok in H as (f & _ & [= <-]).
  - apply Hsame. apply bind_Ok in H as (f & _ & H).
    by apply bind_Ok in H as (ss & _ & [= <-]).
  - apply Hsame. by apply bind_Ok in H as (f & _ & [= <-]).
  - apply Hsame. by apply bind_Ok in H as (f & _ & [= <-]).
  - apply update_return_spec in H as (f & callers & st1 & _ & Hpop & _ & _ & _ & Hst').
    apply sim_stack_pop_spec in Hpop
      as (simf & cl & ss & ss' & _ & _ & _ & _ & _ & _ & _ & _ & _ & _ & Hlog & _).
    destruct Hst' as [Heq|(caller & below & _ & _ & _ & _ & _ & _ & Hlog')].
    + apply Hsame. by rewrite Heq.
    + rewrite Hlog', Hlog. rewrite list_lookup_insert_eq by (by eapply lookup_lt_Some).
      eexists. split; [done|]. right. by eexists _, _, _, _, _.
Qed.

Lemma update_entry_log (st st' : State) (j : nat) :
  update_entry env st j = Ok st' → log_kept (log st) (log st').
Proof.
  intros H. pose proof H as (Hj & _ & Hlen & Hother & _)%update_entry_spec.
  split; [done|]. intros i e He.
  destruct (decide (i = j)) as [->|Hne]; [|exists e; by rewrite Hother].
  unfold update_entry in H. rewrite He in H. simpl in H.
  assert (Hrest :
    ('(st1, found) ← sim_stack_find env st (log_id e);
     if (found : bool) then update_found env st1 j e else Ok st1) = Ok st' →
    ∃ e', log st' !! j = Some e' ∧ entry_kept e e').
  { intros ([st1 found] & Hfind & H')%bind_Ok.
    apply sim_stack_find_spec in Hfind. destruct found.
    - destruct Hfind as (above & g & rest & g' & _ & _ & _ & Hpop & _).
      apply sim_stack_pop_n_log in Hpop.
      eapply update_found_log; [done|]. by rewrite Hpop.
    - destruct Hfind as [-> _]. injection H' as <-. by exists e. }
  destruct e as [id sf0 cs| | | | | | |]; try (by apply Hrest).
  destruct (update_entry_frame_spec env st id sf0 cs)
    as (st'' & f & ss' & Hrun & _ & _ & _ & _ & Hlog & _).
  rewrite Hrun in H. injection H as <-. rewrite Hlog. by eexists.
Qed.

Lemma update_entries_log (es : list nat) :
  ∀ st st', update_entries env st es = Ok st' → log_kept (log st) (log st').
Proof.
  induction es as [|j es IH]; intros st st'; simpl.
  - intros [= <-]. apply log_kept_refl.
  - intros (st1 & Hj & Hes)%bind_Ok.
    eapply log_kept_trans; [by eapply update_entry_log | by eapply IH].
Qed.

(** X25: what an update leaves of the log and of the simulated stack.  A
    returning [MVM_spesh_stats_update] leaves the simulated stack empty;
    the log has the entries it had, in their places, but for the bytecode
    offset of RETURN entries, which the call may have rewritten. *)
Theorem update_leaves_the_log (st st' : State) :
  MVM_spesh_stats_update env st = Ok st' →
  sims_frames st' = []
  ∧ length (log st') = length (log st)
  ∧ ∀ i e, log st !! i = Some e → ∃ e', log st' !! i = Some e' ∧ entry_kept e e'.
Proof.
  unfold MVM_spesh_stats_update, sim_stack_destroy.
  intros (st1 & Hloop & Hdestroy)%bind_Ok.
  apply update_entries_log in Hloop as [Hlen Hkept]. simpl in *.
  pose proof Hdestroy as
    (above & rest & Hfr & Habove & Hafter & _ & _ & Hlog & _)%sim_stack_pop_n_spec.
  rewrite Hlog. split_and!; [|done..].
  assert (rest = []) as ->.
  { apply (f_equal length) in Hfr. rewrite length_app in Hfr.
    destruct rest; [done|]. simpl in Hfr. lia. }
  simpl in Hafter. by destruct (sims_frames st').
Qed.

End WithEnv.
End SpeshLog.

Module SpeshMoreWitnesses.
Import Spesh SpeshSpec SpeshFacts SpeshReadings SpeshExamples SpeshMoreExamples.

Ltac evaluated := vm_compute; reflexivity.

Lemma env0_unsigned : ∀ cs, 0 <= num_pos (callsite env0 cs).
Proof. intros cs. simpl. destruct (cs =? 100); simpl; lia. Qed.

Lemma log_typed_has_no_30 : ¬ has_entry (log (st0 log_typed)) 30.
Proof.
  intros (i & id & cs & H). simpl in H.
  destruct i as [|[|[|[|[|i]]]]]; simpl in H; discriminate.
Qed.

Lemma param_type_in_bounds_witness :
  (stats before_return !! sf caller_frame = Some caller_stats
   ∧ ss_by_callsite caller_stats !! callsite_idx caller_frame = Some caller_callsite
   ∧ css_cs caller_callsite ≠ 0
   ∧ 0 <= num_pos (callsite env0 100))
  ∧ 0 <= flag_index (callsite env0 100) 0
  ∧ (0 < num_pos (callsite env0 100) → flag_index (callsite env0 100) 0 = 0)
  ∧ (∀ k, 0 <= k → 0 = num_pos (callsite env0 100) + 2 * k + 1 →
       flag_index (callsite env0 100) 0 = num_pos (callsite env0 100) + k)
  ∧ (flag_count (callsite env0 100) <= flag_index (callsite env0 100) 0 →
     param_type env0 before_return caller_frame 0 = Abort)
  ∧ (flag_index (callsite env0 100) 0 < flag_count (callsite env0 100) →
     ∃ flag, arg_flags (callsite env0 100) !! Z.to_nat (flag_index (callsite env0 100) 0)
             = Some flag
             ∧ param_type env0 before_return caller_frame 0
               = Ok (if is_obj_flag env0 flag
                     then Some (Z.to_nat (flag_index (callsite env0 100) 0))
                     else None)).
Proof.
  assert (H1 : stats before_return !! sf caller_frame = Some caller_stats) by evaluated.
  assert (H2 : ss_by_callsite caller_stats !! callsite_idx caller_frame
               = Some caller_callsite) by evaluated.
  assert (H3 : css_cs caller_callsite ≠ 0) by (simpl; lia).
  assert (H4 : 0 <= num_pos (callsite env0 100)) by apply env0_unsigned.
  split; [by split_and!|].
  apply (SpeshMore.param_type_in_bounds env0 before_return caller_frame caller_stats
           caller_callsite (callsite env0 100) 0 H1 H2 H3 eq_refl H4).
  lia.
Defined.

Lemma update_returns_or_panics_witness :
  (∀ cs, 0 <= num_pos (callsite env0 cs))
  ∧ (∀ i e, log (st0 log_typed) !! i = Some e → 0 <= param_index e)
  ∧ returns_or_panics (MVM_spesh_stats_update env0 (st0 log_typed)).
Proof.
  assert (Hidx : ∀ i e, log (st0 log_typed) !! i = Some e → 0 <= param_index e).
  { intros i e. simpl.
    destruct i as [|[|[|[|[|i]]]]]; simpl; intros [= <-]; simpl; lia. }
  split; [exact env0_unsigned|]. split; [exact Hidx|].
  apply (SpeshSafety.update_returns_or_panics env0 (st0 log_typed) env0_unsigned Hidx).
Defined.

Lemma update_touches_entered_frames_only_witness :
  MVM_spesh_stats_update env0 (st0 log_typed) = Ok (updated (st0 log_typed))
  ∧ ¬ has_entry (log (st0 log_typed)) 30
  ∧ stats (updated (st0 log_typed)) !! 30 = stats (st0 log_typed) !! 30.
Proof.
  assert (Hrun : MVM_spesh_stats_update env0 (st0 log_typed) = Ok (updated (st0 log_typed)))
    by evaluated.
  split; [exact Hrun|]. split; [exact log_typed_has_no_30|].
  apply (SpeshAccounts.update_touches_entered_frames_only env0 _ _ 30 Hrun).
  exact log_typed_has_no_30.
Defined.

Lemma update_counts_entries_witness :
  MVM_spesh_stats_update env0 (st0 log_typed) = Ok (updated (st0 log_typed))
  ∧ hits_of (stats (updated (st0 log_typed))) 10
    = if decide (entries_for (log (st0 log_typed)) 10 = 0)
      then hits_of (stats (st0 log_typed)) 10
      else wrap32 (hits_of (stats (st0 log_typed)) 10 + entries_for (log (st0 log_typed)) 10).
Proof.
  assert (Hrun : MVM_spesh_stats_update env0 (st0 log_typed) = Ok (updated (st0 log_typed)))
    by evaluated.
  split; [exact Hrun|].
  apply (SpeshAccounts.update_counts_entries env0 _ _ 10 Hrun).
Defined.

Lemma update_keeps_the_records_witness :
  (MVM_spesh_stats_update env0 seen = Ok (updated seen)
   ∧ stats seen !! 10 = Some seen_stats
   ∧ ss_by_callsite seen_stats !! 0%nat = Some seen_callsite)
  ∧ ∃ ss' css',
      stats (updated seen) !! 10 = Some ss' ∧ ss_by_callsite ss' !! 0%nat = Some css'
      ∧ css_cs css' = css_cs seen_callsite
      ∧ ∀ ti tss, css_by_type seen_callsite !! ti = Some tss →
          ∃ tss', css_by_type css' !! ti = Some tss'
                  ∧ tss_arg_types tss' = tss_arg_types tss
                  ∧ ∀ oi oss, tss_by_offset tss !! oi = Some oss →
                      ∃ oss', tss_by_offset tss' !! oi = Some oss'
                              ∧ oss_bytecode_offset oss' = oss_bytecode_offset oss.
Proof.
  assert (Hrun : MVM_spesh_stats_update env0 seen = Ok (updated seen)) by evaluated.
  assert (H1 : stats seen !! 10 = Some seen_stats) by evaluated.
  assert (H2 : ss_by_callsite seen_stats !! 0%nat = Some seen_callsite) by evaluated.
  split; [by split_and!|].
  apply (SpeshGrowth.update_keeps_the_records env0 seen (updated seen) 10 seen_stats 0
           seen_callsite Hrun H1 H2).
Defined.

Lemma updated_frames_survive_cleanup_witness :
  (MVM_spesh_stats_update env0 (st0 log_typed) = Ok (updated (st0 log_typed))
   ∧ 0 <= MVM_SPESH_STATS_MAX_AGE env0)
  ∧ ∃ check_frames m',
      MVM_spesh_stats_cleanup env0 (sf_updated (updated (st0 log_typed)))
        (stats (updated (st0 log_typed))) = Ok (check_frames, m')
      ∧ ∀ sf0, has_entry (log (st0 log_typed)) sf0 →
          is_Some (m' !! sf0) ∧ m' !! sf0 = stats (updated (st0 log_typed)) !! sf0
          ∧ (sf0 ∈ sf_updated (updated (st0 log_typed)) → sf0 ∈ check_frames).
Proof.
  assert (Hrun : MVM_spesh_stats_update env0 (st0 log_typed) = Ok (updated (st0 log_typed)))
    by evaluated.
  assert (Hage : 0 <= MVM_SPESH_STATS_MAX_AGE env0) by (simpl; lia).
  split; [by split|].
  apply (SpeshGrowth.updated_frames_survive_cleanup env0 _ _ Hrun Hage).
Defined.

Lemma update_keeps_one_record_per_key_witness :
  (MVM_spesh_stats_update env0 (st0 log_typed) = Ok (updated (st0 log_typed))
   ∧ one_record_per_key (stats (st0 log_typed)))
  ∧ one_record_per_key (stats (updated (st0 log_typed))).
Proof.
  assert (Hrun : MVM_spesh_stats_update env0 (st0 log_typed) = Ok (updated (st0 log_typed)))
    by evaluated.
  assert (Hkeys : one_record_per_key (stats (st0 log_typed))).
  { intros sf0 ss. simpl. rewrite lookup_empty. discriminate. }
  split; [by split|].
  apply (SpeshKeys.update_keeps_one_record_per_key env0 _ _ Hrun Hkeys).
Defined.

Lemma called_is_sized : stats_sized env0 (stats called).
Proof.
  apply map_Forall_to_list.
  set (l := map_to_list (stats called)). vm_compute in l. subst l.
  repeat first [apply Forall_cons; split | apply Forall_nil | split]; simpl; done.
Qed.

Lemma called_stats_sized : ss_sized env0 called_stats.
Proof.
  set (ss := called_stats). vm_compute in ss. subst ss.
  repeat first [apply Forall_cons; split | apply Forall_nil | split]; simpl; done.
Qed.

Lemma update_keeps_the_tuples_sized_witness :
  (MVM_spesh_stats_update env0 called = Ok (updated called)
   ∧ stats_sized env0 (stats called))
  ∧ stats_sized env0 (stats (updated called)).
Proof.
  assert (Hrun : MVM_spesh_stats_update env0 called = Ok (updated called)) by evaluated.
  split; [split; [exact Hrun | exact called_is_sized]|].
  apply (SpeshSized.update_keeps_the_tuples_sized env0 _ _ Hrun called_is_sized).
Defined.

Lemma gc_mark_enqueues_the_references_witness :
  ss_sized env0 called_stats
  ∧ ∃ marked,
      MVM_spesh_stats_gc_mark env0 (Some called_stats) [5] = Ok ([5] ++ marked)
      ∧ ∀ x, x ∈ marked ↔ references called_stats x.
Proof.
  split; [exact called_stats_sized|].
  apply (SpeshMark.gc_mark_enqueues_the_references env0 called_stats [5] called_stats_sized).
Defined.

Lemma by_type_finds_again_witness :
  by_type env0 caller_stats 0 (arg_types caller_frame) = Ok (caller_stats_typed, Some 0%nat)
  ∧ by_type env0 caller_stats_typed 0 (arg_types caller_frame)
    = Ok (caller_stats_typed, Some 0%nat)
  ∧ ∃ css css' tss args,
      ss_by_callsite caller_stats !! 0%nat = Some css
      ∧ ss_by_callsite caller_stats_typed !! 0%nat = Some css'
      ∧ css_cs css' = css_cs css ∧ css_cs css ≠ 0
      ∧ css_by_type css `prefix_of` css_by_type css'
      ∧ css_by_type css' !! 0%nat = Some tss ∧ arg_types caller_frame = Some args
      ∧ (let n := Z.to_nat (flag_count (callsite env0 (css_cs css))) in
         take n (tss_arg_types tss) = take n args
         ∧ ∀ j t, (j < 0)%nat → css_by_type css' !! j = Some t →
             take n (tss_arg_types t) ≠ take n args).
Proof.
  assert (Hrun : by_type env0 caller_stats 0 (arg_types caller_frame)
                 = Ok (caller_stats_typed, Some 0%nat)) by evaluated.
  split; [exact Hrun|].
  apply (SpeshRecords.by_type_finds_again env0 _ _ _ _ _ Hrun).
Defined.

Lemma incomplete_type_tuple_spec_witness :
  (length (arg_flags (callsite env0 100)) ≤ length [mkType 77 1 0 0])%nat
  ∧ ∃ b, incomplete_type_tuple env0 (callsite env0 100) [mkType 77 1 0 0] = Ok b
         ∧ (b = true ↔
            ∃ i flag t, arg_flags (callsite env0 100) !! i = Some flag
                        ∧ is_obj_flag env0 flag = true
                        ∧ [mkType 77 1 0 0] !! i = Some t ∧ slot_incomplete env0 t).
Proof.
  assert (Hlen : (length (arg_flags (callsite env0 100)) ≤ length [mkType 77 1 0 0])%nat)
    by (simpl; lia).
  split; [exact Hlen|].
  apply (SpeshLog.incomplete_type_tuple_spec env0 (callsite env0 100) [mkType 77 1 0 0] Hlen).
Defined.

Lemma update_leaves_the_log_witness :
  MVM_spesh_stats_update env0 (st0 log_typed) = Ok (updated (st0 log_typed))
  ∧ sims_frames (updated (st0 log_typed)) = []
  ∧ length (log (updated (st0 log_typed))) = length (log (st0 log_typed))
  ∧ ∀ i e, log (st0 log_typed) !! i = Some e →
      ∃ e', log (updated (st0 log_typed)) !! i = Some e' ∧ entry_kept e e'.
Proof.
  assert (Hrun : MVM_spesh_stats_update env0 (st0 log_typed) = Ok (updated (st0 log_typed)))
    by evaluated.
  split; [exact Hrun|].
  apply (SpeshLog.update_leaves_the_log env0 _ _ Hrun).
Defined.

End SpeshMoreWitnesses.

(** * Part VIII: more of the hash tables *)

Module ProbeMore.
Import RobinHood RobinHoodSpec RobinHoodFacts.

Section Probe.
Context {E : Type}.
Variable asserts : bool.
Variables official_size max_items : Z.
Variable hit : E → outcome bool.

(** What the probe of [fetch] returns is a slot whose probe distance is the
    one the probe had there and whose entry passed the key comparison. *)
Lemma fetch_probe_sound (es : list E) (ms : list Z) :
  ∀ (s : nat) (pd : Z) (s' : nat),
    fetch_probe asserts official_size max_items hit es ms s pd = Ok (Some s') →
    ∃ n e, s' = (s + n)%nat ∧ ms !! n = Some (pd + Z.of_nat n)
           ∧ es !! s' = Some e ∧ hit e = Ok true.
Proof.
  induction ms as [|m ms IH]; intros s pd s'; simpl; [done|].
  intros (found & Hfound & H)%bind_Ok. destruct found.
  - injection H as <-. destruct (m =? pd) eqn:Em; [|done].
    apply Z.eqb_eq in Em as ->.
    apply bind_Ok in Hfound as (e & He%deref_Ok & Hhit).
    exists 0%nat, e. rewrite Nat.add_0_r, Z.add_0_r. done.
  - destruct (m <? pd); [done|]. destruct (asserts && _); [done|].
    apply IH in H as (n & e & -> & Hn & He & Hhit).
    exists (S n), e. split_and!; [lia| | |done].
    + simpl. rewrite Hn. f_equal. lia.
    + by replace (s + S n)%nat with (S s + n)%nat by lia.
Qed.

(** A probe that starts on an empty slot misses. *)
Lemma fetch_probe_empty (es : list E) (ms : list Z) (s : nat) :
  fetch_probe asserts official_size max_items hit es (0 :: ms) s 1 = Ok None.
Proof. done. Qed.

End Probe.
End ProbeMore.

Module PtrHashMore.
Import RobinHood RobinHoodSpec RobinHoodFacts PtrHash PtrHashSpec PtrHashFacts ProbeMore.

(** X10: on a table that satisfies the invariants, [MVM_ptr_hash_fetch]
    decides whether a key is stored: an entry it returns is an occupied slot
    that holds the key, and when it returns [NULL] no occupied slot holds
    the key. *)
Theorem ptr_fetch_decides (asserts : bool) (control : MVMPtrHashTableControl) (k : Z) :
  wf control →
  (∀ s, MVM_ptr_hash_fetch asserts (Some control) k = Ok (Some s) →
        ∃ v, stored control s k v)
  ∧ (MVM_ptr_hash_fetch asserts (Some control) k = Ok None →
     ∀ s v, ¬ stored control s k v).
Proof.
  intros Hwf. split; [|by apply ptr_fetch_miss_absent].
  intros s (n & e & -> & Hn & He & Hhit%ptr_key_hit_true)%fetch_probe_sound.
  rewrite lookup_drop in Hn. exists (value e), (1 + Z.of_nat n), e.
  split_and!; [done|lia|done..].
Qed.

(** The multiplier of the hash code is odd, so it has an inverse modulo
    [2^64]. *)
Lemma phi_inverse : (11400714819323198485 * HashExamples.inv_phi) mod 2 ^ 64 = 1.
Proof. reflexivity. Qed.

(** X11: [MVM_ptr_hash_code] loses nothing: two different 64-bit pointers
    have different hash codes, and every 64-bit value is the hash code of
    a pointer. *)
Theorem ptr_hash_code_is_a_bijection (p q : Z) :
  0 <= p < 2 ^ 64 → 0 <= q < 2 ^ 64 →
  (MVM_ptr_hash_code p = MVM_ptr_hash_code q → p = q)
  ∧ MVM_ptr_hash_code (HashExamples.key_for p) = p
  ∧ 0 <= HashExamples.key_for p < 2 ^ 64.
Proof.
  intros Hp Hq.
  assert (Hinv : ∀ x, 0 <= x < 2 ^ 64 →
            (MVM_ptr_hash_code x * HashExamples.inv_phi) mod 2 ^ 64 = x).
  { intros x Hx. unfold MVM_ptr_hash_code, wrap64.
    rewrite Z.mul_mod_idemp_l by done. rewrite <- Z.mul_assoc.
    rewrite <- Z.mul_mod_idemp_r by done. rewrite phi_inverse, Z.mul_1_r.
    by apply Z.mod_small. }
  split; [|split].
  - intros Heq. rewrite <- (Hinv p Hp), <- (Hinv q Hq). by rewrite Heq.
  - unfold MVM_ptr_hash_code, HashExamples.key_for, wrap64.
    rewrite Z.mul_mod_idemp_l by done. rewrite <- Z.mul_assoc.
    rewrite <- Z.mul_mod_idemp_r by done.
    replace (HashExamples.inv_phi * 11400714819323198485)
      with (11400714819323198485 * HashExamples.inv_phi) by lia.
    rewrite phi_inverse, Z.mul_1_r. by apply Z.mod_small.
  - unfold HashExamples.key_for. by apply Z.mod_pos_bound.
Qed.

Lemma bucket_of_initial (k : Z) : (bucket_of PTR_INITIAL_KEY_RIGHT_SHIFT k < 8)%nat.
Proof.
  unfold bucket_of, MVM_ptr_hash_code, wrap64, wrap32, PTR_INITIAL_KEY_RIGHT_SHIFT.
  rewrite Z.shiftr_div_pow2 by lia.
  pose proof (Z.mod_pos_bound (k * 11400714819323198485) (2 ^ 64)) as Hb.
  set (h := (k * 11400714819323198485) mod 2 ^ 64) in *.
  assert (H8 : 0 <= h `div` 2 ^ (8 * 8 - 3) < 8).
  { split; [apply Z.div_pos; lia|]. apply Z.div_lt_upper_bound; lia. }
  rewrite Z.mod_small by lia. lia.
Qed.

(** X12: a table without control structure and a table as the first
    allocation leaves it hold no key: [MVM_ptr_hash_fetch] returns [NULL]
    for every key, and [MVM_ptr_hash_fetch_and_delete] returns 0 and leaves
    the table as it is. *)
Theorem ptr_fresh_table_holds_no_key (asserts : bool) (c : MVMPtrHashTableControl) (k : Z) :
  MVM_ptr_hash_fetch asserts None k = Ok None
  ∧ MVM_ptr_hash_fetch_and_delete asserts None k = Ok (None, 0)
  ∧ MVM_ptr_hash_fetch asserts (Some (hash_initial_allocate c)) k = Ok None
  ∧ MVM_ptr_hash_fetch_and_delete asserts (Some (hash_initial_allocate c)) k
    = Ok (Some (hash_initial_allocate c), 0).
Proof.
  split_and!; [done..| |].
  - unfold MVM_ptr_hash_fetch.
    change (key_right_shift (hash_initial_allocate c)) with PTR_INITIAL_KEY_RIGHT_SHIFT.
    change (metadata (hash_initial_allocate c)) with (replicate 13 0 ++ [1]).
    pose proof (bucket_of_initial k) as Hb.
    destruct (bucket_of PTR_INITIAL_KEY_RIGHT_SHIFT k) as [|[|[|[|[|[|[|[|?]]]]]]]];
      try lia; apply fetch_probe_empty.
  - unfold MVM_ptr_hash_fetch_and_delete.
    change (key_right_shift (hash_initial_allocate c)) with PTR_INITIAL_KEY_RIGHT_SHIFT.
    change (metadata (hash_initial_allocate c)) with (replicate 13 0 ++ [1]).
    pose proof (bucket_of_initial k) as Hb.
    destruct (bucket_of PTR_INITIAL_KEY_RIGHT_SHIFT k) as [|[|[|[|[|[|[|[|?]]]]]]]];
      try lia; reflexivity.
Qed.

End PtrHashMore.

Module UniFsck.
Import RobinHood RobinHoodSpec RobinHoodFacts UniHash UniHashReadings.

Lemma wrap64_small (x : Z) : 0 <= x < 2 ^ 64 → wrap64 x = x.
Proof. intros H. unfold wrap64. by apply Z.mod_small. Qed.

Lemma bucket_of_bound (krs h : Z) : Z.of_nat (bucket_of krs h) < 2 ^ 32.
Proof.
  unfold bucket_of, wrap32.
  pose proof (Z.mod_pos_bound (h ≫ krs) (2 ^ 32)). lia.
Qed.

Section Loop.
Variable control : MVMUniHashTableControl.
Variable display : Z.

(** The loop never panics, and its error count does not go down. *)
Lemma fsck_slots_mono (n : nat) :
  ∀ bucket prev errors seen,
    0 <= errors → errors + 2 * Z.of_nat n < 2 ^ 64 →
    match fsck_slots control display n bucket prev errors seen with
    | Ok (errors', _) => errors <= errors' <= errors + 2 * Z.of_nat n
    | Abort => False
    | Undef => True
    end.
Proof.
  induction n as [|n IH]; intros bucket prev errors seen He Hb; simpl; [lia|].
  destruct (metadata control !! bucket) as [m|]; simpl; [|done].
  destruct (m =? 0).
  { specialize (IH (S bucket) 0 errors seen). destruct (fsck_slots _ _ _ _ _ _ _) as [[e' s']| |];
      [|apply IH; lia|done]. assert (errors <= e' <= errors + 2 * Z.of_nat n); [apply IH|]; lia. }
  destruct (entries control !! bucket) as [entry|]; simpl; [|done].
  destruct (hash_val entry) as [h|]; simpl; [|done].
  set (offset := wrap32 _). set (wb := negb (offset =? m)).
  set (wo := (offset <? 1) || (offset >? prev + 1)).
  set (errors1 := if (display =? 2) || wb || wo
                  then wrap64 (errors + (Z.b2z wb + Z.b2z wo)) else errors).
  assert (H1 : errors <= errors1 <= errors + 2).
  { unfold errors1. clearbody wb wo. destruct (_ || _ || _); [|lia].
    rewrite wrap64_small; destruct wb, wo; simpl; lia. }
  specialize (IH (S bucket) offset errors1 (wrap64 (seen + 1))).
  destruct (fsck_slots _ _ _ _ _ _ _) as [[e' s']| |]; [|apply IH; lia|done].
  assert (errors1 <= e' <= errors1 + 2 * Z.of_nat n); [apply IH|]; lia.
Qed.

(** The loop over the slots from [bucket] on finds no error exactly when
    the slots satisfy the probe-distance invariants, and then it has seen
    the occupied ones. *)
Lemma fsck_slots_spec (n : nat) :
  ∀ bucket prev errors seen,
    length (drop bucket (entries control)) = n →
    length (drop bucket (metadata control)) = S n →
    Z.of_nat (bucket + n) < 2 ^ 32 → 0 <= prev <= Z.of_nat bucket →
    0 <= errors → errors + 2 * Z.of_nat n < 2 ^ 64 →
    0 <= seen → seen + Z.of_nat n < 2 ^ 64 →
    ∃ sentinel, metadata control !! (bucket + n)%nat = Some sentinel ∧
    match fsck_slots control display n bucket prev errors seen with
    | Ok (errors', seen') =>
        ((errors' = errors ∧ sentinel = 1) ↔
         probe_distances_ok (hashed_bucket (key_right_shift control))
           (drop bucket (metadata control)) (drop bucket (entries control)) bucket prev
         = true)
        ∧ (errors' = errors →
           seen' = seen + Z.of_nat (length (occupied (drop bucket (metadata control))
                                              (drop bucket (entries control)))))
    | Abort => False
    | Undef =>
        probe_distances_ok (hashed_bucket (key_right_shift control))
          (drop bucket (metadata control)) (drop bucket (entries control)) bucket prev
        = false
    end.
Proof.
  induction n as [|n IH]; intros bucket prev errors seen Hes Hms Hsz Hprev He Heb Hs Hsb.
  - destruct (drop bucket (entries control)) as [|? ?] eqn:Hd; [|done].
    destruct (drop bucket (metadata control)) as [|sentinel [|? ?]] eqn:Hdm; [done| |done].
    exists sentinel. rewrite Nat.add_0_r.
    assert (metadata control !! bucket = Some sentinel) as Hsent.
    { rewrite <- (Nat.add_0_r bucket), <- lookup_drop, Hdm. done. }
    split; [done|]. simpl. split; [|intros _; lia].
    split.
    + intros [_ ->]. done.
    + intros ->%Z.eqb_eq. done.
  - destruct (drop bucket (entries control)) as [|entry es] eqn:Hd; [done|].
    destruct (drop bucket (metadata control)) as [|m ms] eqn:Hdm; [done|].
    assert (Hm : metadata control !! bucket = Some m).
    { rewrite <- (Nat.add_0_r bucket), <- lookup_drop, Hdm. done. }
    assert (Hentry : entries control !! bucket = Some entry).
    { rewrite <- (Nat.add_0_r bucket), <- lookup_drop, Hd. done. }
    assert (Hd' : drop (S bucket) (entries control) = es).
    { replace (S bucket) with (bucket + 1)%nat by lia. by rewrite <- drop_drop, Hd. }
    assert (Hdm' : drop (S bucket) (metadata control) = ms).
    { replace (S bucket) with (bucket + 1)%nat by lia. by rewrite <- drop_drop, Hdm. }
    simpl in Hes, Hms.
    replace (bucket + S n)%nat with (S bucket + n)%nat by lia.
    simpl fsck_slots. rewrite Hm. simpl mbind.
    cbn [probe_distances_ok occupied].
    destruct (m =? 0) eqn:Em.
    + (* an empty slot *)
      apply Z.eqb_eq in Em. subst m.
      destruct (IH (S bucket) 0 errors seen) as (sentinel & Hsent & Hrun);
        rewrite ?Hd', ?Hdm'; try lia.
      exists sentinel. split; [done|]. rewrite Hd', Hdm' in Hrun. simpl.
      destruct (fsck_slots _ _ _ _ _ _ _) as [[e' s']| |]; done.
    + apply Z.eqb_neq in Em.
      simpl. rewrite Hentry. simpl.
      unfold hashed_bucket at 1 3. destruct (hash_val entry) as [h|] eqn:Hh; simpl.
      2:{ destruct (lookup_lt_is_Some_2 (metadata control) (S bucket + n))
            as [sentinel Hsent].
          { apply (f_equal length) in Hdm'. rewrite length_drop in Hdm'. lia. }
          exists sentinel. split; [exact Hsent|]. done. }
      pose proof (bucket_of_bound (key_right_shift control) h) as Hbb.
      set (b := bucket_of (key_right_shift control) h) in *.
      set (offset := wrap32 (1 + Z.of_nat bucket - Z.of_nat b)).
      set (wb := negb (offset =? m)).
      set (wo := (offset <? 1) || (offset >? prev + 1)).
      set (errors1 := if (display =? 2) || wb || wo
                      then wrap64 (errors + (Z.b2z wb + Z.b2z wo)) else errors).
      assert (Hoff : 0 <= offset < 2 ^ 32) by (apply Z.mod_pos_bound; lia).
      assert (Hcheck : wb || wo = false ↔
                (m =? 1 + Z.of_nat bucket - Z.of_nat b) && (1 <=? m) && (m <=? prev + 1)
                = true).
      { unfold wb, wo, offset, wrap32. split.
        - intros [H1%negb_false_iff%Z.eqb_eq [H2%Z.ltb_ge H3]%orb_false_iff]%orb_false_iff.
          assert (H3' : (1 + Z.of_nat bucket - Z.of_nat b) mod 2 ^ 32 <= prev + 1) by lia.
          assert (0 <= 1 + Z.of_nat bucket - Z.of_nat b).
          { destruct (decide (0 <= 1 + Z.of_nat bucket - Z.of_nat b)) as [|Hneg]; [done|].
            exfalso.
            assert ((1 + Z.of_nat bucket - Z.of_nat b) mod 2 ^ 32
                    = 1 + Z.of_nat bucket - Z.of_nat b + 2 ^ 32); [|lia].
            symmetry. apply (Z.mod_unique _ _ (-1)); lia. }
          rewrite Z.mod_small in H1, H2, H3' by lia. lia.
        - intros [[H1%Z.eqb_eq H2%Z.leb_le]%andb_true_iff H3%Z.leb_le]%andb_true_iff.
          rewrite Z.mod_small by lia. lia. }
      destruct (wb || wo) eqn:Hw.
      * (* an error at this slot *)
        assert (Hpd : (m =? 1 + Z.of_nat bucket - Z.of_nat b) && (1 <=? m) && (m <=? prev + 1)
                      = false).
        { destruct (_ && _ && _); [|done]. by destruct Hcheck as [_ ->]. }
        rewrite Hpd. simpl.
        assert (H1 : errors + 1 <= errors1 <= errors + 2).
        { unfold errors1. rewrite <- orb_assoc, Hw, orb_true_r.
          clear Hcheck Hpd. clearbody wb wo.
          rewrite wrap64_small; destruct wb, wo; simpl in *; try done; lia. }
        destruct (lookup_lt_is_Some_2 (metadata control) (S bucket + n))
          as [sentinel Hsent].
        { apply (f_equal length) in Hdm'. rewrite length_drop in Hdm'. lia. }
        exists sentinel. split; [exact Hsent|].
        pose proof (fsck_slots_mono n (S bucket) offset errors1 (wrap64 (seen + 1))) as Hmono.
        destruct (fsck_slots _ _ _ _ _ _ _) as [[e' s']| |]; [|apply Hmono; lia|done].
        assert (errors1 <= e'); [apply Hmono; lia|].
        split; [|lia]. split; [lia|done].
      * (* the slot is as it should be *)
        assert (Hpd : (m =? 1 + Z.of_nat bucket - Z.of_nat b) && (1 <=? m) && (m <=? prev + 1)
                      = true) by (by apply Hcheck).
        rewrite Hpd. simpl.
        assert (Hoffm : offset = m).
        { apply orb_false_iff in Hw as [Hw _]. unfold wb in Hw.
          apply negb_false_iff in Hw. by apply Z.eqb_eq in Hw. }
        assert (H1 : errors1 = errors).
        { unfold errors1. rewrite <- orb_assoc, Hw, orb_false_r.
          apply orb_false_iff in Hw as [-> ->]. simpl. destruct (display =? 2); [|done].
          rewrite Z.add_0_r. apply wrap64_small. lia. }
        rewrite H1, Hoffm, (wrap64_small (seen + 1)) by lia.
        destruct (IH (S bucket) m errors (seen + 1)) as (sentinel & Hsent & Hrun);
          rewrite ?Hd', ?Hdm'; try lia.
        exists sentinel. split; [done|]. rewrite Hd', Hdm' in Hrun.
        destruct (fsck_slots _ _ _ _ _ _ _) as [[e' s']| |]; [|done..].
        destruct Hrun as [Hiff Hseen]. split; [done|].
        intros Heq. rewrite (Hseen Heq). simpl length. lia.
Qed.

End Loop.

Lemma probe_distances_ok_weaken {E} (ideal ideal' : E → option nat) (es : list E) :
  (∀ e b, ideal e = Some b → ideal' e = Some b) →
  ∀ ms slot prev,
    probe_distances_ok ideal ms es slot prev = true →
    probe_distances_ok ideal' ms es slot prev = true.
Proof.
  intros Hsub. induction es as [|e es IH]; intros ms slot prev; simpl;
    [by destruct ms as [|? [|? ?]]|].
  destruct ms as [|m ms]; [done|]. intros [H1 H2]%andb_true_iff.
  apply andb_true_iff. split; [|by apply IH].
  destruct (m =? 0); [done|]. destruct (ideal e) as [b|] eqn:Hb; [|done].
  by rewrite (Hsub _ _ Hb).
Qed.

(** The self-check returns 0 exactly for the tables that satisfy the
    invariants with respect to the stored hash values and are counted. *)
Lemma fsck_zero_iff (control : MVMUniHashTableControl) (mode : Z) :
  allocated control →
  uni_hash_fsck_internal (Some control) mode = Ok 0 ↔
  probe_distances_ok (hashed_bucket (key_right_shift control)) (metadata control)
    (entries control) 0 0 = true
  ∧ counted control.
Proof.
  intros [Hlen Hlen'].
  unfold uni_hash_fsck_internal, counted.
  set (n := Z.to_nat (hash_true_size control)) in *.
  assert (Hn : Z.of_nat n < 2 ^ 32).
  { unfold n, hash_true_size, wrap32.
    pose proof (Z.mod_pos_bound (official_size control + probe_overflow_size control)
                  (2 ^ 32)). lia. }
  destruct (fsck_slots_spec control (Z.land (mode ≫ 1) 3) n 0 0 0 0)
    as (sentinel & Hsent & Hrun); rewrite ?drop_0; try lia.
  pose proof (fsck_slots_mono control (Z.land (mode ≫ 1) 3) n 0 0 0 0) as Hmono.
  rewrite !drop_0 in Hrun. simpl in Hsent.
  destruct (fsck_slots _ _ _ _ _ _ _) as [[e' s']| |]; simpl.
  - rewrite Hsent. simpl. destruct Hrun as [Hok Hseen].
    assert (0 <= e' <= 2 * Z.of_nat n) by (apply Hmono; lia).
    set (e1 := if sentinel =? 1 then e' else wrap64 (e' + 1)).
    assert (He1 : e' <= e1 <= e' + 1 ∧ (e1 = e' ↔ sentinel = 1)).
    { unfold e1. destruct (sentinel =? 1) eqn:E.
      - apply Z.eqb_eq in E. split; [lia|done].
      - apply Z.eqb_neq in E. rewrite wrap64_small by lia. split; [lia|]. split; [lia|done]. }
    set (e2 := if s' =? cur_items control then e1 else wrap64 (e1 + 1)).
    assert (He2 : e1 <= e2 ∧ (e2 = e1 ↔ s' = cur_items control)).
    { unfold e2. destruct (s' =? _) eqn:E.
      - apply Z.eqb_eq in E. split; [lia|done].
      - apply Z.eqb_neq in E. rewrite wrap64_small by lia. split; [lia|]. split; [lia|done]. }
    split.
    + intros [= H0].
      assert (e' = 0 ∧ sentinel = 1 ∧ s' = cur_items control) as (-> & -> & <-).
      { destruct He1 as [? He1], He2 as [? He2]. split_and!; [lia| |].
        - apply He1. lia.
        - apply He2. lia. }
      split; [by apply Hok|]. rewrite Hseen by done. lia.
    + intros [Hpd Hc]. apply Hok in Hpd as [-> ->].
      rewrite Hseen in * by done. f_equal.
      destruct He1 as [_ He1], He2 as [_ He2].
      assert (e1 = 0) as Hz by (by apply He1). rewrite Hz in He2.
      apply He2. lia.
  - done.
  - split; [done|]. intros [Hpd _]. congruence.
Qed.

Lemma wf_hashed (code : string → Z) (control : MVMUniHashTableControl) :
  wf code control →
  probe_distances_ok (hashed_bucket (key_right_shift control)) (metadata control)
    (entries control) 0 0 = true.
Proof.
  intros [Hpd _]. revert Hpd. apply probe_distances_ok_weaken. intros e b.
  unfold ideal, hashed_bucket.
  destruct (key e) as [[|s]|]; try done. destruct (hash_val e) as [h|]; [|done].
  simpl. destruct (h =? _); done.
Qed.

(** X13: the self-check counts no error exactly when the table satisfies
    the invariants it is written for.  For a table with arrays of the
    allocated lengths, [uni_hash_fsck_internal] returns 0 if and only if
    every occupied slot holds the distance to the bucket of its stored hash
    value, in Robin-Hood order, the sentinel is in place and [cur_items] is
    the number of occupied slots; it returns 0 in particular for a table
    that satisfies the invariants of the model and is counted. *)
Theorem fsck_checks_the_invariants (code : string → Z) (control : MVMUniHashTableControl)
    (mode : Z) :
  allocated control →
  (uni_hash_fsck_internal (Some control) mode = Ok 0 ↔
   probe_distances_ok (hashed_bucket (key_right_shift control)) (metadata control)
     (entries control) 0 0 = true
   ∧ counted control)
  ∧ (wf code control → counted control →
     MVM_uni_hash_fsck (Some control) mode = Ok 0).
Proof.
  intros Ha. split; [by apply fsck_zero_iff|].
  intros Hwf Hc. apply fsck_zero_iff; [done|]. split; [|done].
  by eapply wf_hashed.
Qed.

Section Build.
Variable code : string → Z.
Variable MVM_round_up_log_base2 : Z → Z.

Lemma probe_distances_ok_replicate {E} (ideal : E → option nat) (e : E) (n : nat) :
  ∀ slot prev,
    probe_distances_ok ideal (replicate n 0 ++ [1]) (replicate n e) slot prev = true.
Proof. induction n as [|n IH]; intros slot prev; simpl; [done|]. apply IH. Qed.

Lemma occupied_replicate {E} (e : E) (n : nat) (rest : list Z) :
  occupied (replicate n 0 ++ rest) (replicate n e) = [].
Proof. induction n as [|n IH]; [by destruct rest|]. simpl. apply IH. Qed.

(** X14: a table as [MVM_uni_hash_build] leaves it passes the self-check
    without an error, whatever number of entries it was built for. *)
Theorem built_table_passes_fsck (n mode : Z) (control : MVMUniHashTableControl) :
  MVM_uni_hash_build MVM_round_up_log_base2 n = Ok control →
  MVM_uni_hash_fsck (Some control) mode = Ok 0
  ∧ wf code control ∧ counted control ∧ allocated control.
Proof.
  unfold MVM_uni_hash_build. intros (k & _ & H)%bind_Ok.
  destruct (_ && _) eqn:Hk; [|done]. injection H as <-.
  apply andb_true_iff in Hk as [Hk0%Z.leb_le Hk30%Z.leb_le].
  assert (Hpow : 1 <= 2 ^ k <= 2 ^ 30).
  { split; [|apply Z.pow_le_mono_r; lia]. pose proof (Z.pow_pos_nonneg 2 k). lia. }
  set (control := set_cur_items (hash_allocate_common _ _) 0).
  assert (Hwf : wf code control).
  { split; simpl.
    - apply probe_distances_ok_replicate.
    - rewrite occupied_replicate. simpl. apply NoDup_nil_2. }
  assert (Hc : counted control).
  { unfold counted. simpl. by rewrite occupied_replicate. }
  assert (Ha : allocated control).
  { unfold allocated, hash_true_size. simpl.
    rewrite length_app, !length_replicate. simpl. split; [|lia].
    f_equal. unfold wrap32. symmetry. apply Z.mod_small.
    assert (0 <= (2 ^ k * 3) `div` 4 <= 2 ^ 30).
    { split; [apply Z.div_pos; lia|]. apply Z.div_le_upper_bound; lia. }
    unfold MVM_HASH_MAX_PROBE_DISTANCE. destruct (_ <? _); [lia|].
    unfold wrap8, wrap32.
    match goal with
    | |- context [?x mod 2 ^ 8] => pose proof (Z.mod_pos_bound x (2 ^ 8))
    end. lia. }
  split_and!; [|done..].
  apply fsck_zero_iff; [done|]. split; [|done]. by eapply wf_hashed.
Qed.

End Build.
End UniFsck.

Module SlotFacts.
Import RobinHood RobinHoodSpec RobinHoodFacts.

Section Slots.
Context {E : Type}.
Variable ideal : E → option nat.

(** The metadata byte in front of slot [i]; [prev] in front of the first. *)
Definition before (ms : list Z) (prev : Z) (i : nat) : Z :=
  match i with
  | O => prev
  | S j => default 0 (ms !! j)
  end.

Lemma before_pos (ms : list Z) (prev : Z) (i : nat) :
  (0 < i)%nat → before ms prev i = default 0 (ms !! (i - 1)%nat).
Proof. destruct i; [lia|]. intros _. simpl. by rewrite Nat.sub_0_r. Qed.

(** The check of the probe distances, slot by slot. *)
Lemma probe_distances_ok_pointwise (es : list E) :
  ∀ (ms : list Z) (slot : nat) (prev : Z),
    probe_distances_ok ideal ms es slot prev = true ↔
    length ms = S (length es) ∧ ms !! length es = Some 1
    ∧ ∀ i m e, ms !! i = Some m → es !! i = Some e → m ≠ 0 →
        ∃ b, ideal e = Some b ∧ m = 1 + Z.of_nat (slot + i) - Z.of_nat b
             ∧ 1 <= m ∧ m <= before ms prev i + 1.
Proof.
  induction es as [|e0 es IH]; intros ms slot prev.
  - destruct ms as [|m [|m' ms]]; simpl.
    + split; [done|]. by intros [? _].
    + split.
      * intros ->%Z.eqb_eq. split_and!; [done..|]. intros i m' e _ He. done.
      * intros (_ & [= ->] & _). done.
    + split; [done|]. by intros [? _].
  - destruct ms as [|m0 ms]; simpl.
    { split; [done|]. by intros [? _]. }
    rewrite andb_true_iff, IH. split.
    + intros (H0 & Hlen & Hsent & Hall). split_and!; [by rewrite Hlen|done|].
      intros [|i] m e; simpl.
      * intros [= ->] [= ->] Hm%Z.eqb_neq. rewrite Hm in H0.
        destruct (ideal e) as [b|]; [|done].
        apply andb_true_iff in H0 as [[H1%Z.eqb_eq H2%Z.leb_le]%andb_true_iff H3%Z.leb_le].
        exists b. rewrite Nat.add_0_r. done.
      * intros Hm He Hne. destruct (Hall i m e Hm He Hne) as (b & Hb & Heq & H1 & H2).
        exists b. split_and!; [done| |done|].
        -- rewrite Heq. lia.
        -- destruct i as [|i]; simpl in *; [done|]. done.
    + intros (Hlen & Hsent & Hall). split_and!.
      * destruct (m0 =? 0) eqn:Em; [done|]. apply Z.eqb_neq in Em.
        destruct (Hall 0%nat m0 e0) as (b & -> & Heq & H1 & H2); [done..|].
        rewrite Nat.add_0_r in Heq. simpl in H2.
        apply andb_true_iff. split; [apply andb_true_iff; split|]; lia.
      * lia.
      * done.
      * intros i m e Hm He Hne.
        destruct (Hall (S i) m e Hm He Hne) as (b & Hb & Heq & H1 & H2).
        exists b. split_and!; [done| |done|].
        -- rewrite Heq. lia.
        -- destruct i as [|i]; simpl in *; done.
Qed.

Lemma occupied_elem_of_inv (es : list E) :
  ∀ (ms : list Z) (e : E),
    e ∈ occupied ms es → ∃ s m, ms !! s = Some m ∧ m ≠ 0 ∧ es !! s = Some e.
Proof.
  induction es as [|e0 es IH]; intros ms e.
  - destruct ms; simpl; by intros ?%elem_of_nil.
  - destruct ms as [|m0 ms]; simpl; [by intros ?%elem_of_nil|].
    destruct (m0 =? 0) eqn:Em.
    + intros (s & m & ? & ? & ?)%IH. exists (S s), m. done.
    + intros [->|(s & m & ? & ? & ?)%IH]%elem_of_cons.
      * exists 0%nat, m0. apply Z.eqb_neq in Em. done.
      * exists (S s), m. done.
Qed.

(** No key is stored twice when the occupied slots have different keys. *)
Lemma occupied_NoDup_intro {K} (f : E → K) (es : list E) :
  ∀ (ms : list Z),
    (∀ s1 s2 m1 m2 e1 e2,
       ms !! s1 = Some m1 → m1 ≠ 0 → es !! s1 = Some e1 →
       ms !! s2 = Some m2 → m2 ≠ 0 → es !! s2 = Some e2 →
       f e1 = f e2 → s1 = s2) →
    NoDup (f <$> occupied ms es).
Proof.
  induction es as [|e0 es IH]; intros ms Hinj.
  - destruct ms; simpl; apply NoDup_nil_2.
  - destruct ms as [|m0 ms]; simpl; [apply NoDup_nil_2|].
    assert (Hrest : NoDup (f <$> occupied ms es)).
    { apply IH. intros s1 s2 m1 m2 e1 e2 H1 H2 H3 H4 H5 H6 H7.
      assert (S s1 = S s2); [|lia]. by eapply (Hinj (S s1) (S s2)). }
    destruct (m0 =? 0) eqn:Em; [done|]. apply Z.eqb_neq in Em.
    rewrite fmap_cons. apply NoDup_cons. split; [|done].
    intros (e & Hfe & (s & m & Hm & Hne & He)%occupied_elem_of_inv)%list_elem_of_fmap.
    assert (0%nat = S s); [|lia]. by eapply (Hinj 0%nat (S s) m0 m e0 e).
Qed.

End Slots.

(** *** The arrays after a deletion *)

Section Deleted.
Context {E : Type}.
Variables (ms : list Z) (es : list E) (s n : nat) (moved : list Z).

Definition metadata_after : list Z := take s ms ++ moved ++ 0 :: drop (S (s + n)) ms.
Definition entries_after : list E :=
  take s es ++ take n (drop (S s) es) ++ drop (s + n) es.

Hypothesis Hlen : length ms = S (length es).
Hypothesis Hsn : (s + n < length es)%nat.
Hypothesis Hmoved : length moved = n.

Lemma metadata_after_lt (i : nat) : (i < s)%nat → metadata_after !! i = ms !! i.
Proof.
  intros Hi. unfold metadata_after. rewrite lookup_app_l by (rewrite length_take; lia).
  by rewrite lookup_take_lt.
Qed.

Lemma metadata_after_mid (i : nat) :
  (s <= i < s + n)%nat → metadata_after !! i = moved !! (i - s)%nat.
Proof.
  intros Hi. unfold metadata_after. rewrite lookup_app_r by (rewrite length_take; lia).
  rewrite length_take, Nat.min_l by lia. rewrite lookup_app_l by lia. done.
Qed.

Lemma metadata_after_gap : metadata_after !! (s + n)%nat = Some 0.
Proof.
  unfold metadata_after. rewrite lookup_app_r by (rewrite length_take; lia).
  rewrite length_take, Nat.min_l by lia. rewrite lookup_app_r by lia.
  replace (s + n - s - length moved)%nat with 0%nat by lia. done.
Qed.

Lemma metadata_after_gt (i : nat) : (s + n < i)%nat → metadata_after !! i = ms !! i.
Proof.
  intros Hi. unfold metadata_after. rewrite lookup_app_r by (rewrite length_take; lia).
  rewrite length_take, Nat.min_l by lia. rewrite lookup_app_r by lia.
  replace (i - s - length moved)%nat with (S (i - S (s + n))) by lia. simpl.
  rewrite lookup_drop. f_equal. lia.
Qed.

Lemma length_metadata_after : length metadata_after = length ms.
Proof.
  unfold metadata_after. rewrite !length_app, length_take. simpl. rewrite length_drop. lia.
Qed.

Lemma entries_after_lt (i : nat) : (i < s)%nat → entries_after !! i = es !! i.
Proof.
  intros Hi. unfold entries_after. rewrite lookup_app_l by (rewrite length_take; lia).
  by rewrite lookup_take_lt.
Qed.

Lemma entries_after_mid (i : nat) :
  (s <= i < s + n)%nat → entries_after !! i = es !! S i.
Proof.
  intros Hi. unfold entries_after. rewrite lookup_app_r by (rewrite length_take; lia).
  rewrite length_take, Nat.min_l by lia.
  rewrite lookup_app_l by (rewrite length_take, length_drop; lia).
  rewrite lookup_take_lt by lia. rewrite lookup_drop. f_equal. lia.
Qed.

Lemma entries_after_ge (i : nat) : (s + n <= i)%nat → entries_after !! i = es !! i.
Proof.
  intros Hi. unfold entries_after. rewrite lookup_app_r by (rewrite length_take; lia).
  rewrite length_take, Nat.min_l by lia.
  rewrite lookup_app_r by (rewrite length_take, length_drop; lia).
  rewrite length_take, length_drop, Nat.min_l by lia.
  rewrite lookup_drop. f_equal. lia.
Qed.

Lemma length_entries_after : length entries_after = length es.
Proof.
  unfold entries_after. rewrite !length_app, !length_take, !length_drop. lia.
Qed.

Lemma entries_after_none : n = 0%nat → entries_after = es.
Proof.
  intros Hn. unfold entries_after. rewrite Hn, Nat.add_0_r. simpl. apply take_drop.
Qed.

(** The loop of the delete moved the slots [s + 1 .. s + n], which were
    more than one slot from home, and stopped in front of a slot that is
    empty or at home. *)
Variable ideal : E → option nat.
Hypothesis Hok : probe_distances_ok ideal ms es 0 0 = true.
Hypothesis Hocc : ∃ d, ms !! s = Some d ∧ d ≠ 0.
Hypothesis Hmv : ∀ j, (j < n)%nat →
  ∃ x, ms !! (S s + j)%nat = Some x ∧ 1 < x ∧ moved !! j = Some (x - 1).
Hypothesis Hstop : ∃ x, ms !! (S s + n)%nat = Some x ∧ x <= 1.

(** The slot of the old arrays that slot [i] of the new ones comes from. *)
Definition origin (i : nat) : nat :=
  if decide (s <= i < s + n)%nat then S i else i.

Lemma after_occupied (i : nat) (m' : Z) (e : E) :
  metadata_after !! i = Some m' → m' ≠ 0 → entries_after !! i = Some e →
  origin i ≠ s
  ∧ ∃ m, ms !! origin i = Some m ∧ m ≠ 0 ∧ es !! origin i = Some e
         ∧ m' = (if decide (s <= i < s + n)%nat then m - 1 else m).
Proof.
  unfold origin. intros Hm Hne He.
  destruct (decide (i < s)%nat) as [Hlt|Hge].
  { rewrite metadata_after_lt in Hm by done. rewrite entries_after_lt in He by done.
    rewrite decide_False by lia. split; [lia|]. exists m'.
    rewrite decide_False by lia. done. }
  destruct (decide (i < s + n)%nat) as [Hmid|Hge'].
  { rewrite metadata_after_mid in Hm by lia. rewrite entries_after_mid in He by lia.
    rewrite !decide_True by lia. split; [lia|].
    destruct (Hmv (i - s)%nat) as (x & Hx & Hx1 & Hmx); [lia|].
    replace (S s + (i - s))%nat with (S i) in Hx by lia.
    exists x. rewrite decide_True by lia. split_and!; [done|lia|done|congruence]. }
  destruct (decide (i = s + n)%nat) as [->|Hgap].
  { rewrite metadata_after_gap in Hm. congruence. }
  rewrite metadata_after_gt in Hm by lia. rewrite entries_after_ge in He by lia.
  rewrite decide_False by lia. split; [lia|]. exists m'.
  rewrite decide_False by lia. done.
Qed.

Lemma before_occupied (t : nat) (m : Z) (e : E) :
  ms !! t = Some m → m ≠ 0 → es !! t = Some e → t ≠ s →
  ∃ i m', metadata_after !! i = Some m' ∧ m' ≠ 0 ∧ entries_after !! i = Some e.
Proof.
  intros Hm Hne He Hts.
  destruct (decide (t < s)%nat) as [Hlt|Hge].
  { exists t, m. rewrite metadata_after_lt, entries_after_lt by done. done. }
  destruct (decide (t <= s + n)%nat) as [Hmid|Hgt].
  - destruct (Hmv (t - S s)%nat) as (x & Hx & Hx1 & Hmx); [lia|].
    replace (S s + (t - S s))%nat with t in Hx by lia.
    assert (x = m) as -> by congruence.
    exists (t - 1)%nat, (m - 1). rewrite metadata_after_mid, entries_after_mid by lia.
    replace (t - 1 - s)%nat with (t - S s)%nat by lia.
    replace (S (t - 1)) with t by lia. split_and!; [done|lia|done].
  - exists t, m. rewrite metadata_after_gt, entries_after_ge by lia. done.
Qed.

Lemma origin_inj (i1 i2 : nat) :
  i1 ≠ (s + n)%nat → i2 ≠ (s + n)%nat → origin i1 = origin i2 → i1 = i2.
Proof. unfold origin. repeat case_decide; lia. Qed.

(** The probe distances are in order after the deletion. *)
Lemma probe_distances_ok_after : probe_distances_ok ideal metadata_after entries_after 0 0 = true.
Proof.
  apply probe_distances_ok_pointwise in Hok as (_ & Hsent & Hall).
  destruct Hocc as (d & Hd & Hd0).
  assert (is_Some (es !! s)) as [es_s Hes_s] by (apply lookup_lt_is_Some; lia).
  destruct (Hall s d es_s Hd Hes_s Hd0) as (_ & _ & _ & _ & Hd_ord).
  apply probe_distances_ok_pointwise. split_and!.
  - rewrite length_metadata_after, length_entries_after. done.
  - rewrite length_entries_after, metadata_after_gt by lia. done.
  - intros i m' e Hm He Hne.
    destruct (after_occupied i m' e Hm Hne He) as (_ & m & Hom & Hm0 & Hoe & Hm').
    destruct (Hall _ _ _ Hom Hoe Hm0) as (b & Hb & Heq & H1 & Hord).
    exists b. split; [done|]. unfold origin in *.
    destruct (decide (s <= i < s + n)%nat) as [Hmid|Hout].
    + (* a slot that moved back *)
      subst m'. destruct (Hmv (i - s)%nat) as (x & Hx & Hx1 & _); [lia|].
      replace (S s + (i - s))%nat with (S i) in Hx by lia.
      assert (x = m) as -> by congruence.
      split_and!; [lia..|]. simpl in Hord.
      destruct i as [|j]; simpl.
      * assert (s = 0%nat) as Hs0 by lia. rewrite Hs0 in *. rewrite Hd in Hord.
        simpl in *. lia.
      * destruct (decide (j < s)%nat) as [Hj|Hj].
        -- assert (S j = s) as Hjs by lia. rewrite metadata_after_lt by done.
           rewrite Hjs, Hd in Hord. rewrite <- Hjs in Hd_ord.
           simpl in *. lia.
        -- rewrite metadata_after_mid by lia.
           destruct (Hmv (j - s)%nat) as (y & Hy & Hy1 & ->); [lia|].
           replace (S s + (j - s))%nat with (S j) in Hy by lia.
           rewrite Hy in Hord. simpl in *. lia.
    + subst m'. split_and!; [done..|].
      destruct i as [|j]; simpl in *; [done|].
      destruct (decide (j < s)%nat) as [Hj|Hj]; [by rewrite metadata_after_lt|].
      destruct (decide (j = s + n)%nat) as [->|Hj'].
      * rewrite metadata_after_gap. simpl.
        destruct Hstop as (x & Hx & Hx1). simpl in Hx.
        assert (x = m) by congruence. lia.
      * destruct (decide (S j = s + n)%nat) as [Hgap|Hgap].
        { rewrite Hgap, metadata_after_gap in Hm. congruence. }
        rewrite metadata_after_gt by lia. done.
Qed.

(** No key is stored twice after the deletion, and the key of slot [s] is
    not stored any more. *)
Lemma occupied_after_NoDup {K} (f : E → K) :
  NoDup (f <$> occupied ms es) → NoDup (f <$> occupied metadata_after entries_after).
Proof.
  intros Hnd. apply occupied_NoDup_intro.
  intros i1 i2 m1 m2 e1 e2 H1 Hm1 He1 H2 Hm2 He2 Hf.
  destruct (after_occupied _ _ _ H1 Hm1 He1) as (_ & x1 & Hx1 & Hx10 & Hy1 & _).
  destruct (after_occupied _ _ _ H2 Hm2 He2) as (_ & x2 & Hx2 & Hx20 & Hy2 & _).
  apply origin_inj.
  - intros ->. rewrite metadata_after_gap in H1. congruence.
  - intros ->. rewrite metadata_after_gap in H2. congruence.
  - by eapply (occupied_NoDup_slot f es ms).
Qed.

End Deleted.
End SlotFacts.

Module PtrDelete.
Import RobinHood RobinHoodSpec RobinHoodFacts PtrHash PtrHashSpec PtrHashFacts ProbeMore SlotFacts.

(** The loop of the delete stops in front of the first slot that is empty
    or at home; the sentinel is such a slot. *)
Lemma shift_back_spec (rest : list Z) :
  (∃ i x, rest !! i = Some x ∧ x <= 1) →
  Forall (λ x, x <= MVM_HASH_MAX_PROBE_DISTANCE) rest →
  ∃ moved n,
    shift_back rest = Ok (moved, n) ∧ length moved = n ∧ (n < length rest)%nat
    ∧ (∀ j, (j < n)%nat → ∃ x, rest !! j = Some x ∧ 1 < x ∧ moved !! j = Some (x - 1))
    ∧ ∃ x, rest !! n = Some x ∧ x <= 1.
Proof.
  induction rest as [|x rest IH]; intros (i & y & Hy & Hy1) Hbytes; [done|].
  apply Forall_cons in Hbytes as [Hx Hbytes]. simpl.
  destruct (x >? 1) eqn:Ex.
  - assert (1 < x) as Hx1 by lia.
    destruct i as [|i]; simpl in Hy; [injection Hy as ->; lia|].
    destruct IH as (moved & n & -> & Hlen & Hn & Hmv & Hstop); [by eauto|done|].
    simpl. eexists _, _. split; [done|].
    assert (Hw : wrap8 (x - 1) = x - 1).
    { unfold wrap8, MVM_HASH_MAX_PROBE_DISTANCE in *. apply Z.mod_small. lia. }
    rewrite Hw. split_and!; [simpl; lia|simpl; lia| |done].
    intros [|j] Hj; simpl.
    + exists x. done.
    + apply Hmv. lia.
  - exists [], 0%nat. split_and!; [done|done|simpl; lia| |].
    + intros j Hj. lia.
    + exists x. split; [done|lia].
Qed.

(** X15: deleting a stored key.  On a table that satisfies the invariants,
    whose metadata bytes are at most 255, [MVM_ptr_hash_fetch_and_delete]
    of a stored key returns the value stored with it; the table satisfies
    the invariants afterwards, with one item less; the key is not stored
    any more and [MVM_ptr_hash_fetch] does not find it; every other key is
    stored with the value it had. *)
Theorem delete_of_a_stored_key (asserts : bool) (control : MVMPtrHashTableControl)
    (s : nat) (k v : Z) :
  wf control →
  Forall (λ m, m <= MVM_HASH_MAX_PROBE_DISTANCE) (metadata control) →
  stored control s k (Some v) →
  (asserts = true → asserts_hold control s) →
  ∃ control',
    MVM_ptr_hash_fetch_and_delete asserts (Some control) k = Ok (Some control', v)
    ∧ wf control'
    ∧ Forall (λ m, m <= MVM_HASH_MAX_PROBE_DISTANCE) (metadata control')
    ∧ cur_items control' = wrap32 (cur_items control - 1)
    ∧ (∀ k' v', (∃ s', stored control' s' k' v') ↔ k' ≠ k ∧ ∃ s', stored control s' k' v')
    ∧ (∀ s', MVM_ptr_hash_fetch asserts (Some control') k ≠ Ok (Some s')).
Proof.
  intros Hwf Hbytes Hst Hin.
  destruct (ptr_probe_stored asserts _ _ _ _ Hwf Hst) as [Hf _]. simpl in Hf.
  destruct Hf as [Hf|(_ & Ha & Hout)]; [|by destruct (Hout (Hin Ha))].
  destruct Hwf as [Hpd Hnd].
  pose proof Hst as (d & e & Hd & Hd0 & He & Hk & Hv).
  pose proof Hpd as (Hlen & Hsent & _)%probe_distances_ok_pointwise.
  pose proof (lookup_lt_Some _ _ _ He) as Hs.
  destruct (shift_back_spec (drop (S s) (metadata control)))
    as (moved & n & Hrun & Hmoved & Hn & Hmv & Hstop).
  { exists (length (entries control) - S s)%nat, 1. rewrite lookup_drop.
    replace (S s + (length (entries control) - S s))%nat with (length (entries control))
      by lia. split; [done|lia]. }
  { by apply Forall_drop. }
  rewrite length_drop in Hn.
  assert (Hsn : (s + n < length (entries control))%nat) by lia.
  assert (Hmv' : ∀ j, (j < n)%nat →
            ∃ x, metadata control !! (S s + j)%nat = Some x ∧ 1 < x
                 ∧ moved !! j = Some (x - 1)).
  { intros j Hj. destruct (Hmv j Hj) as (x & Hx & ?). rewrite lookup_drop in Hx. eauto. }
  assert (Hstop' : ∃ x, metadata control !! (S s + n)%nat = Some x ∧ x <= 1).
  { destruct Hstop as (x & Hx & ?). rewrite lookup_drop in Hx. eauto. }
  assert (Hocc : ∃ d, metadata control !! s = Some d ∧ d ≠ 0) by eauto.
  set (ms' := metadata_after (metadata control) s n moved).
  set (es' := entries_after (entries control) s n).
  set (control' := mkControl (wrap32 (cur_items control - 1)) (max_items control)
                     (official_size control) (key_right_shift control) ms' es').
  assert (Hrun' : MVM_ptr_hash_fetch_and_delete asserts (Some control) k
                  = Ok (Some control', v)).
  { unfold MVM_ptr_hash_fetch_and_delete. rewrite Hf. simpl. rewrite He. simpl.
    rewrite Hv. simpl. rewrite Hrun. simpl.
    destruct (n =? 0)%nat eqn:En.
    - apply Nat.eqb_eq in En. simpl. unfold control', es'.
      by rewrite (entries_after_none _ _ _ En).
    - assert ((s + n <? length (entries control))%nat = true) as ->
        by (by apply Nat.ltb_lt).
      done. }
  assert (Hback : ∀ s' k' v', stored control' s' k' v' →
                    ∃ t, t ≠ s ∧ stored control t k' v').
  { intros s' k' v' (d' & e' & Hd' & Hd0' & He' & Hk' & Hv').
    destruct (after_occupied (metadata control) (entries control) s n moved Hlen Hsn Hmoved
                Hmv' s' d' e' Hd' Hd0' He') as (Hne & m & Hm & Hm0 & Hoe & _).
    exists (origin s n s'). split; [done|]. exists m, e'. done. }
  assert (Hwf' : wf control').
  { split; simpl.
    - by eapply probe_distances_ok_after.
    - by eapply occupied_after_NoDup. }
  assert (Hiff : ∀ k' v', (∃ s', stored control' s' k' v')
                          ↔ k' ≠ k ∧ ∃ s', stored control s' k' v').
  { intros k' v'. split.
    - intros (s' & Hs'). destruct (Hback _ _ _ Hs') as (t & Hts & Ht).
      split; [|eauto]. intros ->. apply Hts.
      destruct Ht as (m & e' & Hm & Hm0 & He' & Hk' & _).
      eapply (occupied_NoDup_slot key); try eassumption. congruence.
    - intros (Hne & t & m & e' & Hm & Hm0 & He' & Hk' & Hv').
      assert (t ≠ s) as Hts by (intros ->; congruence).
      destruct (before_occupied (metadata control) (entries control) s n moved Hlen Hsn
                  Hmoved Hmv' t m e' Hm Hm0 He' Hts) as (i & m' & Hi & Hi0 & Hie).
      exists i, m', e'. done. }
  exists control'. split_and!; [done..| | |done|].
  - unfold control', ms', metadata_after. simpl.
    apply Forall_app. split; [by apply Forall_take|].
    apply Forall_app. split.
    + apply Forall_lookup. intros j y Hy.
      destruct (Hmv' j) as (x & Hx & Hx1 & Hmx).
      { apply lookup_lt_Some in Hy. lia. }
      assert (x <= MVM_HASH_MAX_PROBE_DISTANCE)
        by (by eapply (Forall_lookup_1 _ _ _ _ Hbytes Hx)).
      assert (y = x - 1) by congruence. lia.
    + apply Forall_cons. split; [unfold MVM_HASH_MAX_PROBE_DISTANCE; lia|].
      by apply Forall_drop.
  - done.
  - intros s' (j & e' & -> & Hj & He' & Hhit%ptr_key_hit_true)%fetch_probe_sound.
    rewrite lookup_drop in Hj.
    assert (Hs' : ∃ s', stored control' s' k (value e')).
    { eexists _, _, e'. split_and!; [exact Hj|lia|exact He'|done..]. }
    apply Hiff in Hs' as [Hkk _]. done.
Qed.

End PtrDelete.

Module InsertFacts.
Import RobinHood RobinHoodSpec RobinHoodFacts SlotFacts.

Section Probe.
Context {E : Type}.
Variable asserts : bool.
Variables official_size max_items : Z.
Variable hit : E → outcome bool.

(** Where the probe of [hash_insert_internal] stops: at the first slot that
    is closer to home than the probe, after slots that are not, or at a
    slot whose entry passes the key comparison. *)
Lemma insert_probe_spec (es : list E) (ms : list Z) :
  ∀ (s : nat) (pd : Z) (p : placement),
    insert_probe asserts official_size max_items hit es ms s pd = Ok p →
    ∃ n : nat,
      (∀ j, (j < n)%nat → ∃ m, ms !! j = Some m ∧ pd + Z.of_nat j <= m)
      ∧ match p with
        | Reserve slot pd' =>
            slot = (s + n)%nat ∧ pd' = pd + Z.of_nat n
            ∧ ∃ m, ms !! n = Some m ∧ m < pd'
        | Existing slot =>
            slot = (s + n)%nat
            ∧ ms !! n = Some (pd + Z.of_nat n)
            ∧ ∃ e, es !! slot = Some e ∧ hit e = Ok true
        end.
Proof.
  induction ms as [|m ms IH]; intros s pd p; simpl; [done|].
  destruct (m <? pd) eqn:Em.
  { intros [= <-]. exists 0%nat. split; [intros j Hj; lia|].
    rewrite Nat.add_0_r, Z.add_0_r. split_and!; [done..|]. exists m. split; [done|lia]. }
  intros (found & Hfound & H)%bind_Ok. destruct found.
  - injection H as <-. destruct (m =? pd) eqn:Em'; [|done].
    apply Z.eqb_eq in Em' as ->.
    apply bind_Ok in Hfound as (e & He%deref_Ok & Hhit).
    exists 0%nat. split; [intros j Hj; lia|].
    rewrite Nat.add_0_r, Z.add_0_r. split_and!; [done..|]. eauto.
  - destruct (asserts && _); [done|].
    apply IH in H as (n & Hpass & Hp). exists (S n). split.
    + intros [|j] Hj; simpl.
      * exists m. split; [done|lia].
      * destruct (Hpass j) as (m' & Hm' & Hle); [lia|]. exists m'. split; [done|lia].
    + destruct p as [slot pd'|slot]; simpl.
      * destruct Hp as (-> & -> & Hm). split_and!; [lia|lia|done].
      * destruct Hp as (-> & Hm & e & He & Hhit). split_and!; [lia| |].
        -- rewrite Hm. f_equal. lia.
        -- replace (s + S n)%nat with (S s + n)%nat by lia. eauto.
Qed.

End Probe.

(** The loop that makes room: the run of occupied slots up to the first
    empty one moves one slot on. *)
Lemma find_me_a_gap_spec (rest : list Z) :
  ∀ (old : Z) (rest' : list Z) (n : nat) (zeroed : bool),
    find_me_a_gap rest old = Ok (rest', n, zeroed) →
    ∃ shifted,
      n = S (length shifted) ∧ take n rest = shifted ++ [0]
      ∧ Forall (λ x, x ≠ 0) shifted
      ∧ rest' = ((λ x, wrap8 (1 + x)) <$> (old :: shifted)) ++ drop n rest
      ∧ (zeroed = false →
         Forall (λ x, wrap8 (1 + x) ≠ MVM_HASH_MAX_PROBE_DISTANCE) (old :: shifted)).
Proof.
  induction rest as [|next rest IH]; intros old rest' n zeroed; simpl; [done|].
  destruct (next =? 0) eqn:En.
  - apply Z.eqb_eq in En as ->. intros [= <- <- <-]. exists []. simpl.
    split_and!; [done|done|apply Forall_nil_2|by rewrite drop_0|].
    intros Hz%Z.eqb_neq. apply Forall_singleton. done.
  - apply Z.eqb_neq in En.
    intros ([[rest'' n'] zeroed'] & Hrec & [= <- <- <-])%bind_Ok.
    destruct (IH _ _ _ _ Hrec) as (shifted & -> & Htake & Hnz & -> & Hz).
    exists (next :: shifted). simpl. split_and!; [done| | |done|].
    + by rewrite Htake.
    + by apply Forall_cons.
    + intros [Hz1%Z.eqb_neq Hz2]%orb_false_iff. apply Forall_cons. split; [done|].
      by apply Hz.
Qed.

(** *** The arrays after an insertion *)

Section Inserted.
Context {E : Type}.
Variables (ms : list Z) (es : list E) (s n : nat) (pd : Z) (e_new : E).

Definition metadata_with : list Z :=
  take s ms ++ pd :: ((λ x, 1 + x) <$> take n (drop s ms)) ++ drop (S (s + n)) ms.
Definition entries_with : list E :=
  take s es ++ e_new :: take n (drop s es) ++ drop (S (s + n)) es.

Hypothesis Hlen : length ms = S (length es).
Hypothesis Hsn : (s + n < length es)%nat.

Lemma metadata_with_lt (i : nat) : (i < s)%nat → metadata_with !! i = ms !! i.
Proof.
  intros Hi. unfold metadata_with. rewrite lookup_app_l by (rewrite length_take; lia).
  by rewrite lookup_take_lt.
Qed.

Lemma metadata_with_at : metadata_with !! s = Some pd.
Proof.
  unfold metadata_with. rewrite lookup_app_r by (rewrite length_take; lia).
  rewrite length_take, Nat.min_l by lia. by rewrite Nat.sub_diag.
Qed.

Lemma metadata_with_mid (i : nat) :
  (s < i <= s + n)%nat → metadata_with !! i = (λ x, 1 + x) <$> ms !! (i - 1)%nat.
Proof.
  intros Hi. unfold metadata_with. rewrite lookup_app_r by (rewrite length_take; lia).
  rewrite length_take, Nat.min_l by lia.
  replace (i - s)%nat with (S (i - S s)) by lia. simpl.
  rewrite lookup_app_l by (rewrite length_fmap, length_take, length_drop; lia).
  rewrite list_lookup_fmap, lookup_take_lt, lookup_drop by lia.
  do 2 f_equal. lia.
Qed.

Lemma metadata_with_gt (i : nat) : (s + n < i)%nat → metadata_with !! i = ms !! i.
Proof.
  intros Hi. unfold metadata_with. rewrite lookup_app_r by (rewrite length_take; lia).
  rewrite length_take, Nat.min_l by lia.
  replace (i - s)%nat with (S (i - S s)) by lia. simpl.
  rewrite lookup_app_r by (rewrite length_fmap, length_take, length_drop; lia).
  rewrite length_fmap, length_take, length_drop, Nat.min_l by lia.
  rewrite lookup_drop. f_equal. lia.
Qed.

Lemma length_metadata_with : length metadata_with = length ms.
Proof.
  unfold metadata_with. rewrite !length_app, length_take. simpl.
  rewrite length_app, length_fmap, length_take, !length_drop. lia.
Qed.

Lemma entries_with_lt (i : nat) : (i < s)%nat → entries_with !! i = es !! i.
Proof.
  intros Hi. unfold entries_with. rewrite lookup_app_l by (rewrite length_take; lia).
  by rewrite lookup_take_lt.
Qed.

Lemma entries_with_at : entries_with !! s = Some e_new.
Proof.
  unfold entries_with. rewrite lookup_app_r by (rewrite length_take; lia).
  rewrite length_take, Nat.min_l by lia. by rewrite Nat.sub_diag.
Qed.

Lemma entries_with_mid (i : nat) :
  (s < i <= s + n)%nat → entries_with !! i = es !! (i - 1)%nat.
Proof.
  intros Hi. unfold entries_with. rewrite lookup_app_r by (rewrite length_take; lia).
  rewrite length_take, Nat.min_l by lia.
  replace (i - s)%nat with (S (i - S s)) by lia. simpl.
  rewrite lookup_app_l by (rewrite length_take, length_drop; lia).
  rewrite lookup_take_lt, lookup_drop by lia. f_equal. lia.
Qed.

Lemma entries_with_gt (i : nat) : (s + n < i)%nat → entries_with !! i = es !! i.
Proof.
  intros Hi. unfold entries_with. rewrite lookup_app_r by (rewrite length_take; lia).
  rewrite length_take, Nat.min_l by lia.
  replace (i - s)%nat with (S (i - S s)) by lia. simpl.
  rewrite lookup_app_r by (rewrite length_take, length_drop; lia).
  rewrite length_take, length_drop, Nat.min_l by lia.
  rewrite lookup_drop. f_equal. lia.
Qed.

Lemma length_entries_with : length entries_with = length es.
Proof.
  unfold entries_with. rewrite !length_app, length_take. simpl.
  rewrite length_app, length_take, !length_drop. lia.
Qed.

(** The probe stopped at slot [s] with distance [pd], [b] being the bucket
    of the new entry; the slots [s .. s + n - 1] were occupied and slot
    [s + n] was empty. *)
Variable ideal : E → option nat.
Variable b : nat.
Hypothesis Hok : probe_distances_ok ideal ms es 0 0 = true.
Hypothesis Hnew : ideal e_new = Some b.
Hypothesis Hpd : pd = 1 + Z.of_nat s - Z.of_nat b ∧ (b <= s)%nat.
Hypothesis Hshort : ∃ m, ms !! s = Some m ∧ m < pd.
Hypothesis Hpass : ∀ t, (b <= t < s)%nat → ∃ m, ms !! t = Some m ∧ 1 + Z.of_nat t - Z.of_nat b <= m.
Hypothesis Hrun : ∀ j, (j < n)%nat → ∃ m, ms !! (s + j)%nat = Some m ∧ m ≠ 0.
Hypothesis Hgap : ms !! (s + n)%nat = Some 0.

(** The slot of the old arrays that slot [i] of the new ones comes from. *)
Definition source (i : nat) : nat :=
  if decide (s < i <= s + n)%nat then (i - 1)%nat else i.

Lemma with_occupied (i : nat) (m' : Z) (e : E) :
  metadata_with !! i = Some m' → m' ≠ 0 → entries_with !! i = Some e → i ≠ s →
  ∃ m, ms !! source i = Some m ∧ m ≠ 0 ∧ es !! source i = Some e
       ∧ m' = (if decide (s < i <= s + n)%nat then 1 + m else m).
Proof.
  unfold source. intros Hm Hne He His.
  destruct (decide (i < s)%nat) as [Hlt|Hge].
  { rewrite metadata_with_lt in Hm by done. rewrite entries_with_lt in He by done.
    exists m'. rewrite !decide_False by lia. done. }
  destruct (decide (i <= s + n)%nat) as [Hmid|Hgt].
  - rewrite metadata_with_mid in Hm by lia. rewrite entries_with_mid in He by lia.
    destruct (Hrun (i - 1 - s)%nat) as (m & Hm1 & Hm0); [lia|].
    replace (s + (i - 1 - s))%nat with (i - 1)%nat in Hm1 by lia.
    rewrite Hm1 in Hm. simpl in Hm. exists m. rewrite !decide_True by lia.
    split_and!; [done..|congruence].
  - rewrite metadata_with_gt in Hm by lia. rewrite entries_with_gt in He by lia.
    exists m'. rewrite !decide_False by lia. done.
Qed.



(** The probe distances are in order after the insertion. *)
Lemma probe_distances_ok_with :
  probe_distances_ok ideal metadata_with entries_with 0 0 = true.
Proof.
  pose proof Hok as (_ & Hsent & Hall)%probe_distances_ok_pointwise.
  assert (Hnonneg : ∀ t m, ms !! t = Some m → (t < length es)%nat → 0 <= m).
  { intros t m Hm Ht. destruct (lookup_lt_is_Some_2 es t Ht) as [e He].
    destruct (decide (m = 0)) as [->|Hm0]; [done|].
    destruct (Hall t m e Hm He Hm0) as (_ & _ & _ & ? & _). lia. }
  destruct Hpd as [Hpdeq Hbs]. destruct Hshort as (m_s & Hm_s & Hm_s_lt).
  apply probe_distances_ok_pointwise. split_and!.
  - rewrite length_metadata_with, length_entries_with. done.
  - rewrite length_entries_with, metadata_with_gt by lia. done.
  - intros i m' e Hm He Hne.
    destruct (decide (i = s)) as [->|His].
    + (* the new entry *)
      rewrite metadata_with_at in Hm. rewrite entries_with_at in He.
      injection Hm as <-. injection He as <-.
      exists b. split_and!; [done|lia|lia|].
      destruct (decide (s = 0)%nat) as [Hs0|Hs0].
      { rewrite Hs0 at 1. simpl. lia. }
      rewrite before_pos, metadata_with_lt by lia.
      destruct (decide (b <= s - 1)%nat) as [Hbj|Hbj].
      * destruct (Hpass (s - 1)%nat) as (m & -> & Hle); [lia|]. simpl. lia.
      * assert (is_Some (ms !! (s - 1)%nat)) as [m Hmj] by (apply lookup_lt_is_Some; lia).
        rewrite Hmj. simpl. pose proof (Hnonneg _ m Hmj). lia.
    + destruct (with_occupied i m' e Hm Hne He His) as (m & Hom & Hm0 & Hoe & Hm').
      destruct (Hall _ _ _ Hom Hoe Hm0) as (b' & Hb' & Heq & H1 & Hord).
      exists b'. split; [done|]. unfold source in *.
      destruct (decide (s < i <= s + n)%nat) as [Hmid|Hout].
      * (* a slot that moved on *)
        subst m'. split_and!; [lia..|].
        destruct i as [|j]; [lia|]. simpl in *. rewrite Nat.sub_0_r in *.
        destruct (decide (j = s)) as [->|Hjs].
        -- rewrite metadata_with_at. simpl. assert (m = m_s) by congruence. lia.
        -- rewrite metadata_with_mid by lia.
           rewrite before_pos in Hord by lia.
           destruct (Hrun (j - 1 - s)%nat) as (y & Hy & _); [lia|].
           replace (s + (j - 1 - s))%nat with (j - 1)%nat in Hy by lia.
           rewrite Hy in Hord |- *. simpl in *. lia.
      * subst m'. split_and!; [done..|].
        destruct i as [|j]; simpl in *; [done|].
        destruct (decide (j < s)%nat) as [Hj|Hj]; [by rewrite metadata_with_lt|].
        destruct (decide (j = s)) as [->|Hjs].
        { (* right after the new entry, nothing moved *)
          rewrite metadata_with_at. simpl.
          assert (n = 0%nat) as Hn0 by lia. rewrite Hn0, Nat.add_0_r in *.
          rewrite Hm_s in Hord. simpl in Hord.
          assert (m_s = 0) by congruence. lia. }
        destruct (decide (j = s + n)%nat) as [->|Hjn].
        { (* right after the slot that was empty *)
          rewrite metadata_with_mid by lia. rewrite Hgap in Hord. simpl in Hord.
          destruct (Hrun (n - 1)%nat) as (y & Hy & _); [lia|].
          replace (s + (n - 1))%nat with (s + n - 1)%nat in Hy by lia.
          rewrite Hy. simpl. pose proof (Hnonneg _ _ Hy). lia. }
        rewrite metadata_with_gt by lia. done.
Qed.


End Inserted.

(** *** Counting the occupied slots *)

Lemma occupied_app {E} (ms1 : list Z) :
  ∀ (es1 : list E) (ms2 : list Z) (es2 : list E),
    length ms1 = length es1 →
    occupied (ms1 ++ ms2) (es1 ++ es2) = occupied ms1 es1 ++ occupied ms2 es2.
Proof.
  induction ms1 as [|m ms1 IH]; intros [|e es1] ms2 es2 Hlen; simpl in *; try done.
  injection Hlen as Hlen. rewrite IH by done. by destruct (m =? 0).
Qed.

Lemma occupied_all {E} (ms : list Z) :
  ∀ (es : list E), length ms = length es → Forall (λ m, m ≠ 0) ms → occupied ms es = es.
Proof.
  induction ms as [|m ms IH]; intros [|e es] Hlen Hnz; simpl in *; try done.
  apply Forall_cons in Hnz as [Hm%Z.eqb_neq Hnz]. rewrite Hm. f_equal.
  apply IH; [lia|done].
Qed.

Lemma occupied_with_length {E} (ms : list Z) (es : list E) (s n : nat) (pd : Z) (e_new : E) :
  length ms = S (length es) → (s + n < length es)%nat → pd ≠ 0 →
  (∀ j, (j < n)%nat → ∃ m, ms !! (s + j)%nat = Some m ∧ 0 < m) →
  ms !! (s + n)%nat = Some 0 →
  length (occupied (metadata_with ms s n pd) (entries_with es s n e_new))
  = S (length (occupied ms es)).
Proof.
  intros Hlen Hsn Hpd Hrun Hgap.
  destruct (lookup_lt_is_Some_2 es (s + n)) as [e_gap He_gap]; [lia|].
  assert (Hms : ms = take s ms ++ take n (drop s ms) ++ 0 :: drop (S (s + n)) ms).
  { rewrite <- (take_drop s ms) at 1. f_equal.
    rewrite <- (take_drop n (drop s ms)) at 1. f_equal.
    rewrite drop_drop. by apply drop_S. }
  assert (Hes : es = take s es ++ take n (drop s es) ++ e_gap :: drop (S (s + n)) es).
  { rewrite <- (take_drop s es) at 1. f_equal.
    rewrite <- (take_drop n (drop s es)) at 1. f_equal.
    rewrite drop_drop. by apply drop_S. }
  assert (Hrun_nz : Forall (λ m, m ≠ 0) (take n (drop s ms))
                    ∧ Forall (λ m, m ≠ 0) ((λ x, 1 + x) <$> take n (drop s ms))).
  { split; [|apply Forall_fmap]; apply Forall_lookup; intros j x Hx;
      pose proof (lookup_lt_Some _ _ _ Hx) as Hj; rewrite length_take in Hj;
      rewrite lookup_take_lt, lookup_drop in Hx by lia;
      destruct (Hrun j) as (m & Hm & Hm0); try lia;
      assert (x = m) as -> by congruence; simpl; lia. }
  destruct Hrun_nz as [Hnz Hnz'].
  assert (Hl1 : length (take s ms) = length (take s es)) by (rewrite !length_take; lia).
  assert (Hl2 : length (take n (drop s ms)) = length (take n (drop s es)))
    by (rewrite !length_take, !length_drop; lia).
  set (A := occupied (take s ms) (take s es)).
  set (R := occupied (drop (S (s + n)) ms) (drop (S (s + n)) es)).
  assert (Hold : occupied ms es = A ++ take n (drop s es) ++ R).
  { transitivity (occupied (take s ms ++ take n (drop s ms) ++ 0 :: drop (S (s + n)) ms)
                    (take s es ++ take n (drop s es) ++ e_gap :: drop (S (s + n)) es));
      [by rewrite <- Hms, <- Hes|].
    rewrite occupied_app by done. rewrite occupied_app by done.
    rewrite (occupied_all (take n (drop s ms))) by done. done. }
  assert (Hnew : occupied (metadata_with ms s n pd) (entries_with es s n e_new)
                 = A ++ e_new :: take n (drop s es) ++ R).
  { unfold metadata_with, entries_with. rewrite occupied_app by done. f_equal.
    simpl. apply Z.eqb_neq in Hpd. rewrite Hpd. f_equal.
    rewrite occupied_app by (by rewrite length_fmap).
    rewrite (occupied_all ((λ x, 1 + x) <$> take n (drop s ms)));
      [done|by rewrite length_fmap|done]. }
  rewrite Hold, Hnew, !length_app. simpl. rewrite !length_app. lia.
Qed.

Lemma wrap8_small (x : Z) : 0 <= x < 256 → wrap8 x = x.
Proof. intros H. unfold wrap8. by apply Z.mod_small. Qed.

Lemma insert_take_S {A} (l : list A) (i : nat) (x : A) (rest : list A) :
  (i < length l)%nat → <[i := x]> (take (S i) l ++ rest) = take i l ++ x :: rest.
Proof.
  intros Hi. destruct (lookup_lt_is_Some_2 l i Hi) as [y Hy].
  rewrite (take_S_r _ _ _ Hy), <- app_assoc. simpl.
  rewrite insert_app_r_alt by (rewrite length_take; lia).
  rewrite length_take, Nat.min_l, Nat.sub_diag by lia. done.
Qed.

(** What "this is our slot" leaves: the arrays with the run of occupied
    slots from [slot] on moved one slot on, and the probe distance in the
    metadata of [slot]. *)
Lemma reserve_slot_spec {E} (ms : list Z) (es : list E) (slot : nat) (pd : Z)
    (ms1 : list Z) (es1 : list E) (zeroed : bool) :
  reserve_slot ms es slot pd = Ok (ms1, es1, zeroed) →
  length ms = S (length es) → ms !! length es = Some 1 →
  0 <= pd < 256 →
  (∀ t m, ms !! t = Some m → (t < length es)%nat → 0 <= m < 255) →
  ∃ n : nat,
    (slot + n < length es)%nat
    ∧ (∀ j, (j < n)%nat → ∃ m, ms !! (slot + j)%nat = Some m ∧ m ≠ 0)
    ∧ ms !! (slot + n)%nat = Some 0
    ∧ ms1 = metadata_with ms slot n pd
    ∧ (∀ e_new, <[slot := e_new]> es1 = entries_with es slot n e_new)
    ∧ (zeroed = false →
       pd ≠ MVM_HASH_MAX_PROBE_DISTANCE
       ∧ ∀ j m, (j < n)%nat → ms !! (slot + j)%nat = Some m →
           1 + m ≠ MVM_HASH_MAX_PROBE_DISTANCE).
Proof.
  unfold reserve_slot. intros (m & Hm%deref_Ok & H)%bind_Ok Hlen Hsent Hpd Hbytes.
  apply bind_Ok in H as ([[ms0 es0] zeroed0] & Hroom & [= <- <- <-]).
  destruct (m =? 0) eqn:Em.
  - apply Z.eqb_eq in Em as ->. injection Hroom as <- <- <-.
    assert (Hslot : (slot < length es)%nat).
    { pose proof (lookup_lt_Some _ _ _ Hm).
      destruct (decide (slot = length es)) as [->|]; [congruence|lia]. }
    exists 0%nat. rewrite Nat.add_0_r. split_and!; [done|intros j Hj; lia|done| | |].
    + unfold metadata_with. simpl. rewrite Nat.add_0_r, wrap8_small by done.
      apply insert_take_drop. lia.
    + intros e_new. unfold entries_with. simpl. rewrite Nat.add_0_r.
      by apply insert_take_drop.
    + simpl. intros Hz%Z.eqb_neq. split; [done|]. intros j m' Hj. lia.
  - apply Z.eqb_neq in Em.
    apply bind_Ok in Hroom as ([[rest n] z] & Hgap & Hroom).
    destruct (slot + n <? length es)%nat eqn:Hfit; [|done].
    apply Nat.ltb_lt in Hfit. injection Hroom as <- <- <-.
    assert (Hslot : (slot < length es)%nat) by lia.
    apply find_me_a_gap_spec in Hgap as (shifted & -> & Htake & Hnz & -> & Hz).
    assert (Hrun : take (S (length shifted)) (drop slot ms) = m :: shifted).
    { rewrite (drop_S _ _ _ Hm). simpl. f_equal.
      apply (f_equal (take (length shifted))) in Htake.
      rewrite take_take, Nat.min_l in Htake by lia.
      by rewrite take_app_length in Htake. }
    assert (Hgap : ms !! (slot + S (length shifted))%nat = Some 0).
    { apply (f_equal (λ l, l !! length shifted)) in Htake.
      rewrite lookup_take_lt, lookup_drop in Htake by lia.
      rewrite list_lookup_middle in Htake by done.
      rewrite <- Htake. f_equal. lia. }
    assert (Hocc : ∀ j, (j < S (length shifted))%nat →
              ∃ m', ms !! (slot + j)%nat = Some m' ∧ m' ≠ 0
                    ∧ (m :: shifted) !! j = Some m').
    { intros j Hj.
      assert (Hlk : (m :: shifted) !! j = ms !! (slot + j)%nat).
      { rewrite <- Hrun, lookup_take_lt, lookup_drop by lia. done. }
      destruct ((m :: shifted) !! j) as [m'|] eqn:Hm'.
      2:{ apply lookup_ge_None in Hm'. simpl in Hm'. lia. }
      exists m'. split; [done|]. split; [|done].
      destruct j as [|j]; simpl in Hm'; [congruence|].
      by eapply (Forall_lookup_1 _ _ _ _ Hnz Hm'). }
    assert (Hw : (λ x, wrap8 (1 + x)) <$> (m :: shifted) = (λ x, 1 + x) <$> (m :: shifted)).
    { apply list_eq. intros j. rewrite !list_lookup_fmap.
      destruct ((m :: shifted) !! j) as [x|] eqn:Hx; [|done]. simpl. f_equal.
      assert (j < S (length shifted))%nat as Hj by (apply lookup_lt_Some in Hx; simpl in Hx; lia).
      destruct (Hocc j Hj) as (m' & Hm' & _ & Hx').
      assert (x = m') as -> by congruence.
      apply wrap8_small. specialize (Hbytes _ _ Hm'). lia. }
    exists (S (length shifted)). split_and!; [done| |done| | |].
    + intros j Hj. destruct (Hocc j Hj) as (m' & ? & ? & _). eauto.
    + unfold metadata_with. rewrite Hw, Hrun, wrap8_small by done.
      rewrite drop_drop.
      replace (S slot + S (length shifted))%nat with (S (slot + S (length shifted))) by lia.
      apply insert_take_S. lia.
    + intros e_new. unfold entries_with. by apply insert_take_S.
    + intros [Hz1 Hz2%Z.eqb_neq]%orb_false_iff. split.
      * done.
      * intros j m' Hj Hm'. destruct (Hocc j Hj) as (m'' & Hm'' & _ & Hx).
        assert (m'' = m') as -> by congruence.
        specialize (Hz Hz1). pose proof (Forall_lookup_1 _ _ _ _ Hz Hx) as Hne.
        simpl in Hne. rewrite wrap8_small in Hne; [done|].
        specialize (Hbytes _ _ Hm'). lia.
Qed.

End InsertFacts.

Module PtrInsert.
Import RobinHood RobinHoodSpec RobinHoodFacts PtrHash PtrHashSpec PtrHashFacts ProbeMore SlotFacts InsertFacts.


End PtrInsert.

Module UniInsert.
Import RobinHood RobinHoodSpec RobinHoodFacts UniHash UniHashReadings SlotFacts InsertFacts UniFsck.

Section WithEnv.
Variable asserts : bool.
Variable code : string → Z.
Variable MVM_round_up_log_base2 : Z → Z.

(** X17: an insert keeps the self-check clean.  On a table below capacity
    that passes [MVM_uni_hash_fsck] without an error, with arrays of the
    allocated lengths, metadata bytes below 255 and fewer than [2^32 - 1]
    items, an [MVM_uni_hash_insert] that returns leaves a table that
    passes it without an error again; an occupied slot holds the key with
    its hash value and the value; and either the metadata bytes are still
    below 255 or [max_items] is now 0, so that the next insert grows the
    table. *)
Theorem insert_keeps_fsck_clean (control control' : MVMUniHashTableControl)
    (key' : string) (value' mode : Z) :
  allocated control →
  MVM_uni_hash_fsck (Some control) mode = Ok 0 →
  Forall (λ m, m < MVM_HASH_MAX_PROBE_DISTANCE) (metadata control) →
  cur_items control < max_items control →
  cur_items control + 1 < 2 ^ 32 →
  MVM_uni_hash_insert asserts code MVM_round_up_log_base2 (Some control) key' value'
  = Ok control' →
  MVM_uni_hash_fsck (Some control') mode = Ok 0
  ∧ allocated control'
  ∧ (∃ s d, metadata control' !! s = Some d ∧ d ≠ 0
            ∧ entries control' !! s
              = Some (mkEntry (Some (Str key')) (Some (wrap32 (code key'))) (Some value')))
  ∧ (max_items control' = max_items control
     ∧ Forall (λ m, m < MVM_HASH_MAX_PROBE_DISTANCE) (metadata control')
     ∨ max_items control' = 0).
Proof.
  intros Ha Hfsck Hbytes Hcap Hroom Hrun.
  pose proof Hfsck as [Hok Hc]%(fsck_zero_iff control mode Ha).
  pose proof Hok as (Hlen & Hsent & Hall)%probe_distances_ok_pointwise.
  assert (Hbytes' : ∀ t m, metadata control !! t = Some m →
            (t < length (entries control))%nat → 0 <= m < 255).
  { intros t m Hm Ht. pose proof (Forall_lookup_1 _ _ _ _ Hbytes Hm) as Hlt.
    unfold MVM_HASH_MAX_PROBE_DISTANCE in Hlt. split; [|done].
    destruct (lookup_lt_is_Some_2 (entries control) t Ht) as [e He].
    destruct (decide (m = 0)) as [->|Hm0]; [done|].
    destruct (Hall t m e Hm He Hm0) as (_ & _ & _ & ? & _). lia. }
  assert (Hcap' : (cur_items control >=? max_items control) = false).
  { rewrite Z.geb_leb. apply Z.leb_gt. lia. }
  unfold MVM_uni_hash_insert, MVM_uni_hash_lvalue_fetch in Hrun. rewrite Hcap' in Hrun.
  apply bind_Ok in Hrun as ([control1 slot] & Hlv & Hrun).
  apply bind_Ok in Hlv as ([c0 slot0] & Hint & Hlv).
  unfold hash_insert_internal in Hint. rewrite Hcap' in Hint.
  set (h := wrap32 (code key')) in *.
  set (bucket := bucket_of (key_right_shift control) h) in *.
  apply bind_Ok in Hint as (p & Hprobe & Hint).
  apply insert_probe_spec in Hprobe as (n0 & Hpass & Hp).
  destruct p as [slot1 pd|slot1].
  2:{ (* the key is in the table *)
      destruct Hp as (-> & Hm & e & He & Hhit). rewrite lookup_drop in Hm.
      injection Hint as <- <-. rewrite He in Hlv. simpl in Hlv.
      unfold key_hit in Hhit.
      destruct (hash_val e) as [he|] eqn:Hhe; [|done]. simpl in Hhit.
      destruct (he =? h) eqn:Eh; [|done]. apply Z.eqb_eq in Eh as ->.
      destruct (UniHash.key e) as [[|s]|] eqn:Hke; try done. simpl in Hhit, Hlv.
      injection Hhit as Hs%bool_decide_eq_true. subst s.
      injection Hlv as <- <-. rewrite He in Hrun. simpl in Hrun.
      rewrite Hke in Hrun. simpl in Hrun.
      apply bind_Ok in Hrun as (stored & Hv%deref_Ok & Hrun).
      destruct (negb (value' =? stored)) eqn:Ev; [done|]. injection Hrun as <-.
      apply negb_false_iff, Z.eqb_eq in Ev as ->.
      split_and!; [done|done| |by left].
      exists (bucket + n0)%nat, (1 + Z.of_nat n0). split_and!; [done|lia|].
      rewrite He. f_equal. destruct e. simpl in *. congruence. }
  destruct Hp as (-> & -> & m_s & Hm_s & Hm_s_lt). rewrite lookup_drop in Hm_s.
  apply bind_Ok in Hint as ([[ms1 es1] zeroed] & Hres & Hint).
  apply bind_Ok in Hint as (e0 & He0%deref_Ok & [= <- <-]).
  assert (Hpd : 0 <= 1 + Z.of_nat n0 < 256).
  { split; [lia|]. destruct n0 as [|n1]; [lia|].
    destruct (Hpass n1) as (m & Hm & Hle); [lia|]. rewrite lookup_drop in Hm.
    assert (bucket + n1 < length (entries control))%nat as Hlt.
    { apply lookup_lt_Some in Hm_s. lia. }
    specialize (Hbytes' _ _ Hm Hlt). lia. }
  destruct (reserve_slot_spec _ _ _ _ _ _ _ Hres Hlen Hsent Hpd Hbytes')
    as (n & Hsn & Hocc & Hgap & -> & Hes1 & Hz).
  assert (Hslot1 : (bucket + n0 < length es1)%nat) by (by eapply lookup_lt_Some).
  simpl in Hlv. rewrite list_lookup_insert_eq in Hlv by done. simpl in Hlv.
  injection Hlv as <- <-.
  simpl in Hrun. rewrite list_lookup_insert_eq in Hrun
    by (by rewrite length_insert). simpl in Hrun.
  injection Hrun as <-.
  rewrite !list_insert_insert_eq, Hes1.
  set (slot := (bucket + n0)%nat) in *.
  set (e_new := mkEntry (Some (Str key')) (Some h) (Some value')).
  set (ms' := metadata_with (metadata control) slot n (1 + Z.of_nat n0)).
  set (es' := entries_with (entries control) slot n e_new).
  assert (Hpd' : 1 + Z.of_nat n0 = 1 + Z.of_nat slot - Z.of_nat bucket ∧ (bucket <= slot)%nat)
    by (unfold slot; lia).
  assert (Hshort : ∃ m, metadata control !! slot = Some m ∧ m < 1 + Z.of_nat n0) by eauto.
  assert (Hpass' : ∀ t, (bucket <= t < slot)%nat →
            ∃ m, metadata control !! t = Some m ∧ 1 + Z.of_nat t - Z.of_nat bucket <= m).
  { intros t Ht. destruct (Hpass (t - bucket)%nat) as (m & Hm & Hle); [unfold slot in Ht; lia|].
    rewrite lookup_drop in Hm. replace (bucket + (t - bucket))%nat with t in Hm by lia.
    exists m. split; [done|lia]. }
  assert (Hnew : hashed_bucket (key_right_shift control) e_new = Some bucket) by done.
  pose proof (metadata_with_at _ _ slot n (1 + Z.of_nat n0) Hlen Hsn) as Hmat.
  pose proof (entries_with_at _ _ slot n e_new Hlen Hsn) as Heat.
  set (c' := mkControl (wrap32 (cur_items control + 1))
               (if zeroed then 0 else max_items control)
               (official_size control) (key_right_shift control)
               (probe_overflow_size control) ms' es').
  assert (Ha' : allocated c').
  { destruct Ha as [Ha1 Ha2]. unfold allocated, c', ms', es'. simpl.
    rewrite (length_metadata_with _ _ _ _ _ Hlen Hsn).
    rewrite (length_entries_with _ _ _ _ e_new Hlen Hsn). done. }
  assert (Hocc' : ∀ j, (j < n)%nat →
             ∃ m, metadata control !! (slot + j)%nat = Some m ∧ 0 < m).
  { intros j Hj. destruct (Hocc j Hj) as (m & Hm & Hm0). exists m. split; [done|].
    assert (0 <= m < 255); [|lia]. eapply Hbytes'; [done|lia]. }
  split_and!; [|exact Ha'| |].
  - apply (fsck_zero_iff c' mode Ha'). split.
    + apply (probe_distances_ok_with _ _ _ _ _ _ Hlen Hsn _ bucket Hok Hnew Hpd' Hshort
               Hpass' Hocc Hgap).
    + unfold counted, c'. simpl. unfold ms', es'.
      rewrite (occupied_with_length _ _ _ _ _ _ Hlen Hsn) by (done || lia).
      unfold counted in Hc. unfold wrap32. rewrite Z.mod_small by lia. lia.
  - exists slot, (1 + Z.of_nat n0). simpl. split_and!; [done|lia|done].
  - simpl. destruct zeroed; [by right|left]. split; [done|].
    destruct (Hz eq_refl) as [Hz1 Hz2]. unfold ms', metadata_with.
    unfold MVM_HASH_MAX_PROBE_DISTANCE in *.
    apply Forall_app. split; [by apply Forall_take|].
    apply Forall_cons. split; [lia|].
    apply Forall_app. split; [|by apply Forall_drop].
    apply Forall_fmap, Forall_lookup. intros j x Hx. simpl.
    pose proof (lookup_lt_Some _ _ _ Hx) as Hj. rewrite length_take in Hj.
    rewrite lookup_take_lt, lookup_drop in Hx by lia.
    assert (1 + x ≠ 255) by (eapply Hz2; [|done]; lia).
    assert (0 <= x < 255); [|lia]. eapply Hbytes'; [done|lia].
Qed.

End WithEnv.
End UniInsert.

Module ProbeMiss.
Import RobinHood RobinHoodSpec RobinHoodFacts.

Section Probe.
Context {E : Type}.
Variable asserts : bool.
Variables official_size max_items : Z.
Variable hit : E → outcome bool.

(** The metadata of a table end with the sentinel. *)
Lemma probe_distances_ok_sentinel (ideal : E → option nat) (es : list E) :
  ∀ (ms : list Z) (slot : nat) (prev : Z),
    probe_distances_ok ideal ms es slot prev = true → ms !! length es = Some 1.
Proof.
  induction es as [|e es IH]; intros ms slot prev; destruct ms as [|m ms]; simpl; try done.
  - destruct ms; [|done]. by intros ->%Z.eqb_eq.
  - intros [_ H]%andb_true_iff. by eapply IH.
Qed.

(** The sentinel ends the probe for a key that no occupied slot holds: the
    probe reads no entry of an empty slot and no slot after the sentinel. *)
Lemma fetch_probe_misses (ms : list Z) (es : list E) :
  length ms = S (length es) → ms !! length es = Some 1 →
  (∀ s m e, ms !! s = Some m → m ≠ 0 → es !! s = Some e → hit e = Ok false) →
  ∀ (k s : nat) (pd : Z),
    (s + k = length es)%nat → 1 <= pd → (k = 0%nat → 1 < pd) →
    fetch_probe asserts official_size max_items hit es (drop s ms) s pd = Ok None
    ∨ (asserts = true
       ∧ fetch_probe asserts official_size max_items hit es (drop s ms) s pd = Abort).
Proof.
  intros Hlen Hlast Hmiss. induction k as [|k IH]; intros s pd Hs Hpd Hk.
  - rewrite Nat.add_0_r in Hs. subst s. rewrite (drop_S _ _ _ Hlast).
    cbn [fetch_probe].
    assert ((1 =? pd) = false) as -> by (apply Z.eqb_neq; lia). cbn [mbind outcome_bind].
    assert ((1 <? pd) = true) as -> by (apply Z.ltb_lt; lia). by left.
  - destruct (lookup_lt_is_Some_2 ms s) as [m Hm]; [lia|].
    destruct (lookup_lt_is_Some_2 es s) as [e He]; [lia|].
    rewrite (drop_S _ _ _ Hm). cbn [fetch_probe].
    assert (Hfound : (if m =? pd then entry ← deref (es !! s); hit entry
                      else Ok false) = Ok false).
    { destruct (m =? pd) eqn:Em; [|done]. apply Z.eqb_eq in Em.
      rewrite He. simpl. eapply Hmiss; [done|lia|done]. }
    rewrite Hfound. cbn [mbind outcome_bind].
    destruct (m <? pd); [by left|].
    destruct (asserts && _) eqn:Ea.
    + right. by apply andb_true_iff in Ea as [-> _].
    + apply IH; lia.
Qed.

End Probe.
End ProbeMiss.

Module PtrMiss.
Import RobinHood RobinHoodSpec RobinHoodFacts PtrHash PtrHashSpec PtrHashFacts ProbeMiss.

(** X23: a key that is not stored.  On a table that satisfies the
    invariants, for a key whose bucket is a slot of the table and that no
    occupied slot holds, [MVM_ptr_hash_fetch] returns [NULL] and
    [MVM_ptr_hash_fetch_and_delete] returns 0 and leaves the table as it
    is; the probe ends at the sentinel at the latest, and reads no entry of
    an empty slot.  In a build with assertions an [assert] may stop both
    probes instead. *)
Theorem ptr_missing_key (asserts : bool) (control : MVMPtrHashTableControl) (k : Z) :
  wf control →
  (bucket_of (key_right_shift control) k < length (entries control))%nat →
  (∀ s v, ¬ stored control s k v) →
  (MVM_ptr_hash_fetch asserts (Some control) k = Ok None
   ∧ MVM_ptr_hash_fetch_and_delete asserts (Some control) k = Ok (Some control, 0))
  ∨ (asserts = true
     ∧ MVM_ptr_hash_fetch asserts (Some control) k = Abort
     ∧ MVM_ptr_hash_fetch_and_delete asserts (Some control) k = Abort).
Proof.
  intros [Hok Hnd] Hb Hno.
  pose proof (probe_distances_ok_length _ _ _ _ _ Hok) as Hlen.
  pose proof (probe_distances_ok_sentinel _ _ _ _ _ Hok) as Hlast.
  assert (Hmiss : ∀ s m e, metadata control !! s = Some m → m ≠ 0 →
                    entries control !! s = Some e → key_hit k e = Ok false).
  { intros s m e Hm Hne He.
    destruct (probe_distances_ok_lookup _ _ _ _ _ _ _ _ Hok Hm He Hne) as (b & Hb' & _).
    unfold ideal in Hb'. unfold key_hit.
    destruct (key e) as [k'|] eqn:Hk; [|done]. simpl. f_equal.
    apply Z.eqb_neq. intros ->. apply (Hno s (value e)). by exists m, e. }
  destruct (fetch_probe_misses asserts (official_size control) (max_items control)
              (key_hit k) _ _ Hlen Hlast Hmiss
              (length (entries control) - bucket_of (key_right_shift control) k)
              (bucket_of (key_right_shift control) k) 1) as [H|[Ha H]]; try lia.
  - left. unfold MVM_ptr_hash_fetch, MVM_ptr_hash_fetch_and_delete. by rewrite H.
  - right. unfold MVM_ptr_hash_fetch, MVM_ptr_hash_fetch_and_delete. by rewrite H.
Qed.

End PtrMiss.

Module HashMoreWitnesses.
Import RobinHood RobinHoodSpec RobinHoodFacts HashExamples HashMoreExamples UniHashReadings.

Ltac evaluated := vm_compute; reflexivity.
Ltac decided := apply (bool_decide_unpack _); vm_compute; exact I.

Lemma small_ptr_is_wf : PtrHash.wf small_ptr.
Proof. split; [evaluated | decided]. Qed.

Lemma small_ptr_stores_16 : PtrHashSpec.stored small_ptr 10 16 (Some 2).
Proof.
  exists 4, (PtrHash.mkEntry (Some 16) (Some 2)).
  split_and!; [evaluated | lia | evaluated | reflexivity | reflexivity].
Qed.

Lemma small_ptr_asserts_hold : PtrHashSpec.asserts_hold small_ptr 10.
Proof. exists 4. split; [evaluated|]. split_and!; vm_compute; done. Qed.

Lemma small_ptr_bytes :
  Forall (λ m, m <= MVM_HASH_MAX_PROBE_DISTANCE) (PtrHash.metadata small_ptr).
Proof. decided. Qed.

Lemma half_ptr_is_wf : PtrHash.wf half_ptr.
Proof. split; [evaluated | decided]. Qed.


Lemma half_ptr_without_32 : ∀ s w, ¬ PtrHashSpec.stored half_ptr s 32 w.
Proof. apply (PtrHashFacts.ptr_fetch_miss_absent true); [exact half_ptr_is_wf | evaluated]. Qed.

Lemma small_uni_allocated : allocated small_uni.
Proof. split; evaluated. Qed.

Lemma half_uni_allocated : allocated half_uni.
Proof. split; evaluated. Qed.

Lemma half_uni_bytes :
  Forall (λ m, m < MVM_HASH_MAX_PROBE_DISTANCE) (UniHash.metadata half_uni).
Proof. decided. Qed.

Lemma ptr_fetch_decides_witness :
  PtrHash.wf small_ptr
  ∧ (∀ s, PtrHash.MVM_ptr_hash_fetch true (Some small_ptr) 16 = Ok (Some s) →
          ∃ v, PtrHashSpec.stored small_ptr s 16 v)
  ∧ (PtrHash.MVM_ptr_hash_fetch true (Some small_ptr) 16 = Ok None →
     ∀ s v, ¬ PtrHashSpec.stored small_ptr s 16 v).
Proof.
  split; [exact small_ptr_is_wf|].
  apply (PtrHashMore.ptr_fetch_decides true small_ptr 16 small_ptr_is_wf).
Defined.

Lemma ptr_hash_code_is_a_bijection_witness :
  (0 <= 8 < 2 ^ 64 ∧ 0 <= 16 < 2 ^ 64)
  ∧ (PtrHash.MVM_ptr_hash_code 8 = PtrHash.MVM_ptr_hash_code 16 → 8 = 16)
  ∧ PtrHash.MVM_ptr_hash_code (key_for 8) = 8
  ∧ 0 <= key_for 8 < 2 ^ 64.
Proof.
  assert (H8 : 0 <= 8 < 2 ^ 64) by lia.
  assert (H16 : 0 <= 16 < 2 ^ 64) by lia.
  split; [by split|].
  apply (PtrHashMore.ptr_hash_code_is_a_bijection 8 16 H8 H16).
Defined.

Lemma fsck_checks_the_invariants_witness :
  allocated small_uni
  ∧ (UniHash.uni_hash_fsck_internal (Some small_uni) 0 = Ok 0 ↔
     probe_distances_ok (hashed_bucket (UniHash.key_right_shift small_uni))
       (UniHash.metadata small_uni) (UniHash.entries small_uni) 0 0 = true
     ∧ counted small_uni)
  ∧ (UniHash.wf cluster_code small_uni → counted small_uni →
     UniHash.MVM_uni_hash_fsck (Some small_uni) 0 = Ok 0).
Proof.
  split; [exact small_uni_allocated|].
  apply (UniFsck.fsck_checks_the_invariants cluster_code small_uni 0 small_uni_allocated).
Defined.

Lemma built_table_passes_fsck_witness :
  UniHash.MVM_uni_hash_build Z.log2_up 6 = Ok (built 6)
  ∧ UniHash.MVM_uni_hash_fsck (Some (built 6)) 0 = Ok 0
  ∧ UniHash.wf cluster_code (built 6) ∧ counted (built 6) ∧ allocated (built 6).
Proof.
  assert (Hrun : UniHash.MVM_uni_hash_build Z.log2_up 6 = Ok (built 6)) by evaluated.
  split; [exact Hrun|].
  apply (UniFsck.built_table_passes_fsck cluster_code Z.log2_up 6 0 (built 6) Hrun).
Defined.

Lemma delete_of_a_stored_key_witness :
  (PtrHash.wf small_ptr
   ∧ Forall (λ m, m <= MVM_HASH_MAX_PROBE_DISTANCE) (PtrHash.metadata small_ptr)
   ∧ PtrHashSpec.stored small_ptr 10 16 (Some 2)
   ∧ PtrHashSpec.asserts_hold small_ptr 10)
  ∧ ∃ control',
      PtrHash.MVM_ptr_hash_fetch_and_delete true (Some small_ptr) 16 = Ok (Some control', 2)
      ∧ PtrHash.wf control'
      ∧ Forall (λ m, m <= MVM_HASH_MAX_PROBE_DISTANCE) (PtrHash.metadata control')
      ∧ PtrHash.cur_items control' = wrap32 (PtrHash.cur_items small_ptr - 1)
      ∧ (∀ k' v', (∃ s', PtrHashSpec.stored control' s' k' v')
                  ↔ k' ≠ 16 ∧ ∃ s', PtrHashSpec.stored small_ptr s' k' v')
      ∧ (∀ s', PtrHash.MVM_ptr_hash_fetch true (Some control') 16 ≠ Ok (Some s')).
Proof.
  split; [split_and!; [exact small_ptr_is_wf | exact small_ptr_bytes
                      | exact small_ptr_stores_16 | exact small_ptr_asserts_hold]|].
  apply (PtrDelete.delete_of_a_stored_key true small_ptr 10 16 2 small_ptr_is_wf
           small_ptr_bytes small_ptr_stores_16 (λ _, small_ptr_asserts_hold)).
Defined.


Lemma insert_keeps_fsck_clean_witness :
  (allocated half_uni
   ∧ UniHash.MVM_uni_hash_fsck (Some half_uni) 0 = Ok 0
   ∧ Forall (λ m, m < MVM_HASH_MAX_PROBE_DISTANCE) (UniHash.metadata half_uni)
   ∧ UniHash.cur_items half_uni < UniHash.max_items half_uni
   ∧ UniHash.cur_items half_uni + 1 < 2 ^ 32
   ∧ UniHash.MVM_uni_hash_insert true cluster_code Z.log2_up (Some half_uni) (name 3) 3
     = Ok half_uni_more)
  ∧ UniHash.MVM_uni_hash_fsck (Some half_uni_more) 0 = Ok 0
  ∧ allocated half_uni_more
  ∧ (∃ s d, UniHash.metadata half_uni_more !! s = Some d ∧ d ≠ 0
            ∧ UniHash.entries half_uni_more !! s
              = Some (UniHash.mkEntry (Some (UniHash.Str (name 3)))
                        (Some (wrap32 (cluster_code (name 3)))) (Some 3)))
  ∧ (UniHash.max_items half_uni_more = UniHash.max_items half_uni
     ∧ Forall (λ m, m < MVM_HASH_MAX_PROBE_DISTANCE) (UniHash.metadata half_uni_more)
     ∨ UniHash.max_items half_uni_more = 0).
Proof.
  assert (Hfsck : UniHash.MVM_uni_hash_fsck (Some half_uni) 0 = Ok 0) by evaluated.
  assert (Hcap : UniHash.cur_items half_uni < UniHash.max_items half_uni) by evaluated.
  assert (Hroom : UniHash.cur_items half_uni + 1 < 2 ^ 32) by evaluated.
  assert (Hrun : UniHash.MVM_uni_hash_insert true cluster_code Z.log2_up (Some half_uni)
                   (name 3) 3 = Ok half_uni_more) by evaluated.
  split; [split_and!; [exact half_uni_allocated | exact Hfsck | exact half_uni_bytes
                      | exact Hcap | exact Hroom | exact Hrun]|].
  apply (UniInsert.insert_keeps_fsck_clean true cluster_code Z.log2_up half_uni half_uni_more
           (name 3) 3 0 half_uni_allocated Hfsck half_uni_bytes Hcap Hroom Hrun).
Defined.

Lemma ptr_missing_key_witness :
  (PtrHash.wf half_ptr
   ∧ (PtrHash.bucket_of (PtrHash.key_right_shift half_ptr) 32
      < length (PtrHash.entries half_ptr))%nat
   ∧ (∀ s v, ¬ PtrHashSpec.stored half_ptr s 32 v))
  ∧ ((PtrHash.MVM_ptr_hash_fetch true (Some half_ptr) 32 = Ok None
      ∧ PtrHash.MVM_ptr_hash_fetch_and_delete true (Some half_ptr) 32
        = Ok (Some half_ptr, 0))
     ∨ (true = true
        ∧ PtrHash.MVM_ptr_hash_fetch true (Some half_ptr) 32 = Abort
        ∧ PtrHash.MVM_ptr_hash_fetch_and_delete true (Some half_ptr) 32 = Abort)).
Proof.
  assert (Hb : (PtrHash.bucket_of (PtrHash.key_right_shift half_ptr) 32
                < length (PtrHash.entries half_ptr))%nat) by (vm_compute; lia).
  split; [split_and!; [exact half_ptr_is_wf | exact Hb | exact half_ptr_without_32]|].
  apply (PtrMiss.ptr_missing_key true half_ptr 32 half_ptr_is_wf Hb half_ptr_without_32).
Defined.

End HashMoreWitnesses.
